(** * A shallow embedding of the TDX formula engine

    The development follows the TypeScript sources file by file:
    [token.ts], [lexer.ts], [ast.ts], [parser.ts], [data.ts],
    [function-registry.ts] and [evaluator.ts].

    Conventions.
    - A JavaScript [number] is an IEEE-754 double.  It is idealised here as
      an extended rational: exact finite values, the two infinities and NaN.
      Rounding, overflow and the sign of zero are abstracted away; every
      finite result is kept in lowest terms so that Leibniz equality is the
      equality of numbers.
    - An element of a series is [null], a number, or -- when the code reads
      an array outside its bounds or at a fractional index -- [undefined].
    - Code that throws returns [Throw e]; loops whose termination depends on
      arithmetic carry a fuel argument and return [OutOfFuel] when it is
      exhausted. *)

From Stdlib Require Import QArith Qreduction ZArith List Bool Lia Lqa.
From Stdlib Require Import Ascii String DecimalString.
From stdpp Require Import gmap strings.

Import ListNotations.
Local Open Scope list_scope.

(** ** Results of possibly failing computations *)

Inductive res (E A : Type) : Type :=
| Ok (a : A)
| Throw (e : E)
| OutOfFuel.

Arguments Ok {E A} a.
Arguments Throw {E A} e.
Arguments OutOfFuel {E A}.

Definition bind {E A B} (m : res E A) (k : A -> res E B) : res E B :=
  match m with
  | Ok a => k a
  | Throw e => Throw e
  | OutOfFuel => OutOfFuel
  end.

Notation "'do' x <- m ; k" := (bind m (fun x => k))
  (at level 10, x pattern, m at level 100, k at level 200).

Definition is_Throw {E A} (m : res E A) : Prop :=
  match m with Throw _ => True | _ => False end.

Definition is_Ok {E A} (m : res E A) : Prop :=
  match m with Ok _ => True | _ => False end.

(** ** JavaScript numbers *)

Inductive number : Type :=
| Fin (q : Q)
| PInf
| NInf
| NaN.

Definition of_Z (z : Z) : number := Fin (inject_Z z).
Definition of_nat (n : nat) : number := of_Z (Z.of_nat n).

Definition zero : number := of_Z 0.
Definition one : number := of_Z 1.

Definition Qsign (q : Q) : comparison := (Qnum q ?= 0)%Z.

Definition js_neg (x : number) : number :=
  match x with
  | Fin q => Fin (Qred (- q)%Q)
  | PInf => NInf
  | NInf => PInf
  | NaN => NaN
  end.

Definition js_add (x y : number) : number :=
  match x, y with
  | NaN, _ | _, NaN => NaN
  | Fin a, Fin b => Fin (Qred (a + b)%Q)
  | PInf, NInf | NInf, PInf => NaN
  | PInf, _ | _, PInf => PInf
  | NInf, _ | _, NInf => NInf
  end.

Definition js_sub (x y : number) : number := js_add x (js_neg y).

(** An infinity scaled by a finite factor. *)
Definition scale_inf (positive : bool) (q : Q) : number :=
  match Qsign q with
  | Eq => NaN
  | Gt => if positive then PInf else NInf
  | Lt => if positive then NInf else PInf
  end.

Definition js_mul (x y : number) : number :=
  match x, y with
  | NaN, _ | _, NaN => NaN
  | Fin a, Fin b => Fin (Qred (a * b)%Q)
  | PInf, Fin q | Fin q, PInf => scale_inf true q
  | NInf, Fin q | Fin q, NInf => scale_inf false q
  | PInf, PInf | NInf, NInf => PInf
  | PInf, NInf | NInf, PInf => NInf
  end.

Definition js_div (x y : number) : number :=
  match x, y with
  | NaN, _ | _, NaN => NaN
  | Fin a, Fin b =>
      match Qsign b with
      | Eq => scale_inf true a
      | _ => Fin (Qred (a / b)%Q)
      end
  | Fin _, _ => zero
  | PInf, Fin q => match Qsign q with Lt => NInf | _ => PInf end
  | NInf, Fin q => match Qsign q with Lt => PInf | _ => NInf end
  | _, _ => NaN
  end.

(** [x < y]; every comparison with NaN is false. *)
Definition js_lt (x y : number) : bool :=
  match x, y with
  | NaN, _ | _, NaN => false
  | Fin a, Fin b => match (a ?= b)%Q with Lt => true | _ => false end
  | NInf, NInf | PInf, _ | _, NInf => false
  | _, _ => true
  end.

(** [x === y] on numbers. *)
Definition js_eq (x y : number) : bool :=
  match x, y with
  | Fin a, Fin b => Qeq_bool a b
  | PInf, PInf | NInf, NInf => true
  | _, _ => false
  end.

Definition js_le (x y : number) : bool := js_lt x y || js_eq x y.
Definition js_gt (x y : number) : bool := js_lt y x.
Definition js_ge (x y : number) : bool := js_le y x.

Definition is_infinite (x : number) : bool :=
  match x with PInf | NInf => true | _ => false end.

(** ** Series elements *)

Inductive value : Type :=
| Null
| Undefined
| Num (x : number).

Definition series : Type := list value.

(** [v === null] *)
Definition is_null (v : value) : bool :=
  match v with Null => true | _ => false end.

(** The numeric coercion applied by arithmetic and relational operators. *)
Definition toNumber (v : value) : number :=
  match v with
  | Null => zero
  | Undefined => NaN
  | Num x => x
  end.

(** [v === w]: no coercion. *)
Definition strict_eq (v w : value) : bool :=
  match v, w with
  | Null, Null | Undefined, Undefined => true
  | Num x, Num y => js_eq x y
  | _, _ => false
  end.

(** [data[i]] for an integer index. *)
Definition at_index (data : series) (i : nat) : value := nth i data Undefined.

(** [data[j]] for a numeric index: only a non-negative whole number within
    bounds names an element. *)
Definition get (data : series) (j : number) : value :=
  match j with
  | Fin q =>
      let r := Qred q in
      if (Qden r =? 1)%positive && (0 <=? Qnum r)%Z
      then at_index data (Z.to_nat (Qnum r))
      else Undefined
  | _ => Undefined
  end.

(** [Array.prototype.map] with the element and its index. *)
Fixpoint mapi_from {A B} (f : A -> nat -> B) (i : nat) (l : list A) : list B :=
  match l with
  | [] => []
  | x :: l' => f x i :: mapi_from f (S i) l'
  end.

Definition mapi {A B} (f : A -> nat -> B) (l : list A) : list B := mapi_from f 0 l.

(** A [for (let i = 0; i < n; i++) result.push(body i)] loop whose body
    may fail. *)
Fixpoint push_loop {E A} (body : nat -> res E A) (i n : nat) : res E (list A) :=
  match n with
  | O => Ok []
  | S n' => do x <- body i; do xs <- push_loop body (S i) n'; Ok (x :: xs)
  end.

(** ** function-registry.ts *)

Inductive EvalError : Type :=
| UndefinedVariable (name : string)
| UnknownFunction (name : string)
| BinaryLengthMismatch
| FunctionLengthMismatch (name : string)
| MissingNumericArgument
| NullNumericArgument
| RefNegativeOffset
| TypeError.

Definition FunctionType : Type := list series -> res EvalError series.

(** [getNumberArg]: the scalar carried by the first element of an argument
    series.  The argument itself is [undefined] when the call has too few
    arguments, and reading its [length] is then a [TypeError].  A first
    element that is not [null] is returned as it is; every use of it is
    arithmetic, so it is returned already coerced. *)
Definition getNumberArg (argValues : option series) : res EvalError number :=
  match argValues with
  | None => Throw TypeError
  | Some [] => Throw MissingNumericArgument
  | Some (firstValue :: _) =>
      if is_null firstValue then Throw NullNumericArgument
      else Ok (toNumber firstValue)
  end.

(** The destructuring [const [a, b] = args]. *)
Definition arg (args : list series) (k : nat) : option series := nth_error args k.

(** The inner loop of [MA]:
    [for (let j = start; j <= i; j++) if (data[j] !== null) { sum += data[j]; count++ }]. *)
Fixpoint MA_window (fuel : nat) (data : series) (i : nat) (j : number)
    (sum : number) (count : nat) : res EvalError (number * nat) :=
  match fuel with
  | O => OutOfFuel
  | S fuel' =>
      if js_le j (of_nat i) then
        if is_null (get data j)
        then MA_window fuel' data i (js_add j one) sum count
        else MA_window fuel' data i (js_add j one)
               (js_add sum (toNumber (get data j))) (S count)
      else Ok (sum, count)
  end.

Definition MA_at (data : series) (period : number) (i : nat) : res EvalError value :=
  if js_lt (of_nat i) (js_sub period one) then Ok Null
  else
    do (sum, count) <-
      MA_window (S (S i)) data i (js_add (js_sub (of_nat i) period) one) zero 0;
    Ok (if (0 <? count)%nat then Num (js_div sum (of_nat count)) else Null).

Definition MA : FunctionType := fun args =>
  do period <- getNumberArg (arg args 1);
  match arg args 0 with
  | None => Throw TypeError
  | Some data => push_loop (MA_at data period) 0 (length data)
  end.

Definition REF : FunctionType := fun args =>
  do offset <- getNumberArg (arg args 1);
  if js_lt offset zero then Throw RefNegativeOffset
  else
    match arg args 0 with
    | None => Throw TypeError
    | Some data =>
        Ok (mapi (fun _ i =>
                    let refIndex := js_sub (of_nat i) offset in
                    if js_ge refIndex zero then get data refIndex else Null)
                 data)
    end.

Definition CROSS_at (a : series) (b : option series) (i : nat) : res EvalError value :=
  if (i =? 0)%nat || is_null (at_index a i) then Ok (Num zero)
  else
    match b with
    | None => Throw TypeError
    | Some b =>
        if is_null (at_index b i)
           || is_null (at_index a (i - 1)) || is_null (at_index b (i - 1))
        then Ok (Num zero)
        else
          let cross :=
            js_lt (toNumber (at_index a (i - 1))) (toNumber (at_index b (i - 1)))
            && js_gt (toNumber (at_index a i)) (toNumber (at_index b i)) in
          Ok (Num (if cross then one else zero))
    end.

Definition CROSS : FunctionType := fun args =>
  match arg args 0 with
  | None => Throw TypeError
  | Some a => push_loop (CROSS_at a (arg args 1)) 0 (length a)
  end.

(** The registry interface as the evaluator uses it, and the default
    implementation: a map from upper-case names to implementations. *)
Record FunctionRegistry : Type := { getFunction : string -> option FunctionType }.

Definition upper_char (c : ascii) : ascii :=
  let n := nat_of_ascii c in
  if ((97 <=? n) && (n <=? 122))%nat then ascii_of_nat (n - 32) else c.

Fixpoint toUpperCase (s : string) : string :=
  match s with
  | EmptyString => EmptyString
  | String c s' => String (upper_char c) (toUpperCase s')
  end.

Module DefaultFunctionRegistry.

Definition registerFunction (name : string) (func : FunctionType)
    (functions : gmap string FunctionType) : gmap string FunctionType :=
  <[toUpperCase name := func]> functions.

Definition unregisterFunction (name : string)
    (functions : gmap string FunctionType) : gmap string FunctionType :=
  delete (toUpperCase name) functions.

Definition lookup (functions : gmap string FunctionType) (name : string)
    : option FunctionType :=
  functions !! toUpperCase name.

(** The built-ins that this development embeds; the remaining ones
    (SUM, HHV, LLV, IF, ABS, MAX, MIN, COUNT, STD, CV) are registered by
    the same calls. *)
Definition initializeBuiltinFunctions : gmap string FunctionType :=
  registerFunction "CROSS" CROSS
    (registerFunction "REF" REF
       (registerFunction "MA" MA ∅)).

Definition registry (functions : gmap string FunctionType) : FunctionRegistry :=
  {| getFunction := lookup functions |}.

End DefaultFunctionRegistry.

Definition globalFunctionRegistry : FunctionRegistry :=
  DefaultFunctionRegistry.registry DefaultFunctionRegistry.initializeBuiltinFunctions.

(** ** ast.ts *)

Module UnaryOperator.
Inductive t : Type := Not | Neg.
End UnaryOperator.

Module BinaryOperator.
Inductive t : Type :=
| Add | Sub | Mul | Div
| Gt | Lt | GtEq | LtEq | EqEq | NotEq
| And | Or.
End BinaryOperator.

Definition PlotStyle : Type := string.

#[warnings="-register-all"] Inductive Expr : Type :=
| Literal (numericValue : number)
| Var (name : string)   (* the [Variable] node *)
| UnaryOp (operator : UnaryOperator.t) (operand : Expr)
| BinaryOp (left : Expr) (operator : BinaryOperator.t) (right : Expr)
| FunctionCall (name : string) (args : list Expr)
| Grouped (expr : Expr).

Inductive Statement : Type :=
| Assignment (variable : string) (expr : Expr)
| Output (name : option string) (expr : Expr) (styles : list PlotStyle).

Record Formula : Type := createFormula { statements : list Statement }.

(** ** data.ts *)

Record InputData : Type := {
  opens : series;
  highs : series;
  lows : series;
  closes : series;
  volumes : series;
  numBars : nat
}.

Record OutputLineResult : Type := createOutputLineResult {
  name : string;
  data : series;
  styles : list PlotStyle
}.

Record FormulaResult : Type := createFormulaResult {
  outputLines : list OutputLineResult
}.

(** ** evaluator.ts *)

Definition bit (b : bool) : value := Num (if b then one else zero).

(** The callback of [evaluateUnaryOp]. *)
Definition unaryOp (operator : UnaryOperator.t) (v : value) : value :=
  if is_null v then Null
  else
    match operator with
    | UnaryOperator.Neg => Num (js_neg (toNumber v))
    | UnaryOperator.Not => bit (strict_eq v (Num zero))
    end.

(** The callback of [evaluateBinaryOp] on one pair of elements. *)
Definition binaryOp (operator : BinaryOperator.t) (leftVal rightVal : value) : value :=
  if is_null leftVal || is_null rightVal then Null
  else
    let l := toNumber leftVal in
    let r := toNumber rightVal in
    match operator with
    | BinaryOperator.Add => Num (js_add l r)
    | BinaryOperator.Sub => Num (js_sub l r)
    | BinaryOperator.Mul => Num (js_mul l r)
    | BinaryOperator.Div =>
        if strict_eq rightVal (Num zero) then Null else Num (js_div l r)
    | BinaryOperator.Gt => bit (js_gt l r)
    | BinaryOperator.Lt => bit (js_lt l r)
    | BinaryOperator.GtEq => bit (js_ge l r)
    | BinaryOperator.LtEq => bit (js_le l r)
    | BinaryOperator.EqEq => bit (strict_eq leftVal rightVal)
    | BinaryOperator.NotEq => bit (negb (strict_eq leftVal rightVal))
    | BinaryOperator.And =>
        bit (negb (strict_eq leftVal (Num zero)) && negb (strict_eq rightVal (Num zero)))
    | BinaryOperator.Or =>
        bit (negb (strict_eq leftVal (Num zero)) || negb (strict_eq rightVal (Num zero)))
    end.

(** The part of [evaluateBinaryOp] that follows the evaluation of the two
    operands. *)
Definition binaryOpSeries (operator : BinaryOperator.t) (leftValue rightValue : series)
    : res EvalError series :=
  if negb (length leftValue =? length rightValue)%nat then Throw BinaryLengthMismatch
  else Ok (mapi (fun leftVal i => binaryOp operator leftVal (at_index rightValue i)) leftValue).

(** The part of [evaluateFunctionCall] that follows the evaluation of the
    arguments. *)
Definition callFunction (registry : FunctionRegistry) (name : string)
    (argValues : list series) : res EvalError series :=
  let len := match argValues with [] => 0%nat | a :: _ => length a end in
  if forallb (fun argValue => (length argValue =? len)%nat) argValues then
    match getFunction registry name with
    | None => Throw (UnknownFunction name)
    | Some func => func argValues
    end
  else Throw (FunctionLengthMismatch name).

Module Evaluator.

Record t : Type := {
  inputData : InputData;
  environment : gmap string series;
  outputLines : list OutputLineResult;
  functionRegistry : FunctionRegistry
}.

Definition initializeBuiltinVariables (d : InputData) : gmap string series :=
  <["V" := volumes d]>
    (<["C" := closes d]>
       (<["L" := lows d]>
          (<["H" := highs d]>
             (<["O" := opens d]> ∅)))).

Definition new (d : InputData) (functionRegistry : option FunctionRegistry) : t :=
  {| inputData := d;
     environment := initializeBuiltinVariables d;
     outputLines := [];
     functionRegistry := default globalFunctionRegistry functionRegistry |}.

(** [new Array(numBars).fill(value)], for a [numBars] that is the length
    of an array: a whole number below 2^32.  For any other number the
    constructor of the array throws; input data with such a [numBars] are
    outside this development, which keeps [numBars] in [nat]. *)
Definition expandNumber (ev : t) (v : number) : series :=
  repeat (Num v) (numBars (inputData ev)).

Definition resolveVariable (ev : t) (name : string) : res EvalError series :=
  match environment ev !! name with
  | None => Throw (UndefinedVariable name)
  | Some v => Ok v
  end.

Fixpoint evaluateExpr (ev : t) (expr : Expr) : res EvalError series :=
  match expr with
  | Literal numericValue => Ok (expandNumber ev numericValue)
  | Var name => resolveVariable ev name
  | UnaryOp operator operand =>
      do operandValue <- evaluateExpr ev operand;
      Ok (map (unaryOp operator) operandValue)
  | BinaryOp lhs operator rhs =>
      do leftValue <- evaluateExpr ev lhs;
      do rightValue <- evaluateExpr ev rhs;
      binaryOpSeries operator leftValue rightValue
  | FunctionCall name args =>
      do argValues <-
        (fix evaluateArgs (args : list Expr) : res EvalError (list series) :=
           match args with
           | [] => Ok []
           | a :: rest =>
               do v <- evaluateExpr ev a;
               do vs <- evaluateArgs rest;
               Ok (v :: vs)
           end) args;
      callFunction (functionRegistry ev) name argValues
  | Grouped expr => evaluateExpr ev expr
  end.

Definition set_environment (ev : t) (env : gmap string series) : t :=
  {| inputData := inputData ev;
     environment := env;
     outputLines := outputLines ev;
     functionRegistry := functionRegistry ev |}.

Definition set_outputLines (ev : t) (lines : list OutputLineResult) : t :=
  {| inputData := inputData ev;
     environment := environment ev;
     outputLines := lines;
     functionRegistry := functionRegistry ev |}.

Definition executeAssignment (ev : t) (variable : string) (expr : Expr)
    : res EvalError (option OutputLineResult) * t :=
  match evaluateExpr ev expr with
  | Ok value => (Ok None, set_environment ev (<[variable := value]> (environment ev)))
  | Throw e => (Throw e, ev)
  | OutOfFuel => (OutOfFuel, ev)
  end.

Definition output_name (k : nat) : string :=
  "output_" ++ NilEmpty.string_of_uint (Nat.to_uint k).

Definition executeOutput (ev : t) (name : option string) (expr : Expr)
    (styles : list PlotStyle) : res EvalError (option OutputLineResult) * t :=
  match evaluateExpr ev expr with
  | Ok data =>
      let name' :=
        match name with
        | Some (String c s) => String c s
        | _ => output_name (length (outputLines ev) + 1)
        end in
      (Ok (Some (createOutputLineResult name' data styles)), ev)
  | Throw e => (Throw e, ev)
  | OutOfFuel => (OutOfFuel, ev)
  end.

Definition executeStatement (ev : t) (statement : Statement)
    : res EvalError (option OutputLineResult) * t :=
  match statement with
  | Assignment variable expr => executeAssignment ev variable expr
  | Output name expr styles => executeOutput ev name expr styles
  end.

(** The loop of [evaluateFormula]. *)
Fixpoint executeStatements (ev : t) (stmts : list Statement) : res EvalError unit * t :=
  match stmts with
  | [] => (Ok tt, ev)
  | statement :: rest =>
      match executeStatement ev statement with
      | (Ok result, ev') =>
          let ev'' :=
            match result with
            | Some line => set_outputLines ev' (outputLines ev' ++ [line])
            | None => ev'
            end in
          executeStatements ev'' rest
      | (Throw e, ev') => (Throw e, ev')
      | (OutOfFuel, ev') => (OutOfFuel, ev')
      end
  end.

(** [evaluateFormula] returns its result together with the evaluator as
    the call leaves it. *)
Definition evaluateFormula (ev : t) (formula : Formula) : res EvalError FormulaResult * t :=
  let ev0 := set_outputLines ev [] in
  match executeStatements ev0 (statements formula) with
  | (Ok _, ev') => (Ok (createFormulaResult (outputLines ev')), ev')
  | (Throw e, ev') => (Throw e, ev')
  | (OutOfFuel, ev') => (OutOfFuel, ev')
  end.

End Evaluator.

(** ** token.ts *)

Module TokenType.
Inductive t : Type :=
| LParen | RParen | Comma | Semicolon | Plus | Minus | Star | Slash | Colon | Gt | Lt
| ColonAssign | GtEq | LtEq | NotEq | EqEq
| Identifier | Number | String
| If | Then | Else | And | Or | Not
| Newline | Illegal | Eof.

#[global] Instance eq_dec : EqDecision t.
Proof. solve_decision. Defined.

Definition eqb (a b : t) : bool := bool_decide (a = b).
End TokenType.

Record Token : Type := createToken {
  tokenType : TokenType.t;
  lexeme : string;
  line : nat;
  column : nat
}.

(** [KEYWORDS[ident.toUpperCase()] || TokenType.Identifier] *)
Definition lookupKeyword (ident : string) : TokenType.t :=
  let u := toUpperCase ident in
  if String.eqb u "IF" then TokenType.If
  else if String.eqb u "THEN" then TokenType.Then
  else if String.eqb u "ELSE" then TokenType.Else
  else if String.eqb u "AND" then TokenType.And
  else if String.eqb u "OR" then TokenType.Or
  else if String.eqb u "NOT" then TokenType.Not
  else TokenType.Identifier.

(** ** lexer.ts *)

Definition NUL : ascii := "000"%char.
Definition LF : ascii := "010"%char.
Definition TAB : ascii := "009"%char.
Definition CR : ascii := "013"%char.
Definition DQUOTE : ascii := "034"%char.

Definition char_between (lo hi c : ascii) : bool :=
  ((nat_of_ascii lo <=? nat_of_ascii c) && (nat_of_ascii c <=? nat_of_ascii hi))%nat.

Definition isDigit (char : ascii) : bool := char_between "0" "9" char.

Definition isAlpha (char : ascii) : bool :=
  char_between "a" "z" char || char_between "A" "Z" char || Ascii.eqb char "_".

Definition isAlphaNumeric (char : ascii) : bool := isAlpha char || isDigit char.

Definition isWhitespace (char : ascii) : bool :=
  Ascii.eqb char " " || Ascii.eqb char TAB || Ascii.eqb char CR.

Definition append_char (s : string) (c : ascii) : string := (s ++ String c EmptyString)%string.

Module Lexer.

Record t : Type := {
  input : string;
  position : nat;
  line : nat;
  column : nat
}.

Definition new (input : string) : t :=
  {| input := input; position := 0; line := 1; column := 1 |}.

Definition isAtEnd (lx : t) : bool := (String.length (input lx) <=? position lx)%nat.

Definition peek (lx : t) : ascii :=
  if isAtEnd lx then NUL
  else match String.get (position lx) (input lx) with Some c => c | None => NUL end.

Definition peekNext (lx : t) : ascii :=
  if (String.length (input lx) <=? position lx + 1)%nat then NUL
  else match String.get (position lx + 1) (input lx) with Some c => c | None => NUL end.

Definition advance (lx : t) : ascii * t :=
  if isAtEnd lx then (NUL, lx)
  else (peek lx,
        {| input := input lx; position := position lx + 1;
           line := line lx; column := column lx + 1 |}).

(** The number of characters not yet consumed; it bounds every loop of the
    lexer. *)
Definition remaining (lx : t) : nat := String.length (input lx) - position lx.

(** [this.line++; this.column = 1] *)
Definition newline (lx : t) : t :=
  {| input := input lx; position := position lx; line := line lx + 1; column := 1 |}.

(** The scanning loop shared by the lexer's helpers:
    [while (!isAtEnd() && continue(peek())) {
       if (countLines && peek() === '\n') { line++; column = 1 }
       lexeme += advance() }]. *)
Fixpoint scan (fuel : nat) (continue : ascii -> bool) (countLines : bool)
    (lexeme : string) (lx : t) : string * t :=
  match fuel with
  | O => (lexeme, lx)
  | S fuel' =>
      if negb (isAtEnd lx) && continue (peek lx) then
        let lx1 := if countLines && Ascii.eqb (peek lx) LF then newline lx else lx in
        let (c, lx2) := advance lx1 in
        scan fuel' continue countLines (append_char lexeme c) lx2
      else (lexeme, lx)
  end.

Definition skipWhitespace (lx : t) : t :=
  snd (scan (remaining lx) isWhitespace false EmptyString lx).

Definition skipComment (lx : t) : t :=
  let lx1 := snd (scan (remaining lx) (fun c => negb (Ascii.eqb c "}")) true EmptyString lx) in
  if negb (isAtEnd lx1) then snd (advance lx1) else lx1.

Definition consumeCharToken (tokenType : TokenType.t) (lx : t) : Token * t :=
  let startColumn := column lx in
  let (char, lx1) := advance lx in
  (createToken tokenType (String char EmptyString) (line lx1) startColumn, lx1).

(** The two-character operators: [this.advance() + this.advance()]. *)
Definition consumeTwoCharToken (tokenType : TokenType.t) (lx : t) : Token * t :=
  let startColumn := column lx in
  let (c1, lx1) := advance lx in
  let (c2, lx2) := advance lx1 in
  (createToken tokenType (String c1 (String c2 EmptyString)) (line lx2) startColumn, lx2).

Definition handleColon (lx : t) : Token * t :=
  if Ascii.eqb (peekNext lx) "=" then consumeTwoCharToken TokenType.ColonAssign lx
  else consumeCharToken TokenType.Colon lx.

Definition handleGreater (lx : t) : Token * t :=
  if Ascii.eqb (peekNext lx) "=" then consumeTwoCharToken TokenType.GtEq lx
  else consumeCharToken TokenType.Gt lx.

Definition handleLess (lx : t) : Token * t :=
  if Ascii.eqb (peekNext lx) "=" then consumeTwoCharToken TokenType.LtEq lx
  else if Ascii.eqb (peekNext lx) ">" then consumeTwoCharToken TokenType.NotEq lx
  else consumeCharToken TokenType.Lt lx.

Definition handleEqual (lx : t) : Token * t :=
  if Ascii.eqb (peekNext lx) "=" then consumeTwoCharToken TokenType.EqEq lx
  else consumeCharToken TokenType.EqEq lx.

Definition handleNewline (lx : t) : Token * t :=
  let startColumn := column lx in
  let (char, lx1) := advance lx in
  let lx2 := newline lx1 in
  (createToken TokenType.Newline (String char EmptyString) (line lx2) startColumn, lx2).

Definition readNumber (lx : t) : Token * t :=
  let startColumn := column lx in
  let (lexeme, lx1) := scan (remaining lx) isDigit false EmptyString lx in
  let (lexeme, lx2) :=
    if negb (isAtEnd lx1) && Ascii.eqb (peek lx1) "." then
      let (dot, lx1') := advance lx1 in
      scan (remaining lx1') isDigit false (append_char lexeme dot) lx1'
    else (lexeme, lx1) in
  (createToken TokenType.Number lexeme (line lx2) startColumn, lx2).

Definition readIdentifier (lx : t) : Token * t :=
  let startColumn := column lx in
  let (lexeme, lx1) := scan (remaining lx) isAlphaNumeric false EmptyString lx in
  (createToken (lookupKeyword lexeme) lexeme (line lx1) startColumn, lx1).

Definition readString (lx : t) : Token * t :=
  let startColumn := column lx in
  let (_, lx0) := advance lx in
  let (lexeme, lx1) :=
    scan (remaining lx0) (fun c => negb (Ascii.eqb c DQUOTE)) true EmptyString lx0 in
  if isAtEnd lx1 then (createToken TokenType.Illegal lexeme (line lx1) startColumn, lx1)
  else
    let (_, lx2) := advance lx1 in
    (createToken TokenType.String lexeme (line lx2) startColumn, lx2).

(** [nextToken] calls itself after a comment; [fuel] bounds the number of
    such calls and [None] reports its exhaustion. *)
Fixpoint nextToken_aux (fuel : nat) (lx : t) : option (Token * t) :=
  let lx := skipWhitespace lx in
  if isAtEnd lx then Some (createToken TokenType.Eof EmptyString (line lx) (column lx), lx)
  else
    let char := peek lx in
    if Ascii.eqb char "(" then Some (consumeCharToken TokenType.LParen lx)
    else if Ascii.eqb char ")" then Some (consumeCharToken TokenType.RParen lx)
    else if Ascii.eqb char "," then Some (consumeCharToken TokenType.Comma lx)
    else if Ascii.eqb char ";" then Some (consumeCharToken TokenType.Semicolon lx)
    else if Ascii.eqb char "+" then Some (consumeCharToken TokenType.Plus lx)
    else if Ascii.eqb char "-" then Some (consumeCharToken TokenType.Minus lx)
    else if Ascii.eqb char "*" then Some (consumeCharToken TokenType.Star lx)
    else if Ascii.eqb char "/" then Some (consumeCharToken TokenType.Slash lx)
    else if Ascii.eqb char ":" then Some (handleColon lx)
    else if Ascii.eqb char ">" then Some (handleGreater lx)
    else if Ascii.eqb char "<" then Some (handleLess lx)
    else if Ascii.eqb char "=" then Some (handleEqual lx)
    else if Ascii.eqb char DQUOTE then Some (readString lx)
    else if Ascii.eqb char LF then Some (handleNewline lx)
    else if Ascii.eqb char "{" then
      match fuel with
      | O => None
      | S fuel' => nextToken_aux fuel' (skipComment lx)
      end
    else if isDigit char then Some (readNumber lx)
    else if isAlpha char then Some (readIdentifier lx)
    else Some (createToken TokenType.Illegal (String char EmptyString) (line lx) (column lx), lx).

(** Every comment holds at least one character, so [remaining lx] nested
    calls are enough (lemma [nextToken_aux_enough]); the default is never
    used. *)
Definition nextToken (lx : t) : Token * t :=
  match nextToken_aux (remaining lx) lx with
  | Some r => r
  | None => (createToken TokenType.Eof EmptyString (line lx) (column lx), lx)
  end.

(** The tokens that successive calls return, up to the end-of-input
    sentinel, at most [n] of them. *)
Fixpoint tokenize (n : nat) (lx : t) : list Token :=
  match n with
  | O => []
  | S n' =>
      let (tok, lx') := nextToken lx in
      if TokenType.eqb (tokenType tok) TokenType.Eof then [tok]
      else tok :: tokenize n' lx'
  end.

End Lexer.

(** ** parser.ts *)

Inductive ParseError : Type :=
| UnexpectedToken (tokenType : TokenType.t) (line column : nat)
| ExpectedButEndOfFile (expected : TokenType.t)
| ExpectedButGot (expected got : TokenType.t) (line column : nat)
| IfNeedsCommaAfterCondition
| IfNeedsCommaAfterTrueValue
| InvalidBinaryOperator (tokenType : TokenType.t)
| NullTokenTypeError.

(** Decimal digits of a numeric lexeme. *)
Definition digit_value (c : ascii) : Z := Z.of_nat (nat_of_ascii c - 48).

Fixpoint read_digits (s : string) (acc : Z) (count : nat) : Z * nat * string :=
  match s with
  | String c s' =>
      if isDigit c then read_digits s' (10 * acc + digit_value c)%Z (S count)
      else (acc, count, s)
  | EmptyString => (acc, count, s)
  end.

(** [parseFloat] on the lexemes of [Number] tokens: digits, optionally
    followed by a point and digits.  Anything that does not start with a
    digit is outside that language and yields NaN. *)
Definition parseFloat (s : string) : number :=
  match read_digits s 0 0 with
  | (_, O, _) => NaN
  | (ip, S _, rest) =>
      match rest with
      | String "." rest' =>
          let '(fp, len, _) := read_digits rest' 0 0 in
          Fin (Qred (inject_Z ip + inject_Z fp / inject_Z (10 ^ Z.of_nat len))%Q)
      | _ => Fin (inject_Z ip)
      end
  end.

Module Parser.

Section WithTokenSource.

(** The parser is built from a function [() => Token]: a source of tokens
    with hidden state. *)
Context {Src : Type} (pull : Src -> Token * Src).

(** The parser together with its [LexerIterator]. *)
Record t : Type := {
  lexer : Src;
  nextToken : option Token;      (* the iterator's one-token buffer *)
  currentToken : option Token
}.

Definition not_eof (token : Token) : option Token :=
  if TokenType.eqb (tokenType token) TokenType.Eof then None else Some token.

(** [LexerIterator.next] followed by the assignment in [Parser.advance]. *)
Definition advance (p : t) : t :=
  match nextToken p with
  | Some token => {| lexer := lexer p; nextToken := None; currentToken := Some token |}
  | None =>
      let (token, src') := pull (lexer p) in
      {| lexer := src'; nextToken := None; currentToken := not_eof token |}
  end.

(** [LexerIterator.peek] as used by [Parser.peekToken]. *)
Definition peekToken (p : t) : option Token * t :=
  match nextToken p with
  | Some token => (not_eof token, p)
  | None =>
      let (token, src') := pull (lexer p) in
      (not_eof token,
       {| lexer := src'; nextToken := Some token; currentToken := currentToken p |})
  end.

Definition new (src : Src) : t :=
  advance {| lexer := src; nextToken := None; currentToken := None |}.

Definition expectToken (expectedType : TokenType.t) (p : t) : res ParseError (Token * t) :=
  match currentToken p with
  | None => Throw (ExpectedButEndOfFile expectedType)
  | Some token =>
      if negb (TokenType.eqb (tokenType token) expectedType)
      then Throw (ExpectedButGot expectedType (tokenType token) (line token) (column token))
      else Ok (token, advance p)
  end.

Definition getInfixBindingPower (token : Token) : nat * nat :=
  match tokenType token with
  | TokenType.Or => (1, 2)
  | TokenType.And => (3, 4)
  | TokenType.Gt | TokenType.Lt | TokenType.GtEq | TokenType.LtEq
  | TokenType.EqEq | TokenType.NotEq => (5, 6)
  | TokenType.Plus | TokenType.Minus => (7, 8)
  | TokenType.Star | TokenType.Slash => (9, 10)
  | _ => (0, 0)
  end%nat.

Definition getPrefixBindingPower (tokenType : TokenType.t) : nat :=
  match tokenType with
  | TokenType.Minus | TokenType.Not => 11
  | _ => 0
  end%nat.

Definition getBinaryOperator (tokenType : TokenType.t) : res ParseError BinaryOperator.t :=
  match tokenType with
  | TokenType.Plus => Ok BinaryOperator.Add
  | TokenType.Minus => Ok BinaryOperator.Sub
  | TokenType.Star => Ok BinaryOperator.Mul
  | TokenType.Slash => Ok BinaryOperator.Div
  | TokenType.Gt => Ok BinaryOperator.Gt
  | TokenType.Lt => Ok BinaryOperator.Lt
  | TokenType.GtEq => Ok BinaryOperator.GtEq
  | TokenType.LtEq => Ok BinaryOperator.LtEq
  | TokenType.EqEq => Ok BinaryOperator.EqEq
  | TokenType.NotEq => Ok BinaryOperator.NotEq
  | TokenType.And => Ok BinaryOperator.And
  | TokenType.Or => Ok BinaryOperator.Or
  | other => Throw (InvalidBinaryOperator other)
  end.

(** [this.currentToken?.tokenType === tokenType] *)
Definition current_is (tokenType' : TokenType.t) (p : t) : bool :=
  match currentToken p with
  | Some token => TokenType.eqb (tokenType token) tokenType'
  | None => false
  end.

Definition token_is (tokenType' : TokenType.t) (token : option Token) : bool :=
  match token with
  | Some token => TokenType.eqb (tokenType token) tokenType'
  | None => false
  end.

(** The expression parser.  Each function takes the fuel that bounds the
    depth of the calls below it. *)
Fixpoint parseExpression (fuel : nat) (minPrecedence : nat) (p : t)
    : res ParseError (Expr * t) :=
  match fuel with
  | O => OutOfFuel
  | S fuel =>
      do (lhs, p) <- parsePrefix fuel p;
      parseExpression_loop fuel minPrecedence lhs p
  end

(** The [while (this.currentToken !== null)] loop of [parseExpression]. *)
with parseExpression_loop (fuel : nat) (minPrecedence : nat) (lhs : Expr) (p : t)
    : res ParseError (Expr * t) :=
  match fuel with
  | O => OutOfFuel
  | S fuel =>
      match currentToken p with
      | None => Ok (lhs, p)
      | Some token =>
          let (leftBindingPower, rightBindingPower) := getInfixBindingPower token in
          if (leftBindingPower =? 0)%nat || (leftBindingPower <? minPrecedence)%nat
          then Ok (lhs, p)
          else
            let p := advance p in
            do (rhs, p) <- parseExpression fuel rightBindingPower p;
            do operator <- getBinaryOperator (tokenType token);
            parseExpression_loop fuel minPrecedence (BinaryOp lhs operator rhs) p
      end
  end

with parsePrefix (fuel : nat) (p : t) : res ParseError (Expr * t) :=
  match fuel with
  | O => OutOfFuel
  | S fuel =>
      match currentToken p with
      | None => Throw NullTokenTypeError
      | Some token =>
          match tokenType token with
          | TokenType.Number => Ok (Literal (parseFloat (lexeme token)), advance p)
          | TokenType.If | TokenType.Identifier =>
              let (nextToken, p) := peekToken p in
              if token_is TokenType.LParen nextToken
              then parseFunctionCall fuel (tokenType token) p
              else Ok (Var (lexeme token), advance p)
          | TokenType.LParen => parseGroupedExpression fuel p
          | TokenType.Minus | TokenType.Not => parseUnaryExpression fuel p
          | other => Throw (UnexpectedToken other (line token) (column token))
          end
      end
  end

with parseFunctionCall (fuel : nat) (tokenType : TokenType.t) (p : t)
    : res ParseError (Expr * t) :=
  match fuel with
  | O => OutOfFuel
  | S fuel =>
      do (nameToken, p) <- expectToken tokenType p;
      let name := lexeme nameToken in
      do (_, p) <- expectToken TokenType.LParen p;
      if String.eqb (toUpperCase name) "IF" then parseIfFunction fuel p
      else
        do (args, p) <-
          (if negb (current_is TokenType.RParen p) then
             do (first, p) <- parseExpression fuel 0 p;
             parseArguments_loop fuel [first] p
           else Ok ([], p));
        do (_, p) <- expectToken TokenType.RParen p;
        Ok (FunctionCall name args, p)
  end

(** The [while (this.currentToken?.tokenType === TokenType.Comma)] loop of
    [parseFunctionCall]. *)
with parseArguments_loop (fuel : nat) (args : list Expr) (p : t)
    : res ParseError (list Expr * t) :=
  match fuel with
  | O => OutOfFuel
  | S fuel =>
      if current_is TokenType.Comma p then
        let p := advance p in
        do (next, p) <- parseExpression fuel 0 p;
        parseArguments_loop fuel (args ++ [next]) p
      else Ok (args, p)
  end

with parseIfFunction (fuel : nat) (p : t) : res ParseError (Expr * t) :=
  match fuel with
  | O => OutOfFuel
  | S fuel =>
      do (condition, p) <- parseExpression fuel 0 p;
      if negb (current_is TokenType.Comma p) then Throw IfNeedsCommaAfterCondition
      else
        let p := advance p in
        do (trueValue, p) <- parseExpression fuel 0 p;
        if negb (current_is TokenType.Comma p) then Throw IfNeedsCommaAfterTrueValue
        else
          let p := advance p in
          do (falseValue, p) <- parseExpression fuel 0 p;
          do (_, p) <- expectToken TokenType.RParen p;
          Ok (FunctionCall "IF" [condition; trueValue; falseValue], p)
  end

with parseGroupedExpression (fuel : nat) (p : t) : res ParseError (Expr * t) :=
  match fuel with
  | O => OutOfFuel
  | S fuel =>
      do (_, p) <- expectToken TokenType.LParen p;
      do (expr, p) <- parseExpression fuel 0 p;
      do (_, p) <- expectToken TokenType.RParen p;
      Ok (Grouped expr, p)
  end

with parseUnaryExpression (fuel : nat) (p : t) : res ParseError (Expr * t) :=
  match fuel with
  | O => OutOfFuel
  | S fuel =>
      match currentToken p with
      | None => Throw NullTokenTypeError
      | Some token =>
          let p := advance p in
          let operator :=
            if TokenType.eqb (tokenType token) TokenType.Minus
            then UnaryOperator.Neg else UnaryOperator.Not in
          do (operand, p) <- parseExpression fuel (getPrefixBindingPower (tokenType token)) p;
          Ok (UnaryOp operator operand, p)
      end
  end.

Fixpoint parsePlotStyles_loop (fuel : nat) (styles : list PlotStyle) (p : t)
    : res ParseError (list PlotStyle * t) :=
  match fuel with
  | O => OutOfFuel
  | S fuel =>
      if current_is TokenType.Comma p then
        let p := advance p in
        do (styleToken, p) <- expectToken TokenType.Identifier p;
        parsePlotStyles_loop fuel (styles ++ [lexeme styleToken]) p
      else Ok (styles, p)
  end.

Definition parsePlotStyles (fuel : nat) (p : t) : res ParseError (list PlotStyle * t) :=
  parsePlotStyles_loop fuel [] p.

Definition parseAssignmentStatement (fuel : nat) (p : t) : res ParseError (Statement * t) :=
  do (variableToken, p) <- expectToken TokenType.Identifier p;
  do (_, p) <- expectToken TokenType.ColonAssign p;
  do (expr, p) <- parseExpression fuel 0 p;
  Ok (Assignment (lexeme variableToken) expr, p).

Definition parseNamedOutputStatement (fuel : nat) (p : t) : res ParseError (Statement * t) :=
  do (nameToken, p) <- expectToken TokenType.Identifier p;
  do (_, p) <- expectToken TokenType.Colon p;
  do (expr, p) <- parseExpression fuel 0 p;
  do (styles, p) <- parsePlotStyles fuel p;
  Ok (Output (Some (lexeme nameToken)) expr styles, p).

Definition parseAnonymousOutputStatement (fuel : nat) (p : t) : res ParseError (Statement * t) :=
  do (expr, p) <- parseExpression fuel 0 p;
  do (styles, p) <- parsePlotStyles fuel p;
  Ok (Output None expr styles, p).

Definition parseStatement (fuel : nat) (p : t) : res ParseError (Statement * t) :=
  match currentToken p with
  | None => Throw NullTokenTypeError
  | Some token =>
      if TokenType.eqb (tokenType token) TokenType.Identifier then
        let (nextToken, p) := peekToken p in
        if token_is TokenType.ColonAssign nextToken then parseAssignmentStatement fuel p
        else if token_is TokenType.Colon nextToken then parseNamedOutputStatement fuel p
        else parseAnonymousOutputStatement fuel p
      else parseAnonymousOutputStatement fuel p
  end.

(** [while (current is Newline) this.advance()] *)
Fixpoint skipNewlines (fuel : nat) (p : t) : res ParseError t :=
  match fuel with
  | O => OutOfFuel
  | S fuel =>
      if current_is TokenType.Newline p then skipNewlines fuel (advance p)
      else Ok p
  end.

(** The [while (this.currentToken !== null)] loop of [parseFormula]. *)
Fixpoint parseFormula_loop (fuel : nat) (statements : list Statement) (p : t)
    : res ParseError (list Statement * t) :=
  match fuel with
  | O => OutOfFuel
  | S fuel =>
      match currentToken p with
      | None => Ok (statements, p)
      | Some _ =>
          do p <- skipNewlines fuel p;
          if match currentToken p with
             | None => true
             | Some token => TokenType.eqb (tokenType token) TokenType.Eof
             end
          then Ok (statements, p)
          else
            do (statement, p) <- parseStatement fuel p;
            let p := if current_is TokenType.Newline p then advance p else p in
            parseFormula_loop fuel (statements ++ [statement]) p
      end
  end.

Definition parseFormula (fuel : nat) (p : t) : res ParseError (Formula * t) :=
  do (statements, p) <- parseFormula_loop fuel [] p;
  Ok (createFormula statements, p).

End WithTokenSource.

Arguments t Src : clear implicits.

End Parser.

(** [createParser]: a parser over the lexer of a formula text. *)
Definition createParser (input : string) : Parser.t Lexer.t :=
  Parser.new Lexer.nextToken (Lexer.new input).

(** Parsing a text; [fuel] bounds the depth of the parser's calls. *)
Definition parseText (fuel : nat) (input : string) : res ParseError Formula :=
  do (formula, _) <- Parser.parseFormula Lexer.nextToken fuel (createParser input);
  Ok formula.

(** ** Vocabulary of the specifications *)

(** A non-null operand of [And]/[Or] counts as true iff it is not zero. *)
Definition truthy (v : value) : bool := negb (strict_eq v (Num zero)).

Definition is_comparison (operator : BinaryOperator.t) : bool :=
  match operator with
  | BinaryOperator.Gt | BinaryOperator.Lt | BinaryOperator.GtEq
  | BinaryOperator.LtEq | BinaryOperator.EqEq | BinaryOperator.NotEq => true
  | _ => false
  end.

(** The average that [MA] is specified to yield for a window: the sum of
    its non-null values over their count, or null when there is none. *)
Definition non_null (v : value) : bool := negb (is_null v).

Definition window_average (w : list value) : value :=
  let vs := List.filter non_null w in
  if (0 <? length vs)%nat
  then Num (js_div (fold_left js_add (map toNumber vs) zero) (of_nat (length vs)))
  else Null.

(** The window [data[i-n+1..i]]: the elements at the whole indices [j]
    with [i - n + 1 <= j <= i]. *)
Definition window (data : series) (n : number) (i : nat) : list value :=
  map (at_index data)
      (List.filter (fun j => js_le (js_add (js_sub (of_nat i) n) one) (of_nat j))
              (seq 0 (S i))).

(** What the specification says of [out = MA(data, n)]. *)
Definition MA_spec (data : series) (n : number) (out : series) : Prop :=
  length out = length data
  /\ forall i, (i < length data)%nat ->
       (js_lt (of_nat i) (js_sub n one) = true -> at_index out i = Null)
       /\ (js_ge (of_nat i) (js_sub n one) = true ->
           at_index out i = window_average (window data n i)).

(** The claim of the specification about [MA]: for every number [n >= 1]
    at the head of the period series. *)
Definition MA_claim (data period : series) : Prop :=
  forall n rest,
    period = Num n :: rest -> js_ge n one = true ->
    exists out, MA [data; period] = Ok out /\ MA_spec data n out.

(** Sample bars: the closes 11..15 of the test suite. *)
Definition numbers (l : list Z) : series := map (fun z => Num (of_Z z)) l.

Definition sample_closes : series := numbers [11; 12; 13; 14; 15]%Z.

Definition sample_bars : InputData :=
  {| opens := numbers [10; 11; 12; 13; 14]%Z;
     highs := numbers [12; 13; 14; 15; 16]%Z;
     lows := numbers [9; 10; 11; 12; 13]%Z;
     closes := sample_closes;
     volumes := numbers [100; 200; 300; 400; 500]%Z;
     numBars := 5 |}.

(** The number of [Output] statements of a formula. *)
Definition count_outputs (stmts : list Statement) : nat :=
  length (List.filter (fun s => match s with Output _ _ _ => true | _ => false end) stmts).

(** The claim of the specification about a reused evaluator: its second
    call behaves as the same call on a fresh evaluator over the same bars. *)
Definition fresh_environment_per_call : Prop :=
  forall (d : InputData) (registry : option FunctionRegistry) (f1 f2 : Formula),
    let ev0 := Evaluator.new d registry in
    fst (Evaluator.evaluateFormula (snd (Evaluator.evaluateFormula ev0 f1)) f2)
    = fst (Evaluator.evaluateFormula ev0 f2).

(** The characters that [nextToken] has no case for: neither whitespace,
    newline, an operator or punctuation character, a brace or quote that
    opens a comment or string, a digit, a letter nor an underscore. *)
Definition unrecognized (c : ascii) : bool :=
  negb (isWhitespace c
        || Ascii.eqb c "(" || Ascii.eqb c ")" || Ascii.eqb c "," || Ascii.eqb c ";"
        || Ascii.eqb c "+" || Ascii.eqb c "-" || Ascii.eqb c "*" || Ascii.eqb c "/"
        || Ascii.eqb c ":" || Ascii.eqb c ">" || Ascii.eqb c "<" || Ascii.eqb c "="
        || Ascii.eqb c DQUOTE || Ascii.eqb c LF || Ascii.eqb c "{"
        || isDigit c || isAlpha c).

(** The result of the call that follows [n] earlier calls of [nextToken]. *)
Fixpoint nth_call (n : nat) (lx : Lexer.t) : Token * Lexer.t :=
  match n with
  | O => Lexer.nextToken lx
  | S n' => nth_call n' (snd (Lexer.nextToken lx))
  end.

(** The kinds of token that no production of the parser accepts. *)
Definition unconsumable (kind : TokenType.t) : bool :=
  match kind with
  | TokenType.Semicolon | TokenType.Illegal | TokenType.String
  | TokenType.Then | TokenType.Else => true
  | _ => false
  end.

(** The tokens ahead of a parser. *)
Section TokenStream.

Context {Src : Type} (pull : Src -> Token * Src).

(** The kind of the token that the source returns after [i] earlier
    calls. *)
Fixpoint upcoming (i : nat) (src : Src) : TokenType.t :=
  match i with
  | O => tokenType (fst (pull src))
  | S i' => upcoming i' (snd (pull src))
  end.

Definition kind_of (token : option Token) : TokenType.t :=
  match token with
  | Some token => tokenType token
  | None => TokenType.Eof
  end.

(** The kind of the token that becomes current after [i] calls of
    [advance]: the current token, then the buffered one, then the tokens
    of the source. *)
Definition pending (p : Parser.t Src) (i : nat) : TokenType.t :=
  match i with
  | O => kind_of (Parser.currentToken p)
  | S i' =>
      match Parser.nextToken p with
      | Some token =>
          match i' with
          | O => tokenType token
          | S i'' => upcoming i'' (Parser.lexer p)
          end
      | None => upcoming i' (Parser.lexer p)
      end
  end.

(** A token that no production accepts is [k] tokens ahead, and the input
    does not end before it. *)
Definition BarrierAt (k : nat) (p : Parser.t Src) : Prop :=
  unconsumable (pending p k) = true
  /\ forall i, (i < k)%nat -> pending p i <> TokenType.Eof.

End TokenStream.

(** The errors that the parser raises at a token it is reading: the
    rejection of [parsePrefix], a failed expectation of [expectToken] and
    the two errors of [IF].  The others report the end of the input or an
    operator that [getBinaryOperator] does not know. *)
Definition raised_at_token (e : ParseError) : Prop :=
  match e with
  | UnexpectedToken _ _ _ | ExpectedButGot _ _ _ _
  | IfNeedsCommaAfterCondition | IfNeedsCommaAfterTrueValue => True
  | _ => False
  end.

(** A run that has ended in such an error. *)
Definition rejected_at_token {A : Type} (r : res ParseError A) : Prop :=
  match r with
  | Throw e => raised_at_token e
  | _ => False
  end.

(** The outcome of a parsing function that started with such a token [k]
    tokens ahead: it has thrown an error raised at a token, or it has
    returned with the token still ahead (strictly nearer when [strict]);
    it has not run out of fuel. *)
Definition blocked {Src A : Type} (pull : Src -> Token * Src) (k : nat) (strict : bool)
    (r : res ParseError (A * Parser.t Src)) : Prop :=
  match r with
  | Throw e => raised_at_token e
  | Ok (_, p') =>
      exists k', BarrierAt pull k' p' /\ if strict then (k' < k)%nat else (k' <= k)%nat
  | OutOfFuel => False
  end.

(** Where a character of a text stands: in code, in a comment, or in a
    string literal. *)
Inductive mode : Type := InCode | InComment | InString.

Definition step_mode (m : mode) (c : ascii) : mode :=
  match m with
  | InCode =>
      if Ascii.eqb c "{" then InComment
      else if Ascii.eqb c DQUOTE then InString
      else InCode
  | InComment => if Ascii.eqb c "}" then InCode else InComment
  | InString => if Ascii.eqb c DQUOTE then InCode else InString
  end.

(** The mode in which the character at index [p] is read. *)
Fixpoint mode_at (m : mode) (s : string) (p : nat) : mode :=
  match p, s with
  | S p', String c s' => mode_at (step_mode m c) s' p'
  | _, _ => m
  end.

(** The text has a [;] outside every comment and string literal. *)
Definition semicolon_in_code (input : string) : Prop :=
  exists q, String.get q input = Some ";"%char /\ mode_at InCode input q = InCode.

(** The lexer works on [text], has not passed index [q], and is in mode
    [m]. *)
Definition before (text : string) (q : nat) (m : mode) (lx : Lexer.t) : Prop :=
  Lexer.input lx = text
  /\ (Lexer.position lx <= q)%nat
  /\ mode_at InCode text (Lexer.position lx) = m.

(** A call of [nextToken] that started at or after position [p0] has made
    progress towards the [;] at [q]: its token is one that no production
    accepts, or it is not the end-of-input sentinel and the lexer has
    moved on, still short of [q] and in code. *)
Definition advances (text : string) (q p0 : nat) (r : Token * Lexer.t) : Prop :=
  unconsumable (tokenType (fst r)) = true
  \/ (tokenType (fst r) <> TokenType.Eof
      /\ before text q InCode (snd r)
      /\ (p0 < Lexer.position (snd r))%nat).

(** The claim of the specification about such a text: parsing ends in the
    rejection branch of [parsePrefix]. *)
Definition rejected_by_parsePrefix (input : string) : Prop :=
  exists fuel0, forall fuel, (fuel0 <= fuel)%nat ->
    exists kind l c, parseText fuel input = Throw (UnexpectedToken kind l c).

Definition semicolon_reaches_parsePrefix : Prop :=
  forall input, semicolon_in_code input -> rejected_by_parsePrefix input.

(** A token source that hands out the tokens of a list and the
    end-of-input sentinel ever after. *)
Definition pull_list (tokens : list Token) : Token * list Token :=
  match tokens with
  | [] => (createToken TokenType.Eof EmptyString 1 1, [])
  | token :: rest => (token, rest)
  end.

Definition tok (kind : TokenType.t) (lexeme : string) : Token :=
  createToken kind lexeme 1 1.





(** Sample expressions and an evaluator over the sample bars. *)
Definition sample_evaluator : Evaluator.t := Evaluator.new sample_bars None.

Definition evaluator_with_A : Evaluator.t :=
  Evaluator.set_environment sample_evaluator
    (<["A" := numbers [1; 2; 3]%Z]> (Evaluator.environment sample_evaluator)).

Definition closes_minus_12 : Expr :=
  BinaryOp (Var "C") BinaryOperator.Sub (Literal (of_Z 12)).

Definition assign_A : Formula := createFormula [Assignment "A" (Var "C")].

Definition output_A : Formula := createFormula [Output (Some "X") (Var "A") []].

(** The character [i] places after the lexer's position, if any. *)
Definition char_at (lx : Lexer.t) (i : nat) : option ascii :=
  String.get (Lexer.position lx + i) (Lexer.input lx).

(** Two lexers have the same [w] characters ahead. *)
Definition agree (w : nat) (lx1 lx2 : Lexer.t) : Prop :=
  forall i, (i < w)%nat -> char_at lx1 i = char_at lx2 i.

(** Tokens compared without their source positions. *)
Definition same_token (t1 t2 : Token) : Prop :=
  tokenType t1 = tokenType t2 /\ lexeme t1 = lexeme t2.

(** Two lexers have moved forward by the same number of characters. *)
Definition same_step (lx1 lx1' lx2 lx2' : Lexer.t) : Prop :=
  Lexer.input lx1' = Lexer.input lx1
  /\ Lexer.input lx2' = Lexer.input lx2
  /\ (Lexer.position lx1 <= Lexer.position lx1')%nat
  /\ (Lexer.position lx2' + Lexer.position lx1
      = Lexer.position lx1' + Lexer.position lx2)%nat.

(** The cases of [nextToken] that produce a token from a character other
    than the opening brace of a comment. *)
Definition lexToken (lx : Lexer.t) : Token * Lexer.t :=
  let char := Lexer.peek lx in
  if Ascii.eqb char "(" then Lexer.consumeCharToken TokenType.LParen lx
  else if Ascii.eqb char ")" then Lexer.consumeCharToken TokenType.RParen lx
  else if Ascii.eqb char "," then Lexer.consumeCharToken TokenType.Comma lx
  else if Ascii.eqb char ";" then Lexer.consumeCharToken TokenType.Semicolon lx
  else if Ascii.eqb char "+" then Lexer.consumeCharToken TokenType.Plus lx
  else if Ascii.eqb char "-" then Lexer.consumeCharToken TokenType.Minus lx
  else if Ascii.eqb char "*" then Lexer.consumeCharToken TokenType.Star lx
  else if Ascii.eqb char "/" then Lexer.consumeCharToken TokenType.Slash lx
  else if Ascii.eqb char ":" then Lexer.handleColon lx
  else if Ascii.eqb char ">" then Lexer.handleGreater lx
  else if Ascii.eqb char "<" then Lexer.handleLess lx
  else if Ascii.eqb char "=" then Lexer.handleEqual lx
  else if Ascii.eqb char DQUOTE then Lexer.readString lx
  else if Ascii.eqb char LF then Lexer.handleNewline lx
  else if isDigit char then Lexer.readNumber lx
  else if isAlpha char then Lexer.readIdentifier lx
  else (createToken TokenType.Illegal (String char EmptyString)
          (Lexer.line lx) (Lexer.column lx), lx).

(** One round of the scanning loop: the line count, then [advance]. *)
Definition bump (countLines : bool) (lx : Lexer.t) : Lexer.t :=
  snd (Lexer.advance
         (if countLines && Ascii.eqb (Lexer.peek lx) LF then Lexer.newline lx else lx)).

(** The part of [nextToken] before a token starts: white space and
    comments, the latter through the recursive call. *)
Fixpoint skipTrivia (fuel : nat) (lx : Lexer.t) : option Lexer.t :=
  let lx := Lexer.skipWhitespace lx in
  if Lexer.isAtEnd lx then Some lx
  else if Ascii.eqb (Lexer.peek lx) "{" then
    match fuel with
    | O => None
    | S fuel' => skipTrivia fuel' (Lexer.skipComment lx)
    end
  else Some lx.

(** What [nextToken] returns once white space and comments are skipped. *)
Definition tokenAt (lx : Lexer.t) : Token * Lexer.t :=
  if Lexer.isAtEnd lx
  then (createToken TokenType.Eof EmptyString (Lexer.line lx) (Lexer.column lx), lx)
  else lexToken lx.

(** The fractional part read by [readNumber] after the integer part. *)
Definition fraction (lexeme : string) (lx : Lexer.t) : string * Lexer.t :=
  if negb (Lexer.isAtEnd lx) && Ascii.eqb (Lexer.peek lx) "." then
    let (dot, lx') := Lexer.advance lx in
    Lexer.scan (Lexer.remaining lx') isDigit false (append_char lexeme dot) lx'
  else (lexeme, lx).

(** Two texts that differ in one place only: the operator written [==]
    in the first is written [=] in the second. *)
Definition with_double_equals (pre suf : string) : string :=
  (pre ++ String "=" (String "=" suf))%string.

Definition with_single_equals (pre suf : string) : string :=
  (pre ++ String "=" suf)%string.

(** The call of [nextToken] that follows [k] earlier calls returns the
    operator [==] written at [offset]. *)
Definition equality_operator_after (k : nat) (lx : Lexer.t) (offset : nat) : Prop :=
  tokenType (fst (nth_call k lx)) = TokenType.EqEq
  /\ lexeme (fst (nth_call k lx)) = "=="%string
  /\ Lexer.position (snd (nth_call k lx)) = (offset + 2)%nat.

(** Tokens as the parser sees them: it reads the kind of every token and
    the lexeme of none of the equality operators. *)
Definition token_equiv (t1 t2 : Token) : Prop :=
  tokenType t1 = tokenType t2
  /\ (tokenType t1 <> TokenType.EqEq -> lexeme t1 = lexeme t2).

(** The kinds of the tokens of a text, at most [n] of them. *)
Definition kinds (n : nat) (text : string) : list TokenType.t :=
  map tokenType (Lexer.tokenize n (Lexer.new text)).

(** An error without the position it reports. *)
Definition erase_position (e : ParseError) : ParseError :=
  match e with
  | UnexpectedToken kind _ _ => UnexpectedToken kind 0 0
  | ExpectedButGot expected got _ _ => ExpectedButGot expected got 0 0
  | other => other
  end.

Section SameTokens.

Context {Src : Type} (pull : Src -> Token * Src).

(** The result of the call that follows [n] earlier calls of the token
    source. *)
Fixpoint nth_pull (n : nat) (src : Src) : Token * Src :=
  match n with
  | O => pull src
  | S n' => nth_pull n' (snd (pull src))
  end.

(** Two states of the source from which the same tokens come. *)
Definition similar (s1 s2 : Src) : Prop :=
  forall j, token_equiv (fst (nth_pull j s1)) (fst (nth_pull j s2)).

Definition option_equiv (o1 o2 : option Token) : Prop :=
  match o1, o2 with
  | Some a, Some b => token_equiv a b
  | None, None => True
  | _, _ => False
  end.

Definition parser_equiv (p1 p2 : Parser.t Src) : Prop :=
  similar (Parser.lexer p1) (Parser.lexer p2)
  /\ option_equiv (Parser.nextToken p1) (Parser.nextToken p2)
  /\ option_equiv (Parser.currentToken p1) (Parser.currentToken p2).

(** Two runs of a parsing function end the same way: with values related
    by [R] and parsers that see the same tokens, or with the same error up
    to the position it reports. *)
Definition result_equiv {A : Type} (R : A -> A -> Prop)
    (r1 r2 : res ParseError (A * Parser.t Src)) : Prop :=
  match r1, r2 with
  | Ok (a1, p1), Ok (a2, p2) => R a1 a2 /\ parser_equiv p1 p2
  | Throw e1, Throw e2 => erase_position e1 = erase_position e2
  | OutOfFuel, OutOfFuel => True
  | _, _ => False
  end.

End SameTokens.

(** Two parses of texts end the same way. *)
Definition same_outcome (r1 r2 : res ParseError Formula) : Prop :=
  match r1, r2 with
  | Ok f1, Ok f2 => f1 = f2
  | Throw e1, Throw e2 => erase_position e1 = erase_position e2
  | OutOfFuel, OutOfFuel => True
  | _, _ => False
  end.

(** ** function-registry.ts: the other built-ins *)

(** [Math.abs], [Math.max] and [Math.min]. *)
Definition js_abs (x : number) : number := if js_lt x zero then js_neg x else x.

Definition js_max (x y : number) : number :=
  match x, y with
  | NaN, _ | _, NaN => NaN
  | _, _ => if js_lt x y then y else x
  end.

Definition js_min (x y : number) : number :=
  match x, y with
  | NaN, _ | _, NaN => NaN
  | _, _ => if js_lt y x then y else x
  end.

(** The inner loop of SUM, HHV, LLV and COUNT:
    [for (let j = start; j <= i; j++) acc = body(acc, data[j])]. *)
Fixpoint window_loop {Acc : Type} (fuel : nat) (data : series) (i : nat) (j : number)
    (body : Acc -> value -> Acc) (acc : Acc) : res EvalError Acc :=
  match fuel with
  | O => OutOfFuel
  | S fuel' =>
      if js_le j (of_nat i)
      then window_loop fuel' data i (js_add j one) body (body acc (get data j))
      else Ok acc
  end.

(** One round of their outer loop: null while [i < period - 1], then the
    window [j = i - period + 1 .. i]. *)
Definition rolling_at {Acc : Type} (init : Acc) (body : Acc -> value -> Acc)
    (finish : Acc -> value) (data : series) (period : number) (i : nat)
    : res EvalError value :=
  if js_lt (of_nat i) (js_sub period one) then Ok Null
  else
    do acc <-
      window_loop (S (S i)) data i (js_add (js_sub (of_nat i) period) one) body init;
    Ok (finish acc).

Definition rolling {Acc : Type} (init : Acc) (body : Acc -> value -> Acc)
    (finish : Acc -> value) : FunctionType := fun args =>
  do period <- getNumberArg (arg args 1);
  match arg args 0 with
  | None => Throw TypeError
  | Some data => push_loop (rolling_at init body finish data period) 0 (length data)
  end.

(** SUM: [sum] and [hasValidData]. *)
Definition SUM : FunctionType :=
  rolling (zero, false)
    (fun acc v => if is_null v then acc else (js_add (fst acc) (toNumber v), true))
    (fun acc => if snd acc then Num (fst acc) else Null).

(** HHV: [maxVal], null until a value is met. *)
Definition HHV : FunctionType :=
  rolling Null
    (fun maxVal v =>
       if is_null v then maxVal
       else if is_null maxVal || js_gt (toNumber v) (toNumber maxVal) then v else maxVal)
    (fun maxVal => maxVal).

(** LLV: [minVal]. *)
Definition LLV : FunctionType :=
  rolling Null
    (fun minVal v =>
       if is_null v then minVal
       else if is_null minVal || js_lt (toNumber v) (toNumber minVal) then v else minVal)
    (fun minVal => minVal).

(** COUNT: the elements of the window that are neither null nor 0. *)
Definition COUNT : FunctionType :=
  rolling 0%nat
    (fun count v =>
       if negb (is_null v) && negb (strict_eq v (Num zero)) then S count else count)
    (fun count => Num (of_nat count)).

(** IF: the callback reads [trueValue[i]] and [falseValue[i]] only when
    the tests before them are passed. *)
Definition IF_at (condition : series) (trueValue falseValue : option series) (i : nat)
    : res EvalError value :=
  let cond := at_index condition i in
  if is_null cond then Ok Null
  else
    match trueValue with
    | None => Throw TypeError
    | Some trueValue =>
        if is_null (at_index trueValue i) then Ok Null
        else
          match falseValue with
          | None => Throw TypeError
          | Some falseValue =>
              if is_null (at_index falseValue i) then Ok Null
              else Ok (if negb (strict_eq cond (Num zero))
                       then at_index trueValue i else at_index falseValue i)
          end
    end.

Definition IF : FunctionType := fun args =>
  match arg args 0 with
  | None => Throw TypeError
  | Some condition =>
      push_loop (IF_at condition (arg args 1) (arg args 2)) 0 (length condition)
  end.

Definition ABS : FunctionType := fun args =>
  match arg args 0 with
  | None => Throw TypeError
  | Some data =>
      Ok (map (fun v => if is_null v then Null else Num (js_abs (toNumber v))) data)
  end.

(** MAX and MIN: [a.map((valA, i) => { const valB = b[i]; ... })]. *)
Definition pairwise_at (op : number -> number -> number) (a : series) (b : option series)
    (i : nat) : res EvalError value :=
  match b with
  | None => Throw TypeError
  | Some b =>
      let valA := at_index a i in
      let valB := at_index b i in
      Ok (if is_null valA || is_null valB then Null
          else Num (op (toNumber valA) (toNumber valB)))
  end.

Definition pairwise (op : number -> number -> number) : FunctionType := fun args =>
  match arg args 0 with
  | None => Throw TypeError
  | Some a => push_loop (pairwise_at op a (arg args 1)) 0 (length a)
  end.

Definition MAX : FunctionType := pairwise js_max.
Definition MIN : FunctionType := pairwise js_min.

(** ** Vocabulary for the other built-ins *)

Definition is_nan (x : number) : bool :=
  match x with NaN => true | _ => false end.

(** An element as the data arrays are typed to hold them, short of NaN:
    null or a number that compares with the others. *)
Definition ordinary (v : value) : bool :=
  match v with
  | Null => true
  | Num x => negb (is_nan x)
  | Undefined => false
  end.

(** The sum of the non-null values of a window, or null when there is
    none. *)
Definition window_sum (w : list value) : value :=
  let vs := List.filter non_null w in
  if (0 <? length vs)%nat then Num (fold_left js_add (map toNumber vs) zero) else Null.

(** The elements that COUNT counts. *)
Definition counted (v : value) : bool :=
  negb (is_null v) && negb (strict_eq v (Num zero)).

(** The [n] elements of [data] that end at index [i]. *)
Definition slice (data : series) (n i : nat) : list value :=
  firstn n (skipn (S i - n) data).

(** ** function-registry.ts: the methods of the registry *)

Inductive RegistryError : Type :=
| InvalidFunctionName.

(** The methods of [DefaultFunctionRegistry] on its map of functions.
    Names are the ASCII strings of this development. *)
Module RegistryMethods.

(** [if (!name || typeof name !== 'string') throw ...]: the empty name is
    refused; the test on [func] is settled by its type. *)
Definition registerFunction (name : string) (func : FunctionType)
    (functions : gmap string FunctionType) : res RegistryError (gmap string FunctionType) :=
  match name with
  | EmptyString => Throw InvalidFunctionName
  | String _ _ => Ok (DefaultFunctionRegistry.registerFunction name func functions)
  end.

(** [Map.delete] returns whether the key was there. *)
Definition unregisterFunction (name : string) (functions : gmap string FunctionType)
    : bool * gmap string FunctionType :=
  (bool_decide (is_Some (functions !! toUpperCase name)),
   DefaultFunctionRegistry.unregisterFunction name functions).

Definition getFunction (name : string) (functions : gmap string FunctionType)
    : option FunctionType :=
  DefaultFunctionRegistry.lookup functions name.

Definition hasFunction (name : string) (functions : gmap string FunctionType) : bool :=
  bool_decide (is_Some (functions !! toUpperCase name)).

End RegistryMethods.

(** A registry that holds every built-in embedded here (STD and CV, which
    take square roots, are not). *)
Definition embeddedBuiltins : gmap string FunctionType :=
  DefaultFunctionRegistry.registerFunction "COUNT" COUNT
    (DefaultFunctionRegistry.registerFunction "MIN" MIN
       (DefaultFunctionRegistry.registerFunction "MAX" MAX
          (DefaultFunctionRegistry.registerFunction "ABS" ABS
             (DefaultFunctionRegistry.registerFunction "CROSS" CROSS
                (DefaultFunctionRegistry.registerFunction "IF" IF
                   (DefaultFunctionRegistry.registerFunction "LLV" LLV
                      (DefaultFunctionRegistry.registerFunction "HHV" HHV
                         (DefaultFunctionRegistry.registerFunction "SUM" SUM
                            (DefaultFunctionRegistry.registerFunction "REF" REF
                               (DefaultFunctionRegistry.registerFunction "MA" MA ∅)))))))))).

(** ** data.ts: the builder *)

Inductive DataError : Type :=
| ArraysOfDifferentLength.

Module InputDataBuilder.

Record t : Type := {
  opens : series;
  highs : series;
  lows : series;
  closes : series;
  volumes : series
}.

Definition new : t :=
  {| opens := []; highs := []; lows := []; closes := []; volumes := [] |}.

Definition addBar (open high low close volume : number) (b : t) : t :=
  {| opens := opens b ++ [Num open];
     highs := highs b ++ [Num high];
     lows := lows b ++ [Num low];
     closes := closes b ++ [Num close];
     volumes := volumes b ++ [Num volume] |}.

Definition build (b : t) : res DataError InputData :=
  let numBars := length (opens b) in
  if negb (length (highs b) =? numBars)%nat
     || negb (length (lows b) =? numBars)%nat
     || negb (length (closes b) =? numBars)%nat
     || negb (length (volumes b) =? numBars)%nat
  then Throw ArraysOfDifferentLength
  else Ok (Build_InputData (opens b) (highs b) (lows b) (closes b) (volumes b) numBars).

End InputDataBuilder.

(** A bar: open, high, low, close, volume. *)
Record Bar : Type := {
  bar_open : number;
  bar_high : number;
  bar_low : number;
  bar_close : number;
  bar_volume : number
}.

(** [addBar] for each bar in turn, as [createInputData] of runner.ts does. *)
Definition addBars (bars : list Bar) (b : InputDataBuilder.t) : InputDataBuilder.t :=
  fold_left (fun b bar =>
               InputDataBuilder.addBar (bar_open bar) (bar_high bar) (bar_low bar)
                 (bar_close bar) (bar_volume bar) b)
            bars b.

(** ** Vocabulary for the evaluator *)

(** An expression made of literals, the variables [known], operators and
    parentheses: no function call. *)
Fixpoint plain (known : string -> bool) (e : Expr) : bool :=
  match e with
  | Literal _ => true
  | Var name => known name
  | UnaryOp _ operand => plain known operand
  | BinaryOp lhs _ rhs => plain known lhs && plain known rhs
  | FunctionCall _ _ => false
  | Grouped expr => plain known expr
  end.

Definition builtin_variable (name : string) : bool :=
  String.eqb name "O" || String.eqb name "H" || String.eqb name "L"
  || String.eqb name "C" || String.eqb name "V".

(** Statements whose expressions are plain and use a variable only after
    the statement that assigns it (or as one of [known]). *)
Fixpoint well_scoped (known : string -> bool) (stmts : list Statement) : bool :=
  match stmts with
  | [] => true
  | Assignment x e :: rest =>
      plain known e && well_scoped (fun y => String.eqb y x || known y) rest
  | Output _ e _ :: rest => plain known e && well_scoped known rest
  end.

(** The names of the output lines of a formula, [k] lines being there
    already: the name the statement gives, or [output_] and the rank of
    the line among all lines. *)
Fixpoint line_names (k : nat) (stmts : list Statement) : list string :=
  match stmts with
  | [] => []
  | Assignment _ _ :: rest => line_names k rest
  | Output nm _ _ :: rest =>
      match nm with
      | Some (String c s) => String c s
      | _ => Evaluator.output_name (k + 1)
      end :: line_names (S k) rest
  end.

Fixpoint line_styles (stmts : list Statement) : list (list PlotStyle) :=
  match stmts with
  | [] => []
  | Assignment _ _ :: rest => line_styles rest
  | Output _ _ sty :: rest => sty :: line_styles rest
  end.

(** The expression of a statement. *)
Definition statement_expr (s : Statement) : Expr :=
  match s with
  | Assignment _ e => e
  | Output _ e _ => e
  end.

(** ** Vocabulary for the lexer *)

(** A string without its first [n] characters. *)
Fixpoint string_drop (n : nat) (s : string) : string :=
  match n, s with
  | O, _ => s
  | S n', String _ s' => string_drop n' s'
  | S _, EmptyString => EmptyString
  end.

(** The text that a lexer has not consumed yet. *)
Definition remaining_text (lx : Lexer.t) : string :=
  string_drop (Lexer.position lx) (Lexer.input lx).

(** Every character of a string passes a test. *)
Fixpoint string_forall (test : ascii -> bool) (s : string) : bool :=
  match s with
  | EmptyString => true
  | String c s' => test c && string_forall test s'
  end.

(** A text that does not start with a character passing the test. *)
Definition stops (test : ascii -> bool) (s : string) : bool :=
  match s with
  | EmptyString => true
  | String c _ => negb (test c)
  end.

(** The line feeds of a string. *)
Fixpoint line_feeds (s : string) : nat :=
  match s with
  | EmptyString => 0
  | String c s' => (if Ascii.eqb c LF then 1 else 0) + line_feeds s'
  end.

(** How the operators and punctuation marks are written. *)
Definition spelling (kind : TokenType.t) : option string :=
  match kind with
  | TokenType.LParen => Some "("
  | TokenType.RParen => Some ")"
  | TokenType.Comma => Some ","
  | TokenType.Semicolon => Some ";"
  | TokenType.Plus => Some "+"
  | TokenType.Minus => Some "-"
  | TokenType.Star => Some "*"
  | TokenType.Slash => Some "/"
  | TokenType.Colon => Some ":"
  | TokenType.Gt => Some ">"
  | TokenType.Lt => Some "<"
  | TokenType.ColonAssign => Some ":="
  | TokenType.GtEq => Some ">="
  | TokenType.LtEq => Some "<="
  | TokenType.NotEq => Some "<>"
  | TokenType.EqEq => Some "=="
  | _ => None
  end%string.

(** The text after a one-character operator makes a longer operator with
    it. *)
Definition extends (kind : TokenType.t) (tail : string) : bool :=
  match kind, tail with
  | (TokenType.Colon | TokenType.Gt), String c _ => Ascii.eqb c "="
  | TokenType.Lt, String c _ => Ascii.eqb c "=" || Ascii.eqb c ">"
  | _, _ => false
  end.

(** Two lexers return tokens of the same kinds and lexemes, call after
    call. *)
Definition tokens_alike (lx1 lx2 : Lexer.t) : Prop :=
  forall n, same_token (fst (nth_call n lx1)) (fst (nth_call n lx2)).

(** The kinds of token after which a loop over [nextToken] stops. *)
Definition closing (kind : TokenType.t) : bool :=
  match kind with
  | TokenType.Eof | TokenType.Illegal => true
  | _ => false
  end.

(** The levels of the binary operators, from the loosest to the
    tightest: [OR], [AND], the comparisons, the additive and the
    multiplicative operators. *)
Definition level (operator : BinaryOperator.t) : nat :=
  match operator with
  | BinaryOperator.Or => 1
  | BinaryOperator.And => 2
  | BinaryOperator.Gt | BinaryOperator.Lt | BinaryOperator.GtEq
  | BinaryOperator.LtEq | BinaryOperator.EqEq | BinaryOperator.NotEq => 3
  | BinaryOperator.Add | BinaryOperator.Sub => 4
  | BinaryOperator.Mul | BinaryOperator.Div => 5
  end.

(** A run of the parser that has not thrown the error of
    [getBinaryOperator]. *)
Definition known_operator {A : Type} (r : res ParseError A) : Prop :=
  match r with
  | Throw (InvalidBinaryOperator _) => False
  | _ => True
  end.

(** The kinds of token at which every production of the parser stops:
    the end of input and the kinds that no production accepts. *)
Definition stopping (kind : TokenType.t) : bool :=
  unconsumable kind || TokenType.eqb kind TokenType.Eof.

(** Such a token is [k] tokens ahead of the parser. *)
Definition StopAt {Src : Type} (pull : Src -> Token * Src) (k : nat) (p : Parser.t Src)
    : Prop :=
  stopping (pending pull p k) = true.

(** The outcome of a parsing function that started with such a token [k]
    tokens ahead: it has thrown, or it has returned with the token still
    ahead (strictly nearer when [strict]); it has not run out of fuel. *)
Definition halts {Src A : Type} (pull : Src -> Token * Src) (k : nat) (strict : bool)
    (r : res ParseError (A * Parser.t Src)) : Prop :=
  match r with
  | Throw _ => True
  | Ok (_, p') =>
      exists k', StopAt pull k' p' /\ if strict then (k' < k)%nat else (k' <= k)%nat
  | OutOfFuel => False
  end.

(** A run that has ended: with a result or with an error. *)
Definition ended {E A : Type} (r : res E A) : Prop :=
  match r with
  | OutOfFuel => False
  | _ => True
  end.

(** More fuel does not change a run that has ended. *)
Definition settled {E A : Type} (r r' : res E A) : Prop :=
  match r with
  | OutOfFuel => True
  | _ => r' = r
  end.

(** * Properties *)

(** ** Arithmetic of whole numbers *)

Section WholeNumbers.

Lemma Qred_inject_Z (z : Z) : Qred (inject_Z z) = inject_Z z.
Proof.
  unfold Qred, inject_Z.
  pose proof (Z.ggcd_correct_divisors z 1) as Hd.
  pose proof (Z.ggcd_gcd z 1) as Hg.
  destruct (Z.ggcd z 1) as [g [aa bb]]. simpl in *.
  rewrite Z.gcd_1_r in Hg. subst g.
  destruct Hd as [Ha Hb]. rewrite Z.mul_1_l in Ha, Hb.
  rewrite <- Ha, <- Hb. reflexivity.
Qed.

Lemma Qred_whole (q : Q) (z : Z) : (q == inject_Z z)%Q -> Qred q = inject_Z z.
Proof.
  intros H. rewrite (Qred_complete _ _ H). apply Qred_inject_Z.
Qed.

Lemma Qcompare_inject_Z (a b : Z) : (inject_Z a ?= inject_Z b)%Q = (a ?= b)%Z.
Proof. unfold Qcompare, inject_Z. simpl. now rewrite !Z.mul_1_r. Qed.

Lemma js_lt_of_Z (a b : Z) : js_lt (of_Z a) (of_Z b) = (a <? b)%Z.
Proof.
  unfold js_lt, of_Z. rewrite Qcompare_inject_Z. unfold Z.ltb.
  now destruct (a ?= b)%Z.
Qed.

Lemma js_eq_of_Z (a b : Z) : js_eq (of_Z a) (of_Z b) = (a =? b)%Z.
Proof.
  unfold js_eq, of_Z, Qeq_bool, inject_Z. simpl. now rewrite !Z.mul_1_r.
Qed.

Lemma js_le_of_Z (a b : Z) : js_le (of_Z a) (of_Z b) = (a <=? b)%Z.
Proof.
  unfold js_le. rewrite js_lt_of_Z, js_eq_of_Z. lia.
Qed.

Lemma js_add_whole (p q : Q) (a b : Z) :
  (p == inject_Z a)%Q -> (q == inject_Z b)%Q -> js_add (Fin p) (Fin q) = of_Z (a + b).
Proof.
  intros Hp Hq. unfold js_add, of_Z. f_equal. apply Qred_whole.
  rewrite Hp, Hq. now rewrite inject_Z_plus.
Qed.

Lemma js_sub_whole (p q : Q) (a b : Z) :
  (p == inject_Z a)%Q -> (q == inject_Z b)%Q -> js_sub (Fin p) (Fin q) = of_Z (a - b).
Proof.
  intros Hp Hq. unfold js_sub, js_neg. apply js_add_whole; [exact Hp|].
  rewrite Qred_correct, Hq. now rewrite inject_Z_opp.
Qed.

Lemma js_le_of_nat (a b : nat) : js_le (of_nat a) (of_nat b) = (a <=? b)%nat.
Proof.
  unfold of_nat. rewrite js_le_of_Z.
  destruct (a <=? b)%nat eqn:H.
  - apply Nat.leb_le in H. apply Z.leb_le. lia.
  - apply Nat.leb_gt in H. apply Z.leb_gt. lia.
Qed.

Lemma js_succ_of_nat (j : nat) : js_add (of_nat j) one = of_nat (S j).
Proof.
  unfold one, of_nat, of_Z. rewrite (js_add_whole _ _ (Z.of_nat j) 1) by reflexivity.
  unfold of_Z. do 2 f_equal. lia.
Qed.

Lemma get_of_nat (data : series) (i : nat) : get data (of_nat i) = at_index data i.
Proof.
  unfold get, of_nat, of_Z. rewrite Qred_inject_Z. simpl.
  assert (H : (0 <=? Z.of_nat i)%Z = true) by (apply Z.leb_le; lia).
  rewrite H. now rewrite Nat2Z.id.
Qed.

End WholeNumbers.

(** ** Loops over arrays *)

Section ArrayLoops.

Context {A B : Type}.

Lemma mapi_from_length (f : A -> nat -> B) (k : nat) (l : list A) :
  length (mapi_from f k l) = length l.
Proof. revert k. induction l as [|x l IH]; intros k; simpl; [|rewrite IH]; reflexivity. Qed.

Lemma mapi_length (f : A -> nat -> B) (l : list A) : length (mapi f l) = length l.
Proof. apply mapi_from_length. Qed.

Lemma nth_mapi_from (f : A -> nat -> B) (k i : nat) (l : list A) (d : B) (d' : A) :
  (i < length l)%nat -> nth i (mapi_from f k l) d = f (nth i l d') (k + i)%nat.
Proof.
  revert k i. induction l as [|x l IH]; intros k i Hi; simpl in *; [lia|].
  destruct i as [|i].
  - now rewrite Nat.add_0_r.
  - rewrite IH by lia. f_equal. lia.
Qed.

Lemma nth_mapi (f : A -> nat -> B) (i : nat) (l : list A) (d : B) (d' : A) :
  (i < length l)%nat -> nth i (mapi f l) d = f (nth i l d') i.
Proof. intros Hi. unfold mapi. now rewrite (nth_mapi_from f 0 i l d d') by exact Hi. Qed.

End ArrayLoops.

Lemma push_loop_Ok {E A} (body : nat -> res E A) (f : nat -> A) (k n : nat) :
  (forall i, (k <= i < k + n)%nat -> body i = Ok (f i)) ->
  push_loop body k n = Ok (map f (seq k n)).
Proof.
  revert k. induction n as [|n IH]; intros k Hb; simpl; [reflexivity|].
  rewrite Hb by lia. simpl. rewrite IH; [reflexivity|].
  intros i Hi. apply Hb. lia.
Qed.

Lemma at_index_map_seq (f : nat -> value) (n i : nat) :
  (i < n)%nat -> at_index (map f (seq 0 n)) i = f i.
Proof.
  intros Hi. unfold at_index.
  rewrite (nth_indep _ Undefined (f 0%nat)) by now rewrite length_map, length_seq.
  rewrite (map_nth f (seq 0 n) 0%nat i). now rewrite seq_nth.
Qed.

Lemma mapi_at_index_id (data : series) :
  mapi (fun _ i => at_index data i) data = data.
Proof.
  apply nth_ext with (d := Undefined) (d' := Undefined).
  - apply mapi_length.
  - intros i Hi. rewrite mapi_length in Hi.
    now rewrite (nth_mapi _ i data Undefined Undefined).
Qed.

(** ** REF *)

Lemma js_eq_zero (k : number) :
  js_eq k zero = true -> exists q, k = Fin q /\ (q == inject_Z 0)%Q.
Proof.
  destruct k as [q| | |]; simpl; try discriminate.
  intros H. exists q. split; [reflexivity|]. now apply Qeq_bool_eq.
Qed.

Lemma REF_elements (X : series) (k : number) (rest : series) :
  js_lt k zero = false ->
  REF [X; Num k :: rest] =
    Ok (mapi (fun _ i =>
                if js_ge (js_sub (of_nat i) k) zero
                then get X (js_sub (of_nat i) k) else Null) X).
Proof. intros Hk. unfold REF. simpl. now rewrite Hk. Qed.

Lemma js_ge_not_lt (k : number) : js_ge k zero = true -> js_lt k zero = false.
Proof.
  destruct k as [q| | |]; simpl; try reflexivity; try discriminate.
  unfold js_ge, js_le, js_lt, js_eq, zero, of_Z.
  intros H. apply orb_true_iff in H.
  destruct (q ?= inject_Z 0)%Q eqn:Hc; try reflexivity.
  destruct H as [H|H].
  - rewrite <- Qcompare_antisym, Hc in H. discriminate.
  - apply Qeq_bool_eq in H. symmetry in H. apply Qeq_alt in H. congruence.
Qed.

(** C6.  [REF(X, 0)] is [X]; for an offset [k >= 0] the element at [i] is
    [X[i - k]] when [i - k >= 0] and null otherwise (for a whole offset
    [n]: [X[i - n]] when [n <= i]); a negative offset is an error and no
    series is returned. *)
Theorem REF_offset (X : series) (k : number) (rest : series) :
  (js_eq k zero = true -> REF [X; Num k :: rest] = Ok X)
  /\ (js_ge k zero = true ->
      exists out,
        REF [X; Num k :: rest] = Ok out
        /\ length out = length X
        /\ forall i, (i < length X)%nat ->
             at_index out i =
               if js_ge (js_sub (of_nat i) k) zero
               then get X (js_sub (of_nat i) k) else Null)
  /\ (forall n : nat, k = of_nat n ->
      exists out,
        REF [X; Num k :: rest] = Ok out
        /\ length out = length X
        /\ forall i, (i < length X)%nat ->
             at_index out i = if (n <=? i)%nat then at_index X (i - n) else Null)
  /\ (js_lt k zero = true -> REF [X; Num k :: rest] = Throw RefNegativeOffset).
Proof.
  assert (Helem : forall out,
    out = mapi (fun _ i => if js_ge (js_sub (of_nat i) k) zero
                           then get X (js_sub (of_nat i) k) else Null) X ->
    length out = length X /\
    forall i, (i < length X)%nat ->
      at_index out i = if js_ge (js_sub (of_nat i) k) zero
                       then get X (js_sub (of_nat i) k) else Null).
  { intros out ->. split; [apply mapi_length|].
    intros i Hi. unfold at_index.
    now rewrite (nth_mapi _ i X Undefined Undefined) by exact Hi. }
  repeat split.
  - intros Hz. destruct (js_eq_zero k Hz) as (q & -> & Hq).
    rewrite REF_elements.
    + f_equal. transitivity (mapi (fun _ i => at_index X i) X);
        [|apply mapi_at_index_id].
      apply nth_ext with (d := Undefined) (d' := Undefined).
      * now rewrite !mapi_length.
      * intros i Hi. rewrite mapi_length in Hi.
        rewrite !(nth_mapi _ i X Undefined Undefined) by exact Hi.
        unfold of_nat at 1 2, of_Z.
        rewrite (js_sub_whole _ _ (Z.of_nat i) 0) by (try reflexivity; exact Hq).
        rewrite Z.sub_0_r.
        unfold zero. unfold js_ge. rewrite js_le_of_Z.
        assert (H0 : (0 <=? Z.of_nat i)%Z = true) by (apply Z.leb_le; lia).
        rewrite H0. apply (get_of_nat X i).
    + simpl. unfold zero, of_Z. rewrite (proj1 (Qeq_alt _ _) Hq). reflexivity.
  - intros Hk. eexists. split; [apply REF_elements, js_ge_not_lt, Hk|].
    now apply Helem.
  - intros n ->. eexists. split.
    + apply REF_elements. unfold of_nat, zero. rewrite js_lt_of_Z.
      apply Z.ltb_ge. lia.
    + destruct (Helem _ eq_refl) as [Hlen Hel]. split; [exact Hlen|].
      intros i Hi. rewrite (Hel i Hi).
      unfold of_nat at 1 2 3 4, of_Z.
      rewrite (js_sub_whole _ _ (Z.of_nat i) (Z.of_nat n)) by reflexivity.
      unfold zero, js_ge. rewrite js_le_of_Z.
      destruct (n <=? i)%nat eqn:Hn.
      * apply Nat.leb_le in Hn.
        assert (H0 : (0 <=? Z.of_nat i - Z.of_nat n)%Z = true) by (apply Z.leb_le; lia).
        rewrite H0. rewrite <- Nat2Z.inj_sub by exact Hn. apply get_of_nat.
      * apply Nat.leb_gt in Hn.
        assert (H0 : (0 <=? Z.of_nat i - Z.of_nat n)%Z = false) by (apply Z.leb_gt; lia).
        now rewrite H0.
  - intros Hk. unfold REF. simpl. now rewrite Hk.
Qed.

(** ** CROSS *)

Lemma one_neq_zero : Num one <> Num zero.
Proof. discriminate. Qed.

(** C5.  Every element of [CROSS(a, b)] is 0 or 1, never null; the first
    is 0; the element at [i > 0] is 1 exactly when the four values
    [a[i-1]], [b[i-1]], [a[i]], [b[i]] are not null, [a[i-1] < b[i-1]] and
    [a[i] > b[i]].  The lengths of [a] and [b] need not even agree. *)
Theorem CROSS_upward (a b : series) :
  exists out,
    CROSS [a; b] = Ok out
    /\ length out = length a
    /\ (forall i, (i < length a)%nat ->
          at_index out i = Num zero \/ at_index out i = Num one)
    /\ ((0 < length a)%nat -> at_index out 0 = Num zero)
    /\ (forall i, (0 < i < length a)%nat ->
          (at_index out i = Num one <->
             is_null (at_index a (i - 1)) = false
             /\ is_null (at_index b (i - 1)) = false
             /\ is_null (at_index a i) = false
             /\ is_null (at_index b i) = false
             /\ js_lt (toNumber (at_index a (i - 1))) (toNumber (at_index b (i - 1))) = true
             /\ js_gt (toNumber (at_index a i)) (toNumber (at_index b i)) = true)).
Proof.
  pose (f := fun i : nat =>
    if (i =? 0)%nat || is_null (at_index a i) || is_null (at_index b i)
       || is_null (at_index a (i - 1)) || is_null (at_index b (i - 1))
    then Num zero
    else Num (if js_lt (toNumber (at_index a (i - 1))) (toNumber (at_index b (i - 1)))
                 && js_gt (toNumber (at_index a i)) (toNumber (at_index b i))
              then one else zero)).
  assert (Hbody : forall i, CROSS_at a (Some b) i = Ok (f i)).
  { intros i. unfold CROSS_at, f.
    destruct (i =? 0)%nat, (is_null (at_index a i)), (is_null (at_index b i)),
      (is_null (at_index a (i - 1))), (is_null (at_index b (i - 1))); reflexivity. }
  exists (map f (seq 0 (length a))).
  split; [|split; [|split; [|split]]].
  - unfold CROSS. simpl. apply push_loop_Ok. intros i _. apply Hbody.
  - now rewrite length_map, length_seq.
  - intros i Hi. rewrite at_index_map_seq by exact Hi. unfold f.
    destruct (_ || _); [now left|].
    destruct (_ && _); [now right|now left].
  - intros Hi. rewrite at_index_map_seq by exact Hi. reflexivity.
  - intros i [Hpos Hi]. rewrite at_index_map_seq by exact Hi. unfold f.
    assert (Hi0 : (i =? 0)%nat = false) by (apply Nat.eqb_neq; lia).
    rewrite Hi0. simpl.
    destruct (is_null (at_index a i)), (is_null (at_index b i)),
      (is_null (at_index a (i - 1))), (is_null (at_index b (i - 1))); simpl;
      try (split; [intros H; discriminate H | intros (? & ? & ? & ? & _); discriminate]).
    destruct (js_lt _ _), (js_gt _ _); simpl;
      (split; [intros H; try discriminate H; auto 10
              | intros (_ & _ & _ & _ & ? & ?); try discriminate; reflexivity]).
Qed.

(** ** Binary operators *)

Lemma evaluateExpr_BinaryOp (ev : Evaluator.t) (l r : Expr) (op : BinaryOperator.t)
    (lv rv : series) :
  Evaluator.evaluateExpr ev l = Ok lv ->
  Evaluator.evaluateExpr ev r = Ok rv ->
  Evaluator.evaluateExpr ev (BinaryOp l op r) = binaryOpSeries op lv rv.
Proof. intros Hl Hr. simpl. now rewrite Hl, Hr. Qed.

Lemma binaryOpSeries_Ok (op : BinaryOperator.t) (lv rv : series) :
  length lv = length rv ->
  exists out,
    binaryOpSeries op lv rv = Ok out
    /\ length out = length lv
    /\ forall i, (i < length lv)%nat ->
         at_index out i = binaryOp op (at_index lv i) (at_index rv i).
Proof.
  intros Hlen. unfold binaryOpSeries.
  rewrite (proj2 (Nat.eqb_eq _ _) Hlen). simpl.
  eexists. split; [reflexivity|]. split; [apply mapi_length|].
  intros i Hi. unfold at_index at 1.
  now rewrite (nth_mapi _ i lv Undefined Undefined) by exact Hi.
Qed.

(** C2.  Where both operands of [/] are not null and the right one is 0,
    the result is null: evaluation does not throw and the element is no
    number at all, hence no infinity. *)
Theorem Div_by_zero_is_null (ev : Evaluator.t) (l r : Expr) (lv rv : series) :
  Evaluator.evaluateExpr ev l = Ok lv ->
  Evaluator.evaluateExpr ev r = Ok rv ->
  length lv = length rv ->
  exists out,
    Evaluator.evaluateExpr ev (BinaryOp l BinaryOperator.Div r) = Ok out
    /\ forall i q, (i < length lv)%nat ->
         is_null (at_index lv i) = false ->
         at_index rv i = Num (Fin q) -> (q == 0)%Q ->
         at_index out i = Null
         /\ forall x, at_index out i = Num x -> is_infinite x = false.
Proof.
  intros Hl Hr Hlen.
  destruct (binaryOpSeries_Ok BinaryOperator.Div lv rv Hlen) as (out & Hout & _ & Hel).
  exists out. split; [now rewrite (evaluateExpr_BinaryOp ev l r _ lv rv)|].
  intros i q Hi Hnl Hrv Hq.
  assert (Hnull : at_index out i = Null).
  { assert (Hb : strict_eq (Num (Fin q)) (Num zero) = true)
      by (simpl; apply Qeq_eq_bool; exact Hq).
    rewrite (Hel i Hi), Hrv. unfold binaryOp. rewrite Hnl.
    cbn [is_null orb]. now rewrite Hb. }
  split; [exact Hnull|]. intros x Hx. rewrite Hnull in Hx. discriminate.
Qed.

(** Without the guard the quotient would be an infinity. *)
Example unguarded_division : js_div one zero = PInf.
Proof. reflexivity. Qed.

(** C3.  A binary operation on operands of different lengths is an error;
    on operands of one length the result is elementwise: null where an
    operand is null, 1 or 0 for a comparison, and for [And]/[Or] the 1 or 0
    of the conjunction or disjunction of "is not zero". *)
Theorem BinaryOp_elementwise (ev : Evaluator.t) (l r : Expr) (op : BinaryOperator.t)
    (lv rv : series) :
  Evaluator.evaluateExpr ev l = Ok lv ->
  Evaluator.evaluateExpr ev r = Ok rv ->
  (length lv <> length rv ->
     Evaluator.evaluateExpr ev (BinaryOp l op r) = Throw BinaryLengthMismatch)
  /\ (length lv = length rv ->
      exists out,
        Evaluator.evaluateExpr ev (BinaryOp l op r) = Ok out
        /\ length out = length lv
        /\ forall i, (i < length lv)%nat ->
             let x := at_index lv i in
             let y := at_index rv i in
             (is_null x || is_null y = true -> at_index out i = Null)
             /\ (is_null x || is_null y = false ->
                 (is_comparison op = true ->
                    at_index out i = Num one \/ at_index out i = Num zero)
                 /\ (op = BinaryOperator.And ->
                      at_index out i = bit (truthy x && truthy y))
                 /\ (op = BinaryOperator.Or ->
                      at_index out i = bit (truthy x || truthy y)))).
Proof.
  intros Hl Hr. rewrite (evaluateExpr_BinaryOp ev l r op lv rv Hl Hr). split.
  - intros Hne. unfold binaryOpSeries.
    now rewrite (proj2 (Nat.eqb_neq _ _) Hne).
  - intros Hlen.
    destruct (binaryOpSeries_Ok op lv rv Hlen) as (out & Hout & Hlo & Hel).
    exists out. split; [exact Hout|]. split; [exact Hlo|].
    intros i Hi x y. rewrite (Hel i Hi). fold x y. unfold binaryOp. split.
    + intros ->. reflexivity.
    + intros ->. split; [|split].
      * destruct op; simpl; try discriminate; intros _; unfold bit;
          match goal with |- context [if ?b then one else zero] => destruct b end;
          auto.
      * intros ->. reflexivity.
      * intros ->. reflexivity.
Qed.

(** ** MA *)

Section MovingAverage.

(** One step of the inner loop on an element of the window. *)
Let step (acc : number * nat) (v : value) : number * nat :=
  if is_null v then acc else (js_add (fst acc) (toNumber v), S (snd acc)).

Lemma MA_window_whole (data : series) (i : nat) :
  forall len j fuel sum count,
    (j + len = S i)%nat -> (len < fuel)%nat ->
    MA_window fuel data i (of_nat j) sum count =
      Ok (fold_left step (map (at_index data) (seq j len)) (sum, count)).
Proof.
  induction len as [|len IH]; intros j fuel sum count Hj Hf.
  - destruct fuel as [|fuel]; [lia|]. cbn [MA_window].
    rewrite js_le_of_nat.
    assert (H : (j <=? i)%nat = false) by (apply Nat.leb_gt; lia).
    now rewrite H.
  - destruct fuel as [|fuel]; [lia|]. cbn [MA_window seq map fold_left].
    rewrite js_le_of_nat.
    assert (H : (j <=? i)%nat = true) by (apply Nat.leb_le; lia).
    rewrite H, get_of_nat, js_succ_of_nat. unfold step at 2.
    destruct (is_null (at_index data j)); apply IH; lia.
Qed.

Lemma fold_step (w : list value) :
  forall sum count,
    fold_left step w (sum, count) =
      (fold_left js_add (map toNumber (List.filter non_null w)) sum,
       (count + length (List.filter non_null w))%nat).
Proof.
  induction w as [|v w IH]; intros sum count; simpl.
  - now rewrite Nat.add_0_r.
  - cbn [fold_left filter]. unfold step at 2.
    change (non_null v) with (negb (is_null v)).
    destruct (is_null v); cbn [negb fst snd map length fold_left].
    + apply IH.
    + rewrite IH. f_equal. lia.
Qed.

Lemma filter_seq_from (j0 len : nat) :
  List.filter (fun j => (j0 <=? j)%nat) (seq 0 (j0 + len)) = seq j0 len.
Proof.
  rewrite seq_app, List.filter_app. simpl.
  assert (H1 : List.filter (fun j => (j0 <=? j)%nat) (seq 0 j0) = []).
  { rewrite (List.filter_ext_in _ (fun _ => false)); [apply List.filter_false|].
    intros x Hx. apply in_seq in Hx. apply Nat.leb_gt. lia. }
  assert (H2 : List.filter (fun j => (j0 <=? j)%nat) (seq j0 len) = seq j0 len).
  { apply List.forallb_filter_id. apply forallb_forall. intros x Hx.
    apply in_seq in Hx. apply Nat.leb_le. lia. }
  now rewrite H1, H2.
Qed.

(** For a whole period the window is the slice of [n] elements that ends
    at [i]. *)
Lemma window_whole (data : series) (q : Q) (n i : nat) :
  (q == inject_Z (Z.of_nat n))%Q -> (n <= S i)%nat ->
  window data (Fin q) i = map (at_index data) (seq (S i - n) n).
Proof.
  intros Hq Hn. unfold window. f_equal.
  assert (Hstart : js_add (js_sub (of_nat i) (Fin q)) one = of_nat (S i - n)).
  { unfold of_nat at 1, of_Z.
    rewrite (js_sub_whole _ _ (Z.of_nat i) (Z.of_nat n)) by (try reflexivity; exact Hq).
    unfold one, of_Z.
    rewrite (js_add_whole _ _ (Z.of_nat i - Z.of_nat n) 1) by reflexivity.
    unfold of_nat. f_equal. lia. }
  rewrite Hstart.
  rewrite (List.filter_ext _ (fun j => (S i - n <=? j)%nat))
    by (intros j; apply js_le_of_nat).
  remember (S i - n)%nat as j0 eqn:Hj0.
  replace (S i) with (j0 + n)%nat by lia.
  apply filter_seq_from.
Qed.

Lemma slice_at_index (data : series) (j n : nat) :
  (j + n <= length data)%nat ->
  firstn n (skipn j data) = map (at_index data) (seq j n).
Proof.
  intros Hlen. apply nth_ext with (d := Undefined) (d' := Undefined).
  - rewrite length_firstn, length_skipn, length_map, length_seq. lia.
  - intros k Hk. rewrite length_firstn, length_skipn in Hk.
    rewrite nth_firstn.
    assert (Hkn : (k <? n)%nat = true) by (apply Nat.ltb_lt; lia).
    rewrite Hkn, nth_skipn.
    rewrite (nth_indep (map (at_index data) (seq j n)) Undefined (at_index data 0))
      by (rewrite length_map, length_seq; lia).
    rewrite (map_nth (at_index data) (seq j n) 0%nat k), seq_nth by lia.
    reflexivity.
Qed.

Lemma MA_at_whole (data : series) (q : Q) (n i : nat) :
  (1 <= n)%nat -> (q == inject_Z (Z.of_nat n))%Q ->
  MA_at data (Fin q) i =
    Ok (if (S i <? n)%nat then Null
        else window_average (map (at_index data) (seq (S i - n) n))).
Proof.
  intros Hn Hq. unfold MA_at.
  assert (Hp1 : js_sub (Fin q) one = of_Z (Z.of_nat n - 1)).
  { unfold one, of_Z. now rewrite (js_sub_whole _ _ (Z.of_nat n) 1). }
  rewrite Hp1. unfold of_nat at 1. rewrite js_lt_of_Z.
  destruct (S i <? n)%nat eqn:Hi.
  - apply Nat.ltb_lt in Hi.
    assert (H : (Z.of_nat i <? Z.of_nat n - 1)%Z = true) by (apply Z.ltb_lt; lia).
    now rewrite H.
  - apply Nat.ltb_ge in Hi.
    assert (H : (Z.of_nat i <? Z.of_nat n - 1)%Z = false) by (apply Z.ltb_ge; lia).
    rewrite H.
    assert (Hstart : js_add (js_sub (of_nat i) (Fin q)) one = of_nat (S i - n)).
    { unfold of_nat at 1, of_Z.
      rewrite (js_sub_whole _ _ (Z.of_nat i) (Z.of_nat n)) by (try reflexivity; exact Hq).
      unfold one, of_Z.
      rewrite (js_add_whole _ _ (Z.of_nat i - Z.of_nat n) 1) by reflexivity.
      unfold of_nat. f_equal. lia. }
    rewrite Hstart.
    rewrite (MA_window_whole data i n (S i - n)) by lia.
    rewrite fold_step. cbn [bind]. unfold window_average. reflexivity.
Qed.

End MovingAverage.

(** C1, for whole periods.  When the first element of the period series is
    a whole number [n >= 1], [MA] returns a series as long as [data] whose
    elements before index [n - 1] are null and whose element at
    [i >= n - 1] is the average of the non-null values among the [n]
    elements [data[i-n+1..i]], or null when all of them are null. *)
Theorem MA_whole_period (data rest : series) (q : Q) (n : nat) :
  (1 <= n)%nat -> (q == inject_Z (Z.of_nat n))%Q ->
  exists out,
    MA [data; Num (Fin q) :: rest] = Ok out
    /\ MA_spec data (Fin q) out
    /\ forall i, (i < length data)%nat ->
         ((S i < n)%nat -> at_index out i = Null)
         /\ ((n <= S i)%nat ->
             at_index out i = window_average (firstn n (skipn (S i - n) data))).
Proof.
  intros Hn Hq.
  pose (f := fun i : nat =>
    if (S i <? n)%nat then Null
    else window_average (map (at_index data) (seq (S i - n) n))).
  exists (map f (seq 0 (length data))).
  assert (Hp1 : js_sub (Fin q) one = of_Z (Z.of_nat n - 1)).
  { unfold one, of_Z. now rewrite (js_sub_whole _ _ (Z.of_nat n) 1). }
  split; [|split].
  - unfold MA. cbn [arg nth_error getNumberArg is_null toNumber bind].
    apply push_loop_Ok. intros i _. now apply MA_at_whole.
  - split; [now rewrite length_map, length_seq|].
    intros i Hi. rewrite at_index_map_seq by exact Hi. unfold f.
    rewrite Hp1. unfold js_ge.
    change (of_nat i) with (of_Z (Z.of_nat i)). rewrite js_lt_of_Z, js_le_of_Z.
    split; intros H.
    + apply Z.ltb_lt in H.
      assert (H' : (S i <? n)%nat = true) by (apply Nat.ltb_lt; lia).
      now rewrite H'.
    + apply Z.leb_le in H.
      assert (H' : (S i <? n)%nat = false) by (apply Nat.ltb_ge; lia).
      rewrite H'. rewrite (window_whole data q n i) by (try exact Hq; lia).
      reflexivity.
  - intros i Hi. rewrite at_index_map_seq by exact Hi. unfold f. split; intros H.
    + assert (H' : (S i <? n)%nat = true) by (apply Nat.ltb_lt; lia).
      now rewrite H'.
    + assert (H' : (S i <? n)%nat = false) by (apply Nat.ltb_ge; lia).
      rewrite H'. rewrite slice_at_index by lia. reflexivity.
Qed.

(** C1 as the specification states it fails for a fractional period: with
    the period 2.5 the window loop starts at index 0.5, reads [undefined]
    and yields NaN, where the specification promises the average 12.5 of
    [data[1..2]]. *)
Lemma MA_fractional_period :
  ~ MA_claim sample_closes (repeat (Num (Fin (5 # 2))) 5).
Proof.
  intros H.
  destruct (H (Fin (5 # 2)) (repeat (Num (Fin (5 # 2))) 4) eq_refl eq_refl)
    as (out & Hout & _ & Hspec).
  vm_compute in Hout. injection Hout as <-.
  destruct (Hspec 2%nat ltac:(simpl; lia)) as [_ Hge].
  specialize (Hge eq_refl). vm_compute in Hge. discriminate Hge.
Qed.

Example MA_fractional_period_value :
  MA [sample_closes; repeat (Num (Fin (5 # 2))) 5]
  = Ok [Null; Null; Num NaN; Num NaN; Num NaN].
Proof. reflexivity. Qed.

Lemma MA_whole_period_witness :
  exists out,
    MA [sample_closes; repeat (Num (of_nat 3)) 5] = Ok out
    /\ MA_spec sample_closes (of_nat 3) out
    /\ forall i, (i < length sample_closes)%nat ->
         ((S i < 3)%nat -> at_index out i = Null)
         /\ ((3 <= S i)%nat ->
             at_index out i = window_average (firstn 3 (skipn (S i - 3) sample_closes))).
Proof.
  apply (MA_whole_period sample_closes (repeat (Num (of_nat 3)) 4) (inject_Z 3) 3).
  - lia.
  - reflexivity.
Defined.

Example MA_scenario_A :
  MA [sample_closes; repeat (Num (of_nat 3)) 5]
  = Ok [Null; Null; Num (of_Z 12); Num (of_Z 13); Num (of_Z 14)].
Proof. reflexivity. Qed.

(** ** Reusing an evaluator *)

Section EvaluatorReuse.

Import Evaluator.

Lemma executeStatement_effect (ev ev' : Evaluator.t) (s : Statement)
    (r : option OutputLineResult) :
  executeStatement ev s = (Ok r, ev') ->
  outputLines ev' = outputLines ev
  /\ match s with
     | Assignment x _ =>
         r = None /\ exists v, environment ev' = <[x := v]> (environment ev)
     | Output _ _ _ => r <> None /\ environment ev' = environment ev
     end.
Proof.
  destruct s as [x e | nm e st]; simpl.
  - unfold executeAssignment. destruct (evaluateExpr ev e) as [v| |]; intros H;
      inversion H; subst; simpl. split; [reflexivity|]. split; [reflexivity|].
    now exists v.
  - unfold executeOutput. destruct (evaluateExpr ev e) as [v| |]; intros H;
      inversion H; subst; simpl. split; [reflexivity|]. split; [discriminate|].
    reflexivity.
Qed.

Lemma executeStatements_effect (stmts : list Statement) :
  forall (ev ev' : Evaluator.t) (u : unit),
    executeStatements ev stmts = (Ok u, ev') ->
    (forall x, is_Some (environment ev !! x) -> is_Some (environment ev' !! x))
    /\ (forall x e, In (Assignment x e) stmts -> is_Some (environment ev' !! x))
    /\ (forall x, (forall e, ~ In (Assignment x e) stmts) ->
          environment ev' !! x = environment ev !! x)
    /\ exists lines,
         outputLines ev' = outputLines ev ++ lines
         /\ length lines = count_outputs stmts.
Proof.
  induction stmts as [|s stmts IH]; intros ev ev' u H.
  - simpl in H. inversion H; subst. repeat split; auto.
    + intros x e [].
    + exists []. now rewrite app_nil_r.
  - simpl in H.
    destruct (executeStatement ev s) as [[r| |] ev1] eqn:Hs; try discriminate.
    destruct (executeStatement_effect _ _ _ _ Hs) as [Hlines Hkind].
    apply IH in H. destruct H as (Hmono & Hin & Hout & lines & Hl & Hcount).
    assert (Henv1 : environment
              (match r with
               | Some line => set_outputLines ev1 (outputLines ev1 ++ [line])
               | None => ev1
               end) = environment ev1) by now destruct r.
    rewrite Henv1 in *.
    destruct s as [y e0 | nm e0 st].
    + destruct Hkind as [-> [v Hv]]. simpl in Hl. rewrite Hv in *.
      repeat split.
      * intros x Hx. apply Hmono. rewrite lookup_insert. case_decide; eauto.
      * intros x e [Heq | Hx]; [|exact (Hin x e Hx)].
        inversion Heq; subst. apply Hmono. rewrite lookup_insert_eq. eauto.
      * intros x Hx. rewrite Hout.
        -- apply lookup_insert_ne. intros ->. apply (Hx e0). now left.
        -- intros e He. apply (Hx e). now right.
      * exists lines. split; [now rewrite Hl, Hlines|]. exact Hcount.
    + destruct Hkind as [Hr Hv]. destruct r as [line|]; [|congruence].
      simpl in Hl. rewrite Hv in *.
      repeat split.
      * exact Hmono.
      * intros x e [Heq | Hx]; [discriminate|exact (Hin x e Hx)].
      * intros x Hx. apply Hout. intros e He. apply (Hx e). now right.
      * exists (line :: lines). split.
        -- rewrite Hl, Hlines. now rewrite <- app_assoc.
        -- unfold count_outputs in *. simpl. now rewrite Hcount.
Qed.

(** The statements of a formula are executed in order, each in the state
    that the ones before it left. *)
Lemma executeStatements_app (pre post : list Statement) :
  forall ev,
    Evaluator.executeStatements ev (pre ++ post) =
      match Evaluator.executeStatements ev pre with
      | (Ok _, ev1) => Evaluator.executeStatements ev1 post
      | failed => failed
      end.
Proof.
  induction pre as [|st pre IH]; intros ev; [reflexivity|].
  cbn [app Evaluator.executeStatements].
  destruct (Evaluator.executeStatement ev st) as [[result| |] ev1]; try reflexivity.
  apply IH.
Qed.

(** A statement that fails changes nothing ... *)
Lemma executeStatement_failed (ev ev' : Evaluator.t) (s : Statement)
    (r : res EvalError (option OutputLineResult)) :
  executeStatement ev s = (r, ev') -> (forall x, r <> Ok x) -> ev' = ev.
Proof.
  destruct s as [x e | nm e st]; cbn [executeStatement];
    unfold executeAssignment, executeOutput;
    destruct (evaluateExpr ev e) as [v| |]; intros [= <- <-] Hr;
    try reflexivity; now destruct (Hr _ eq_refl).
Qed.

(** ... so a call, failed or not, leaves the evaluator as the statements
    that it executed left it. *)
Lemma executeStatements_prefix (stmts : list Statement) :
  forall (ev ev' : Evaluator.t) (r : res EvalError unit),
    executeStatements ev stmts = (r, ev') ->
    exists done rest,
      stmts = done ++ rest
      /\ executeStatements ev done = (Ok tt, ev')
      /\ (forall u, r = Ok u -> rest = []).
Proof.
  induction stmts as [|s stmts IH]; intros ev ev' r H.
  - cbn in H. injection H as <- <-. exists [], []. repeat split; auto.
  - cbn [executeStatements] in H.
    destruct (executeStatement ev s) as [[result|e|] ev1] eqn:Hs.
    + destruct (IH _ _ _ H) as (done & rest & -> & Hdone & Hrest).
      exists (s :: done), rest. split; [reflexivity|]. split; [|exact Hrest].
      cbn [executeStatements]. now rewrite Hs.
    + injection H as <- <-. exists [], (s :: stmts).
      rewrite (executeStatement_failed _ _ _ _ Hs) by discriminate.
      repeat split; auto. discriminate.
    + injection H as <- <-. exists [], (s :: stmts).
      rewrite (executeStatement_failed _ _ _ _ Hs) by discriminate.
      repeat split; auto. discriminate.
Qed.

End EvaluatorReuse.

(** C4 as the specification states it fails: a variable assigned in the
    first call is still bound in the second. *)
Lemma reused_evaluator_keeps_bindings : ~ fresh_environment_per_call.
Proof.
  intros H.
  specialize (H sample_bars None
                (createFormula [Assignment "A" (Var "C")])
                (createFormula [Output (Some "X") (Var "A") []])).
  vm_compute in H. discriminate H.
Qed.

(** C4, as the code has it.  The environment is created by the constructor
    and never reset.  After a successful call every variable that the call
    assigned is bound to the value that its last assignment stored -- the
    value of that assignment's expression in the state left by the
    statements before it -- and every other name keeps the binding it had;
    a later call on the same evaluator reads these bindings, whatever the
    output lines held.  A call that fails leaves the evaluator as the
    statements before the failing one left it, so the same holds of them.
    The output accumulator is reset by every call: a result holds one
    line per [Output] statement of the formula of that call, whatever
    lines the evaluator held before. *)
Theorem evaluateFormula_reuse (ev ev1 : Evaluator.t) (f1 : Formula) (res1 : FormulaResult) :
  Evaluator.evaluateFormula ev f1 = (Ok res1, ev1) ->
  (forall x e, In (Assignment x e) (statements f1) ->
     exists v, Evaluator.environment ev1 !! x = Some v
               /\ forall lines,
                    Evaluator.evaluateExpr (Evaluator.set_outputLines ev1 lines) (Var x) = Ok v)
  /\ (forall pre x e post,
        statements f1 = pre ++ Assignment x e :: post ->
        (forall e', ~ In (Assignment x e') post) ->
        exists res_pre ev_pre v,
          Evaluator.evaluateFormula ev (createFormula pre) = (Ok res_pre, ev_pre)
          /\ Evaluator.evaluateExpr ev_pre e = Ok v
          /\ Evaluator.environment ev1 !! x = Some v
          /\ (forall lines,
                Evaluator.evaluateExpr (Evaluator.set_outputLines ev1 lines) (Var x) = Ok v)
          /\ forall name styles,
               fst (Evaluator.evaluateFormula ev1
                      (createFormula [Output (Some name) (Var x) styles]))
               = Ok (createFormulaResult
                       [createOutputLineResult
                          (match name with
                           | String c s => String c s
                           | EmptyString => Evaluator.output_name 1
                           end) v styles]))
  /\ (forall x, (forall e, ~ In (Assignment x e) (statements f1)) ->
        Evaluator.environment ev1 !! x = Evaluator.environment ev !! x)
  /\ (forall lines f2,
        Evaluator.evaluateFormula (Evaluator.set_outputLines ev1 lines) f2
        = Evaluator.evaluateFormula ev1 f2)
  /\ length (outputLines res1) = count_outputs (statements f1)
  /\ (forall f2 res2 ev2,
        Evaluator.evaluateFormula ev1 f2 = (Ok res2, ev2) ->
        length (outputLines res2) = count_outputs (statements f2))
  /\ (forall eva f r evb,
        Evaluator.evaluateFormula eva f = (r, evb) ->
        exists done rest,
          statements f = done ++ rest
          /\ Evaluator.evaluateFormula eva (createFormula done)
             = (Ok (createFormulaResult (Evaluator.outputLines evb)), evb)
          /\ (forall res, r = Ok res -> rest = [])).
Proof.
  assert (Hcount : forall e f r e',
    Evaluator.evaluateFormula e f = (Ok r, e') ->
    length (outputLines r) = count_outputs (statements f)).
  { intros e f r e' H. unfold Evaluator.evaluateFormula in H.
    destruct (Evaluator.executeStatements _ _) as [[u| |] e2] eqn:Hx; inversion H; subst.
    destruct (executeStatements_effect _ _ _ _ Hx) as (_ & _ & _ & lines & Hl & Hc).
    simpl in *. now rewrite Hl. }
  intros H. pose proof (Hcount _ _ _ _ H) as Hc1.
  unfold Evaluator.evaluateFormula in H.
  destruct (Evaluator.executeStatements _ _) as [[u| |] e2] eqn:Hx; inversion H; subst.
  destruct (executeStatements_effect _ _ _ _ Hx) as (_ & Hin & Hout & _).
  simpl in Hout.
  assert (Hvar : forall x v, Evaluator.environment ev1 !! x = Some v ->
            forall lines,
              Evaluator.evaluateExpr (Evaluator.set_outputLines ev1 lines) (Var x) = Ok v).
  { intros x v Hv lines. simpl. unfold Evaluator.resolveVariable. simpl. now rewrite Hv. }
  split; [|split; [|split; [|split; [|split; [|split]]]]].
  - intros x e Hx'. destruct (Hin x e Hx') as [v Hv]. exists v. split; [exact Hv|].
    now apply Hvar.
  - intros pre x e post Hsplit Hlast. rewrite Hsplit, executeStatements_app in Hx.
    destruct (Evaluator.executeStatements (Evaluator.set_outputLines ev []) pre)
      as [[u0| |] ev_pre] eqn:Hpre; try discriminate Hx.
    cbn [Evaluator.executeStatements Evaluator.executeStatement] in Hx.
    unfold Evaluator.executeAssignment in Hx.
    destruct (Evaluator.evaluateExpr ev_pre e) as [v| |] eqn:Hv; try discriminate Hx.
    destruct (executeStatements_effect _ _ _ _ Hx) as (_ & _ & Hkeep & _).
    assert (Hx1 : Evaluator.environment ev1 !! x = Some v).
    { rewrite (Hkeep x Hlast). cbn. apply lookup_insert_eq. }
    exists (createFormulaResult (Evaluator.outputLines ev_pre)), ev_pre, v.
    split; [unfold Evaluator.evaluateFormula; cbn [statements]; now rewrite Hpre|].
    split; [exact Hv|]. split; [exact Hx1|]. split; [now apply Hvar|].
    intros name styles. unfold Evaluator.evaluateFormula.
    cbn [statements Evaluator.executeStatements Evaluator.executeStatement].
    unfold Evaluator.executeOutput. rewrite (Hvar x v Hx1 []).
    cbn [fst snd Evaluator.outputLines Evaluator.set_outputLines length app Nat.add].
    now destruct name.
  - exact Hout.
  - reflexivity.
  - exact Hc1.
  - intros f2 res2 ev2. apply Hcount.
  - intros eva f r evb Hr. unfold Evaluator.evaluateFormula in *.
    destruct (Evaluator.executeStatements (Evaluator.set_outputLines eva []) (statements f))
      as [r0 ev0] eqn:Hrun.
    destruct (executeStatements_prefix _ _ _ _ Hrun) as (done & rest & Hsplit & Hdone & Hrest).
    assert (E : ev0 = evb) by (destruct r0; now injection Hr).
    subst ev0. exists done, rest. split; [exact Hsplit|]. split.
    + cbn [statements]. now rewrite Hdone.
    + intros res ->. destruct r0 as [u0| |]; try discriminate Hr. now apply (Hrest u0).
Qed.

(** ** The lexer's cursor *)

Section LexerCursor.

Import Lexer.

Lemma isAtEnd_false_remaining (lx : Lexer.t) :
  isAtEnd lx = false <-> (0 < remaining lx)%nat.
Proof.
  unfold isAtEnd, remaining. split; intros H.
  - apply Nat.leb_gt in H. lia.
  - apply Nat.leb_gt. lia.
Qed.

Lemma isAtEnd_true_remaining (lx : Lexer.t) :
  isAtEnd lx = true <-> remaining lx = 0%nat.
Proof.
  unfold isAtEnd, remaining. split; intros H.
  - apply Nat.leb_le in H. lia.
  - apply Nat.leb_le. lia.
Qed.

Lemma remaining_advance (lx : Lexer.t) :
  isAtEnd lx = false -> remaining (snd (advance lx)) = (remaining lx - 1)%nat.
Proof.
  intros H. unfold advance. rewrite H. unfold remaining. simpl. lia.
Qed.

Lemma remaining_newline (lx : Lexer.t) : remaining (newline lx) = remaining lx.
Proof. reflexivity. Qed.

Lemma isAtEnd_newline (lx : Lexer.t) : isAtEnd (newline lx) = isAtEnd lx.
Proof. reflexivity. Qed.

Lemma peek_newline (lx : Lexer.t) : peek (newline lx) = peek lx.
Proof. reflexivity. Qed.

(** More fuel than characters left does not change a scan. *)
Lemma scan_fuel (continue : ascii -> bool) (countLines : bool) :
  forall fuel fuel' lexeme lx,
    (remaining lx <= fuel)%nat -> (remaining lx <= fuel')%nat ->
    scan fuel continue countLines lexeme lx = scan fuel' continue countLines lexeme lx.
Proof.
  induction fuel as [|fuel IH]; intros fuel' lexeme lx Hf Hf'.
  - assert (Hend : isAtEnd lx = true) by (apply isAtEnd_true_remaining; lia).
    destruct fuel'; simpl; [reflexivity|]. now rewrite Hend.
  - destruct fuel' as [|fuel'].
    + assert (Hend : isAtEnd lx = true) by (apply isAtEnd_true_remaining; lia).
      simpl. now rewrite Hend.
    + simpl. destruct (isAtEnd lx) eqn:Hend; simpl; [reflexivity|].
      destruct (continue (peek lx)); [|reflexivity].
      set (lx1 := if countLines && Ascii.eqb (peek lx) LF then newline lx else lx).
      assert (Hend1 : isAtEnd lx1 = false) by (subst lx1; now destruct (_ && _)).
      assert (Hrem1 : remaining lx1 = remaining lx) by (subst lx1; now destruct (_ && _)).
      pose proof (remaining_advance lx1 Hend1) as Hadv.
      destruct (advance lx1) as [c lx2]. simpl in Hadv.
      apply isAtEnd_false_remaining in Hend.
      apply IH; lia.
Qed.

(** A scan stops at the end of the input or at a character that fails
    its test, and never moves backwards. *)
Lemma scan_stops (continue : ascii -> bool) (countLines : bool) :
  forall fuel lexeme lx,
    (remaining lx <= fuel)%nat ->
    let lx' := snd (scan fuel continue countLines lexeme lx) in
    (isAtEnd lx' = true \/ continue (peek lx') = false)
    /\ input lx' = input lx
    /\ (position lx <= position lx')%nat.
Proof.
  induction fuel as [|fuel IH]; intros lexeme lx Hf; simpl.
  - split; [|split]; auto. left. apply isAtEnd_true_remaining. lia.
  - destruct (isAtEnd lx) eqn:Hend; simpl; [auto|].
    destruct (continue (peek lx)) eqn:Hc; [|auto].
    set (lx1 := if countLines && Ascii.eqb (peek lx) LF then newline lx else lx).
    assert (Hend1 : isAtEnd lx1 = false) by (subst lx1; now destruct (_ && _)).
    assert (Hrem1 : remaining lx1 = remaining lx) by (subst lx1; now destruct (_ && _)).
    assert (Hin1 : input lx1 = input lx) by (subst lx1; now destruct (_ && _)).
    assert (Hpos1 : position lx1 = position lx) by (subst lx1; now destruct (_ && _)).
    pose proof (remaining_advance lx1 Hend1) as Hadv.
    assert (Hin2 : input (snd (advance lx1)) = input lx1)
      by (unfold advance; now rewrite Hend1).
    assert (Hpos2 : position (snd (advance lx1)) = (position lx1 + 1)%nat)
      by (unfold advance; now rewrite Hend1).
    destruct (advance lx1) as [c lx2]. simpl in *.
    apply isAtEnd_false_remaining in Hend.
    destruct (IH (append_char lexeme c) lx2 ltac:(lia)) as (Hs & Hi & Hp).
    split; [exact Hs|]. split; [congruence|lia].
Qed.

(** A scan that cannot start leaves the lexer as it is. *)
Lemma scan_blocked (continue : ascii -> bool) (countLines : bool)
    (fuel : nat) (lexeme : string) (lx : Lexer.t) :
  isAtEnd lx = true \/ continue (peek lx) = false ->
  scan fuel continue countLines lexeme lx = (lexeme, lx).
Proof.
  intros H. destruct fuel; simpl; [reflexivity|].
  destruct H as [-> | H]; [reflexivity|].
  rewrite H. now rewrite andb_false_r.
Qed.

Lemma skipWhitespace_blocked (lx : Lexer.t) :
  isAtEnd lx = true \/ isWhitespace (peek lx) = false -> skipWhitespace lx = lx.
Proof. intros H. unfold skipWhitespace. now rewrite scan_blocked. Qed.

Lemma skipWhitespace_stops (lx : Lexer.t) :
  (isAtEnd (skipWhitespace lx) = true \/ isWhitespace (peek (skipWhitespace lx)) = false)
  /\ input (skipWhitespace lx) = input lx
  /\ (position lx <= position (skipWhitespace lx))%nat.
Proof. unfold skipWhitespace. apply scan_stops. lia. Qed.

Lemma skipWhitespace_idempotent (lx : Lexer.t) :
  skipWhitespace (skipWhitespace lx) = skipWhitespace lx.
Proof. apply skipWhitespace_blocked. apply skipWhitespace_stops. Qed.

End LexerCursor.

(** ** Unrecognized characters *)

Section IllegalCharacter.

Import Lexer.

Lemma nextToken_aux_unrecognized (fuel : nat) (lx : Lexer.t) :
  isAtEnd lx = false -> unrecognized (peek lx) = true ->
  nextToken_aux fuel lx
  = Some (createToken TokenType.Illegal (String (peek lx) EmptyString)
            (Lexer.line lx) (Lexer.column lx), lx).
Proof.
  intros Hend Hu. unfold unrecognized in Hu. apply negb_true_iff in Hu.
  assert (Hw : isWhitespace (peek lx) = false)
    by (destruct (isWhitespace (peek lx)); [discriminate Hu | reflexivity]).
  assert (Hws : skipWhitespace lx = lx) by (apply skipWhitespace_blocked; now right).
  rewrite Hw in Hu. cbn [orb] in Hu.
  repeat (apply orb_false_iff in Hu; destruct Hu as [Hu ?]).
  destruct fuel; cbn [nextToken_aux]; rewrite Hws, Hend;
    repeat match goal with
           | H : ?b = false |- context [if ?b then _ else _] => rewrite H
           end; reflexivity.
Qed.

Lemma nextToken_aux_skipWhitespace (fuel : nat) (lx : Lexer.t) :
  nextToken_aux fuel (skipWhitespace lx) = nextToken_aux fuel lx.
Proof.
  destruct fuel; cbn [nextToken_aux]; now rewrite skipWhitespace_idempotent.
Qed.

End IllegalCharacter.

(** C9.  When the first character after the leading whitespace is one
    that [nextToken] does not recognize, the call returns an [Illegal]
    token for it and leaves the lexer at that character: position, line
    and column are those reached by skipping the whitespace.  From there
    every further call returns the same token and the same state, so the
    end-of-input sentinel is never produced. *)
Theorem illegal_character_not_consumed (lx : Lexer.t) :
  let lx0 := Lexer.skipWhitespace lx in
  let tok := createToken TokenType.Illegal (String (Lexer.peek lx0) EmptyString)
               (Lexer.line lx0) (Lexer.column lx0) in
  Lexer.isAtEnd lx0 = false ->
  unrecognized (Lexer.peek lx0) = true ->
  Lexer.nextToken lx = (tok, lx0)
  /\ Lexer.nextToken lx0 = (tok, lx0)
  /\ forall n, nth_call n lx0 = (tok, lx0)
              /\ tokenType (fst (nth_call n lx0)) <> TokenType.Eof.
Proof.
  intros lx0 tok Hend Hu.
  assert (H0 : Lexer.nextToken lx0 = (tok, lx0)).
  { unfold Lexer.nextToken. now rewrite nextToken_aux_unrecognized. }
  assert (H1 : Lexer.nextToken lx = (tok, lx0)).
  { unfold Lexer.nextToken.
    rewrite <- nextToken_aux_skipWhitespace. fold lx0.
    now rewrite nextToken_aux_unrecognized. }
  split; [exact H1|]. split; [exact H0|].
  assert (Hn : forall n, nth_call n lx0 = (tok, lx0)).
  { induction n as [|n IH]; simpl; [exact H0|]. now rewrite H0. }
  intros n. rewrite Hn. split; [reflexivity|]. discriminate.
Qed.

(** ** The tokens ahead of the parser *)

Section ParserStream.

Context {Src : Type} (pull : Src -> Token * Src).

Local Abbreviation advance := (Parser.advance pull).
Local Abbreviation peekToken := (Parser.peekToken pull).
Local Abbreviation expectToken := (Parser.expectToken pull).
Local Abbreviation ahead := (pending pull).
Local Abbreviation SemiAt := (BarrierAt pull).

Lemma kind_of_not_eof (token : Token) :
  kind_of (Parser.not_eof token) = tokenType token.
Proof.
  unfold Parser.not_eof, TokenType.eqb. case_bool_decide; simpl; congruence.
Qed.

Lemma pending_advance (p : Parser.t Src) (i : nat) :
  ahead (advance p) i = ahead p (S i).
Proof.
  unfold Parser.advance, pending.
  destruct (Parser.nextToken p) as [token|].
  - destruct i; reflexivity.
  - destruct (pull (Parser.lexer p)) as [token src'] eqn:Hp. simpl.
    destruct i as [|i]; simpl; rewrite Hp; simpl.
    + apply kind_of_not_eof.
    + reflexivity.
Qed.

Lemma pending_peekToken (p p' : Parser.t Src) (r : option Token) :
  peekToken p = (r, p') ->
  Parser.currentToken p' = Parser.currentToken p
  /\ (forall i, ahead p' i = ahead p i)
  /\ kind_of r = ahead p 1.
Proof.
  unfold Parser.peekToken, pending.
  destruct (Parser.nextToken p) as [token|] eqn:Hn.
  - intros H. inversion H; subst. rewrite Hn. repeat split.
    apply kind_of_not_eof.
  - destruct (pull (Parser.lexer p)) as [token src'] eqn:Hp.
    intros H. inversion H; subst. simpl. repeat split.
    + intros [|[|i]]; simpl; rewrite ?Hp; reflexivity.
    + rewrite Hp. apply kind_of_not_eof.
Qed.

Lemma token_is_kind (kind : TokenType.t) (r : option Token) :
  kind <> TokenType.Eof ->
  Parser.token_is kind r = bool_decide (kind_of r = kind).
Proof.
  intros Hk. destruct r as [token|]; simpl; [reflexivity|].
  symmetry. apply bool_decide_eq_false. congruence.
Qed.

Lemma BarrierAt_current (k : nat) (p : Parser.t Src) :
  SemiAt k p ->
  exists token, Parser.currentToken p = Some token
                /\ tokenType token <> TokenType.Eof
                /\ (k = 0%nat -> unconsumable (tokenType token) = true).
Proof.
  intros [Hk Hlt].
  destruct (Parser.currentToken p) as [token|] eqn:Hc.
  - exists token. split; [reflexivity|]. split.
    + destruct k as [|k].
      * simpl in Hk. rewrite Hc in Hk. simpl in Hk. intros He. now rewrite He in Hk.
      * specialize (Hlt 0%nat ltac:(lia)). simpl in Hlt. now rewrite Hc in Hlt.
    + intros ->. simpl in Hk. now rewrite Hc in Hk.
  - exfalso. destruct k as [|k].
    + simpl in Hk. rewrite Hc in Hk. discriminate.
    + apply (Hlt 0%nat ltac:(lia)). simpl. now rewrite Hc.
Qed.

Lemma BarrierAt_advance (k : nat) (p : Parser.t Src) :
  SemiAt (S k) p -> SemiAt k (advance p).
Proof.
  intros [Hk Hlt]. split.
  - now rewrite pending_advance.
  - intros i Hi. rewrite pending_advance. apply Hlt. lia.
Qed.

Lemma BarrierAt_peekToken (k : nat) (p p' : Parser.t Src) (r : option Token) :
  peekToken p = (r, p') -> SemiAt k p -> SemiAt k p'.
Proof.
  intros Hp [Hk Hlt]. destruct (pending_peekToken _ _ _ Hp) as (_ & He & _).
  split.
  - now rewrite He.
  - intros i Hi. rewrite He. now apply Hlt.
Qed.

Local Abbreviation stuck := (blocked pull).

Lemma blocked_weaken {A} (k k2 : nat) (strict : bool) (r : res ParseError (A * Parser.t Src)) :
  stuck k strict r -> (k <= k2)%nat -> stuck k2 false r /\ stuck k2 strict r.
Proof.
  destruct r as [[x p']| |]; simpl; auto.
  intros (k' & Hs & Hk) Hle. split; exists k'; (split; [exact Hs|]);
    destruct strict; lia.
Qed.

Lemma blocked_bind {A B} (k1 k2 : nat) (strict1 strict2 : bool)
    (m : res ParseError (A * Parser.t Src))
    (f : A * Parser.t Src -> res ParseError (B * Parser.t Src)) :
  stuck k1 strict1 m ->
  (forall x p' k', SemiAt k' p' ->
     (if strict1 then (k' < k1)%nat else (k' <= k1)%nat) ->
     stuck k2 strict2 (f (x, p'))) ->
  stuck k2 strict2 (bind m f).
Proof.
  destruct m as [[x p']| |]; simpl; auto.
  intros (k' & Hs & Hk) Hf. now apply (Hf x p' k').
Qed.

Lemma blocked_expectToken (k : nat) (kind : TokenType.t) (p : Parser.t Src) :
  unconsumable kind = false -> SemiAt k p -> stuck k true (expectToken kind p).
Proof.
  intros Hkind Hs. destruct (BarrierAt_current k p Hs) as (token & Hc & _ & H0).
  unfold Parser.expectToken. rewrite Hc. unfold TokenType.eqb.
  case_bool_decide as Heq; simpl; [|exact I].
  destruct k as [|k]; [rewrite Heq, Hkind in H0; now specialize (H0 eq_refl)|].
  exists k. split; [now apply BarrierAt_advance|lia].
Qed.

Lemma current_is_kind (kind : TokenType.t) (k : nat) (p : Parser.t Src) :
  unconsumable kind = false -> SemiAt k p ->
  Parser.current_is kind p = true -> exists k0, k = S k0.
Proof.
  intros Hkind Hs Hc. destruct (BarrierAt_current k p Hs) as (token & Hcur & _ & H0).
  unfold Parser.current_is in Hc. rewrite Hcur in Hc.
  unfold TokenType.eqb in Hc. apply bool_decide_eq_true in Hc.
  destruct k as [|k]; [rewrite Hc, Hkind in H0; now specialize (H0 eq_refl)|eauto].
Qed.

Lemma blocked_lt {A} (k' k : nat) (strict strict' : bool)
    (r : res ParseError (A * Parser.t Src)) :
  stuck k' strict r -> (k' < k)%nat -> stuck k strict' r.
Proof.
  destruct r as [[x p']| |]; simpl; auto.
  intros (k0 & Hs & Hk) Hlt. exists k0. split; [exact Hs|].
  destruct strict, strict'; lia.
Qed.

Lemma blocked_le {A} (k' k : nat) (strict : bool)
    (r : res ParseError (A * Parser.t Src)) :
  stuck k' strict r -> (k' <= k)%nat -> stuck k strict r.
Proof.
  destruct r as [[x p']| |]; simpl; auto.
  intros (k0 & Hs & Hk) Hle. exists k0. split; [exact Hs|].
  destruct strict; lia.
Qed.

Lemma blocked_Ok {A} (k k' : nat) (strict : bool) (x : A) (p : Parser.t Src) :
  SemiAt k' p -> (if strict then (k' < k)%nat else (k' <= k)%nat) ->
  stuck k strict (Ok (x, p)).
Proof. intros Hs Hk. simpl. eauto. Qed.

Lemma infix_operator (token : Token) :
  fst (Parser.getInfixBindingPower token) <> 0%nat ->
  unconsumable (tokenType token) = false
  /\ exists operator, Parser.getBinaryOperator (tokenType token) = Ok operator.
Proof.
  unfold Parser.getInfixBindingPower, Parser.getBinaryOperator.
  destruct (tokenType token); simpl; intros H; try congruence;
    (split; [reflexivity|eauto]).
Qed.

Local Abbreviation parseExpression := (Parser.parseExpression pull).
Local Abbreviation parseExpression_loop := (Parser.parseExpression_loop pull).
Local Abbreviation parsePrefix := (Parser.parsePrefix pull).
Local Abbreviation parseFunctionCall := (Parser.parseFunctionCall pull).
Local Abbreviation parseArguments_loop := (Parser.parseArguments_loop pull).
Local Abbreviation parseIfFunction := (Parser.parseIfFunction pull).
Local Abbreviation parseGroupedExpression := (Parser.parseGroupedExpression pull).
Local Abbreviation parseUnaryExpression := (Parser.parseUnaryExpression pull).

Ltac stuck_ok := eapply blocked_Ok; [eassumption | simpl; lia].

(** No function of the expression parser gets past such a token: with
    fuel linear in its distance each of them throws or returns before it. *)
Lemma expression_blocked (fuel : nat) :
  (forall k p m, SemiAt k p -> (4 * k + 3 <= fuel)%nat ->
     stuck k true (parseExpression fuel m p))
  /\ (forall k p m l, SemiAt k p -> (4 * k + 1 <= fuel)%nat ->
       stuck k false (parseExpression_loop fuel m l p))
  /\ (forall k p, SemiAt k p -> (4 * k + 2 <= fuel)%nat ->
       stuck k true (parsePrefix fuel p))
  /\ (forall k p kind, unconsumable kind = false -> SemiAt k p ->
       (4 * k + 1 <= fuel)%nat -> stuck k true (parseFunctionCall fuel kind p))
  /\ (forall k p args, SemiAt k p -> (4 * k + 1 <= fuel)%nat ->
       stuck k false (parseArguments_loop fuel args p))
  /\ (forall k p, SemiAt k p -> (4 * k + 4 <= fuel)%nat ->
       stuck k true (parseIfFunction fuel p))
  /\ (forall k p, SemiAt k p -> (4 * k + 1 <= fuel)%nat ->
       stuck k true (parseGroupedExpression fuel p))
  /\ (forall k p, SemiAt (S k) p -> (4 * S k + 1 <= fuel)%nat ->
       stuck (S k) true (parseUnaryExpression fuel p)).
Proof.
  induction fuel as [|fuel IH].
  { repeat split; intros; lia. }
  destruct IH as (IHe & IHl & IHp & IHf & IHa & IHi & IHg & IHu).
  split; [|split; [|split; [|split; [|split; [|split; [|split]]]]]].
  - (* parseExpression *)
    intros k p m Hs Hf. cbn [Parser.parseExpression].
    eapply blocked_bind; [apply IHp; [exact Hs|lia]|].
    intros x p' k' Hs' Hk'. cbn beta iota in *.
    eapply blocked_lt; [apply IHl; [exact Hs'|lia]|lia].
  - (* parseExpression_loop *)
    intros k p m l Hs Hf. cbn [Parser.parseExpression_loop].
    destruct (BarrierAt_current k p Hs) as (token & Hc & _ & H0). rewrite Hc.
    pose proof (infix_operator token) as Hop.
    destruct (Parser.getInfixBindingPower token) as [lbp rbp].
    destruct ((lbp =? 0)%nat || (lbp <? m)%nat) eqn:Hbrk; [stuck_ok|].
    apply orb_false_iff in Hbrk. destruct Hbrk as [Hz _]. apply Nat.eqb_neq in Hz.
    destruct (Hop Hz) as (Hns & operator & Hbin).
    destruct k as [|k]; [rewrite Hns in H0; now specialize (H0 eq_refl)|].
    eapply blocked_bind; [apply IHe; [apply BarrierAt_advance, Hs|lia]|].
    intros x p' k' Hs' Hk'. cbn beta iota in *. rewrite Hbin. cbn [bind].
    eapply blocked_le; [apply IHl; [exact Hs'|lia]|lia].
  - (* parsePrefix *)
    intros k p Hs Hf. cbn [Parser.parsePrefix].
    destruct (BarrierAt_current k p Hs) as (token & Hc & _ & H0). rewrite Hc.
    destruct (tokenType token) eqn:Hk; try exact I;
      (destruct k as [|k]; [discriminate (H0 eq_refl)|]).
    + (* LParen *) apply IHg; [exact Hs|lia].
    + (* Minus *) apply IHu; [exact Hs|lia].
    + (* Identifier *)
      destruct (peekToken p) as [nt p1] eqn:Hpk.
      pose proof (BarrierAt_peekToken _ _ _ _ Hpk Hs) as Hs1.
      destruct (Parser.token_is TokenType.LParen nt).
      * apply IHf; [reflexivity|exact Hs1|lia].
      * eapply blocked_Ok; [apply BarrierAt_advance, Hs1|simpl; lia].
    + (* Number *) eapply blocked_Ok; [apply BarrierAt_advance, Hs|simpl; lia].
    + (* If *)
      destruct (peekToken p) as [nt p1] eqn:Hpk.
      pose proof (BarrierAt_peekToken _ _ _ _ Hpk Hs) as Hs1.
      destruct (Parser.token_is TokenType.LParen nt).
      * apply IHf; [reflexivity|exact Hs1|lia].
      * eapply blocked_Ok; [apply BarrierAt_advance, Hs1|simpl; lia].
    + (* Not *) apply IHu; [exact Hs|lia].
  - (* parseFunctionCall *)
    intros k p kind Hkind Hs Hf. cbn [Parser.parseFunctionCall].
    eapply blocked_bind; [apply blocked_expectToken; [exact Hkind|exact Hs]|].
    intros nameToken p1 k1 Hs1 Hk1. cbn beta iota in *.
    eapply blocked_bind; [apply blocked_expectToken; [reflexivity|exact Hs1]|].
    intros lp p2 k2 Hs2 Hk2. cbn beta iota in *.
    destruct (String.eqb _ _).
    + eapply blocked_lt; [apply IHi; [exact Hs2|lia]|lia].
    + eapply (blocked_bind k2 k false true).
      * destruct (negb (Parser.current_is TokenType.RParen p2)).
        -- eapply blocked_bind; [apply IHe; [exact Hs2|lia]|].
           intros first p3 k3 Hs3 Hk3. cbn beta iota in *.
           eapply blocked_le; [apply IHa; [exact Hs3|lia]|lia].
        -- stuck_ok.
      * intros args p3 k3 Hs3 Hk3. cbn beta iota in *.
        eapply blocked_bind; [apply blocked_expectToken; [reflexivity|exact Hs3]|].
        intros rp p4 k4 Hs4 Hk4. cbn beta iota in *. stuck_ok.
  - (* parseArguments_loop *)
    intros k p args Hs Hf. cbn [Parser.parseArguments_loop].
    destruct (Parser.current_is TokenType.Comma p) eqn:Hc; [|stuck_ok].
    destruct (current_is_kind TokenType.Comma k p ltac:(reflexivity) Hs Hc) as [k0 ->].
    eapply blocked_bind; [apply IHe; [apply BarrierAt_advance, Hs|lia]|].
    intros next p1 k1 Hs1 Hk1. cbn beta iota in *.
    eapply blocked_le; [apply IHa; [exact Hs1|lia]|lia].
  - (* parseIfFunction *)
    intros k p Hs Hf. cbn [Parser.parseIfFunction].
    eapply blocked_bind; [apply IHe; [exact Hs|lia]|].
    intros condition p1 k1 Hs1 Hk1. cbn beta iota in *.
    destruct (Parser.current_is TokenType.Comma p1) eqn:Hc1; [|exact I].
    destruct (current_is_kind TokenType.Comma k1 p1 ltac:(reflexivity) Hs1 Hc1) as [k1' ->].
    cbn [negb].
    eapply blocked_bind; [apply IHe; [apply BarrierAt_advance, Hs1|lia]|].
    intros trueValue p2 k2 Hs2 Hk2. cbn beta iota in *.
    destruct (Parser.current_is TokenType.Comma p2) eqn:Hc2; [|exact I].
    destruct (current_is_kind TokenType.Comma k2 p2 ltac:(reflexivity) Hs2 Hc2) as [k2' ->].
    cbn [negb].
    eapply blocked_bind; [apply IHe; [apply BarrierAt_advance, Hs2|lia]|].
    intros falseValue p3 k3 Hs3 Hk3. cbn beta iota in *.
    eapply blocked_bind; [apply blocked_expectToken; [reflexivity|exact Hs3]|].
    intros rp p4 k4 Hs4 Hk4. cbn beta iota in *. stuck_ok.
  - (* parseGroupedExpression *)
    intros k p Hs Hf. cbn [Parser.parseGroupedExpression].
    eapply blocked_bind; [apply blocked_expectToken; [reflexivity|exact Hs]|].
    intros lp p1 k1 Hs1 Hk1. cbn beta iota in *.
    eapply blocked_bind; [apply IHe; [exact Hs1|lia]|].
    intros expr p2 k2 Hs2 Hk2. cbn beta iota in *.
    eapply blocked_bind; [apply blocked_expectToken; [reflexivity|exact Hs2]|].
    intros rp p3 k3 Hs3 Hk3. cbn beta iota in *. stuck_ok.
  - (* parseUnaryExpression *)
    intros k p Hs Hf. cbn [Parser.parseUnaryExpression].
    destruct (BarrierAt_current _ p Hs) as (token & Hc & _ & _). rewrite Hc.
    eapply blocked_bind; [apply IHe; [apply BarrierAt_advance, Hs|lia]|].
    intros operand p1 k1 Hs1 Hk1. cbn beta iota in *. stuck_ok.
Qed.

Lemma plotStyles_blocked (fuel : nat) :
  forall k p styles, SemiAt k p -> (k + 1 <= fuel)%nat ->
    stuck k false (Parser.parsePlotStyles_loop pull fuel styles p).
Proof.
  induction fuel as [|fuel IH]; intros k p styles Hs Hf; [lia|].
  cbn [Parser.parsePlotStyles_loop].
  destruct (Parser.current_is TokenType.Comma p) eqn:Hc; [|stuck_ok].
  destruct (current_is_kind TokenType.Comma k p ltac:(reflexivity) Hs Hc) as [k0 ->].
  eapply blocked_bind;
    [apply blocked_expectToken; [reflexivity|apply BarrierAt_advance, Hs]|].
  intros styleToken p1 k1 Hs1 Hk1. cbn beta iota in *.
  eapply blocked_le; [apply IH; [exact Hs1|lia]|lia].
Qed.

Lemma statement_blocked (fuel k : nat) (p : Parser.t Src) :
  SemiAt k p -> (4 * k + 3 <= fuel)%nat ->
  stuck k true (Parser.parseStatement pull fuel p).
Proof.
  intros Hs Hf.
  destruct (expression_blocked fuel) as (He & _).
  assert (Hanon : forall k' p', SemiAt k' p' -> (k' <= k)%nat ->
            stuck k' true (Parser.parseAnonymousOutputStatement pull fuel p')).
  { intros k' p' Hs' Hk'. unfold Parser.parseAnonymousOutputStatement.
    eapply blocked_bind; [apply He; [exact Hs'|lia]|].
    intros expr p1 k1 Hs1 Hk1. cbn beta iota in *.
    eapply (blocked_bind k1 k' false true);
      [apply plotStyles_blocked; [exact Hs1|lia]|].
    intros styles p2 k2 Hs2 Hk2. cbn beta iota in *. stuck_ok. }
  unfold Parser.parseStatement.
  destruct (BarrierAt_current k p Hs) as (token & Hc & _ & _). rewrite Hc.
  destruct (TokenType.eqb (tokenType token) TokenType.Identifier);
    [|now apply Hanon].
  destruct (peekToken p) as [nt p1] eqn:Hpk.
  pose proof (BarrierAt_peekToken _ _ _ _ Hpk Hs) as Hs1.
  destruct (Parser.token_is TokenType.ColonAssign nt);
    [|destruct (Parser.token_is TokenType.Colon nt); [|now apply Hanon]].
  - unfold Parser.parseAssignmentStatement.
    eapply blocked_bind; [apply blocked_expectToken; [reflexivity|exact Hs1]|].
    intros variableToken p2 k2 Hs2 Hk2. cbn beta iota in *.
    eapply blocked_bind; [apply blocked_expectToken; [reflexivity|exact Hs2]|].
    intros assign p3 k3 Hs3 Hk3. cbn beta iota in *.
    eapply blocked_bind; [apply He; [exact Hs3|lia]|].
    intros expr p4 k4 Hs4 Hk4. cbn beta iota in *. stuck_ok.
  - unfold Parser.parseNamedOutputStatement.
    eapply blocked_bind; [apply blocked_expectToken; [reflexivity|exact Hs1]|].
    intros nameToken p2 k2 Hs2 Hk2. cbn beta iota in *.
    eapply blocked_bind; [apply blocked_expectToken; [reflexivity|exact Hs2]|].
    intros colon p3 k3 Hs3 Hk3. cbn beta iota in *.
    eapply blocked_bind; [apply He; [exact Hs3|lia]|].
    intros expr p4 k4 Hs4 Hk4. cbn beta iota in *.
    eapply (blocked_bind k4 k false true);
      [apply plotStyles_blocked; [exact Hs4|lia]|].
    intros styles p5 k5 Hs5 Hk5. cbn beta iota in *. stuck_ok.
Qed.

Lemma skipNewlines_blocked (fuel : nat) :
  forall k p, SemiAt k p -> (k + 1 <= fuel)%nat ->
    exists k' p', Parser.skipNewlines pull fuel p = Ok p'
                  /\ SemiAt k' p' /\ (k' <= k)%nat.
Proof.
  induction fuel as [|fuel IH]; intros k p Hs Hf; [lia|].
  cbn [Parser.skipNewlines].
  destruct (Parser.current_is TokenType.Newline p) eqn:Hc; [|eauto].
  destruct (current_is_kind TokenType.Newline k p ltac:(reflexivity) Hs Hc) as [k0 ->].
  destruct (IH k0 (advance p) (BarrierAt_advance _ _ Hs) ltac:(lia))
    as (k' & p' & Hr & Hs' & Hk').
  exists k', p'. split; [exact Hr|]. split; [exact Hs'|lia].
Qed.

(** The statement loop cannot end while such a token is ahead: it
    throws. *)
Lemma formula_loop_throws (fuel : nat) :
  forall k p statements, SemiAt k p -> (4 * k + 4 <= fuel)%nat ->
    rejected_at_token (Parser.parseFormula_loop pull fuel statements p).
Proof.
  induction fuel as [|fuel IH]; intros k p statements Hs Hf; [lia|].
  cbn [Parser.parseFormula_loop].
  destruct (BarrierAt_current k p Hs) as (token & Hc & _ & _). rewrite Hc.
  destruct (skipNewlines_blocked fuel k p Hs ltac:(lia)) as (k1 & p1 & Hr & Hs1 & Hk1).
  rewrite Hr. cbn [bind].
  destruct (BarrierAt_current k1 p1 Hs1) as (token1 & Hc1 & Hne1 & _). rewrite Hc1.
  unfold TokenType.eqb. rewrite bool_decide_eq_false_2 by exact Hne1.
  pose proof (statement_blocked fuel k1 p1 Hs1 ltac:(lia)) as Hst.
  destruct (Parser.parseStatement pull fuel p1) as [[statement p2]| |];
    simpl in Hst; [|exact Hst|contradiction].
  destruct Hst as (k2 & Hs2 & Hk2). cbn [bind].
  destruct (Parser.current_is TokenType.Newline p2) eqn:Hnl.
  - destruct (current_is_kind TokenType.Newline k2 p2 ltac:(reflexivity) Hs2 Hnl)
      as [k3 ->].
    apply (IH k3); [apply BarrierAt_advance, Hs2|lia].
  - apply (IH k2); [exact Hs2|lia].
Qed.

Lemma new_pending (src : Src) (i : nat) :
  ahead (Parser.new pull src) i = upcoming pull i src.
Proof.
  unfold Parser.new. rewrite pending_advance. reflexivity.
Qed.

End ParserStream.

(** ** Reaching a semicolon *)

Section LexerProgress.

Import Lexer.

Lemma get_Some (s : string) : forall p, (p < String.length s)%nat ->
  exists c, String.get p s = Some c.
Proof.
  induction s as [|c s IH]; intros p Hp; simpl in Hp; [lia|].
  destruct p as [|p]; simpl; [eauto|]. apply IH. lia.
Qed.

Lemma get_lt (s : string) : forall p c, String.get p s = Some c ->
  (p < String.length s)%nat.
Proof.
  induction s as [|c' s IH]; intros p c H; simpl in *; [discriminate|].
  destruct p as [|p]; [lia|]. apply IH in H. lia.
Qed.

Lemma mode_at_S (s : string) : forall m p c,
  String.get p s = Some c -> mode_at m s (S p) = step_mode (mode_at m s p) c.
Proof.
  induction s as [|c' s IH]; intros m p c H; simpl in H; [discriminate|].
  destruct p as [|p].
  - inversion H; subst. simpl. now destruct s.
  - change (mode_at m (String c' s) (S (S p))) with (mode_at (step_mode m c') s (S p)).
    change (mode_at m (String c' s) (S p)) with (mode_at (step_mode m c') s p).
    now apply IH.
Qed.

Lemma peek_get (lx : Lexer.t) (c : ascii) :
  String.get (position lx) (input lx) = Some c -> peek lx = c /\ isAtEnd lx = false.
Proof.
  intros H. pose proof (get_lt _ _ _ H) as Hlt.
  assert (Hend : isAtEnd lx = false) by (unfold isAtEnd; apply Nat.leb_gt; lia).
  unfold peek. now rewrite Hend, H.
Qed.

Lemma get_peek (lx : Lexer.t) :
  isAtEnd lx = false -> String.get (position lx) (input lx) = Some (peek lx).
Proof.
  intros Hend. unfold peek. rewrite Hend.
  unfold isAtEnd in Hend. apply Nat.leb_gt in Hend.
  destruct (get_Some _ _ Hend) as [c Hc]. now rewrite Hc.
Qed.

Lemma peekNext_get (lx : Lexer.t) (c : ascii) :
  peekNext lx = c -> c <> NUL ->
  String.get (position lx + 1) (input lx) = Some c.
Proof.
  unfold peekNext. intros H Hc.
  destruct (String.length (input lx) <=? position lx + 1)%nat eqn:Hl;
    [congruence|].
  apply Nat.leb_gt in Hl. destruct (get_Some _ _ Hl) as [c' Hc'].
  rewrite Hc' in *. now subst.
Qed.

Variable text : string.
Variable q : nat.
Hypothesis semicolon_at_q : String.get q text = Some ";"%char.
Hypothesis code_at_q : mode_at InCode text q = InCode.

Local Abbreviation before := (before text q).

Lemma before_not_at_end (m : mode) (lx : Lexer.t) : before m lx -> isAtEnd lx = false.
Proof.
  intros (Hi & Hp & _). pose proof (get_lt _ _ _ semicolon_at_q).
  unfold isAtEnd. rewrite Hi. apply Nat.leb_gt. lia.
Qed.

(** Consuming a character other than the [;] at [q]. *)
Lemma before_advance (m : mode) (lx : Lexer.t) :
  before m lx ->
  (m = InCode -> peek lx <> ";"%char) ->
  before (step_mode m (peek lx)) (snd (advance lx))
  /\ position (snd (advance lx)) = (position lx + 1)%nat.
Proof.
  intros Hb Hsemi. pose proof (before_not_at_end m lx Hb) as Hend.
  destruct Hb as (Hi & Hp & Hm).
  pose proof (get_peek lx Hend) as Hget. rewrite Hi in Hget.
  assert (Hne : position lx <> q).
  { intros Heq. rewrite Heq in *. rewrite semicolon_at_q in Hget.
    inversion Hget as [Hc]. rewrite code_at_q in Hm. subst m.
    now apply Hsemi. }
  unfold advance. rewrite Hend. unfold before. simpl. split; [|reflexivity].
  split; [exact Hi|]. split; [lia|].
  rewrite Nat.add_1_r, (mode_at_S _ _ _ _ Hget), Hm. reflexivity.
Qed.

Lemma before_newline (m : mode) (lx : Lexer.t) : before m lx -> before m (newline lx).
Proof. intros H. exact H. Qed.

Lemma scan_before (m : mode) (continue : ascii -> bool) (countLines : bool) :
  (forall c, continue c = true ->
     step_mode m c = m /\ (m = InCode -> c <> ";"%char)) ->
  forall fuel lexeme lx,
    (remaining lx <= fuel)%nat -> before m lx ->
    let lx' := snd (scan fuel continue countLines lexeme lx) in
    before m lx' /\ continue (peek lx') = false
    /\ (position lx <= position lx')%nat
    /\ (continue (peek lx) = true -> (position lx < position lx')%nat).
Proof.
  intros Hcont. induction fuel as [|fuel IH]; intros lexeme lx Hf Hb.
  - pose proof (before_not_at_end m lx Hb) as Hend.
    apply isAtEnd_false_remaining in Hend. lia.
  - pose proof (before_not_at_end m lx Hb) as Hend.
    cbn [scan]. rewrite Hend. cbn [negb andb].
    destruct (continue (peek lx)) eqn:Hc.
    + destruct (Hcont _ Hc) as [Hstep Hsemi].
      set (lx1 := if countLines && Ascii.eqb (peek lx) LF then newline lx else lx).
      assert (Hb1 : before m lx1) by (subst lx1; now destruct (_ && _)).
      assert (Hpk : peek lx1 = peek lx) by (subst lx1; now destruct (_ && _)).
      assert (Hpos1 : position lx1 = position lx) by (subst lx1; now destruct (_ && _)).
      assert (Hrem1 : remaining lx1 = remaining lx) by (subst lx1; now destruct (_ && _)).
      destruct (before_advance m lx1 Hb1) as [Hb2 Hpos2]; [now rewrite Hpk|].
      rewrite Hpk, Hstep in Hb2.
      pose proof (remaining_advance lx1 (before_not_at_end m lx1 Hb1)) as Hrem2.
      destruct (advance lx1) as [c lx2]. simpl in *.
      apply isAtEnd_false_remaining in Hend.
      destruct (IH (append_char lexeme c) lx2 ltac:(lia) Hb2) as (H1 & H2 & H3 & _).
      repeat split; try apply H1; try exact H2; lia.
    + simpl. repeat split; try apply Hb; auto. congruence.
Qed.

Local Abbreviation moves := (advances text q).

Lemma neutral_code (c : ascii) :
  nat_of_ascii c <> 123%nat -> nat_of_ascii c <> 34%nat -> nat_of_ascii c <> 59%nat ->
  step_mode InCode c = InCode /\ c <> ";"%char.
Proof.
  intros H1 H2 H3. split.
  - unfold step_mode.
    destruct (Ascii.eqb c "{") eqn:E1;
      [apply Ascii.eqb_eq in E1; subst; exfalso; now apply H1|].
    destruct (Ascii.eqb c DQUOTE) eqn:E2;
      [apply Ascii.eqb_eq in E2; subst; exfalso; now apply H2|].
    reflexivity.
  - intros ->. now apply H3.
Qed.

Lemma char_between_code (lo hi c : ascii) :
  char_between lo hi c = true ->
  (nat_of_ascii lo <= nat_of_ascii c <= nat_of_ascii hi)%nat.
Proof.
  unfold char_between. intros H. apply andb_true_iff in H. destruct H as [H1 H2].
  apply Nat.leb_le in H1, H2. lia.
Qed.

Lemma isDigit_neutral (c : ascii) :
  isDigit c = true -> step_mode InCode c = InCode /\ c <> ";"%char.
Proof.
  intros H. apply char_between_code in H.
  change (nat_of_ascii "0") with 48%nat in H.
  change (nat_of_ascii "9") with 57%nat in H.
  apply neutral_code; lia.
Qed.

Lemma isAlphaNumeric_neutral (c : ascii) :
  isAlphaNumeric c = true -> step_mode InCode c = InCode /\ c <> ";"%char.
Proof.
  unfold isAlphaNumeric, isAlpha. intros H.
  apply orb_true_iff in H. destruct H as [H|H]; [|now apply isDigit_neutral].
  apply orb_true_iff in H. destruct H as [H|H];
    [apply orb_true_iff in H; destruct H as [H|H];
     apply char_between_code in H;
     change (nat_of_ascii "a") with 97%nat in H;
     change (nat_of_ascii "z") with 122%nat in H;
     change (nat_of_ascii "A") with 65%nat in H;
     change (nat_of_ascii "Z") with 90%nat in H;
     apply neutral_code; lia|].
  apply Ascii.eqb_eq in H. subst. split; [reflexivity|discriminate].
Qed.

Lemma isWhitespace_neutral (c : ascii) :
  isWhitespace c = true -> step_mode InCode c = InCode /\ c <> ";"%char.
Proof.
  unfold isWhitespace. intros H.
  repeat (apply orb_true_iff in H; destruct H as [H|H]);
    apply Ascii.eqb_eq in H; subst; (split; [reflexivity|discriminate]).
Qed.

Lemma peek_advance (lx : Lexer.t) :
  isAtEnd lx = false -> peek (snd (advance lx)) = peekNext lx.
Proof. intros Hend. unfold advance. rewrite Hend. reflexivity. Qed.

Lemma fst_advance (lx : Lexer.t) :
  isAtEnd lx = false -> fst (advance lx) = peek lx.
Proof. intros Hend. unfold advance. now rewrite Hend. Qed.

Lemma moves_weaken (p0 p1 : nat) (r : Token * Lexer.t) :
  moves p1 r -> (p0 <= p1)%nat -> moves p0 r.
Proof.
  intros [H|(H1 & H2 & H3)] Hle; [now left|right].
  split; [exact H1|]. split; [exact H2|lia].
Qed.

Lemma consumeCharToken_moves (kind : TokenType.t) (lx : Lexer.t) :
  before InCode lx ->
  step_mode InCode (peek lx) = InCode /\ peek lx <> ";"%char ->
  kind <> TokenType.Eof ->
  moves (position lx) (consumeCharToken kind lx).
Proof.
  intros Hb [Hstep Hsemi] Hkind.
  destruct (before_advance InCode lx Hb (fun _ => Hsemi)) as [Hb1 Hp1].
  rewrite Hstep in Hb1.
  unfold consumeCharToken. destruct (advance lx) as [c lx1].
  unfold advances. cbn [fst snd tokenType] in *.
  right. split; [exact Hkind|]. split; [exact Hb1|lia].
Qed.

Lemma consumeTwoCharToken_moves (kind : TokenType.t) (lx : Lexer.t) :
  before InCode lx ->
  step_mode InCode (peek lx) = InCode /\ peek lx <> ";"%char ->
  step_mode InCode (peekNext lx) = InCode /\ peekNext lx <> ";"%char ->
  kind <> TokenType.Eof ->
  moves (position lx) (consumeTwoCharToken kind lx).
Proof.
  intros Hb [Hstep Hsemi] [Hstep2 Hsemi2] Hkind.
  destruct (before_advance InCode lx Hb (fun _ => Hsemi)) as [Hb1 Hp1].
  rewrite Hstep in Hb1.
  pose proof (peek_advance lx (before_not_at_end _ _ Hb)) as Hpk.
  unfold consumeTwoCharToken. destruct (advance lx) as [c1 lx1]. cbn [fst snd tokenType] in *.
  destruct (before_advance InCode lx1 Hb1) as [Hb2 Hp2]; [now rewrite Hpk|].
  rewrite Hpk, Hstep2 in Hb2.
  destruct (advance lx1) as [c2 lx2]. unfold advances. cbn [fst snd tokenType] in *.
  right. split; [exact Hkind|]. split; [exact Hb2|lia].
Qed.

Ltac known_char H :=
  apply Ascii.eqb_eq in H; rewrite H; split; [reflexivity|discriminate].

Lemma handleNewline_moves (lx : Lexer.t) :
  before InCode lx -> peek lx = LF -> moves (position lx) (handleNewline lx).
Proof.
  intros Hb Hpk.
  destruct (before_advance InCode lx Hb) as [Hb1 Hp1]; [now rewrite Hpk|].
  rewrite Hpk in Hb1. unfold handleNewline.
  destruct (advance lx) as [c lx1]. unfold advances. cbn [fst snd tokenType] in *.
  right. split; [discriminate|]. split; [exact Hb1|].
  change (position (newline lx1)) with (position lx1). lia.
Qed.

Lemma in_code (continue : ascii -> bool) :
  (forall c, continue c = true -> step_mode InCode c = InCode /\ c <> ";"%char) ->
  forall c, continue c = true ->
    step_mode InCode c = InCode /\ (InCode = InCode -> c <> ";"%char).
Proof. intros H c Hc. destruct (H c Hc). auto. Qed.

Lemma scan_pair {A B} (r : A * B) : r = (fst r, snd r).
Proof. now destruct r. Qed.

Lemma readNumber_moves (lx : Lexer.t) :
  before InCode lx -> isDigit (peek lx) = true -> moves (position lx) (readNumber lx).
Proof.
  intros Hb Hd. unfold readNumber.
  destruct (scan_before InCode isDigit false (in_code _ isDigit_neutral)
              (remaining lx) EmptyString lx (le_n _) Hb) as (Hb1 & _ & _ & Hlt).
  specialize (Hlt Hd).
  rewrite (scan_pair (scan (remaining lx) isDigit false EmptyString lx)).
  set (lexeme := fst (scan (remaining lx) isDigit false EmptyString lx)) in *.
  set (lx1 := snd (scan (remaining lx) isDigit false EmptyString lx)) in *.
  destruct (negb (isAtEnd lx1) && Ascii.eqb (peek lx1) ".") eqn:Hdot.
  - apply andb_true_iff in Hdot. destruct Hdot as [_ Hdot].
    apply Ascii.eqb_eq in Hdot.
    destruct (before_advance InCode lx1 Hb1) as [Hb2 Hp2]; [now rewrite Hdot|].
    rewrite Hdot in Hb2. change (step_mode InCode ".") with InCode in Hb2.
    destruct (advance lx1) as [dot lx1']. cbn [fst snd] in *.
    destruct (scan_before InCode isDigit false (in_code _ isDigit_neutral)
                (remaining lx1') (append_char lexeme dot) lx1' (le_n _) Hb2)
      as (Hb3 & _ & Hle & _).
    rewrite (scan_pair (scan (remaining lx1') isDigit false (append_char lexeme dot) lx1')).
    unfold advances. cbn [fst snd tokenType].
    right. split; [discriminate|]. split; [exact Hb3|lia].
  - unfold advances. cbn [fst snd tokenType].
    right. split; [discriminate|]. split; [exact Hb1|exact Hlt].
Qed.

Lemma lookupKeyword_not_Eof (ident : string) : lookupKeyword ident <> TokenType.Eof.
Proof.
  unfold lookupKeyword.
  repeat match goal with |- context [if ?b then _ else _] => destruct b end;
    discriminate.
Qed.

Lemma readIdentifier_moves (lx : Lexer.t) :
  before InCode lx -> isAlphaNumeric (peek lx) = true ->
  moves (position lx) (readIdentifier lx).
Proof.
  intros Hb Ha. unfold readIdentifier.
  destruct (scan_before InCode isAlphaNumeric false (in_code _ isAlphaNumeric_neutral)
              (remaining lx) EmptyString lx (le_n _) Hb) as (Hb1 & _ & _ & Hlt).
  specialize (Hlt Ha).
  rewrite (scan_pair (scan (remaining lx) isAlphaNumeric false EmptyString lx)).
  unfold advances. cbn [fst snd tokenType].
  right. split; [apply lookupKeyword_not_Eof|]. split; [exact Hb1|exact Hlt].
Qed.

Lemma readString_moves (p0 : nat) (lx : Lexer.t) : moves p0 (readString lx).
Proof.
  unfold readString. destruct (advance lx) as [c lx0].
  destruct (scan _ _ _ _ _) as [lexeme lx1].
  destruct (isAtEnd lx1); [now left|].
  destruct (advance lx1) as [c' lx2]. now left.
Qed.

(** A comment that opens in code before [q] closes before [q]. *)
Lemma skipComment_before (lx : Lexer.t) :
  before InCode lx -> peek lx = "{"%char ->
  before InCode (skipComment lx) /\ (position lx < position (skipComment lx))%nat.
Proof.
  intros Hb Hpk. pose proof (before_not_at_end _ _ Hb) as Hend.
  unfold skipComment.
  assert (Hrem : exists f, remaining lx = S f)
    by (apply isAtEnd_false_remaining in Hend; destruct (remaining lx); [lia|eauto]).
  destruct Hrem as [f Hrem]. rewrite Hrem. cbn [scan].
  rewrite Hend, Hpk.
  change (negb false && negb (Ascii.eqb "{" "}")) with true.
  change (true && Ascii.eqb "{" LF) with false. cbn iota.
  destruct (before_advance InCode lx Hb) as [Hb1 Hp1]; [now rewrite Hpk|].
  rewrite Hpk in Hb1. change (step_mode InCode "{") with InComment in Hb1.
  pose proof (remaining_advance lx Hend) as Hrem1.
  pose proof (fst_advance lx Hend) as Hc.
  destruct (advance lx) as [c lx1]. cbn [fst snd] in *.
  assert (Hnc : forall c0, negb (Ascii.eqb c0 "}") = true ->
            step_mode InComment c0 = InComment /\ (InComment = InCode -> c0 <> ";"%char)).
  { intros c0 H0. apply negb_true_iff in H0. unfold step_mode. rewrite H0.
    split; [reflexivity|discriminate]. }
  destruct (scan_before InComment _ true Hnc f (append_char EmptyString c) lx1
              ltac:(lia) Hb1) as (Hb2 & Hstop & Hle & _).
  set (lx2 := snd (scan f (fun c0 => negb (Ascii.eqb c0 "}")) true
                     (append_char EmptyString c) lx1)) in *.
  rewrite (before_not_at_end _ _ Hb2). cbn [negb].
  apply negb_false_iff, Ascii.eqb_eq in Hstop.
  destruct (before_advance InComment lx2 Hb2) as [Hb3 Hp3]; [discriminate|].
  rewrite Hstop in Hb3. change (step_mode InComment "}") with InCode in Hb3.
  split; [exact Hb3|lia].
Qed.

Lemma remaining_before (m : mode) (lx : Lexer.t) :
  before m lx -> remaining lx = (String.length text - position lx)%nat.
Proof. intros (Hi & _ & _). unfold remaining. now rewrite Hi. Qed.

Ltac one_char Hb0 Hle E :=
  eexists; split; [reflexivity|];
  eapply moves_weaken;
  [apply consumeCharToken_moves; [exact Hb0|known_char E|discriminate]|exact Hle].

Ltac two_char Hb0 Hle E E2 :=
  eexists; split; [reflexivity|];
  eapply moves_weaken;
  [apply consumeTwoCharToken_moves; [exact Hb0|known_char E|known_char E2|discriminate]
  |exact Hle].

(** In code and before the [;], a call of [nextToken] makes progress. *)
Lemma nextToken_aux_moves (fuel : nat) :
  forall lx, (remaining lx <= fuel)%nat -> before InCode lx ->
    exists r, nextToken_aux fuel lx = Some r /\ moves (position lx) r.
Proof.
  induction fuel as [|fuel IH]; intros lx Hf Hb.
  { pose proof (before_not_at_end _ _ Hb) as Hend.
    apply isAtEnd_false_remaining in Hend. lia. }
  destruct (scan_before InCode isWhitespace false (in_code _ isWhitespace_neutral)
              (remaining lx) EmptyString lx (le_n _) Hb) as (Hb0 & _ & Hle & _).
  cbn [nextToken_aux]. unfold skipWhitespace.
  set (lx0 := snd (scan (remaining lx) isWhitespace false EmptyString lx)) in *.
  rewrite (before_not_at_end _ _ Hb0).
  destruct (Ascii.eqb (peek lx0) "(") eqn:E; [one_char Hb0 Hle E|clear E].
  destruct (Ascii.eqb (peek lx0) ")") eqn:E; [one_char Hb0 Hle E|clear E].
  destruct (Ascii.eqb (peek lx0) ",") eqn:E; [one_char Hb0 Hle E|clear E].
  destruct (Ascii.eqb (peek lx0) ";") eqn:E.
  { eexists. split; [reflexivity|]. left.
    unfold consumeCharToken. now destruct (advance lx0). }
  clear E.
  destruct (Ascii.eqb (peek lx0) "+") eqn:E; [one_char Hb0 Hle E|clear E].
  destruct (Ascii.eqb (peek lx0) "-") eqn:E; [one_char Hb0 Hle E|clear E].
  destruct (Ascii.eqb (peek lx0) "*") eqn:E; [one_char Hb0 Hle E|clear E].
  destruct (Ascii.eqb (peek lx0) "/") eqn:E; [one_char Hb0 Hle E|clear E].
  destruct (Ascii.eqb (peek lx0) ":") eqn:E.
  { unfold handleColon.
    destruct (Ascii.eqb (peekNext lx0) "=") eqn:E2;
      [two_char Hb0 Hle E E2|one_char Hb0 Hle E]. }
  clear E.
  destruct (Ascii.eqb (peek lx0) ">") eqn:E.
  { unfold handleGreater.
    destruct (Ascii.eqb (peekNext lx0) "=") eqn:E2;
      [two_char Hb0 Hle E E2|one_char Hb0 Hle E]. }
  clear E.
  destruct (Ascii.eqb (peek lx0) "<") eqn:E.
  { unfold handleLess.
    destruct (Ascii.eqb (peekNext lx0) "=") eqn:E2; [two_char Hb0 Hle E E2|].
    destruct (Ascii.eqb (peekNext lx0) ">") eqn:E3;
      [two_char Hb0 Hle E E3|one_char Hb0 Hle E]. }
  clear E.
  destruct (Ascii.eqb (peek lx0) "=") eqn:E.
  { unfold handleEqual.
    destruct (Ascii.eqb (peekNext lx0) "=") eqn:E2;
      [two_char Hb0 Hle E E2|one_char Hb0 Hle E]. }
  clear E.
  destruct (Ascii.eqb (peek lx0) DQUOTE) eqn:E.
  { eexists. split; [reflexivity|]. apply readString_moves. }
  clear E.
  destruct (Ascii.eqb (peek lx0) LF) eqn:E.
  { apply Ascii.eqb_eq in E. eexists. split; [reflexivity|].
    eapply moves_weaken; [now apply handleNewline_moves|exact Hle]. }
  clear E.
  destruct (Ascii.eqb (peek lx0) "{") eqn:E.
  { apply Ascii.eqb_eq in E.
    destruct (skipComment_before lx0 Hb0 E) as [Hbc Hltc].
    pose proof (remaining_before _ _ Hb) as R. pose proof (remaining_before _ _ Hbc) as Rc.
    destruct Hbc as (Hic & Hpc & Hmc). pose proof (get_lt _ _ _ semicolon_at_q) as Hq.
    destruct (IH (skipComment lx0)) as (r & Hr & Hm); [lia|now repeat split|].
    exists r. split; [exact Hr|]. eapply moves_weaken; [exact Hm|lia]. }
  clear E.
  destruct (isDigit (peek lx0)) eqn:E.
  { eexists. split; [reflexivity|].
    eapply moves_weaken; [now apply readNumber_moves|exact Hle]. }
  clear E.
  destruct (isAlpha (peek lx0)) eqn:E.
  { eexists. split; [reflexivity|].
    eapply moves_weaken; [apply readIdentifier_moves; [exact Hb0|]|exact Hle].
    unfold isAlphaNumeric. now rewrite E. }
  eexists. split; [reflexivity|]. now left.
Qed.

Lemma nextToken_moves (lx : Lexer.t) :
  before InCode lx -> moves (position lx) (nextToken lx).
Proof.
  intros Hb. unfold nextToken.
  destruct (nextToken_aux_moves (remaining lx) lx (le_n _) Hb) as (r & Hr & Hm).
  now rewrite Hr.
Qed.

(** So the tokens ahead hold one that the parser cannot accept, before
    any end-of-input sentinel. *)
Lemma barrier_ahead (n : nat) :
  forall lx, before InCode lx -> (q - position lx < n)%nat ->
    exists k, unconsumable (upcoming nextToken k lx) = true
              /\ forall i, (i < k)%nat -> upcoming nextToken i lx <> TokenType.Eof.
Proof.
  induction n as [|n IH]; intros lx Hb Hn; [lia|].
  destruct (nextToken_moves lx Hb) as [Hu | (Hne & Hb' & Hlt)].
  - exists 0%nat. split; [exact Hu|]. intros i Hi. lia.
  - destruct Hb' as (Hi' & Hp' & Hm').
    destruct (IH (snd (nextToken lx))) as (k & Hk & Hbefore);
      [now repeat split|lia|].
    exists (S k). split; [exact Hk|].
    intros [|i] Hi; [exact Hne|]. apply Hbefore. lia.
Qed.

End LexerProgress.

(** ** Semicolons *)

Lemma mode_at_0 (m : mode) (s : string) : mode_at m s 0 = m.
Proof. now destruct s. Qed.

Lemma parse_throws_at_barrier {Src : Type} (pull : Src -> Token * Src)
    (k fuel : nat) (p : Parser.t Src) :
  BarrierAt pull k p -> (4 * k + 4 <= fuel)%nat ->
  rejected_at_token (Parser.parseFormula pull fuel p).
Proof.
  intros Hb Hf. unfold Parser.parseFormula.
  pose proof (formula_loop_throws pull fuel k p [] Hb Hf) as H.
  now destruct (Parser.parseFormula_loop pull fuel [] p) as [[? ?]| |].
Qed.

Lemma nextToken_semicolon (lx : Lexer.t) :
  Lexer.isAtEnd (Lexer.skipWhitespace lx) = false ->
  Lexer.peek (Lexer.skipWhitespace lx) = ";"%char ->
  fst (Lexer.nextToken lx)
  = createToken TokenType.Semicolon ";"
      (Lexer.line (Lexer.skipWhitespace lx)) (Lexer.column (Lexer.skipWhitespace lx))
  /\ Lexer.position (snd (Lexer.nextToken lx))
     = (Lexer.position (Lexer.skipWhitespace lx) + 1)%nat.
Proof.
  intros Hend Hpk.
  assert (H : forall fuel, Lexer.nextToken_aux fuel lx
            = Some (Lexer.consumeCharToken TokenType.Semicolon (Lexer.skipWhitespace lx))).
  { intros fuel. destruct fuel; cbn [Lexer.nextToken_aux]; rewrite Hend, Hpk; reflexivity. }
  unfold Lexer.nextToken. rewrite H. unfold Lexer.consumeCharToken, Lexer.advance.
  rewrite Hend, Hpk. now split.
Qed.

(** C10, as the code has it.  A text with a [;] outside every comment and
    string literal is never parsed.  Wherever a token starts with [;] the
    lexer returns a [Semicolon] token for it.  Among the tokens of such a
    text there is, before any end of input, one that no production
    accepts: a [Semicolon], or an [Illegal], [String], [THEN] or [ELSE]
    token.  A parser with such a token ahead, whatever the source of its
    tokens, throws once it has fuel for the tokens before it, and the
    error is one that is raised at a token -- by the rejection branch of
    [parsePrefix], by a failed expectation of [expectToken] or by a
    missing comma of [IF], whichever production is reading -- and never
    one that reports the end of the input. *)
Theorem semicolon_never_parsed (input : string) :
  semicolon_in_code input ->
  (forall lx,
     Lexer.isAtEnd (Lexer.skipWhitespace lx) = false ->
     Lexer.peek (Lexer.skipWhitespace lx) = ";"%char ->
     fst (Lexer.nextToken lx)
     = createToken TokenType.Semicolon ";"
         (Lexer.line (Lexer.skipWhitespace lx)) (Lexer.column (Lexer.skipWhitespace lx))
     /\ Lexer.position (snd (Lexer.nextToken lx))
        = (Lexer.position (Lexer.skipWhitespace lx) + 1)%nat)
  /\ (forall (Src : Type) (pull : Src -> Token * Src) (k : nat) (p : Parser.t Src) fuel,
        BarrierAt pull k p -> (4 * k + 4 <= fuel)%nat ->
        rejected_at_token (Parser.parseFormula pull fuel p))
  /\ exists k,
       unconsumable (tokenType (fst (nth_call k (Lexer.new input)))) = true
       /\ (forall i, (i < k)%nat ->
             tokenType (fst (nth_call i (Lexer.new input))) <> TokenType.Eof)
       /\ forall fuel, (4 * k + 4 <= fuel)%nat ->
            exists e, parseText fuel input = Throw e /\ raised_at_token e.
Proof.
  intros (q & Hq & Hm). split; [exact nextToken_semicolon|].
  split; [intros Src pull k p fuel; apply parse_throws_at_barrier|].
  destruct (barrier_ahead input q Hq Hm (S q) (Lexer.new input)) as (k & Hk & Hbefore).
  { repeat split; simpl; [lia|apply mode_at_0]. }
  { simpl. lia. }
  assert (Hup : forall i lx, upcoming Lexer.nextToken i lx = tokenType (fst (nth_call i lx))).
  { induction i as [|i IH]; intros lx; [reflexivity|apply IH]. }
  exists k. split; [now rewrite <- Hup|]. split.
  { intros i Hi. rewrite <- Hup. now apply Hbefore. }
  intros fuel Hf.
  assert (Hb : BarrierAt Lexer.nextToken k (createParser input)).
  { unfold createParser. split.
    - now rewrite new_pending.
    - intros i Hi. rewrite new_pending. now apply Hbefore. }
  pose proof (parse_throws_at_barrier Lexer.nextToken k fuel _ Hb Hf) as H.
  unfold parseText.
  destruct (Parser.parseFormula Lexer.nextToken fuel (createParser input))
    as [[f p]|e|]; cbn in H; try contradiction.
  exists e. now split.
Qed.

Lemma semicolon_never_parsed_witness :
  exists k,
    unconsumable
      (tokenType (fst (nth_call k (Lexer.new "MA5: MA(C, 5); SIGNAL: CROSS(C, MA5)"))))
    = true
    /\ forall fuel, (4 * k + 4 <= fuel)%nat ->
         exists e, parseText fuel "MA5: MA(C, 5); SIGNAL: CROSS(C, MA5)" = Throw e
                   /\ raised_at_token e.
Proof.
  destruct (semicolon_never_parsed "MA5: MA(C, 5); SIGNAL: CROSS(C, MA5)")
    as (_ & _ & k & Hk & _ & Hfuel).
  - exists 13%nat. split; reflexivity.
  - exists k. now split.
Defined.

(** The statement separator of the README examples is rejected by
    [parsePrefix] ... *)
Example semicolon_between_statements :
  parseText 20 "MA5: MA(C, 5); SIGNAL: CROSS(C, MA5)"
  = Throw (UnexpectedToken TokenType.Semicolon 1 14).
Proof. reflexivity. Qed.

(** ... but C10 as the specification states it fails: a [;] inside
    parentheses is rejected by [expectToken], not by [parsePrefix]. *)
Lemma semicolon_rejected_elsewhere : ~ semicolon_reaches_parsePrefix.
Proof.
  intros H.
  destruct (H "(1;)"%string) as (fuel0 & Hfuel).
  { exists 2%nat. split; reflexivity. }
  destruct (Hfuel (10 + fuel0)%nat ltac:(lia)) as (kind & l & c & Hp).
  vm_compute in Hp. discriminate Hp.
Qed.

(** Where the error is raised depends on the production that meets the
    token: a style list expects an identifier, [IF] its comma. *)
Example semicolon_in_styles :
  parseText 20 "X: C, ;" = Throw (ExpectedButGot TokenType.Identifier TokenType.Semicolon 1 7).
Proof. reflexivity. Qed.

Example semicolon_in_IF :
  parseText 20 "IF(C; 1, 0)" = Throw IfNeedsCommaAfterCondition.
Proof. reflexivity. Qed.

Example semicolon_in_parentheses :
  parseText 20 "(1;)" = Throw (ExpectedButGot TokenType.RParen TokenType.Semicolon 1 3).
Proof. reflexivity. Qed.

(** ** Function calls *)

Section FunctionCalls.

Context {Src : Type} (pull : Src -> Token * Src).

Local Abbreviation parseExpression := (Parser.parseExpression pull).
Local Abbreviation parseArguments_loop := (Parser.parseArguments_loop pull).
Local Abbreviation parseIfFunction := (Parser.parseIfFunction pull).
Local Abbreviation parseFunctionCall := (Parser.parseFunctionCall pull).
Local Abbreviation expectToken := (Parser.expectToken pull).
Local Abbreviation advance := (Parser.advance pull).










End FunctionCalls.

Section AnyNumberOfArguments.

Local Abbreviation parseExpression := (Parser.parseExpression pull_list).
Local Abbreviation parseArguments_loop := (Parser.parseArguments_loop pull_list).
Local Abbreviation parseFunctionCall := (Parser.parseFunctionCall pull_list).






End AnyNumberOfArguments.



(** On texts: a fourth argument of [IF] is refused at its comma, and an
    empty argument list at the closing parenthesis. *)
Example IF_with_four_arguments :
  parseText 20 "IF(C > 12, 1, 0, 5)"
  = Throw (ExpectedButGot TokenType.RParen TokenType.Comma 1 16).
Proof. reflexivity. Qed.

Example IF_without_arguments :
  parseText 20 "if()" = Throw (UnexpectedToken TokenType.RParen 1 4).
Proof. reflexivity. Qed.

(** ** Instances *)

Lemma REF_offset_witness :
  REF [sample_closes; repeat (Num zero) 5] = Ok sample_closes
  /\ (exists out,
        REF [sample_closes; repeat (Num one) 5] = Ok out
        /\ length out = length sample_closes
        /\ forall i, (i < length sample_closes)%nat ->
             at_index out i =
               if js_ge (js_sub (of_nat i) one) zero
               then get sample_closes (js_sub (of_nat i) one) else Null)
  /\ (exists out,
        REF [sample_closes; repeat (Num (of_nat 1)) 5] = Ok out
        /\ length out = length sample_closes
        /\ forall i, (i < length sample_closes)%nat ->
             at_index out i = if (1 <=? i)%nat then at_index sample_closes (i - 1) else Null)
  /\ REF [sample_closes; repeat (Num (of_Z (-1))) 5] = Throw RefNegativeOffset.
Proof.
  split; [|split; [|split]].
  - apply (proj1 (REF_offset sample_closes zero (repeat (Num zero) 4))). reflexivity.
  - apply (proj1 (proj2 (REF_offset sample_closes one (repeat (Num one) 4)))).
    reflexivity.
  - apply (proj1 (proj2 (proj2
             (REF_offset sample_closes (of_nat 1) (repeat (Num (of_nat 1)) 4)))) 1%nat).
    reflexivity.
  - apply (proj2 (proj2 (proj2
             (REF_offset sample_closes (of_Z (-1)) (repeat (Num (of_Z (-1))) 4))))).
    reflexivity.
Defined.

Example REF_scenario_B :
  REF [sample_closes; repeat (Num one) 5] = Ok (Null :: numbers [11; 12; 13; 14]%Z).
Proof. reflexivity. Qed.

Lemma CROSS_upward_witness :
  exists out,
    CROSS [numbers [11; 10; 14]%Z; numbers [10; 12; 13]%Z] = Ok out
    /\ at_index out 0 = Num zero
    /\ at_index out 2 = Num one.
Proof.
  destruct (CROSS_upward (numbers [11; 10; 14]%Z) (numbers [10; 12; 13]%Z))
    as (out & Hout & _ & _ & H0 & Hi).
  exists out. split; [exact Hout|]. split.
  - apply H0; simpl; lia.
  - apply (Hi 2%nat); simpl; [lia|]. repeat split.
Defined.

Lemma Div_by_zero_is_null_witness :
  exists out,
    Evaluator.evaluateExpr sample_evaluator
      (BinaryOp (Var "C") BinaryOperator.Div closes_minus_12) = Ok out
    /\ at_index out 1 = Null.
Proof.
  destruct (Div_by_zero_is_null sample_evaluator (Var "C") closes_minus_12
              sample_closes (numbers [-1; 0; 1; 2; 3]%Z) eq_refl eq_refl eq_refl)
    as (out & Hout & Hnull).
  exists out. split; [exact Hout|].
  apply (Hnull 1%nat (inject_Z 0)); (simpl; lia) || reflexivity.
Defined.

Example division_scenario :
  Evaluator.evaluateExpr sample_evaluator
    (BinaryOp (Var "C") BinaryOperator.Div closes_minus_12)
  = Ok [Num (of_Z (-11)); Null; Num (of_Z 13); Num (of_Z 7); Num (of_Z 5)].
Proof. reflexivity. Qed.

Lemma BinaryOp_elementwise_witness :
  Evaluator.evaluateExpr evaluator_with_A
    (BinaryOp (Var "A") BinaryOperator.Add (Var "C"))
  = Throw BinaryLengthMismatch
  /\ exists out,
       Evaluator.evaluateExpr sample_evaluator
         (BinaryOp (Var "C") BinaryOperator.Gt (Literal (of_Z 12))) = Ok out
       /\ length out = 5%nat.
Proof.
  split.
  - apply (proj1 (BinaryOp_elementwise evaluator_with_A (Var "A") (Var "C")
                    BinaryOperator.Add
                    (numbers [1; 2; 3]%Z) sample_closes eq_refl eq_refl)).
    simpl. lia.
  - destruct (proj2 (BinaryOp_elementwise sample_evaluator (Var "C") (Literal (of_Z 12))
                       BinaryOperator.Gt sample_closes (repeat (Num (of_Z 12)) 5)
                       eq_refl eq_refl) eq_refl) as (out & Hout & Hlen & _).
    exists out. split; [exact Hout|exact Hlen].
Defined.

Example comparison_scenario_C :
  Evaluator.evaluateExpr sample_evaluator
    (BinaryOp (Var "C") BinaryOperator.Gt (Literal (of_Z 12)))
  = Ok (numbers [0; 0; 1; 1; 1]%Z).
Proof. reflexivity. Qed.

Lemma illegal_character_not_consumed_witness :
  Lexer.nextToken (Lexer.new "  @ ;")
  = (createToken TokenType.Illegal "@" 1 3,
     {| Lexer.input := "  @ ;"; Lexer.position := 2; Lexer.line := 1; Lexer.column := 3 |})
  /\ tokenType (fst (nth_call 7 (Lexer.skipWhitespace (Lexer.new "  @ ;"))))
     <> TokenType.Eof.
Proof.
  destruct (illegal_character_not_consumed (Lexer.new "  @ ;") eq_refl eq_refl)
    as (H1 & _ & Hn).
  split; [exact H1|]. apply (Hn 7%nat).
Defined.

Lemma evaluateFormula_reuse_witness :
  let ev1 := snd (Evaluator.evaluateFormula sample_evaluator assign_A) in
  (exists res_pre ev_pre v,
     Evaluator.evaluateFormula sample_evaluator (createFormula []) = (Ok res_pre, ev_pre)
     /\ Evaluator.evaluateExpr ev_pre (Var "C") = Ok v
     /\ Evaluator.environment ev1 !! "A" = Some v
     /\ (forall lines,
           Evaluator.evaluateExpr (Evaluator.set_outputLines ev1 lines) (Var "A") = Ok v)
     /\ forall name styles,
          fst (Evaluator.evaluateFormula ev1
                 (createFormula [Output (Some name) (Var "A") styles]))
          = Ok (createFormulaResult
                  [createOutputLineResult
                     (match name with
                      | String c s => String c s
                      | EmptyString => Evaluator.output_name 1
                      end) v styles]))
  /\ Evaluator.environment ev1 !! "H" = Evaluator.environment sample_evaluator !! "H".
Proof.
  intros ev1.
  destruct (evaluateFormula_reuse sample_evaluator ev1 assign_A (createFormulaResult [])
              eq_refl) as (_ & Hval & Hout & _).
  split.
  - apply (Hval [] "A"%string (Var "C") []); [reflexivity|]. intros e' [].
  - apply Hout. intros e [He|[]]. discriminate He.
Defined.

Example second_call_sees_first :
  fst (Evaluator.evaluateFormula
         (snd (Evaluator.evaluateFormula sample_evaluator assign_A)) output_A)
  = Ok (createFormulaResult [createOutputLineResult "X" sample_closes []]).
Proof. reflexivity. Qed.

(** A later assignment to the same name overwrites the earlier one, and
    the next call reads the later value. *)
Example second_call_sees_last_value :
  fst (Evaluator.evaluateFormula
         (snd (Evaluator.evaluateFormula sample_evaluator
                 (createFormula [Assignment "A" (Var "C"); Assignment "A" (Var "H")])))
         output_A)
  = Ok (createFormulaResult [createOutputLineResult "X" (highs sample_bars) []]).
Proof. reflexivity. Qed.

Example fresh_evaluator_does_not :
  fst (Evaluator.evaluateFormula sample_evaluator output_A)
  = Throw (UndefinedVariable "A").
Proof. reflexivity. Qed.

(** ** The equality operator *)

Section Equality.

Import Lexer.

Lemma handleEqual_kind (lx : Lexer.t) : tokenType (fst (handleEqual lx)) = TokenType.EqEq.
Proof.
  unfold handleEqual, consumeTwoCharToken, consumeCharToken.
  destruct (Ascii.eqb (peekNext lx) "="); destruct (advance lx) as [c1 lx1];
    [destruct (advance lx1)|]; reflexivity.
Qed.

Lemma nextToken_aux_equal (fuel : nat) (lx : Lexer.t) :
  isAtEnd (skipWhitespace lx) = false -> peek (skipWhitespace lx) = "="%char ->
  nextToken_aux fuel lx = Some (handleEqual (skipWhitespace lx)).
Proof.
  intros Hend Hpk. destruct fuel; cbn [nextToken_aux]; rewrite Hend, Hpk; reflexivity.
Qed.

End Equality.

(** Wherever the lexer meets [=] at the start of a token, alone or
    followed by a second [=], the token it returns has the kind [EqEq]. *)
Lemma nextToken_equals (lx : Lexer.t) :
  Lexer.isAtEnd (Lexer.skipWhitespace lx) = false ->
  Lexer.peek (Lexer.skipWhitespace lx) = "="%char ->
  tokenType (fst (Lexer.nextToken lx)) = TokenType.EqEq.
Proof.
  intros Hend Hpk. unfold Lexer.nextToken.
  now rewrite (nextToken_aux_equal _ lx Hend Hpk), handleEqual_kind.
Qed.

(** ** Lexers that read the same characters *)

Section LexerSimulation.

Import Lexer.

Lemma get_None (s : string) : forall p, (String.length s <= p)%nat -> String.get p s = None.
Proof.
  induction s as [|c s IH]; intros p Hp; simpl in *; [reflexivity|].
  destruct p as [|p]; [lia|]. apply IH. lia.
Qed.

Lemma isAtEnd_char_at (lx : Lexer.t) :
  isAtEnd lx = match char_at lx 0 with Some _ => false | None => true end.
Proof.
  unfold char_at, isAtEnd. rewrite Nat.add_0_r.
  destruct (String.length (input lx) <=? position lx)%nat eqn:H.
  - apply Nat.leb_le in H. now rewrite get_None.
  - apply Nat.leb_gt in H. destruct (get_Some _ _ H) as [c Hc]. now rewrite Hc.
Qed.

Lemma peek_char_at (lx : Lexer.t) :
  peek lx = match char_at lx 0 with Some c => c | None => NUL end.
Proof.
  unfold peek. rewrite isAtEnd_char_at. unfold char_at. rewrite Nat.add_0_r.
  now destruct (String.get (position lx) (input lx)).
Qed.

Lemma peekNext_char_at (lx : Lexer.t) :
  peekNext lx = match char_at lx 1 with Some c => c | None => NUL end.
Proof.
  unfold peekNext, char_at.
  destruct (String.length (input lx) <=? position lx + 1)%nat eqn:H.
  - apply Nat.leb_le in H. now rewrite get_None.
  - reflexivity.
Qed.

Lemma agree_isAtEnd (w : nat) (lx1 lx2 : Lexer.t) :
  agree w lx1 lx2 -> (0 < w)%nat -> isAtEnd lx1 = isAtEnd lx2.
Proof. intros H Hw. rewrite !isAtEnd_char_at. now rewrite (H 0%nat Hw). Qed.

Lemma agree_peek (w : nat) (lx1 lx2 : Lexer.t) :
  agree w lx1 lx2 -> (0 < w)%nat -> peek lx1 = peek lx2.
Proof. intros H Hw. rewrite !peek_char_at. now rewrite (H 0%nat Hw). Qed.

Lemma agree_peekNext (w : nat) (lx1 lx2 : Lexer.t) :
  agree w lx1 lx2 -> (1 < w)%nat -> peekNext lx1 = peekNext lx2.
Proof. intros H Hw. rewrite !peekNext_char_at. now rewrite (H 1%nat Hw). Qed.

Lemma agree_le (w w' : nat) (lx1 lx2 : Lexer.t) :
  agree w lx1 lx2 -> (w' <= w)%nat -> agree w' lx1 lx2.
Proof. intros H Hw i Hi. apply H. lia. Qed.

(** After equal steps the lexers still agree on what is left of the
    window. *)
Lemma agree_step (w : nat) (lx1 lx1' lx2 lx2' : Lexer.t) :
  agree w lx1 lx2 -> same_step lx1 lx1' lx2 lx2' ->
  agree (w - (position lx1' - position lx1)) lx1' lx2'.
Proof.
  intros H (Hi1 & Hi2 & Hle & Hpos) i Hi. unfold char_at. rewrite Hi1, Hi2.
  replace (position lx1' + i)%nat with (position lx1 + (position lx1' - position lx1 + i))%nat
    by lia.
  replace (position lx2' + i)%nat with (position lx2 + (position lx1' - position lx1 + i))%nat
    by lia.
  apply H. lia.
Qed.

Lemma same_step_refl (lx1 lx2 : Lexer.t) : same_step lx1 lx1 lx2 lx2.
Proof. repeat split; lia. Qed.

Lemma same_step_trans (lx1 lx1' lx1'' lx2 lx2' lx2'' : Lexer.t) :
  same_step lx1 lx1' lx2 lx2' -> same_step lx1' lx1'' lx2' lx2'' ->
  same_step lx1 lx1'' lx2 lx2''.
Proof.
  intros (A1 & A2 & A3 & A4) (B1 & B2 & B3 & B4).
  repeat split; try congruence; lia.
Qed.

Lemma advance_step (lx : Lexer.t) :
  isAtEnd lx = false ->
  input (snd (advance lx)) = input lx
  /\ position (snd (advance lx)) = (position lx + 1)%nat.
Proof. intros H. unfold advance. rewrite H. now split. Qed.

Lemma advance_same_step (w : nat) (lx1 lx2 : Lexer.t) :
  agree w lx1 lx2 -> (0 < w)%nat -> isAtEnd lx1 = false ->
  fst (advance lx1) = fst (advance lx2)
  /\ same_step lx1 (snd (advance lx1)) lx2 (snd (advance lx2)).
Proof.
  intros H Hw Hend. pose proof (agree_isAtEnd w lx1 lx2 H Hw) as He.
  rewrite Hend in He. symmetry in He.
  destruct (advance_step lx1 Hend) as [I1 P1]. destruct (advance_step lx2 He) as [I2 P2].
  split.
  - rewrite !fst_advance by assumption. now apply (agree_peek w).
  - repeat split; try assumption; lia.
Qed.

Lemma advance_monotone (lx : Lexer.t) :
  input (snd (advance lx)) = input lx /\ (position lx <= position (snd (advance lx)))%nat.
Proof. unfold advance. destruct (isAtEnd lx); simpl; split; (reflexivity || lia). Qed.

Lemma agree_after (w w' : nat) (lx1 lx1' lx2 lx2' : Lexer.t) :
  agree w lx1 lx2 -> same_step lx1 lx1' lx2 lx2' ->
  (w' + (position lx1' - position lx1) <= w)%nat -> agree w' lx1' lx2'.
Proof.
  intros H Hs Hw. apply (agree_le (w - (position lx1' - position lx1))); [|lia].
  now apply agree_step with (lx1 := lx1) (lx2 := lx2).
Qed.

Lemma scan_S (continue : ascii -> bool) (countLines : bool) (fuel : nat)
    (lexeme : string) (lx : Lexer.t) :
  scan (S fuel) continue countLines lexeme lx =
  if negb (isAtEnd lx) && continue (peek lx)
  then scan fuel continue countLines (append_char lexeme (peek lx)) (bump countLines lx)
  else (lexeme, lx).
Proof.
  cbn [scan]. destruct (isAtEnd lx) eqn:Hend; cbn [negb andb]; [reflexivity|].
  destruct (continue (peek lx)); [|reflexivity].
  unfold bump, advance.
  destruct (countLines && Ascii.eqb (peek lx) LF);
    rewrite ?isAtEnd_newline, ?peek_newline, Hend; reflexivity.
Qed.

Lemma bump_step (countLines : bool) (lx : Lexer.t) :
  isAtEnd lx = false ->
  input (bump countLines lx) = input lx
  /\ position (bump countLines lx) = (position lx + 1)%nat.
Proof.
  intros Hend. unfold bump, advance.
  destruct (countLines && Ascii.eqb (peek lx) LF);
    rewrite ?isAtEnd_newline, Hend; now split.
Qed.

Lemma bump_same_step (b1 b2 : bool) (lx1 lx2 : Lexer.t) :
  isAtEnd lx1 = false -> isAtEnd lx2 = false ->
  same_step lx1 (bump b1 lx1) lx2 (bump b2 lx2).
Proof.
  intros H1 H2. destruct (bump_step b1 lx1 H1) as [I1 P1].
  destruct (bump_step b2 lx2 H2) as [I2 P2]. repeat split; try assumption; lia.
Qed.

(** The scanning loop reads nothing beyond the character it stops at. *)
Lemma scan_sim (continue : ascii -> bool) (countLines : bool) :
  forall f1 f2 lexeme w lx1 lx2,
    agree w lx1 lx2 -> (remaining lx1 <= f1)%nat -> (remaining lx2 <= f2)%nat ->
    (position (snd (scan f1 continue countLines lexeme lx1)) < position lx1 + w)%nat ->
    fst (scan f1 continue countLines lexeme lx1) = fst (scan f2 continue countLines lexeme lx2)
    /\ same_step lx1 (snd (scan f1 continue countLines lexeme lx1))
                 lx2 (snd (scan f2 continue countLines lexeme lx2)).
Proof.
  induction f1 as [|f1 IH]; intros f2 lexeme w lx1 lx2 Hag Hf1 Hf2 Hw.
  - cbn [scan fst snd] in *.
    assert (Hend : isAtEnd lx1 = true) by (apply isAtEnd_true_remaining; lia).
    rewrite (agree_isAtEnd w lx1 lx2 Hag) in Hend by lia.
    rewrite scan_blocked by now left. split; [reflexivity|apply same_step_refl].
  - pose proof (scan_stops continue countLines (S f1) lexeme lx1 Hf1) as (_ & _ & Hmono).
    cbv zeta in Hmono. assert (Hpos : (0 < w)%nat) by lia. clear Hmono.
    pose proof (agree_isAtEnd w lx1 lx2 Hag Hpos) as Hend.
    pose proof (agree_peek w lx1 lx2 Hag Hpos) as Hpeek.
    rewrite scan_S in *.
    destruct (isAtEnd lx1) eqn:Hend1; cbn [negb andb fst snd] in *.
    { rewrite scan_blocked by (left; congruence).
      split; [reflexivity|apply same_step_refl]. }
    destruct (continue (peek lx1)) eqn:Hc.
    2:{ rewrite scan_blocked by (right; congruence).
        split; [reflexivity|apply same_step_refl]. }
    destruct f2 as [|f2].
    { symmetry in Hend. apply isAtEnd_false_remaining in Hend. lia. }
    rewrite scan_S, <- Hend, <- Hpeek, Hc. cbn [negb andb].
    assert (Hs : same_step lx1 (bump countLines lx1) lx2 (bump countLines lx2))
      by (apply bump_same_step; congruence).
    destruct (bump_step countLines lx1 Hend1) as [I1 P1].
    destruct (bump_step countLines lx2 (eq_sym Hend)) as [I2 P2].
    destruct (IH f2 (append_char lexeme (peek lx1)) (w - 1)%nat
                 (bump countLines lx1) (bump countLines lx2)) as [Hl Hs'].
    + apply (agree_after w _ lx1 _ lx2); [assumption..|lia].
    + unfold remaining in *. rewrite I1, P1. lia.
    + unfold remaining in *. rewrite I2, P2. lia.
    + lia.
    + split; [exact Hl|]. eapply same_step_trans; eassumption.
Qed.

Lemma advance_sim (w : nat) (lx1 lx2 : Lexer.t) :
  agree w lx1 lx2 -> (0 < w)%nat ->
  fst (advance lx1) = fst (advance lx2)
  /\ same_step lx1 (snd (advance lx1)) lx2 (snd (advance lx2)).
Proof.
  intros H Hw. destruct (isAtEnd lx1) eqn:Hend.
  - pose proof (agree_isAtEnd w lx1 lx2 H Hw) as He. rewrite Hend in He.
    unfold advance. rewrite Hend, <- He. split; [reflexivity|apply same_step_refl].
  - now apply (advance_same_step w).
Qed.

Lemma advance_eq (lx : Lexer.t) :
  isAtEnd lx = false ->
  advance lx = (peek lx, {| input := input lx; position := position lx + 1;
                            line := line lx; column := column lx + 1 |}).
Proof. intros H. unfold advance. now rewrite H. Qed.

Lemma consumeCharToken_position (kind : TokenType.t) (lx : Lexer.t) :
  isAtEnd lx = false ->
  position (snd (consumeCharToken kind lx)) = (position lx + 1)%nat.
Proof. intros H. unfold consumeCharToken. now rewrite advance_eq. Qed.

Lemma consumeCharToken_sim (kind : TokenType.t) (w : nat) (lx1 lx2 : Lexer.t) :
  agree w lx1 lx2 -> (0 < w)%nat ->
  same_token (fst (consumeCharToken kind lx1)) (fst (consumeCharToken kind lx2))
  /\ same_step lx1 (snd (consumeCharToken kind lx1)) lx2 (snd (consumeCharToken kind lx2)).
Proof.
  intros H Hw. destruct (advance_sim w lx1 lx2 H Hw) as [Hc Hs].
  unfold consumeCharToken.
  destruct (advance lx1) as [c1 l1], (advance lx2) as [c2 l2]. cbn [fst snd] in *.
  subst c2. repeat split; apply Hs.
Qed.

Lemma consumeTwoCharToken_position (kind : TokenType.t) (lx : Lexer.t) :
  isAtEnd lx = false ->
  (position lx + 1 <= position (snd (consumeTwoCharToken kind lx)))%nat.
Proof.
  intros H. unfold consumeTwoCharToken. rewrite advance_eq by assumption.
  match goal with |- context [advance ?l] =>
    pose proof (advance_monotone l) as [_ Hm]; destruct (advance l) end.
  cbn [snd position] in *. lia.
Qed.

Lemma consumeTwoCharToken_sim (kind : TokenType.t) (w : nat) (lx1 lx2 : Lexer.t) :
  agree w lx1 lx2 -> isAtEnd lx1 = false ->
  (position (snd (consumeTwoCharToken kind lx1)) < position lx1 + w)%nat ->
  same_token (fst (consumeTwoCharToken kind lx1)) (fst (consumeTwoCharToken kind lx2))
  /\ same_step lx1 (snd (consumeTwoCharToken kind lx1))
                 lx2 (snd (consumeTwoCharToken kind lx2)).
Proof.
  intros H Hend Hw. pose proof (consumeTwoCharToken_position kind lx1 Hend) as Hp.
  destruct (advance_sim w lx1 lx2 H) as [Hc Hs]; [lia|].
  destruct (advance_step lx1 Hend) as [_ P1].
  assert (Hag : agree (w - 1) (snd (advance lx1)) (snd (advance lx2))).
  { apply (agree_after w _ lx1 _ lx2); [assumption..|lia]. }
  destruct (advance_sim (w - 1) _ _ Hag) as [Hc' Hs']; [lia|].
  unfold consumeTwoCharToken in *.
  destruct (advance lx1) as [c1 l1], (advance lx2) as [c2 l2]. cbn [fst snd] in *.
  destruct (advance l1) as [d1 m1], (advance l2) as [d2 m2]. cbn [fst snd] in *.
  subst c2 d2. split; [now split|]. eapply same_step_trans; eassumption.
Qed.

Lemma handleNewline_sim (w : nat) (lx1 lx2 : Lexer.t) :
  agree w lx1 lx2 -> (0 < w)%nat ->
  same_token (fst (handleNewline lx1)) (fst (handleNewline lx2))
  /\ same_step lx1 (snd (handleNewline lx1)) lx2 (snd (handleNewline lx2)).
Proof.
  intros H Hw. destruct (advance_sim w lx1 lx2 H Hw) as [Hc Hs].
  unfold handleNewline.
  destruct (advance lx1) as [c1 l1], (advance lx2) as [c2 l2]. cbn [fst snd] in *.
  subst c2. repeat split; apply Hs.
Qed.

(** The operators of one or two characters look one character ahead. *)
Ltac operator_sim handler w :=
  let H := fresh "H" in let Hend := fresh "Hend" in let Hw := fresh "Hw" in
  let Hn := fresh "Hn" in
  intros H Hend Hw;
  assert (Hn : (1 < w)%nat) by
    (unfold handler in Hw;
     repeat match type of Hw with context [if ?b then _ else _] => destruct b end;
     match type of Hw with
     | context [consumeTwoCharToken ?k ?l] =>
         pose proof (consumeTwoCharToken_position k l Hend)
     | context [consumeCharToken ?k ?l] =>
         pose proof (consumeCharToken_position k l Hend)
     end; lia);
  unfold handler in *;
  rewrite <- (agree_peekNext _ _ _ H Hn);
  repeat match goal with |- context [if ?b then _ else _] => destruct b eqn:? end;
  first [ now apply (consumeTwoCharToken_sim _ w)
        | apply (consumeCharToken_sim _ w); [assumption|lia] ].

Lemma handleColon_sim (w : nat) (lx1 lx2 : Lexer.t) :
  agree w lx1 lx2 -> isAtEnd lx1 = false ->
  (position (snd (handleColon lx1)) < position lx1 + w)%nat ->
  same_token (fst (handleColon lx1)) (fst (handleColon lx2))
  /\ same_step lx1 (snd (handleColon lx1)) lx2 (snd (handleColon lx2)).
Proof. operator_sim handleColon w. Qed.

Lemma handleGreater_sim (w : nat) (lx1 lx2 : Lexer.t) :
  agree w lx1 lx2 -> isAtEnd lx1 = false ->
  (position (snd (handleGreater lx1)) < position lx1 + w)%nat ->
  same_token (fst (handleGreater lx1)) (fst (handleGreater lx2))
  /\ same_step lx1 (snd (handleGreater lx1)) lx2 (snd (handleGreater lx2)).
Proof. operator_sim handleGreater w. Qed.

Lemma handleLess_sim (w : nat) (lx1 lx2 : Lexer.t) :
  agree w lx1 lx2 -> isAtEnd lx1 = false ->
  (position (snd (handleLess lx1)) < position lx1 + w)%nat ->
  same_token (fst (handleLess lx1)) (fst (handleLess lx2))
  /\ same_step lx1 (snd (handleLess lx1)) lx2 (snd (handleLess lx2)).
Proof. operator_sim handleLess w. Qed.

Lemma handleEqual_sim (w : nat) (lx1 lx2 : Lexer.t) :
  agree w lx1 lx2 -> isAtEnd lx1 = false ->
  (position (snd (handleEqual lx1)) < position lx1 + w)%nat ->
  same_token (fst (handleEqual lx1)) (fst (handleEqual lx2))
  /\ same_step lx1 (snd (handleEqual lx1)) lx2 (snd (handleEqual lx2)).
Proof. operator_sim handleEqual w. Qed.

Lemma scan_monotone (continue : ascii -> bool) (countLines : bool) (lexeme : string)
    (lx : Lexer.t) :
  let lx' := snd (scan (remaining lx) continue countLines lexeme lx) in
  input lx' = input lx /\ (position lx <= position lx')%nat.
Proof. apply scan_stops. lia. Qed.

Lemma fraction_monotone (lexeme : string) (lx : Lexer.t) :
  input (snd (fraction lexeme lx)) = input lx
  /\ (position lx <= position (snd (fraction lexeme lx)))%nat.
Proof.
  unfold fraction. destruct (negb (isAtEnd lx) && Ascii.eqb (peek lx) ".") eqn:E.
  - apply andb_prop in E as [E _]. apply negb_true_iff in E.
    rewrite advance_eq by assumption.
    match goal with |- context [scan _ ?c ?b ?l ?x] =>
      destruct (scan_monotone c b l x) as [Hi Hp] end.
    cbn [input position] in *. split; [assumption|lia].
  - split; [reflexivity|cbn; lia].
Qed.

Lemma fraction_sim (lexeme : string) (w : nat) (lx1 lx2 : Lexer.t) :
  agree w lx1 lx2 ->
  (position (snd (fraction lexeme lx1)) < position lx1 + w)%nat ->
  fst (fraction lexeme lx1) = fst (fraction lexeme lx2)
  /\ same_step lx1 (snd (fraction lexeme lx1)) lx2 (snd (fraction lexeme lx2)).
Proof.
  intros H Hw. pose proof (fraction_monotone lexeme lx1) as [_ Hm].
  assert (Hpos : (0 < w)%nat) by lia.
  unfold fraction in *.
  rewrite <- (agree_isAtEnd w lx1 lx2 H Hpos), <- (agree_peek w lx1 lx2 H Hpos).
  destruct (negb (isAtEnd lx1) && Ascii.eqb (peek lx1) ".") eqn:E.
  2:{ split; [reflexivity|apply same_step_refl]. }
  apply andb_prop in E as [E _]. apply negb_true_iff in E.
  destruct (advance_sim w lx1 lx2 H Hpos) as [Hc Hs].
  destruct (advance_step lx1 E) as [I1 P1].
  destruct (advance lx1) as [c1 l1], (advance lx2) as [c2 l2]. cbn [fst snd] in *.
  subst c2.
  destruct (scan_sim isDigit false (remaining l1) (remaining l2) (append_char lexeme c1)
              (w - 1)%nat l1 l2) as [Hl Hs'].
  - apply (agree_after w _ lx1 _ lx2); [assumption..|lia].
  - lia.
  - lia.
  - lia.
  - split; [exact Hl|]. eapply same_step_trans; eassumption.
Qed.

Lemma readNumber_fraction (lx : Lexer.t) :
  readNumber lx =
  let r := scan (remaining lx) isDigit false EmptyString lx in
  let r' := fraction (fst r) (snd r) in
  (createToken TokenType.Number (fst r') (line (snd r')) (column lx), snd r').
Proof.
  unfold readNumber, fraction. cbv zeta.
  destruct (scan (remaining lx) isDigit false EmptyString lx) as [lexeme lx1].
  cbn [fst snd].
  destruct (negb (isAtEnd lx1) && Ascii.eqb (peek lx1) "."); [|reflexivity].
  destruct (advance lx1) as [dot lx1'].
  now destruct (scan (remaining lx1') isDigit false (append_char lexeme dot) lx1').
Qed.

Lemma readNumber_sim (w : nat) (lx1 lx2 : Lexer.t) :
  agree w lx1 lx2 ->
  (position (snd (readNumber lx1)) < position lx1 + w)%nat ->
  same_token (fst (readNumber lx1)) (fst (readNumber lx2))
  /\ same_step lx1 (snd (readNumber lx1)) lx2 (snd (readNumber lx2)).
Proof.
  intros H Hw. rewrite !readNumber_fraction in *. cbv zeta in *. cbn [fst snd] in *.
  set (r1 := scan (remaining lx1) isDigit false EmptyString lx1) in *.
  set (r2 := scan (remaining lx2) isDigit false EmptyString lx2) in *.
  pose proof (fraction_monotone (fst r1) (snd r1)) as [_ Hm].
  pose proof (scan_monotone isDigit false EmptyString lx1) as [_ Hm1].
  cbv zeta in Hm1. fold r1 in Hm1.
  destruct (scan_sim isDigit false (remaining lx1) (remaining lx2) EmptyString w lx1 lx2)
    as [Hl Hs]; [assumption|lia|lia|fold r1; lia|]. fold r1 r2 in Hl, Hs.
  destruct (fraction_sim (fst r1) (w - (position (snd r1) - position lx1))%nat
              (snd r1) (snd r2)) as [Hl' Hs'].
  - apply (agree_after w _ lx1 _ lx2); [assumption..|lia].
  - lia.
  - rewrite <- Hl. unfold same_token. cbn [tokenType lexeme].
    split; [now split|]. eapply same_step_trans; eassumption.
Qed.

Lemma readIdentifier_sim (w : nat) (lx1 lx2 : Lexer.t) :
  agree w lx1 lx2 ->
  (position (snd (readIdentifier lx1)) < position lx1 + w)%nat ->
  same_token (fst (readIdentifier lx1)) (fst (readIdentifier lx2))
  /\ same_step lx1 (snd (readIdentifier lx1)) lx2 (snd (readIdentifier lx2)).
Proof.
  intros H Hw. unfold readIdentifier in *.
  destruct (scan_sim isAlphaNumeric false (remaining lx1) (remaining lx2) EmptyString
              w lx1 lx2) as [Hl Hs]; [assumption|lia|lia| |].
  - now destruct (scan (remaining lx1) isAlphaNumeric false EmptyString lx1).
  - destruct (scan (remaining lx1) isAlphaNumeric false EmptyString lx1) as [x1 l1].
    destruct (scan (remaining lx2) isAlphaNumeric false EmptyString lx2) as [x2 l2].
    cbn [fst snd] in *. subst x2. split; [now split|assumption].
Qed.

Lemma readString_sim (w : nat) (lx1 lx2 : Lexer.t) :
  agree w lx1 lx2 -> isAtEnd lx1 = false ->
  (position (snd (readString lx1)) < position lx1 + w)%nat ->
  same_token (fst (readString lx1)) (fst (readString lx2))
  /\ same_step lx1 (snd (readString lx1)) lx2 (snd (readString lx2)).
Proof.
  intros H Hend Hw. unfold readString in *.
  destruct (advance_step lx1 Hend) as [I1 P1].
  destruct (advance_sim w lx1 lx2 H) as [_ Hs0].
  { destruct (advance lx1) as [c l0]. cbn [snd] in *.
    pose proof (scan_monotone (fun c => negb (Ascii.eqb c DQUOTE)) true EmptyString l0)
      as [_ Hm]. cbv zeta in Hm.
    destruct (scan (remaining l0) _ true EmptyString l0) as [x l1]. cbn [snd] in *.
    destruct (isAtEnd l1); [cbn [snd] in Hw; lia|].
    pose proof (advance_monotone l1) as [_ Hm'].
    destruct (advance l1) as [c' l2]. cbn [snd] in *. lia. }
  destruct (advance lx1) as [c1 l1], (advance lx2) as [c2 l2]. cbn [fst snd] in *.
  pose proof (scan_monotone (fun c => negb (Ascii.eqb c DQUOTE)) true EmptyString l1)
    as [_ Hm]. cbv zeta in Hm.
  set (continue := fun c => negb (Ascii.eqb c DQUOTE)) in *.
  assert (Hin : (position (snd (scan (remaining l1) continue true EmptyString l1))
                 < position l1 + (w - 1))%nat).
  { destruct (scan (remaining l1) continue true EmptyString l1) as [x m1].
    cbn [snd] in *. destruct (isAtEnd m1); [cbn [snd] in Hw; lia|].
    pose proof (advance_monotone m1) as [_ Hm'].
    destruct (advance m1) as [c' m2]. cbn [snd] in *. lia. }
  destruct (scan_sim continue true (remaining l1) (remaining l2) EmptyString
              (w - 1)%nat l1 l2) as [Hl Hs]; [|lia|lia|exact Hin|].
  { apply (agree_after w _ lx1 _ lx2); [assumption..|lia]. }
  destruct (scan (remaining l1) continue true EmptyString l1) as [x1 m1].
  destruct (scan (remaining l2) continue true EmptyString l2) as [x2 m2].
  cbn [fst snd] in *. subst x2.
  assert (Hag : agree (w - 1 - (position m1 - position l1)) m1 m2).
  { apply (agree_after (w - 1) _ l1 _ l2); [|assumption|lia].
    apply (agree_after w _ lx1 _ lx2); [assumption..|lia]. }
  assert (Hpos : (0 < w - 1 - (position m1 - position l1))%nat) by lia.
  rewrite <- (agree_isAtEnd _ m1 m2 Hag Hpos).
  destruct (isAtEnd m1) eqn:E; cbn [fst snd].
  - split; [now split|]. eapply same_step_trans; eassumption.
  - destruct (advance_sim _ m1 m2 Hag Hpos) as [_ Hs2].
    destruct (advance m1) as [d1 n1], (advance m2) as [d2 n2]. cbn [fst snd] in *.
    split; [now split|].
    eapply same_step_trans; [eassumption|]. eapply same_step_trans; eassumption.
Qed.

(** No token function moves backwards or changes the input. *)
Ltac cursor_steps :=
  repeat match goal with
         | |- context [if ?b then _ else _] => destruct b
         | |- context [advance ?l] =>
             let Hi := fresh "Hi" in let Hp := fresh "Hp" in
             pose proof (advance_monotone l) as [Hi Hp]; destruct (advance l)
         | |- context [scan (remaining ?l) ?c ?b ?x ?l] =>
             let Hi := fresh "Hi" in let Hp := fresh "Hp" in
             pose proof (scan_monotone c b x l) as [Hi Hp]; cbv zeta in Hi, Hp;
             destruct (scan (remaining l) c b x l)
         end;
  cbn [fst snd input position newline] in *;
  (split; [congruence|lia]).

Lemma lexToken_monotone (lx : Lexer.t) :
  input (snd (lexToken lx)) = input lx /\ (position lx <= position (snd (lexToken lx)))%nat.
Proof.
  unfold lexToken, handleColon, handleGreater, handleLess, handleEqual, handleNewline,
    readNumber, readIdentifier, readString, consumeCharToken, consumeTwoCharToken.
  cursor_steps.
Qed.

Lemma lexToken_sim (w : nat) (lx1 lx2 : Lexer.t) :
  agree w lx1 lx2 -> isAtEnd lx1 = false ->
  (position (snd (lexToken lx1)) < position lx1 + w)%nat ->
  same_token (fst (lexToken lx1)) (fst (lexToken lx2))
  /\ same_step lx1 (snd (lexToken lx1)) lx2 (snd (lexToken lx2)).
Proof.
  intros H Hend Hw. pose proof (lexToken_monotone lx1) as [_ Hm].
  assert (Hpos : (0 < w)%nat) by lia. clear Hm.
  unfold lexToken in *. rewrite <- (agree_peek w lx1 lx2 H Hpos).
  repeat match goal with
         | |- context [if ?b then _ else _] => destruct b
         end;
    first [ now apply (consumeCharToken_sim _ w)
          | now apply (handleColon_sim w)
          | now apply (handleGreater_sim w)
          | now apply (handleLess_sim w)
          | now apply (handleEqual_sim w)
          | now apply (readString_sim w)
          | now apply (handleNewline_sim w)
          | now apply (readNumber_sim w)
          | now apply (readIdentifier_sim w)
          | idtac ].
  cbn [fst snd]. split; [now split|apply same_step_refl].
Qed.

Lemma tokenAt_monotone (lx : Lexer.t) :
  input (snd (tokenAt lx)) = input lx /\ (position lx <= position (snd (tokenAt lx)))%nat.
Proof.
  unfold tokenAt. destruct (isAtEnd lx); [cbn; split; (reflexivity || lia)|].
  apply lexToken_monotone.
Qed.

Lemma tokenAt_sim (w : nat) (lx1 lx2 : Lexer.t) :
  agree w lx1 lx2 ->
  (position (snd (tokenAt lx1)) < position lx1 + w)%nat ->
  same_token (fst (tokenAt lx1)) (fst (tokenAt lx2))
  /\ same_step lx1 (snd (tokenAt lx1)) lx2 (snd (tokenAt lx2)).
Proof.
  intros H Hw. pose proof (tokenAt_monotone lx1) as [_ Hm].
  assert (Hpos : (0 < w)%nat) by lia. clear Hm.
  unfold tokenAt in *. rewrite <- (agree_isAtEnd w lx1 lx2 H Hpos).
  destruct (isAtEnd lx1) eqn:Hend.
  - cbn [fst snd]. split; [now split|apply same_step_refl].
  - now apply (lexToken_sim w).
Qed.

(** *** White space and comments *)

Lemma skipTrivia_eq (fuel : nat) (lx : Lexer.t) :
  skipTrivia fuel lx =
  let lx0 := skipWhitespace lx in
  if isAtEnd lx0 then Some lx0
  else if Ascii.eqb (peek lx0) "{" then
    match fuel with
    | O => None
    | S fuel' => skipTrivia fuel' (skipComment lx0)
    end
  else Some lx0.
Proof. now destruct fuel. Qed.

(** [nextToken] skips white space and comments, then reads one token. *)
Lemma nextToken_aux_tokenAt :
  forall fuel lx, nextToken_aux fuel lx = option_map tokenAt (skipTrivia fuel lx).
Proof.
  induction fuel as [|fuel IH]; intros lx; rewrite skipTrivia_eq; cbn [nextToken_aux];
    cbv zeta; set (lx0 := skipWhitespace lx);
    (destruct (isAtEnd lx0) eqn:Hend;
     [cbn [option_map]; unfold tokenAt; now rewrite Hend|]);
    (destruct (Ascii.eqb (peek lx0) "{") eqn:E;
     [apply Ascii.eqb_eq in E; rewrite E; unfold LF, DQUOTE; cbn; try apply IH; reflexivity
     |cbn [option_map]; unfold tokenAt, lexToken; rewrite Hend;
      repeat match goal with
             | |- context [if ?b then _ else _] => destruct b; try reflexivity
             end; discriminate]).
Qed.

Lemma skipComment_monotone (lx : Lexer.t) :
  input (skipComment lx) = input lx /\ (position lx <= position (skipComment lx))%nat.
Proof.
  unfold skipComment.
  pose proof (scan_monotone (fun c => negb (Ascii.eqb c "}")) true EmptyString lx)
    as [Hi Hp]. cbv zeta in Hi, Hp.
  destruct (scan (remaining lx) _ true EmptyString lx) as [x l1]. cbn [snd] in *.
  destruct (negb (isAtEnd l1)); [|now split].
  pose proof (advance_monotone l1) as [Hi' Hp']. split; [congruence|lia].
Qed.

(** A comment holds its opening brace at least. *)
Lemma skipComment_progress (lx : Lexer.t) :
  isAtEnd lx = false -> peek lx = "{"%char ->
  (position lx < position (skipComment lx))%nat.
Proof.
  intros Hend Hpk. unfold skipComment.
  assert (Hrem : exists f, remaining lx = S f)
    by (apply isAtEnd_false_remaining in Hend; destruct (remaining lx); [lia|eauto]).
  destruct Hrem as [f Hrem]. rewrite Hrem, scan_S, Hend, Hpk.
  change (negb false && negb (Ascii.eqb "{" "}")) with true. cbn iota.
  destruct (bump_step true lx Hend) as [Hi Hp].
  set (l0 := bump true lx) in *.
  pose proof (scan_stops (fun c => negb (Ascii.eqb c "}")) true f
                (append_char EmptyString "{") l0) as (_ & Hi1 & Hp1).
  { unfold remaining in *. rewrite Hi, Hp. lia. }
  cbv zeta in Hi1, Hp1.
  destruct (scan f _ true (append_char EmptyString "{") l0) as [x l1]. cbn [snd] in *.
  destruct (negb (isAtEnd l1)); [|lia].
  pose proof (advance_monotone l1) as [_ Hp']. lia.
Qed.

Lemma skipWhitespace_sim (w : nat) (lx1 lx2 : Lexer.t) :
  agree w lx1 lx2 ->
  (position (skipWhitespace lx1) < position lx1 + w)%nat ->
  same_step lx1 (skipWhitespace lx1) lx2 (skipWhitespace lx2).
Proof.
  intros H Hw. unfold skipWhitespace in *.
  now apply (scan_sim isWhitespace false (remaining lx1) (remaining lx2) EmptyString w).
Qed.

Lemma skipComment_sim (w : nat) (lx1 lx2 : Lexer.t) :
  agree w lx1 lx2 ->
  (position (skipComment lx1) < position lx1 + w)%nat ->
  same_step lx1 (skipComment lx1) lx2 (skipComment lx2).
Proof.
  intros H Hw. unfold skipComment in *.
  set (continue := fun c => negb (Ascii.eqb c "}")) in *.
  pose proof (scan_monotone continue true EmptyString lx1) as [_ Hm]. cbv zeta in Hm.
  assert (Hin : (position (snd (scan (remaining lx1) continue true EmptyString lx1))
                 < position lx1 + w)%nat).
  { destruct (scan (remaining lx1) continue true EmptyString lx1) as [x l1].
    cbn [snd] in *. destruct (negb (isAtEnd l1)); [|lia].
    pose proof (advance_monotone l1) as [_ Hm']. lia. }
  destruct (scan_sim continue true (remaining lx1) (remaining lx2) EmptyString w lx1 lx2)
    as [_ Hs]; [assumption|lia|lia|exact Hin|].
  destruct (scan (remaining lx1) continue true EmptyString lx1) as [x1 l1].
  destruct (scan (remaining lx2) continue true EmptyString lx2) as [x2 l2].
  cbn [fst snd] in *.
  assert (Hag : agree (w - (position l1 - position lx1)) l1 l2).
  { apply (agree_after w _ lx1 _ lx2); [assumption..|lia]. }
  assert (Hpos : (0 < w - (position l1 - position lx1))%nat) by lia.
  rewrite <- (agree_isAtEnd _ l1 l2 Hag Hpos).
  destruct (isAtEnd l1); cbn [negb]; [assumption|].
  destruct (advance_sim _ l1 l2 Hag Hpos) as [_ Hs2].
  eapply same_step_trans; eassumption.
Qed.

Lemma skipWhitespace_monotone (lx : Lexer.t) :
  input (skipWhitespace lx) = input lx /\ (position lx <= position (skipWhitespace lx))%nat.
Proof. apply skipWhitespace_stops. Qed.

Lemma skipTrivia_monotone :
  forall fuel lx lx0, skipTrivia fuel lx = Some lx0 ->
    input lx0 = input lx /\ (position lx <= position lx0)%nat.
Proof.
  induction fuel as [|fuel IH]; intros lx lx0; rewrite skipTrivia_eq; cbv zeta;
    destruct (skipWhitespace_monotone lx) as [Hi Hp];
    destruct (isAtEnd (skipWhitespace lx));
    try (intros [= <-]; now split);
    destruct (Ascii.eqb (peek (skipWhitespace lx)) "{");
    try (intros [= <-]; now split); try discriminate.
  intros H. apply IH in H as [Hi' Hp'].
  destruct (skipComment_monotone (skipWhitespace lx)) as [Hi2 Hp2].
  split; [congruence|lia].
Qed.

(** The recursion of [nextToken] through comments ends: each comment
    consumes at least one character. *)
Lemma skipTrivia_enough :
  forall fuel lx, (remaining lx <= fuel)%nat -> exists lx0, skipTrivia fuel lx = Some lx0.
Proof.
  induction fuel as [|fuel IH]; intros lx Hf; rewrite skipTrivia_eq; cbv zeta;
    destruct (skipWhitespace_monotone lx) as [Hi Hp];
    destruct (isAtEnd (skipWhitespace lx)) eqn:Hend; eauto;
    destruct (Ascii.eqb (peek (skipWhitespace lx)) "{") eqn:E; eauto.
  - apply isAtEnd_false_remaining in Hend. unfold remaining in *. rewrite Hi in Hend. lia.
  - apply Ascii.eqb_eq in E. apply IH.
    pose proof (skipComment_progress _ Hend E) as Hlt.
    destruct (skipComment_monotone (skipWhitespace lx)) as [Hi2 _].
    unfold remaining in *. rewrite Hi2, Hi. lia.
Qed.

Lemma nextToken_aux_enough (fuel : nat) (lx : Lexer.t) :
  (remaining lx <= fuel)%nat -> nextToken_aux fuel lx <> None.
Proof.
  intros Hf. rewrite nextToken_aux_tokenAt.
  now destruct (skipTrivia_enough fuel lx Hf) as [lx0 ->].
Qed.

Lemma nextToken_tokenAt (lx : Lexer.t) :
  exists lx0, skipTrivia (remaining lx) lx = Some lx0 /\ nextToken lx = tokenAt lx0.
Proof.
  destruct (skipTrivia_enough (remaining lx) lx (le_n _)) as [lx0 H].
  exists lx0. split; [exact H|]. unfold nextToken. now rewrite nextToken_aux_tokenAt, H.
Qed.

Lemma skipTrivia_sim :
  forall f1 f2 w lx1 lx2 lx0,
    agree w lx1 lx2 -> (remaining lx1 <= f1)%nat -> (remaining lx2 <= f2)%nat ->
    skipTrivia f1 lx1 = Some lx0 -> (position lx0 < position lx1 + w)%nat ->
    exists lx0', skipTrivia f2 lx2 = Some lx0' /\ same_step lx1 lx0 lx2 lx0'.
Proof.
  induction f1 as [|f1 IH]; intros f2 w lx1 lx2 lx0 Hag Hf1 Hf2 Hskip Hw;
    pose proof (skipTrivia_monotone _ _ _ Hskip) as [_ Hm];
    rewrite skipTrivia_eq in Hskip; rewrite skipTrivia_eq; cbv zeta in *;
    destruct (skipWhitespace_monotone lx1) as [Hi1 Hp1];
    destruct (skipWhitespace_monotone lx2) as [Hi2 Hp2];
    set (a1 := skipWhitespace lx1) in *; set (a2 := skipWhitespace lx2) in *.
  all: assert (Hle : (position a1 <= position lx0)%nat)
    by (destruct (isAtEnd a1); [injection Hskip as <-; lia|];
        destruct (Ascii.eqb (peek a1) "{"); [|injection Hskip as <-; lia];
        try discriminate;
        apply skipTrivia_monotone in Hskip as [_ Hq];
        pose proof (skipComment_monotone a1) as [_ Hq']; lia).
  all: assert (Hs : same_step lx1 a1 lx2 a2) by (apply (skipWhitespace_sim w); [assumption|fold a1; lia]).
  all: assert (Haga : agree (w - (position a1 - position lx1)) a1 a2)
    by (apply (agree_after w _ lx1 _ lx2); [assumption..|lia]).
  all: assert (Hpos : (0 < w - (position a1 - position lx1))%nat) by lia.
  all: rewrite <- (agree_isAtEnd _ a1 a2 Haga Hpos), <- (agree_peek _ a1 a2 Haga Hpos).
  all: destruct (isAtEnd a1) eqn:Hend; [injection Hskip as <-; eauto|].
  all: destruct (Ascii.eqb (peek a1) "{") eqn:E; [|injection Hskip as <-; eauto].
  - discriminate.
  - apply Ascii.eqb_eq in E.
    pose proof (agree_isAtEnd _ a1 a2 Haga Hpos) as Hend2. rewrite Hend in Hend2.
    pose proof (agree_peek _ a1 a2 Haga Hpos) as Hpk2. rewrite E in Hpk2.
    symmetry in Hend2, Hpk2.
    pose proof (skipComment_progress a1 Hend E) as Hlt1.
    pose proof (skipComment_progress a2 Hend2 Hpk2) as Hlt2.
    destruct (skipComment_monotone a1) as [Hic1 _].
    destruct (skipComment_monotone a2) as [Hic2 _].
    pose proof (skipTrivia_monotone _ _ _ Hskip) as [_ Hmc].
    assert (Hsc : same_step a1 (skipComment a1) a2 (skipComment a2))
      by (apply (skipComment_sim (w - (position a1 - position lx1))); [assumption|lia]).
    destruct f2 as [|f2].
    { apply isAtEnd_false_remaining in Hend2. unfold remaining in *.
      rewrite Hi2 in Hend2. lia. }
    destruct (IH f2 (w - (position (skipComment a1) - position lx1))%nat
                (skipComment a1) (skipComment a2) lx0) as (lx0' & Hskip' & Hs').
    + apply (agree_after (w - (position a1 - position lx1)) _ a1 _ a2);
        [assumption..|lia].
    + unfold remaining in *. rewrite Hic1, Hi1. lia.
    + unfold remaining in *. rewrite Hic2, Hi2. lia.
    + exact Hskip.
    + lia.
    + exists lx0'. split; [exact Hskip'|].
      eapply same_step_trans; [exact Hs|]. eapply same_step_trans; eassumption.
Qed.

(** A call of [nextToken] reads nothing beyond the character after its
    token: two lexers that agree that far return the same token. *)
Lemma nextToken_sim (w : nat) (lx1 lx2 : Lexer.t) :
  agree w lx1 lx2 ->
  (position (snd (nextToken lx1)) < position lx1 + w)%nat ->
  same_token (fst (nextToken lx1)) (fst (nextToken lx2))
  /\ same_step lx1 (snd (nextToken lx1)) lx2 (snd (nextToken lx2)).
Proof.
  intros Hag Hw.
  destruct (nextToken_tokenAt lx1) as (a1 & Hskip & Heq). rewrite Heq in *.
  pose proof (skipTrivia_monotone _ _ _ Hskip) as [_ Hm].
  pose proof (tokenAt_monotone a1) as [_ Hm'].
  destruct (skipTrivia_sim (remaining lx1) (remaining lx2) w lx1 lx2 a1)
    as (a2 & Hskip2 & Hs); [assumption|lia|lia|assumption|lia|].
  unfold nextToken at 1 2. rewrite nextToken_aux_tokenAt, Hskip2. cbn [option_map].
  destruct (tokenAt_sim (w - (position a1 - position lx1)) a1 a2) as [Ht Hs'].
  - apply (agree_after w _ lx1 _ lx2); [assumption..|lia].
  - lia.
  - split; [exact Ht|]. eapply same_step_trans; eassumption.
Qed.

End LexerSimulation.

(** ** One [=] for two *)

Section LoneEquals.

Import Lexer.

Variables pre suf : string.

Hypothesis suf_not_equals : String.get 0 suf <> Some "="%char.

Local Abbreviation t1 := (with_double_equals pre suf).
Local Abbreviation t2 := (with_single_equals pre suf).

Lemma get_append_right (s s' : string) (i : nat) :
  String.get (String.length s + i) (s ++ s') = String.get i s'.
Proof. rewrite Nat.add_comm. symmetry. apply append_correct2. Qed.

(** Up to and including the first [=] the two texts are the same. *)
Lemma agree_prefix (lx1 lx2 : Lexer.t) :
  input lx1 = t1 -> input lx2 = t2 -> position lx1 = position lx2 ->
  agree (String.length pre + 1 - position lx1) lx1 lx2.
Proof.
  intros I1 I2 P i Hi. unfold char_at. rewrite I1, I2, <- P.
  unfold with_double_equals, with_single_equals.
  destruct (Nat.lt_ge_cases (position lx1 + i) (String.length pre)) as [Hlt|Hge].
  - now rewrite <- !append_correct1.
  - replace (position lx1 + i)%nat with (String.length pre + 0)%nat by lia.
    now rewrite !get_append_right.
Qed.

(** After the operator they are the same again. *)
Lemma agree_suffix (lx1 lx2 : Lexer.t) (w : nat) :
  input lx1 = t1 -> input lx2 = t2 ->
  position lx1 = (String.length pre + 2)%nat ->
  position lx2 = (String.length pre + 1)%nat ->
  agree w lx1 lx2.
Proof.
  intros I1 I2 P1 P2 i _. unfold char_at. rewrite I1, I2, P1, P2.
  unfold with_double_equals, with_single_equals.
  rewrite <- !Nat.add_assoc, !get_append_right. reflexivity.
Qed.

Lemma lookupKeyword_not_EqEq (ident : string) : lookupKeyword ident <> TokenType.EqEq.
Proof.
  unfold lookupKeyword.
  repeat match goal with |- context [if ?b then _ else _] => destruct b end; discriminate.
Qed.

(** Only the character [=] starts a token of the equality kind. *)
Lemma tokenAt_EqEq (a : Lexer.t) :
  tokenType (fst (tokenAt a)) = TokenType.EqEq ->
  isAtEnd a = false /\ peek a = "="%char /\ tokenAt a = handleEqual a.
Proof.
  unfold tokenAt. destruct (isAtEnd a) eqn:Hend; [discriminate|].
  unfold lexToken.
  destruct (Ascii.eqb (peek a) "=") eqn:E.
  { apply Ascii.eqb_eq in E. rewrite E. intros _. now repeat split. }
  intros H. exfalso. revert H.
  repeat match goal with |- context [if Ascii.eqb (peek a) ?c then _ else _] =>
           destruct (Ascii.eqb (peek a) c) end;
    try discriminate;
    unfold handleColon, handleGreater, handleLess, handleNewline,
      readNumber, readIdentifier, readString, consumeCharToken, consumeTwoCharToken;
    repeat match goal with
           | |- context [if ?b then _ else _] => destruct b
           | |- context [advance ?l] => destruct (advance l)
           | |- context [scan ?f ?c ?b ?x ?l] => destruct (scan f c b x l)
           end;
    cbn [fst snd tokenType]; try discriminate; apply lookupKeyword_not_EqEq.
Qed.

Lemma tokenAt_equals (a : Lexer.t) :
  isAtEnd a = false -> peek a = "="%char -> tokenAt a = handleEqual a.
Proof. intros Hend Hpk. unfold tokenAt, lexToken. now rewrite Hend, Hpk. Qed.

(** The operator written [==] spans two characters. *)
Lemma handleEqual_double (a : Lexer.t) :
  isAtEnd a = false -> lexeme (fst (handleEqual a)) = "=="%string ->
  position (snd (handleEqual a)) = (position a + 2)%nat.
Proof.
  intros Hend. unfold handleEqual.
  destruct (Ascii.eqb (peekNext a) "=") eqn:E.
  - intros _. unfold consumeTwoCharToken. rewrite advance_eq by assumption.
    rewrite advance_eq.
    + cbn [snd position]. lia.
    + unfold peekNext in E. unfold isAtEnd. cbn [input position].
      now destruct (String.length (input a) <=? position a + 1)%nat.
  - unfold consumeCharToken. rewrite advance_eq by assumption. cbn [fst lexeme].
    intros H. injection H as _ H. discriminate.
Qed.

(** A lone [=] is the same operator, one character long. *)
Lemma handleEqual_single (a : Lexer.t) :
  isAtEnd a = false -> peekNext a <> "="%char ->
  tokenType (fst (handleEqual a)) = TokenType.EqEq
  /\ input (snd (handleEqual a)) = input a
  /\ position (snd (handleEqual a)) = (position a + 1)%nat.
Proof.
  intros Hend Hn. unfold handleEqual.
  destruct (Ascii.eqb (peekNext a) "=") eqn:E; [now apply Ascii.eqb_eq in E|].
  unfold consumeCharToken. rewrite advance_eq by assumption. now repeat split.
Qed.

(** Where the two texts part: the lexer of the second stands on its lone
    [=]. *)
Lemma lone_equals_token (a : Lexer.t) :
  input a = t2 -> position a = String.length pre ->
  tokenType (fst (tokenAt a)) = TokenType.EqEq
  /\ input (snd (tokenAt a)) = t2
  /\ position (snd (tokenAt a)) = (String.length pre + 1)%nat.
Proof.
  intros I P.
  assert (H0 : char_at a 0 = Some "="%char).
  { unfold char_at. rewrite I, P. unfold with_single_equals.
    now rewrite get_append_right. }
  assert (H1 : char_at a 1 = String.get 0 suf).
  { unfold char_at. rewrite I, P. unfold with_single_equals.
    now rewrite get_append_right. }
  assert (Hend : isAtEnd a = false) by (rewrite isAtEnd_char_at; now rewrite H0).
  assert (Hpk : peek a = "="%char) by (rewrite peek_char_at; now rewrite H0).
  assert (Hn : peekNext a <> "="%char).
  { rewrite peekNext_char_at, H1. destruct (String.get 0 suf) as [c|]; [|discriminate].
    intros ->. now apply suf_not_equals. }
  rewrite tokenAt_equals by assumption.
  destruct (handleEqual_single a Hend Hn) as (K & I' & P'). rewrite I', P'. now rewrite I, P.
Qed.

Lemma nextToken_monotone (lx : Lexer.t) :
  input (snd (nextToken lx)) = input lx
  /\ (position lx <= position (snd (nextToken lx)))%nat.
Proof.
  destruct (nextToken_tokenAt lx) as (a & Hskip & ->).
  destruct (skipTrivia_monotone _ _ _ Hskip) as [I P].
  destruct (tokenAt_monotone a) as [I' P']. split; [congruence|lia].
Qed.

(** The operator starts where white space and comments end. *)
Lemma operator_at_start (lx : Lexer.t) (offset : nat) :
  equality_operator_after 0 lx offset ->
  exists a, skipTrivia (remaining lx) lx = Some a /\ position a = offset
            /\ nextToken lx = tokenAt a.
Proof.
  unfold equality_operator_after. cbn [nth_call].
  destruct (nextToken_tokenAt lx) as (a & Hskip & ->). intros (K & L & P).
  destruct (tokenAt_EqEq a K) as (Hend & _ & Heq). rewrite Heq in L, P.
  rewrite (handleEqual_double a Hend L) in P.
  exists a. split; [exact Hskip|]. split; [lia|reflexivity].
Qed.

Lemma operator_start :
  forall k lx offset, equality_operator_after k lx offset -> (position lx <= offset)%nat.
Proof.
  induction k as [|k IH]; intros lx offset H.
  - destruct (operator_at_start lx offset H) as (a & Hskip & P & _).
    destruct (skipTrivia_monotone _ _ _ Hskip) as [_ Hm]. lia.
  - apply (IH (snd (nextToken lx))) in H.
    destruct (nextToken_monotone lx) as [_ Hm]. lia.
Qed.

(** Lexers with the same characters ahead return the same tokens. *)
Lemma same_tokens_after :
  forall k lx1 lx2, (forall w, agree w lx1 lx2) ->
    same_token (fst (nth_call k lx1)) (fst (nth_call k lx2)).
Proof.
  induction k as [|k IH]; intros lx1 lx2 Hag; cbn [nth_call].
  - apply (nextToken_sim (S (position (snd (nextToken lx1)) - position lx1))); [apply Hag|lia].
  - apply IH. intros w.
    set (w' := (w + S (position (snd (nextToken lx1)) - position lx1))%nat).
    destruct (nextToken_sim w' lx1 lx2) as [_ Hs]; [apply Hag|lia|].
    apply (agree_after w' w _ _ _ _ (Hag w') Hs). lia.
Qed.

Lemma same_token_equiv (a b : Token) : same_token a b -> token_equiv a b.
Proof. intros [K L]. now split. Qed.

(** The tokens of the two texts, one by one. *)
Lemma tokens_equiv_from :
  forall k lx1 lx2,
    input lx1 = t1 -> input lx2 = t2 -> position lx1 = position lx2 ->
    equality_operator_after k lx1 (String.length pre) ->
    forall j, token_equiv (fst (nth_call j lx1)) (fst (nth_call j lx2)).
Proof.
  induction k as [|k IH]; intros lx1 lx2 I1 I2 P Hop j.
  - destruct (operator_at_start _ _ Hop) as (a1 & Hskip & Pa & Heq).
    destruct Hop as (K & L & Pend). cbn [nth_call] in K, L, Pend.
    destruct (skipTrivia_monotone _ _ _ Hskip) as [Ia Hm].
    destruct (skipTrivia_sim (remaining lx1) (remaining lx2)
                (String.length pre + 1 - position lx1) lx1 lx2 a1)
      as (a2 & Hskip2 & Hs); [now apply agree_prefix|lia|lia|assumption|lia|].
    destruct Hs as (_ & Ia2 & _ & Hp).
    destruct (lone_equals_token a2) as (K2 & I2' & P2'); [congruence|lia|].
    assert (Heq2 : nextToken lx2 = tokenAt a2).
    { unfold nextToken. now rewrite nextToken_aux_tokenAt, Hskip2. }
    destruct (nextToken_monotone lx1) as [I1' _].
    destruct j as [|j]; cbn [nth_call].
    + rewrite Heq2. split; [congruence|]. intros Hne. now rewrite K in Hne.
    + apply same_token_equiv, same_tokens_after. intros w.
      apply agree_suffix; rewrite ?Heq2; congruence.
  - pose proof (operator_start k (snd (nextToken lx1)) _ Hop) as Hle.
    destruct (nextToken_monotone lx1) as [I1' Hm].
    destruct (nextToken_sim (String.length pre + 1 - position lx1) lx1 lx2)
      as [Ht Hs]; [now apply agree_prefix|lia|].
    destruct j as [|j]; cbn [nth_call]; [now apply same_token_equiv|].
    destruct Hs as (_ & I2' & _ & Hp).
    apply IH; [congruence|congruence|lia|exact Hop].
Qed.

Lemma tokenize_kinds :
  forall n lx1 lx2,
    (forall j, token_equiv (fst (nth_call j lx1)) (fst (nth_call j lx2))) ->
    map tokenType (tokenize n lx1) = map tokenType (tokenize n lx2).
Proof.
  induction n as [|n IH]; intros lx1 lx2 H; [reflexivity|]. cbn [tokenize].
  pose proof (H 0%nat) as [K _]. cbn [nth_call] in K.
  pose proof (fun j => H (S j)) as H'. cbn [nth_call] in H'.
  destruct (nextToken lx1) as [x1 l1], (nextToken lx2) as [x2 l2]. cbn [fst snd] in *.
  rewrite <- K. destruct (TokenType.eqb (tokenType x1) TokenType.Eof); cbn [map].
  - now rewrite K.
  - rewrite K. f_equal. now apply IH.
Qed.

End LoneEquals.

(** ** The parser reads kinds, names and numbers only *)

Section ParserCongruence.

Context {Src : Type} (pull : Src -> Token * Src).

Local Abbreviation advance := (Parser.advance pull).
Local Abbreviation peekToken := (Parser.peekToken pull).
Local Abbreviation expectToken := (Parser.expectToken pull).
Local Abbreviation alike := (parser_equiv pull).
Local Abbreviation agreeing := (result_equiv pull).

Lemma similar_pull (s1 s2 : Src) :
  similar pull s1 s2 ->
  token_equiv (fst (pull s1)) (fst (pull s2))
  /\ similar pull (snd (pull s1)) (snd (pull s2)).
Proof. intros H. split; [exact (H 0%nat)|]. intros j. exact (H (S j)). Qed.

Lemma not_eof_equiv (a b : Token) :
  token_equiv a b -> option_equiv (Parser.not_eof a) (Parser.not_eof b).
Proof.
  intros [K L]. unfold Parser.not_eof. rewrite <- K.
  destruct (TokenType.eqb (tokenType a) TokenType.Eof); [exact I|now split].
Qed.

Lemma advance_equiv (p1 p2 : Parser.t Src) :
  alike p1 p2 -> alike (advance p1) (advance p2).
Proof.
  intros (Hl & Hn & Hc). unfold Parser.advance.
  destruct (Parser.nextToken p1) as [a|], (Parser.nextToken p2) as [b|];
    try contradiction.
  - split; [exact Hl|]. split; [exact I|exact Hn].
  - destruct (similar_pull _ _ Hl) as [Ht Hl'].
    destruct (pull (Parser.lexer p1)) as [a s1], (pull (Parser.lexer p2)) as [b s2].
    cbn [fst snd] in *. split; [exact Hl'|]. split; [exact I|now apply not_eof_equiv].
Qed.

Lemma peekToken_equiv (p1 p2 : Parser.t Src) :
  alike p1 p2 ->
  option_equiv (fst (peekToken p1)) (fst (peekToken p2))
  /\ alike (snd (peekToken p1)) (snd (peekToken p2)).
Proof.
  intros (Hl & Hn & Hc). unfold Parser.peekToken.
  destruct (Parser.nextToken p1) as [a|] eqn:E1, (Parser.nextToken p2) as [b|] eqn:E2;
    try contradiction.
  - cbn [fst snd]. split; [now apply not_eof_equiv|].
    split; [exact Hl|]. split; [now rewrite E1, E2|exact Hc].
  - destruct (similar_pull _ _ Hl) as [Ht Hl'].
    destruct (pull (Parser.lexer p1)) as [a s1], (pull (Parser.lexer p2)) as [b s2].
    cbn [fst snd] in *. split; [now apply not_eof_equiv|].
    split; [exact Hl'|]. split; [exact Ht|exact Hc].
Qed.

Lemma token_is_equiv (kind : TokenType.t) (o1 o2 : option Token) :
  option_equiv o1 o2 -> Parser.token_is kind o1 = Parser.token_is kind o2.
Proof.
  destruct o1 as [a|], o2 as [b|]; try contradiction; [|reflexivity].
  intros [K _]. cbn. now rewrite K.
Qed.

Lemma current_is_equiv (kind : TokenType.t) (p1 p2 : Parser.t Src) :
  alike p1 p2 -> Parser.current_is kind p1 = Parser.current_is kind p2.
Proof. intros (_ & _ & Hc). now apply (token_is_equiv kind) in Hc. Qed.

Lemma result_bind {A B : Type} (R : A -> A -> Prop) (R' : B -> B -> Prop)
    (m1 m2 : res ParseError (A * Parser.t Src))
    (f1 f2 : A * Parser.t Src -> res ParseError (B * Parser.t Src)) :
  agreeing R m1 m2 ->
  (forall a1 a2 p1 p2, R a1 a2 -> alike p1 p2 -> agreeing R' (f1 (a1, p1)) (f2 (a2, p2))) ->
  agreeing R' (bind m1 f1) (bind m2 f2).
Proof.
  destruct m1 as [[a1 p1]|e1|], m2 as [[a2 p2]|e2|]; cbn; try contradiction; auto.
  intros [Ha Hp] Hf. now apply Hf.
Qed.

(** The token that [expectToken] returns has the expected kind. *)
Lemma expectToken_equiv (kind : TokenType.t) (p1 p2 : Parser.t Src) :
  alike p1 p2 ->
  agreeing (fun a b => token_equiv a b /\ tokenType a = kind)
           (expectToken kind p1) (expectToken kind p2).
Proof.
  intros Hp. pose proof Hp as (_ & _ & Hc). unfold Parser.expectToken.
  destruct (Parser.currentToken p1) as [a|], (Parser.currentToken p2) as [b|];
    try contradiction; [|reflexivity].
  destruct Hc as [K L]. rewrite <- K. unfold TokenType.eqb.
  case_bool_decide as E; cbn [negb].
  - split; [|now apply advance_equiv]. split; [now split|exact E].
  - reflexivity.
Qed.

Lemma getInfixBindingPower_equiv (a b : Token) :
  token_equiv a b -> Parser.getInfixBindingPower a = Parser.getInfixBindingPower b.
Proof. intros [K _]. unfold Parser.getInfixBindingPower. now rewrite K. Qed.

Ltac same_result := split; [reflexivity|first [assumption|now apply advance_equiv]].

(** On sources that yield the same tokens the expression parser runs the
    same way. *)
Lemma expression_equiv (fuel : nat) :
  (forall m p1 p2, alike p1 p2 ->
     agreeing eq (Parser.parseExpression pull fuel m p1)
                 (Parser.parseExpression pull fuel m p2))
  /\ (forall m l p1 p2, alike p1 p2 ->
       agreeing eq (Parser.parseExpression_loop pull fuel m l p1)
                   (Parser.parseExpression_loop pull fuel m l p2))
  /\ (forall p1 p2, alike p1 p2 ->
       agreeing eq (Parser.parsePrefix pull fuel p1) (Parser.parsePrefix pull fuel p2))
  /\ (forall kind p1 p2, kind <> TokenType.EqEq -> alike p1 p2 ->
       agreeing eq (Parser.parseFunctionCall pull fuel kind p1)
                   (Parser.parseFunctionCall pull fuel kind p2))
  /\ (forall args p1 p2, alike p1 p2 ->
       agreeing eq (Parser.parseArguments_loop pull fuel args p1)
                   (Parser.parseArguments_loop pull fuel args p2))
  /\ (forall p1 p2, alike p1 p2 ->
       agreeing eq (Parser.parseIfFunction pull fuel p1)
                   (Parser.parseIfFunction pull fuel p2))
  /\ (forall p1 p2, alike p1 p2 ->
       agreeing eq (Parser.parseGroupedExpression pull fuel p1)
                   (Parser.parseGroupedExpression pull fuel p2))
  /\ (forall p1 p2, alike p1 p2 ->
       agreeing eq (Parser.parseUnaryExpression pull fuel p1)
                   (Parser.parseUnaryExpression pull fuel p2)).
Proof.
  induction fuel as [|fuel IH].
  { repeat split; intros; exact I. }
  destruct IH as (IHe & IHl & IHp & IHf & IHa & IHi & IHg & IHu).
  split; [|split; [|split; [|split; [|split; [|split; [|split]]]]]].
  - (* parseExpression *)
    intros m p1 p2 Hp. cbn [Parser.parseExpression].
    eapply result_bind; [now apply IHp|].
    intros lhs ? q1 q2 <- Hq. cbn beta iota. now apply IHl.
  - (* parseExpression_loop *)
    intros m l p1 p2 Hp. cbn [Parser.parseExpression_loop].
    pose proof Hp as (_ & _ & Hc).
    destruct (Parser.currentToken p1) as [a|], (Parser.currentToken p2) as [b|];
      try contradiction; [|same_result].
    rewrite <- (getInfixBindingPower_equiv a b Hc). destruct Hc as [K _]. rewrite <- K.
    destruct (Parser.getInfixBindingPower a) as [lbp rbp].
    destruct ((lbp =? 0)%nat || (lbp <? m)%nat); [same_result|].
    eapply result_bind; [now apply IHe, advance_equiv|].
    intros rhs ? q1 q2 <- Hq. cbn beta iota.
    destruct (Parser.getBinaryOperator (tokenType a)); cbn [bind];
      [now apply IHl|reflexivity|exact I].
  - (* parsePrefix *)
    intros p1 p2 Hp. cbn [Parser.parsePrefix].
    pose proof Hp as (_ & _ & Hc).
    destruct (Parser.currentToken p1) as [a|], (Parser.currentToken p2) as [b|];
      try contradiction; [|reflexivity].
    destruct Hc as [K L]. rewrite <- K.
    destruct (tokenType a) eqn:Ka; try reflexivity.
    + (* LParen *) now apply IHg.
    + (* Minus *) now apply IHu.
    + (* Identifier *)
      destruct (peekToken_equiv p1 p2 Hp) as [Ho Hq].
      destruct (peekToken p1) as [n1 q1], (peekToken p2) as [n2 q2]. cbn [fst snd] in *.
      rewrite <- (token_is_equiv TokenType.LParen n1 n2 Ho), <- L by discriminate.
      destruct (Parser.token_is TokenType.LParen n1); [now apply IHf|same_result].
    + (* Number *) rewrite <- L by discriminate. same_result.
    + (* If *)
      destruct (peekToken_equiv p1 p2 Hp) as [Ho Hq].
      destruct (peekToken p1) as [n1 q1], (peekToken p2) as [n2 q2]. cbn [fst snd] in *.
      rewrite <- (token_is_equiv TokenType.LParen n1 n2 Ho), <- L by discriminate.
      destruct (Parser.token_is TokenType.LParen n1); [now apply IHf|same_result].
    + (* Not *) now apply IHu.
  - (* parseFunctionCall *)
    intros kind p1 p2 Hk Hp. cbn [Parser.parseFunctionCall].
    eapply result_bind; [now apply expectToken_equiv|].
    intros n1 n2 q1 q2 [[K L] Hkind] Hq. cbn beta iota.
    eapply result_bind; [now apply expectToken_equiv|].
    intros ? ? r1 r2 _ Hr. cbn beta iota.
    rewrite <- L by congruence.
    destruct (String.eqb (toUpperCase (lexeme n1)) "IF"); [now apply IHi|].
    eapply (result_bind eq).
    + rewrite <- (current_is_equiv TokenType.RParen r1 r2 Hr).
      destruct (negb (Parser.current_is TokenType.RParen r1)); [|same_result].
      eapply result_bind; [now apply IHe|].
      intros first ? s1 s2 <- Hs. cbn beta iota. now apply IHa.
    + intros args ? s1 s2 <- Hs. cbn beta iota.
      eapply result_bind; [now apply expectToken_equiv|].
      intros ? ? u1 u2 _ Hu. cbn beta iota. same_result.
  - (* parseArguments_loop *)
    intros args p1 p2 Hp. cbn [Parser.parseArguments_loop].
    rewrite <- (current_is_equiv TokenType.Comma p1 p2 Hp).
    destruct (Parser.current_is TokenType.Comma p1); [|same_result].
    eapply result_bind; [now apply IHe, advance_equiv|].
    intros next ? q1 q2 <- Hq. cbn beta iota. now apply IHa.
  - (* parseIfFunction *)
    intros p1 p2 Hp. cbn [Parser.parseIfFunction].
    eapply result_bind; [now apply IHe|].
    intros condition ? q1 q2 <- Hq. cbn beta iota.
    rewrite <- (current_is_equiv TokenType.Comma q1 q2 Hq).
    destruct (Parser.current_is TokenType.Comma q1); cbn [negb]; [|reflexivity].
    eapply result_bind; [now apply IHe, advance_equiv|].
    intros trueValue ? r1 r2 <- Hr. cbn beta iota.
    rewrite <- (current_is_equiv TokenType.Comma r1 r2 Hr).
    destruct (Parser.current_is TokenType.Comma r1); cbn [negb]; [|reflexivity].
    eapply result_bind; [now apply IHe, advance_equiv|].
    intros falseValue ? s1 s2 <- Hs. cbn beta iota.
    eapply result_bind; [now apply expectToken_equiv|].
    intros ? ? u1 u2 _ Hu. cbn beta iota. same_result.
  - (* parseGroupedExpression *)
    intros p1 p2 Hp. cbn [Parser.parseGroupedExpression].
    eapply result_bind; [now apply expectToken_equiv|].
    intros ? ? q1 q2 _ Hq. cbn beta iota.
    eapply result_bind; [now apply IHe|].
    intros expr ? r1 r2 <- Hr. cbn beta iota.
    eapply result_bind; [now apply expectToken_equiv|].
    intros ? ? u1 u2 _ Hu. cbn beta iota. same_result.
  - (* parseUnaryExpression *)
    intros p1 p2 Hp. cbn [Parser.parseUnaryExpression].
    pose proof Hp as (_ & _ & Hc).
    destruct (Parser.currentToken p1) as [a|], (Parser.currentToken p2) as [b|];
      try contradiction; [|reflexivity].
    destruct Hc as [K _]. rewrite <- K.
    eapply result_bind; [now apply IHe, advance_equiv|].
    intros operand ? q1 q2 <- Hq. cbn beta iota. same_result.
Qed.

Lemma plotStyles_equiv (fuel : nat) :
  forall styles p1 p2, alike p1 p2 ->
    agreeing eq (Parser.parsePlotStyles_loop pull fuel styles p1)
                (Parser.parsePlotStyles_loop pull fuel styles p2).
Proof.
  induction fuel as [|fuel IH]; intros styles p1 p2 Hp; [exact I|].
  cbn [Parser.parsePlotStyles_loop].
  rewrite <- (current_is_equiv TokenType.Comma p1 p2 Hp).
  destruct (Parser.current_is TokenType.Comma p1); [|same_result].
  eapply result_bind; [now apply expectToken_equiv, advance_equiv|].
  intros n1 n2 q1 q2 [[K L] Hkind] Hq. cbn beta iota.
  rewrite <- L by congruence. now apply IH.
Qed.

Lemma statement_equiv (fuel : nat) (p1 p2 : Parser.t Src) :
  alike p1 p2 ->
  agreeing eq (Parser.parseStatement pull fuel p1) (Parser.parseStatement pull fuel p2).
Proof.
  intros Hp. destruct (expression_equiv fuel) as (He & _).
  assert (Hanon : forall q1 q2, alike q1 q2 ->
            agreeing eq (Parser.parseAnonymousOutputStatement pull fuel q1)
                        (Parser.parseAnonymousOutputStatement pull fuel q2)).
  { intros q1 q2 Hq. unfold Parser.parseAnonymousOutputStatement.
    eapply result_bind; [now apply He|].
    intros expr ? r1 r2 <- Hr. cbn beta iota.
    eapply result_bind; [now apply plotStyles_equiv|].
    intros styles ? u1 u2 <- Hu. cbn beta iota. same_result. }
  unfold Parser.parseStatement. pose proof Hp as (_ & _ & Hc).
  destruct (Parser.currentToken p1) as [a|], (Parser.currentToken p2) as [b|];
    try contradiction; [|reflexivity].
  destruct Hc as [K _]. rewrite <- K.
  destruct (TokenType.eqb (tokenType a) TokenType.Identifier); [|now apply Hanon].
  destruct (peekToken_equiv p1 p2 Hp) as [Ho Hq].
  destruct (peekToken p1) as [n1 q1], (peekToken p2) as [n2 q2]. cbn [fst snd] in *.
  rewrite <- (token_is_equiv TokenType.ColonAssign n1 n2 Ho),
    <- (token_is_equiv TokenType.Colon n1 n2 Ho).
  destruct (Parser.token_is TokenType.ColonAssign n1);
    [|destruct (Parser.token_is TokenType.Colon n1); [|now apply Hanon]].
  - unfold Parser.parseAssignmentStatement.
    eapply result_bind; [now apply expectToken_equiv|].
    intros v1 v2 r1 r2 [[Kv Lv] Hkind] Hr. cbn beta iota.
    eapply result_bind; [now apply expectToken_equiv|].
    intros ? ? u1 u2 _ Hu. cbn beta iota.
    eapply result_bind; [now apply He|].
    intros expr ? w1 w2 <- Hw. cbn beta iota.
    rewrite <- Lv by congruence. same_result.
  - unfold Parser.parseNamedOutputStatement.
    eapply result_bind; [now apply expectToken_equiv|].
    intros v1 v2 r1 r2 [[Kv Lv] Hkind] Hr. cbn beta iota.
    eapply result_bind; [now apply expectToken_equiv|].
    intros ? ? u1 u2 _ Hu. cbn beta iota.
    eapply result_bind; [now apply He|].
    intros expr ? w1 w2 <- Hw. cbn beta iota.
    eapply result_bind; [now apply plotStyles_equiv|].
    intros styles ? x1 x2 <- Hx. cbn beta iota.
    rewrite <- Lv by congruence. same_result.
Qed.

Lemma skipNewlines_equiv (fuel : nat) :
  forall p1 p2, alike p1 p2 ->
    match Parser.skipNewlines pull fuel p1, Parser.skipNewlines pull fuel p2 with
    | Ok q1, Ok q2 => alike q1 q2
    | Throw e1, Throw e2 => erase_position e1 = erase_position e2
    | OutOfFuel, OutOfFuel => True
    | _, _ => False
    end.
Proof.
  induction fuel as [|fuel IH]; intros p1 p2 Hp; [exact I|].
  cbn [Parser.skipNewlines].
  rewrite <- (current_is_equiv TokenType.Newline p1 p2 Hp).
  destruct (Parser.current_is TokenType.Newline p1); [|exact Hp].
  now apply IH, advance_equiv.
Qed.

Lemma formula_loop_equiv (fuel : nat) :
  forall statements p1 p2, alike p1 p2 ->
    agreeing eq (Parser.parseFormula_loop pull fuel statements p1)
                (Parser.parseFormula_loop pull fuel statements p2).
Proof.
  induction fuel as [|fuel IH]; intros statements p1 p2 Hp; [exact I|].
  cbn [Parser.parseFormula_loop]. pose proof Hp as (_ & _ & Hc).
  destruct (Parser.currentToken p1) as [a|], (Parser.currentToken p2) as [b|];
    try contradiction; [|same_result].
  pose proof (skipNewlines_equiv fuel p1 p2 Hp) as Hsk.
  destruct (Parser.skipNewlines pull fuel p1) as [q1|e1|],
           (Parser.skipNewlines pull fuel p2) as [q2|e2|];
    try contradiction; cbn [bind]; [|exact Hsk|exact I].
  pose proof Hsk as (_ & _ & Hc').
  destruct (Parser.currentToken q1) as [a'|], (Parser.currentToken q2) as [b'|];
    try contradiction; [|same_result].
  destruct Hc' as [K' _]. rewrite <- K'.
  destruct (TokenType.eqb (tokenType a') TokenType.Eof); [same_result|].
  eapply result_bind; [now apply statement_equiv|].
  intros statement ? r1 r2 <- Hr. cbn beta iota.
  rewrite <- (current_is_equiv TokenType.Newline r1 r2 Hr).
  apply IH. destruct (Parser.current_is TokenType.Newline r1);
    [now apply advance_equiv|exact Hr].
Qed.

Lemma new_equiv (s1 s2 : Src) :
  similar pull s1 s2 -> alike (Parser.new pull s1) (Parser.new pull s2).
Proof.
  intros H. unfold Parser.new. apply advance_equiv.
  split; [exact H|]. split; exact I.
Qed.

Lemma formula_equiv (fuel : nat) (s1 s2 : Src) :
  similar pull s1 s2 ->
  agreeing eq (Parser.parseFormula pull fuel (Parser.new pull s1))
              (Parser.parseFormula pull fuel (Parser.new pull s2)).
Proof.
  intros H. unfold Parser.parseFormula.
  eapply result_bind; [now apply formula_loop_equiv, new_equiv|].
  intros statements ? q1 q2 <- Hq. cbn beta iota. same_result.
Qed.

End ParserCongruence.

Lemma nth_pull_nextToken :
  forall n lx, nth_pull Lexer.nextToken n lx = nth_call n lx.
Proof. induction n as [|n IH]; intros lx; [reflexivity|apply IH]. Qed.

(** Texts from which the same tokens come parse the same way. *)
Lemma parseText_equiv (fuel : nat) (text1 text2 : string) :
  similar Lexer.nextToken (Lexer.new text1) (Lexer.new text2) ->
  same_outcome (parseText fuel text1) (parseText fuel text2).
Proof.
  intros H. unfold parseText, createParser.
  pose proof (formula_equiv Lexer.nextToken fuel _ _ H) as Hf.
  destruct (Parser.parseFormula Lexer.nextToken fuel (Parser.new Lexer.nextToken (Lexer.new text1)))
    as [[f1 q1]|e1|],
    (Parser.parseFormula Lexer.nextToken fuel (Parser.new Lexer.nextToken (Lexer.new text2)))
    as [[f2 q2]|e2|]; cbn in *; try contradiction; tauto.
Qed.

(** ** The equality operator in a text *)

(** C8.  A lone [=] is tokenized like [==]: wherever a token starts with
    [=], its kind is [EqEq], whether a second [=] follows or not.  So take
    a text whose [k]-th token is the operator written [==] and write a
    lone [=] in its place (lone: the text does not go on with a further
    [=], which would make [==] with it).  The [k]-th token of the new text
    is of kind [EqEq] again, the two texts have the same sequence of token
    kinds, and they parse the same way: to the same formula, hence the
    same operators, if one of them parses, and otherwise to the same error
    up to the column it reports.  The operator that the parser makes of
    the kind [EqEq] is [EqEq]. *)
Theorem lone_equals_same_as_double (pre suf : string) (k : nat) :
  String.get 0 suf <> Some "="%char ->
  equality_operator_after k (Lexer.new (with_double_equals pre suf)) (String.length pre) ->
  (forall lx, Lexer.isAtEnd (Lexer.skipWhitespace lx) = false ->
              Lexer.peek (Lexer.skipWhitespace lx) = "="%char ->
              tokenType (fst (Lexer.nextToken lx)) = TokenType.EqEq)
  /\ tokenType (fst (nth_call k (Lexer.new (with_single_equals pre suf)))) = TokenType.EqEq
  /\ (forall n, kinds n (with_single_equals pre suf) = kinds n (with_double_equals pre suf))
  /\ (forall fuel, same_outcome (parseText fuel (with_double_equals pre suf))
                                (parseText fuel (with_single_equals pre suf)))
  /\ Parser.getBinaryOperator TokenType.EqEq = Ok BinaryOperator.EqEq.
Proof.
  intros Hsuf Hop.
  assert (Heq : forall j,
            token_equiv (fst (nth_call j (Lexer.new (with_double_equals pre suf))))
                        (fst (nth_call j (Lexer.new (with_single_equals pre suf)))))
    by now apply (tokens_equiv_from pre suf Hsuf k).
  split; [exact nextToken_equals|]. split; [|split; [|split]].
  - destruct (Heq k) as [K _]. destruct Hop as (Hk & _). congruence.
  - intros n. unfold kinds. symmetry. now apply tokenize_kinds.
  - intros fuel. apply parseText_equiv. intros j. rewrite !nth_pull_nextToken. apply Heq.
  - reflexivity.
Qed.

Lemma lone_equals_same_as_double_witness :
  (forall lx, Lexer.isAtEnd (Lexer.skipWhitespace lx) = false ->
              Lexer.peek (Lexer.skipWhitespace lx) = "="%char ->
              tokenType (fst (Lexer.nextToken lx)) = TokenType.EqEq)
  /\ tokenType (fst (nth_call 3 (Lexer.new (with_single_equals "X: C " " O"))))
     = TokenType.EqEq
  /\ (forall n, kinds n (with_single_equals "X: C " " O")
               = kinds n (with_double_equals "X: C " " O"))
  /\ (forall fuel, same_outcome (parseText fuel (with_double_equals "X: C " " O"))
                                (parseText fuel (with_single_equals "X: C " " O")))
  /\ Parser.getBinaryOperator TokenType.EqEq = Ok BinaryOperator.EqEq.
Proof.
  apply (lone_equals_same_as_double "X: C " " O" 3).
  - vm_compute. discriminate.
  - vm_compute. repeat split.
Defined.

(** Both spellings of the comparison give the operator [EqEq]. *)
Example lone_equals_formula :
  parseText 10 "X: C = O"
  = Ok (createFormula [Output (Some "X"%string)
                         (BinaryOp (Var "C") BinaryOperator.EqEq (Var "O")) []])
  /\ parseText 10 "X: C == O" = parseText 10 "X: C = O".
Proof. split; reflexivity. Qed.

(** A [=] written before another [=] is not a lone one: the lexer reads
    the two together. *)
Example equals_before_equals :
  kinds 9 "1==2" = [TokenType.Number; TokenType.EqEq; TokenType.Number; TokenType.Eof]
  /\ kinds 9 "1===2"
     = [TokenType.Number; TokenType.EqEq; TokenType.EqEq; TokenType.Number; TokenType.Eof].
Proof. split; reflexivity. Qed.

(** * Further properties of the code *)

(** ** The order of numbers *)

Section NumberOrder.

Lemma js_lt_Fin (a b : Q) : js_lt (Fin a) (Fin b) = true <-> (a < b)%Q.
Proof.
  cbn. rewrite Qlt_alt. destruct (a ?= b)%Q; split; intros H; congruence.
Qed.

Lemma js_eq_Fin (a b : Q) : js_eq (Fin a) (Fin b) = true <-> (a == b)%Q.
Proof. cbn. apply Qeq_bool_iff. Qed.

Lemma js_le_Fin (a b : Q) : js_le (Fin a) (Fin b) = true <-> (a <= b)%Q.
Proof.
  unfold js_le. rewrite orb_true_iff, js_lt_Fin, js_eq_Fin, Qle_lteq. tauto.
Qed.

Lemma js_le_refl (x : number) : is_nan x = false -> js_le x x = true.
Proof.
  destruct x; try reflexivity; try discriminate.
  intros _. apply js_le_Fin, Qle_refl.
Qed.

(** Numbers other than NaN are totally ordered. *)
Lemma js_le_total (x y : number) :
  is_nan x = false -> is_nan y = false -> js_lt y x = false -> js_le x y = true.
Proof.
  destruct x as [a| | |], y as [b| | |]; try reflexivity; try discriminate.
  intros _ _ H. apply js_le_Fin. apply Qnot_lt_le. intros Hlt.
  apply js_lt_Fin in Hlt. congruence.
Qed.

Lemma js_le_lt_trans (a b c : number) :
  js_le a b = true -> js_lt b c = true -> js_le a c = true.
Proof.
  destruct a as [a| | |], b as [b| | |], c as [c| | |];
    try reflexivity; try discriminate.
  rewrite !js_le_Fin, js_lt_Fin. intros H1 H2.
  apply Qlt_le_weak. eapply Qle_lt_trans; eassumption.
Qed.

Lemma js_lt_le (a b : number) : js_lt a b = true -> js_le a b = true.
Proof. intros H. unfold js_le. now rewrite H. Qed.

Lemma js_lt_le_trans (a b c : number) :
  js_lt a b = true -> js_le b c = true -> js_le a c = true.
Proof.
  destruct a as [a| | |], b as [b| | |], c as [c| | |];
    try reflexivity; try discriminate.
  rewrite !js_le_Fin, js_lt_Fin. intros H1 H2.
  apply Qlt_le_weak. eapply Qlt_le_trans; eassumption.
Qed.

End NumberOrder.

(** ** The windowed built-ins: SUM, HHV, LLV, COUNT *)

Section Rolling.

Context {Acc : Type} (init : Acc) (body : Acc -> value -> Acc) (finish : Acc -> value).

Lemma window_loop_whole (data : series) (i : nat) :
  forall len j fuel acc,
    (j + len = S i)%nat -> (len < fuel)%nat ->
    window_loop fuel data i (of_nat j) body acc =
      Ok (fold_left body (map (at_index data) (seq j len)) acc).
Proof.
  induction len as [|len IH]; intros j fuel acc Hj Hf.
  - destruct fuel as [|fuel]; [lia|]. cbn [window_loop].
    rewrite js_le_of_nat.
    assert (H : (j <=? i)%nat = false) by (apply Nat.leb_gt; lia).
    now rewrite H.
  - destruct fuel as [|fuel]; [lia|]. cbn [window_loop seq map fold_left].
    rewrite js_le_of_nat.
    assert (H : (j <=? i)%nat = true) by (apply Nat.leb_le; lia).
    rewrite H, get_of_nat, js_succ_of_nat. apply IH; lia.
Qed.

Lemma rolling_at_whole (data : series) (q : Q) (n i : nat) :
  (1 <= n)%nat -> (q == inject_Z (Z.of_nat n))%Q ->
  rolling_at init body finish data (Fin q) i =
    Ok (if (S i <? n)%nat then Null
        else finish (fold_left body (map (at_index data) (seq (S i - n) n)) init)).
Proof.
  intros Hn Hq. unfold rolling_at.
  assert (Hp1 : js_sub (Fin q) one = of_Z (Z.of_nat n - 1)).
  { unfold one, of_Z. now rewrite (js_sub_whole _ _ (Z.of_nat n) 1). }
  rewrite Hp1. unfold of_nat at 1. rewrite js_lt_of_Z.
  destruct (S i <? n)%nat eqn:Hi.
  - apply Nat.ltb_lt in Hi.
    assert (H : (Z.of_nat i <? Z.of_nat n - 1)%Z = true) by (apply Z.ltb_lt; lia).
    now rewrite H.
  - apply Nat.ltb_ge in Hi.
    assert (H : (Z.of_nat i <? Z.of_nat n - 1)%Z = false) by (apply Z.ltb_ge; lia).
    rewrite H.
    assert (Hstart : js_add (js_sub (of_nat i) (Fin q)) one = of_nat (S i - n)).
    { unfold of_nat at 1, of_Z.
      rewrite (js_sub_whole _ _ (Z.of_nat i) (Z.of_nat n)) by (try reflexivity; exact Hq).
      unfold one, of_Z.
      rewrite (js_add_whole _ _ (Z.of_nat i - Z.of_nat n) 1) by reflexivity.
      unfold of_nat. f_equal. lia. }
    rewrite Hstart, (window_loop_whole data i n (S i - n)) by lia. reflexivity.
Qed.

(** With a whole period [n >= 1] the outer loop yields null for the first
    [n - 1] bars and then folds the [n] elements that end at each bar. *)
Lemma rolling_whole (data rest : series) (q : Q) (n : nat) :
  (1 <= n)%nat -> (q == inject_Z (Z.of_nat n))%Q ->
  exists out,
    rolling init body finish [data; Num (Fin q) :: rest] = Ok out
    /\ length out = length data
    /\ forall i, (i < length data)%nat ->
         ((S i < n)%nat -> at_index out i = Null)
         /\ ((n <= S i)%nat ->
             at_index out i = finish (fold_left body (slice data n i) init)).
Proof.
  intros Hn Hq.
  pose (f := fun i : nat =>
    if (S i <? n)%nat then Null
    else finish (fold_left body (map (at_index data) (seq (S i - n) n)) init)).
  exists (map f (seq 0 (length data))). split; [|split].
  - unfold rolling. cbn [arg nth_error getNumberArg is_null toNumber bind].
    apply push_loop_Ok. intros i _. now apply rolling_at_whole.
  - now rewrite length_map, length_seq.
  - intros i Hi. rewrite at_index_map_seq by exact Hi. unfold f. split; intros H.
    + assert (H' : (S i <? n)%nat = true) by (apply Nat.ltb_lt; lia).
      now rewrite H'.
    + assert (H' : (S i <? n)%nat = false) by (apply Nat.ltb_ge; lia).
      rewrite H'. unfold slice. rewrite slice_at_index by lia. reflexivity.
Qed.

End Rolling.

Lemma fold_sum (w : list value) :
  forall sum has,
    fold_left (fun acc v => if is_null v then acc else (js_add (fst acc) (toNumber v), true))
              w (sum, has) =
      (fold_left js_add (map toNumber (List.filter non_null w)) sum,
       has || (0 <? length (List.filter non_null w))%nat).
Proof.
  induction w as [|v w IH]; intros sum has; cbn [fold_left List.filter map length].
  - now rewrite orb_false_r.
  - change (non_null v) with (negb (is_null v)).
    destruct (is_null v); cbn [negb fst snd map length fold_left]; rewrite IH.
    + reflexivity.
    + f_equal. cbn. now rewrite orb_true_r.
Qed.

(** X1.  SUM with a whole period [n >= 1]: as many elements as [data]; null
    for the first [n - 1] bars; then the sum of the non-null values among
    the [n] elements that end at the bar, or null when all are null. *)
Theorem SUM_whole_period (data rest : series) (q : Q) (n : nat) :
  (1 <= n)%nat -> (q == inject_Z (Z.of_nat n))%Q ->
  exists out,
    SUM [data; Num (Fin q) :: rest] = Ok out
    /\ length out = length data
    /\ forall i, (i < length data)%nat ->
         ((S i < n)%nat -> at_index out i = Null)
         /\ ((n <= S i)%nat -> at_index out i = window_sum (slice data n i)).
Proof.
  intros Hn Hq. unfold SUM.
  destruct (rolling_whole (zero, false)
              (fun acc v => if is_null v then acc else (js_add (fst acc) (toNumber v), true))
              (fun acc => if snd acc then Num (fst acc) else Null)
              data rest q n Hn Hq) as (out & Hout & Hlen & Hi).
  exists out. split; [exact Hout|]. split; [exact Hlen|].
  intros i Hlt. destruct (Hi i Hlt) as [H1 H2]. split; [exact H1|].
  intros Hge. rewrite (H2 Hge), fold_sum. cbn [fst snd orb]. reflexivity.
Qed.

Lemma SUM_whole_period_witness :
  exists out,
    SUM [[Num (of_Z 1); Null; Num (of_Z 3); Num (of_Z 4)]; [Num (of_Z 2)]] = Ok out
    /\ at_index out 0 = Null
    /\ at_index out 1 = Num (of_Z 1)
    /\ at_index out 3 = Num (of_Z 7).
Proof.
  destruct (SUM_whole_period [Num (of_Z 1); Null; Num (of_Z 3); Num (of_Z 4)] []
              (inject_Z 2) 2) as (out & Hout & _ & Hi); [lia|reflexivity|].
  exists out. split; [exact Hout|]. split; [|split].
  - apply (Hi 0%nat); simpl; lia.
  - apply (Hi 1%nat); simpl; lia.
  - apply (Hi 3%nat); simpl; lia.
Defined.

Section Extremum.

(** [better x y]: the test that makes [x] replace the extremum [y];
    [upto x y]: [y] is at least as extreme as [x]. *)
Variables better upto : number -> number -> bool.

Hypothesis upto_refl : forall x, is_nan x = false -> upto x x = true.
Hypothesis upto_total :
  forall x y, is_nan x = false -> is_nan y = false -> better x y = false -> upto x y = true.
Hypothesis upto_trans :
  forall a b c, upto a b = true -> better c b = true -> upto a c = true.

Let keep (m v : value) : value :=
  if is_null v then m
  else if is_null m || better (toNumber v) (toNumber m) then v else m.

Let extreme (seen : list value) (m : value) : Prop :=
  ordinary m = true
  /\ (is_null m = true -> forall v, In v seen -> is_null v = true)
  /\ (is_null m = false ->
      In m seen
      /\ forall v, In v seen -> is_null v = false -> upto (toNumber v) (toNumber m) = true).

Lemma ordinary_number (v : value) :
  ordinary v = true -> is_null v = false -> is_nan (toNumber v) = false.
Proof. destruct v as [| |x]; try discriminate. cbn. now destruct (is_nan x). Qed.

Lemma extreme_fold (w : list value) :
  forall seen m,
    forallb ordinary w = true -> extreme seen m ->
    extreme (seen ++ w) (fold_left keep w m).
Proof.
  induction w as [|v w IH]; intros seen m Hw Hm; cbn [fold_left].
  - now rewrite app_nil_r.
  - cbn [forallb] in Hw. apply andb_prop in Hw as [Hv Hw].
    replace (seen ++ v :: w) with ((seen ++ [v]) ++ w) by now rewrite <- app_assoc.
    apply IH; [exact Hw|]. destruct Hm as (Hord & Hnull & Hmax). unfold keep.
    destruct (is_null v) eqn:Ev.
    + split; [exact Hord|]. split.
      * intros Hn x Hx. apply in_app_or in Hx as [Hx|[<-|[]]]; auto.
      * intros Hn. destruct (Hmax Hn) as [Hin Hle]. split; [apply in_or_app; now left|].
        intros x Hx Hxn. apply in_app_or in Hx as [Hx|[<-|[]]]; [auto|congruence].
    + pose proof (ordinary_number v Hv Ev) as Hvn.
      destruct (is_null m) eqn:Em; cbn [orb].
      * split; [exact Hv|]. split; [congruence|]. intros _.
        split; [apply in_or_app; right; now left|].
        intros x Hx Hxn. apply in_app_or in Hx as [Hx|[<-|[]]].
        -- rewrite (Hnull eq_refl x Hx) in Hxn. discriminate.
        -- now apply upto_refl.
      * destruct (Hmax eq_refl) as [Hin Hle].
        pose proof (ordinary_number m Hord Em) as Hmn.
        destruct (better (toNumber v) (toNumber m)) eqn:Eb.
        -- split; [exact Hv|]. split; [congruence|]. intros _.
           split; [apply in_or_app; right; now left|].
           intros x Hx Hxn. apply in_app_or in Hx as [Hx|[<-|[]]].
           ++ eapply upto_trans; [now apply Hle|exact Eb].
           ++ now apply upto_refl.
        -- split; [exact Hord|]. split; [congruence|]. intros _.
           split; [apply in_or_app; now left|].
           intros x Hx Hxn. apply in_app_or in Hx as [Hx|[<-|[]]].
           ++ now apply Hle.
           ++ now apply upto_total.
Qed.

(** The fold of a window: null exactly when the window holds no value,
    otherwise one of its values that none of the others beats. *)
Lemma extreme_window (w : list value) :
  forallb ordinary w = true ->
  let m := fold_left keep w Null in
  (m = Null <-> forallb is_null w = true)
  /\ (m <> Null ->
      In m w
      /\ forall v, In v w -> is_null v = false -> upto (toNumber v) (toNumber m) = true).
Proof.
  intros Hw m.
  destruct (extreme_fold w [] Null Hw) as (Hord & Hnull & Hmax).
  { split; [reflexivity|]. split; [intros _ v []|discriminate]. }
  cbn [app] in *. fold m in Hord, Hnull, Hmax. split; [split|].
  - intros Hm. apply forallb_forall. intros v Hv. apply Hnull; [now rewrite Hm|exact Hv].
  - intros Hall. destruct (is_null m) eqn:Em; [now destruct m|].
    destruct (Hmax eq_refl) as [Hin _].
    rewrite forallb_forall in Hall. rewrite (Hall m Hin) in Em. discriminate.
  - intros Hm. apply Hmax. now destruct m.
Qed.

End Extremum.

Lemma ordinary_slice (data : series) (n i : nat) :
  forallb ordinary data = true -> forallb ordinary (slice data n i) = true.
Proof.
  intros H. rewrite forallb_forall in *. intros v Hv. apply H.
  unfold slice in Hv.
  rewrite <- (firstn_skipn (S i - n) data). apply in_or_app. right.
  rewrite <- (firstn_skipn n (skipn (S i - n) data)). apply in_or_app. now left.
Qed.

(** The largest value of a window. *)
Lemma HHV_window_maximum (data rest : series) (q : Q) (n : nat) :
  (1 <= n)%nat -> (q == inject_Z (Z.of_nat n))%Q ->
  forallb ordinary data = true ->
  exists out,
    HHV [data; Num (Fin q) :: rest] = Ok out
    /\ length out = length data
    /\ forall i, (i < length data)%nat ->
         ((S i < n)%nat -> at_index out i = Null)
         /\ ((n <= S i)%nat ->
             (at_index out i = Null <-> forallb is_null (slice data n i) = true)
             /\ (at_index out i <> Null ->
                 In (at_index out i) (slice data n i)
                 /\ forall v, In v (slice data n i) -> is_null v = false ->
                      js_le (toNumber v) (toNumber (at_index out i)) = true)).
Proof.
  intros Hn Hq Hord. unfold HHV.
  destruct (rolling_whole Null
              (fun maxVal v =>
                 if is_null v then maxVal
                 else if is_null maxVal || js_gt (toNumber v) (toNumber maxVal)
                      then v else maxVal)
              (fun maxVal => maxVal) data rest q n Hn Hq) as (out & Hout & Hlen & Hi).
  exists out. split; [exact Hout|]. split; [exact Hlen|].
  intros i Hlt. destruct (Hi i Hlt) as [H1 H2]. split; [exact H1|].
  intros Hge. rewrite (H2 Hge).
  apply (extreme_window js_gt js_le).
  - exact js_le_refl.
  - intros x y Hx Hy H. now apply js_le_total.
  - intros a b c Hab Hcb. now apply (js_le_lt_trans a b c).
  - now apply ordinary_slice.
Qed.

Example HHV_values :
  HHV [[Num (of_Z 3); Null; Num (of_Z 1); Num (of_Z 2)]; [Num (of_Z 2)]]
  = Ok [Null; Num (of_Z 3); Num (of_Z 1); Num (of_Z 2)].
Proof. reflexivity. Qed.

(** The smallest value of a window. *)
Lemma LLV_window_minimum (data rest : series) (q : Q) (n : nat) :
  (1 <= n)%nat -> (q == inject_Z (Z.of_nat n))%Q ->
  forallb ordinary data = true ->
  exists out,
    LLV [data; Num (Fin q) :: rest] = Ok out
    /\ length out = length data
    /\ forall i, (i < length data)%nat ->
         ((S i < n)%nat -> at_index out i = Null)
         /\ ((n <= S i)%nat ->
             (at_index out i = Null <-> forallb is_null (slice data n i) = true)
             /\ (at_index out i <> Null ->
                 In (at_index out i) (slice data n i)
                 /\ forall v, In v (slice data n i) -> is_null v = false ->
                      js_le (toNumber (at_index out i)) (toNumber v) = true)).
Proof.
  intros Hn Hq Hord. unfold LLV.
  destruct (rolling_whole Null
              (fun minVal v =>
                 if is_null v then minVal
                 else if is_null minVal || js_lt (toNumber v) (toNumber minVal)
                      then v else minVal)
              (fun minVal => minVal) data rest q n Hn Hq) as (out & Hout & Hlen & Hi).
  exists out. split; [exact Hout|]. split; [exact Hlen|].
  intros i Hlt. destruct (Hi i Hlt) as [H1 H2]. split; [exact H1|].
  intros Hge. rewrite (H2 Hge).
  apply (extreme_window js_lt (fun x y => js_le y x)).
  - exact js_le_refl.
  - intros x y Hx Hy H. now apply js_le_total.
  - intros a b c Hab Hcb. now apply (js_lt_le_trans c b a).
  - now apply ordinary_slice.
Qed.

(** X2.  HHV and LLV with a whole period [n >= 1], on data that is null or a
    number other than NaN: null for the first [n - 1] bars; then null
    exactly when the [n] elements that end at the bar are all null, and
    otherwise one of those elements: for HHV one at least as large as
    every non-null one, for LLV one at most as large. *)
Theorem HHV_LLV_whole_period (data rest : series) (q : Q) (n : nat) :
  (1 <= n)%nat -> (q == inject_Z (Z.of_nat n))%Q ->
  forallb ordinary data = true ->
  (exists out,
     HHV [data; Num (Fin q) :: rest] = Ok out
     /\ length out = length data
     /\ forall i, (i < length data)%nat ->
          ((S i < n)%nat -> at_index out i = Null)
          /\ ((n <= S i)%nat ->
              (at_index out i = Null <-> forallb is_null (slice data n i) = true)
              /\ (at_index out i <> Null ->
                  In (at_index out i) (slice data n i)
                  /\ forall v, In v (slice data n i) -> is_null v = false ->
                       js_le (toNumber v) (toNumber (at_index out i)) = true)))
  /\ (exists out,
        LLV [data; Num (Fin q) :: rest] = Ok out
        /\ length out = length data
        /\ forall i, (i < length data)%nat ->
             ((S i < n)%nat -> at_index out i = Null)
             /\ ((n <= S i)%nat ->
                 (at_index out i = Null <-> forallb is_null (slice data n i) = true)
                 /\ (at_index out i <> Null ->
                     In (at_index out i) (slice data n i)
                     /\ forall v, In v (slice data n i) -> is_null v = false ->
                          js_le (toNumber (at_index out i)) (toNumber v) = true))).
Proof.
  intros Hn Hq Hord. split.
  - now apply HHV_window_maximum.
  - now apply LLV_window_minimum.
Qed.

Lemma HHV_LLV_whole_period_witness :
  (exists out,
     HHV [[Num (of_Z 3); Null; Num (of_Z 1); Num (of_Z 2)]; [Num (of_Z 2)]] = Ok out
     /\ length out = 4%nat)
  /\ (exists out,
        LLV [[Num (of_Z 3); Null; Num (of_Z 1); Num (of_Z 2)]; [Num (of_Z 2)]] = Ok out
        /\ length out = 4%nat).
Proof.
  destruct (HHV_LLV_whole_period [Num (of_Z 3); Null; Num (of_Z 1); Num (of_Z 2)] []
              (inject_Z 2) 2) as [(hi & Hhi & Lhi & _) (lo & Hlo & Llo & _)];
    [lia|reflexivity|reflexivity|].
  split; [exists hi|exists lo]; now split.
Defined.

Lemma fold_count (w : list value) :
  forall count,
    fold_left (fun count v =>
                 if negb (is_null v) && negb (strict_eq v (Num zero)) then S count else count)
              w count = (count + length (List.filter counted w))%nat.
Proof.
  induction w as [|v w IH]; intros count; cbn [fold_left List.filter length]; [lia|].
  change (negb (is_null v) && negb (strict_eq v (Num zero))) with (counted v).
  destruct (counted v); rewrite IH; cbn [length]; lia.
Qed.

(** X3.  COUNT with a whole period [n >= 1]: null for the first [n - 1] bars;
    then the number of elements, among the [n] that end at the bar, that
    are neither null nor 0: a number from 0 to [n], never null. *)
Theorem COUNT_whole_period (condition rest : series) (q : Q) (n : nat) :
  (1 <= n)%nat -> (q == inject_Z (Z.of_nat n))%Q ->
  exists out,
    COUNT [condition; Num (Fin q) :: rest] = Ok out
    /\ length out = length condition
    /\ forall i, (i < length condition)%nat ->
         ((S i < n)%nat -> at_index out i = Null)
         /\ ((n <= S i)%nat ->
             at_index out i = Num (of_nat (length (List.filter counted (slice condition n i))))
             /\ (length (List.filter counted (slice condition n i)) <= n)%nat).
Proof.
  intros Hn Hq. unfold COUNT.
  destruct (rolling_whole 0%nat
              (fun count v =>
                 if negb (is_null v) && negb (strict_eq v (Num zero)) then S count else count)
              (fun count => Num (of_nat count)) condition rest q n Hn Hq)
    as (out & Hout & Hlen & Hi).
  exists out. split; [exact Hout|]. split; [exact Hlen|].
  intros i Hlt. destruct (Hi i Hlt) as [H1 H2]. split; [exact H1|].
  intros Hge. rewrite (H2 Hge), fold_count. split; [reflexivity|].
  etransitivity; [apply List.filter_length_le|]. unfold slice. rewrite length_firstn. lia.
Qed.

Lemma COUNT_whole_period_witness :
  exists out,
    COUNT [[Num (of_Z 1); Num (of_Z 0); Null; Num (of_Z 4)]; [Num (of_Z 3)]] = Ok out
    /\ at_index out 1 = Null
    /\ at_index out 3 = Num (of_Z 1).
Proof.
  destruct (COUNT_whole_period [Num (of_Z 1); Num (of_Z 0); Null; Num (of_Z 4)] []
              (inject_Z 3) 3) as (out & Hout & _ & Hi); [lia|reflexivity|].
  exists out. split; [exact Hout|]. split.
  - apply (Hi 1%nat); simpl; lia.
  - apply (Hi 3%nat); simpl; lia.
Defined.

(** ** Periods below 1 *)

Section PeriodBelowOne.

Lemma of_nat_nonneg (i : nat) : (0 <= inject_Z (Z.of_nat i))%Q.
Proof. unfold Qle. simpl. lia. Qed.

Lemma js_ge_one_false (q : Q) : js_ge (Fin q) one = false -> (q < 1)%Q.
Proof.
  intros H. apply Qnot_le_lt. intros Hle.
  assert (H' : js_le one (Fin q) = true) by (apply js_le_Fin; exact Hle).
  unfold js_ge in H. congruence.
Qed.

(** No bar is before the window ... *)
Lemma below_one_not_before (p : number) (i : nat) :
  js_ge p one = false -> js_lt (of_nat i) (js_sub p one) = false.
Proof.
  destruct p as [q| | |]; try reflexivity; [|discriminate].
  intros H. apply js_ge_one_false in H.
  apply not_true_is_false. intros Hlt. apply js_lt_Fin in Hlt.
  rewrite !Qred_correct in Hlt. pose proof (of_nat_nonneg i).
  change (inject_Z 1) with 1%Q in Hlt. lra.
Qed.

(** ... and the window is empty. *)
Lemma below_one_empty_window (p : number) (i : nat) :
  js_ge p one = false ->
  js_le (js_add (js_sub (of_nat i) p) one) (of_nat i) = false.
Proof.
  destruct p as [q| | |]; try reflexivity; [|discriminate].
  intros H. apply js_ge_one_false in H.
  apply not_true_is_false. intros Hle. apply js_le_Fin in Hle.
  rewrite !Qred_correct in Hle. change (inject_Z 1) with 1%Q in Hle. lra.
Qed.

Lemma map_const_seq {A} (c : A) (k n : nat) : map (fun _ => c) (seq k n) = repeat c n.
Proof. revert k. induction n as [|n IH]; intros k; simpl; [reflexivity|]. now rewrite IH. Qed.

Lemma rolling_below_one {Acc : Type} (init : Acc) (body : Acc -> value -> Acc)
    (finish : Acc -> value) (data rest : series) (p : number) :
  js_ge p one = false ->
  rolling init body finish [data; Num p :: rest] = Ok (repeat (finish init) (length data)).
Proof.
  intros H. unfold rolling. cbn [arg nth_error getNumberArg is_null toNumber bind].
  rewrite <- (map_const_seq (finish init) 0). apply push_loop_Ok. intros i _.
  unfold rolling_at. rewrite (below_one_not_before p i H). cbn [window_loop].
  now rewrite (below_one_empty_window p i H).
Qed.

End PeriodBelowOne.

Lemma not_positive_below_one (p : number) : js_gt p zero = false -> js_ge p one = false.
Proof.
  destruct p as [q| | |]; try reflexivity; [|discriminate].
  unfold js_gt, js_ge. intros H. apply not_true_is_false. intros Hle.
  apply js_le_Fin in Hle. apply not_true_iff_false in H. apply H.
  apply js_lt_Fin. change (inject_Z 1) with 1%Q in Hle. change (inject_Z 0) with 0%Q. lra.
Qed.

(** X4.  A period that is not positive -- zero, a negative number, minus
    infinity or NaN -- is not rejected: no bar is before the window and
    every window is empty, so MA, SUM, HHV and LLV return null for every
    bar and COUNT returns 0 for every bar.  For such a period the bounds
    [period - 1] and [i - period + 1] are below 0 and above [i] whatever
    the rounding of the subtraction and the addition; for a fraction
    between 0 and 1 they depend on that rounding, which the exact
    arithmetic of this development does not describe. *)
Theorem period_below_one (data rest : series) (p : number) :
  js_gt p zero = false ->
  MA [data; Num p :: rest] = Ok (repeat Null (length data))
  /\ SUM [data; Num p :: rest] = Ok (repeat Null (length data))
  /\ HHV [data; Num p :: rest] = Ok (repeat Null (length data))
  /\ LLV [data; Num p :: rest] = Ok (repeat Null (length data))
  /\ COUNT [data; Num p :: rest] = Ok (repeat (Num zero) (length data)).
Proof.
  intros Hp. pose proof (not_positive_below_one p Hp) as H.
  split; [|split; [|split; [|split]]].
  2-4: now apply rolling_below_one.
  2: exact (rolling_below_one 0%nat _ (fun count => Num (of_nat count)) data rest p H).
  unfold MA. cbn [arg nth_error getNumberArg is_null toNumber bind].
  rewrite <- (map_const_seq Null 0). apply push_loop_Ok. intros i _.
  unfold MA_at. rewrite (below_one_not_before p i H). cbn [MA_window].
  now rewrite (below_one_empty_window p i H).
Qed.

Lemma period_below_one_witness :
  MA [sample_closes; [Num zero]] = Ok (repeat Null 5)
  /\ COUNT [sample_closes; [Num (of_Z (-3))]] = Ok (repeat (Num zero) 5)
  /\ SUM [sample_closes; [Num NaN]] = Ok (repeat Null 5).
Proof.
  split; [|split].
  - apply (period_below_one sample_closes [] zero). reflexivity.
  - apply (period_below_one sample_closes [] (of_Z (-3))). reflexivity.
  - apply (period_below_one sample_closes [] NaN). reflexivity.
Defined.

(** ** The elementwise built-ins: IF, ABS, MAX, MIN *)

(** X5.  IF chooses element by element: null where the condition or either
    branch is null; otherwise the element of the false branch where the
    condition is 0 and that of the true branch where it is anything
    else. *)
Theorem IF_elementwise (condition trueValue falseValue : series) (rest : list series) :
  exists out,
    IF (condition :: trueValue :: falseValue :: rest) = Ok out
    /\ length out = length condition
    /\ forall i, (i < length condition)%nat ->
         at_index out i =
           if is_null (at_index condition i) || is_null (at_index trueValue i)
              || is_null (at_index falseValue i)
           then Null
           else if strict_eq (at_index condition i) (Num zero)
                then at_index falseValue i else at_index trueValue i.
Proof.
  pose (f := fun i : nat =>
    if is_null (at_index condition i) || is_null (at_index trueValue i)
       || is_null (at_index falseValue i)
    then Null
    else if strict_eq (at_index condition i) (Num zero)
         then at_index falseValue i else at_index trueValue i).
  exists (map f (seq 0 (length condition))). split; [|split].
  - unfold IF. cbn [arg nth_error]. apply push_loop_Ok. intros i _. unfold IF_at, f.
    destruct (is_null (at_index condition i)), (is_null (at_index trueValue i)),
      (is_null (at_index falseValue i)); try reflexivity.
    cbn [orb]. now destruct (strict_eq (at_index condition i) (Num zero)).
  - now rewrite length_map, length_seq.
  - intros i Hi. now rewrite at_index_map_seq.
Qed.

Lemma js_abs_idempotent (x : number) : js_abs (js_abs x) = js_abs x.
Proof.
  unfold js_abs. destruct (js_lt x zero) eqn:E; [|now rewrite E].
  destruct x as [q| | |]; try discriminate; [|reflexivity].
  apply js_lt_Fin in E.
  assert (H : js_lt (js_neg (Fin q)) zero = false).
  { apply not_true_is_false. intros H. apply js_lt_Fin in H.
    rewrite Qred_correct in H. change (inject_Z 0) with 0%Q in *. lra. }
  now rewrite H.
Qed.

Lemma js_abs_nonneg (x : number) : is_nan x = false -> js_ge (js_abs x) zero = true.
Proof.
  intros Hx. unfold js_abs, js_ge. destruct (js_lt x zero) eqn:E.
  - destruct x as [q| | |]; try discriminate; [|reflexivity].
    apply js_lt_Fin in E. apply js_le_Fin. rewrite Qred_correct.
    change (inject_Z 0) with 0%Q in *. lra.
  - apply js_le_total; [reflexivity|exact Hx|exact E].
Qed.

(** X6.  ABS keeps null elements and replaces every other one by its absolute
    value: the number or its opposite, whichever is not negative.
    Applying it twice changes nothing more. *)
Theorem ABS_elementwise (data : series) (rest : list series) :
  exists out,
    ABS (data :: rest) = Ok out
    /\ length out = length data
    /\ (forall i, (i < length data)%nat ->
          (is_null (at_index data i) = true -> at_index out i = Null)
          /\ (is_null (at_index data i) = false ->
              exists r, at_index out i = Num r
                /\ (r = toNumber (at_index data i) \/ r = js_neg (toNumber (at_index data i)))
                /\ (ordinary (at_index data i) = true -> js_ge r zero = true)))
    /\ ABS [out] = Ok out.
Proof.
  pose (f := fun v => if is_null v then Null else Num (js_abs (toNumber v))).
  exists (map f data). split; [reflexivity|]. split; [apply length_map|]. split.
  - intros i Hi. unfold at_index.
    rewrite (nth_indep (map f data) Undefined (f Undefined)) by now rewrite length_map.
    rewrite map_nth. fold (at_index data i). unfold f. split.
    + now intros ->.
    + intros Hn. rewrite Hn. exists (js_abs (toNumber (at_index data i))).
      split; [reflexivity|]. split.
      * unfold js_abs. destruct (js_lt _ _); auto.
      * intros Hord. apply js_abs_nonneg. now apply ordinary_number.
  - unfold ABS. cbn [arg nth_error]. f_equal. rewrite map_map.
    apply map_ext. intros v. unfold f.
    destruct (is_null v); [reflexivity|]. cbn [is_null toNumber].
    now rewrite js_abs_idempotent.
Qed.

Lemma pairwise_Ok (op : number -> number -> number) (a b : series) (rest : list series) :
  pairwise op (a :: b :: rest)
  = Ok (map (fun i => if is_null (at_index a i) || is_null (at_index b i) then Null
                      else Num (op (toNumber (at_index a i)) (toNumber (at_index b i))))
            (seq 0 (length a))).
Proof. unfold pairwise. cbn [arg nth_error]. now apply push_loop_Ok. Qed.

Lemma js_max_spec (x y : number) :
  is_nan x = false -> is_nan y = false ->
  (js_max x y = x \/ js_max x y = y)
  /\ js_le x (js_max x y) = true /\ js_le y (js_max x y) = true.
Proof.
  intros Hx Hy.
  assert (E : js_max x y = if js_lt x y then y else x)
    by (destruct x, y; try discriminate; reflexivity).
  rewrite E. destruct (js_lt x y) eqn:L.
  - split; [now right|]. split; [now apply js_lt_le|now apply js_le_refl].
  - split; [now left|]. split; [now apply js_le_refl|now apply js_le_total].
Qed.

Lemma js_min_spec (x y : number) :
  is_nan x = false -> is_nan y = false ->
  (js_min x y = x \/ js_min x y = y)
  /\ js_le (js_min x y) x = true /\ js_le (js_min x y) y = true.
Proof.
  intros Hx Hy.
  assert (E : js_min x y = if js_lt y x then y else x)
    by (destruct x, y; try discriminate; reflexivity).
  rewrite E. destruct (js_lt y x) eqn:L.
  - split; [now right|]. split; [now apply js_lt_le|now apply js_le_refl].
  - split; [now left|]. split; [now apply js_le_refl|now apply js_le_total].
Qed.

(** X7.  MAX and MIN work element by element on two series: null where either
    element is null; where both are numbers other than NaN, MAX gives one
    of the two that is at least both and MIN one of the two that is at
    most both; a NaN on either side gives NaN. *)
Theorem MAX_MIN_elementwise (a b : series) (rest : list series) :
  exists hi lo,
    MAX (a :: b :: rest) = Ok hi /\ MIN (a :: b :: rest) = Ok lo
    /\ length hi = length a /\ length lo = length a
    /\ forall i, (i < length a)%nat ->
         let x := at_index a i in
         let y := at_index b i in
         (is_null x || is_null y = true -> at_index hi i = Null /\ at_index lo i = Null)
         /\ (is_null x || is_null y = false ->
             exists h l, at_index hi i = Num h /\ at_index lo i = Num l
               /\ (ordinary x = true -> ordinary y = true ->
                   (h = toNumber x \/ h = toNumber y)
                   /\ (l = toNumber x \/ l = toNumber y)
                   /\ js_le (toNumber x) h = true /\ js_le (toNumber y) h = true
                   /\ js_le l (toNumber x) = true /\ js_le l (toNumber y) = true)
               /\ (is_nan (toNumber x) || is_nan (toNumber y) = true ->
                   h = NaN /\ l = NaN)).
Proof.
  eexists. eexists. split; [apply pairwise_Ok|]. split; [apply pairwise_Ok|].
  split; [now rewrite length_map, length_seq|].
  split; [now rewrite length_map, length_seq|].
  intros i Hi x y. rewrite !at_index_map_seq by exact Hi. fold x y. split.
  - intros ->. now split.
  - intros Hnn. rewrite Hnn. apply orb_false_iff in Hnn as [Hxn Hyn].
    exists (js_max (toNumber x) (toNumber y)), (js_min (toNumber x) (toNumber y)).
    split; [reflexivity|]. split; [reflexivity|]. split.
    + intros Hx Hy.
      pose proof (ordinary_number x Hx Hxn) as Nx.
      pose proof (ordinary_number y Hy Hyn) as Ny.
      destruct (js_max_spec _ _ Nx Ny) as (M1 & M2 & M3).
      destruct (js_min_spec _ _ Nx Ny) as (L1 & L2 & L3).
      repeat split; assumption.
    + intros Hnan. destruct (toNumber x), (toNumber y); try discriminate; now split.
Qed.

Lemma IF_elementwise_witness :
  exists out,
    IF [numbers [1; 0; 5]%Z; numbers [10; 20; 30]%Z; [Num (of_Z 7); Num (of_Z 8); Null]]
    = Ok out
    /\ at_index out 0 = Num (of_Z 10)
    /\ at_index out 1 = Num (of_Z 8)
    /\ at_index out 2 = Null.
Proof.
  destruct (IF_elementwise (numbers [1; 0; 5]%Z) (numbers [10; 20; 30]%Z)
              [Num (of_Z 7); Num (of_Z 8); Null] []) as (out & Hout & _ & Hi).
  exists out. split; [exact Hout|]. split; [|split].
  - apply (Hi 0%nat). simpl. lia.
  - apply (Hi 1%nat). simpl. lia.
  - apply (Hi 2%nat). simpl. lia.
Defined.

Lemma ABS_elementwise_witness :
  exists out,
    ABS [[Num (of_Z (-3)); Null; Num (of_Z 2)]] = Ok out /\ ABS [out] = Ok out.
Proof.
  destruct (ABS_elementwise [Num (of_Z (-3)); Null; Num (of_Z 2)] [])
    as (out & Hout & _ & _ & Hidem).
  exists out. split; [exact Hout|exact Hidem].
Defined.

Lemma MAX_MIN_elementwise_witness :
  exists hi lo,
    MAX [numbers [1; 5]%Z; numbers [4; 2]%Z] = Ok hi
    /\ MIN [numbers [1; 5]%Z; numbers [4; 2]%Z] = Ok lo
    /\ length hi = 2%nat /\ length lo = 2%nat.
Proof.
  destruct (MAX_MIN_elementwise (numbers [1; 5]%Z) (numbers [4; 2]%Z) [])
    as (hi & lo & Hhi & Hlo & Lhi & Llo & _).
  exists hi, lo. repeat split; assumption.
Defined.

Example MAX_MIN_values :
  MAX [numbers [1; 5]%Z; numbers [4; 2]%Z] = Ok (numbers [4; 5]%Z)
  /\ MIN [numbers [1; 5]%Z; numbers [4; 2]%Z] = Ok (numbers [1; 2]%Z).
Proof. split; reflexivity. Qed.

(** ** The registry *)

Section Registry.

Import RegistryMethods.

Lemma upper_char_idempotent (c : ascii) : upper_char (upper_char c) = upper_char c.
Proof.
  destruct c as [b0 b1 b2 b3 b4 b5 b6 b7].
  destruct b0, b1, b2, b3, b4, b5, b6, b7; reflexivity.
Qed.

Lemma toUpperCase_idempotent (s : string) : toUpperCase (toUpperCase s) = toUpperCase s.
Proof.
  induction s as [|c s IH]; [reflexivity|]. cbn [toUpperCase].
  now rewrite upper_char_idempotent, IH.
Qed.

End Registry.

(** X8.  Registering and looking up.  A function registered under a non-empty
    name is found under every spelling of that name that differs in
    letter case only, its own upper-case form included, and it replaces
    what was registered under such a spelling before; every other name
    resolves as it did.  The empty name is refused. *)
Theorem registerFunction_getFunction (name : string) (func : FunctionType)
    (functions : gmap string FunctionType) :
  name <> EmptyString ->
  exists functions',
    RegistryMethods.registerFunction name func functions = Ok functions'
    /\ (forall name', toUpperCase name' = toUpperCase name ->
          RegistryMethods.getFunction name' functions' = Some func
          /\ RegistryMethods.hasFunction name' functions' = true)
    /\ RegistryMethods.getFunction (toUpperCase name) functions' = Some func
    /\ (forall other, toUpperCase other <> toUpperCase name ->
          RegistryMethods.getFunction other functions'
          = RegistryMethods.getFunction other functions)
    /\ RegistryMethods.registerFunction EmptyString func functions
       = Throw InvalidFunctionName.
Proof.
  intros Hname.
  exists (DefaultFunctionRegistry.registerFunction name func functions).
  unfold RegistryMethods.getFunction, RegistryMethods.hasFunction,
    DefaultFunctionRegistry.lookup, DefaultFunctionRegistry.registerFunction.
  split; [now destruct name|]. split; [|split; [|split]].
  - intros name' ->. rewrite lookup_insert_eq. split; [reflexivity|].
    apply bool_decide_eq_true. eauto.
  - now rewrite toUpperCase_idempotent, lookup_insert_eq.
  - intros other Hne. now rewrite lookup_insert_ne.
  - reflexivity.
Qed.

Lemma registerFunction_getFunction_witness :
  exists functions',
    RegistryMethods.registerFunction "Ma" MA ∅ = Ok functions'
    /\ RegistryMethods.getFunction "mA" functions' = Some MA
    /\ RegistryMethods.getFunction "REF" functions' = None.
Proof.
  destruct (registerFunction_getFunction "Ma" MA ∅) as (fs & Hreg & Hget & _ & Hother & _);
    [discriminate|].
  exists fs. split; [exact Hreg|]. split.
  - now apply Hget.
  - rewrite Hother by discriminate. reflexivity.
Defined.

(** X9.  Unregistering.  [unregisterFunction] reports whether the name, in any
    letter case, was registered; afterwards it is not, a second call
    reports false, and every other name resolves as before. *)
Theorem unregisterFunction_removes (name : string) (functions : gmap string FunctionType) :
  let (existed, functions') := RegistryMethods.unregisterFunction name functions in
  existed = RegistryMethods.hasFunction name functions
  /\ (forall name', toUpperCase name' = toUpperCase name ->
        RegistryMethods.getFunction name' functions' = None
        /\ RegistryMethods.hasFunction name' functions' = false)
  /\ fst (RegistryMethods.unregisterFunction name functions') = false
  /\ (forall other, toUpperCase other <> toUpperCase name ->
        RegistryMethods.getFunction other functions'
        = RegistryMethods.getFunction other functions).
Proof.
  unfold RegistryMethods.unregisterFunction, RegistryMethods.getFunction,
    RegistryMethods.hasFunction, DefaultFunctionRegistry.lookup,
    DefaultFunctionRegistry.unregisterFunction.
  split; [reflexivity|]. split; [|split].
  - intros name' ->. rewrite lookup_delete_eq. split; [reflexivity|].
    apply bool_decide_eq_false. now intros [x Hx].
  - cbn [fst]. rewrite lookup_delete_eq. apply bool_decide_eq_false. now intros [x Hx].
  - intros other Hne. now rewrite lookup_delete_ne.
Qed.

(** ** The builder of input data *)

Section Builder.

Lemma addBars_columns (bars : list Bar) :
  forall b,
    InputDataBuilder.opens (addBars bars b)
    = InputDataBuilder.opens b ++ map (fun bar => Num (bar_open bar)) bars
    /\ InputDataBuilder.highs (addBars bars b)
       = InputDataBuilder.highs b ++ map (fun bar => Num (bar_high bar)) bars
    /\ InputDataBuilder.lows (addBars bars b)
       = InputDataBuilder.lows b ++ map (fun bar => Num (bar_low bar)) bars
    /\ InputDataBuilder.closes (addBars bars b)
       = InputDataBuilder.closes b ++ map (fun bar => Num (bar_close bar)) bars
    /\ InputDataBuilder.volumes (addBars bars b)
       = InputDataBuilder.volumes b ++ map (fun bar => Num (bar_volume bar)) bars.
Proof.
  induction bars as [|bar bars IH]; intros b; cbn [addBars fold_left map].
  - now rewrite !app_nil_r.
  - destruct (IH (InputDataBuilder.addBar (bar_open bar) (bar_high bar) (bar_low bar)
                    (bar_close bar) (bar_volume bar) b)) as (Ho & Hh & Hl & Hc & Hv).
    unfold addBars in *. rewrite Ho, Hh, Hl, Hc, Hv. cbn.
    now rewrite <- !app_assoc.
Qed.

End Builder.

Lemma build_addBars (bars : list Bar) :
  InputDataBuilder.build (addBars bars InputDataBuilder.new)
  = Ok {| opens := map (fun bar => Num (bar_open bar)) bars;
          highs := map (fun bar => Num (bar_high bar)) bars;
          lows := map (fun bar => Num (bar_low bar)) bars;
          closes := map (fun bar => Num (bar_close bar)) bars;
          volumes := map (fun bar => Num (bar_volume bar)) bars;
          numBars := length bars |}.
Proof.
  destruct (addBars_columns bars InputDataBuilder.new) as (Ho & Hh & Hl & Hc & Hv).
  unfold InputDataBuilder.build. rewrite Ho, Hh, Hl, Hc, Hv. cbn [InputDataBuilder.new
    InputDataBuilder.opens InputDataBuilder.highs InputDataBuilder.lows
    InputDataBuilder.closes InputDataBuilder.volumes app].
  rewrite !length_map, Nat.eqb_refl. reflexivity.
Qed.

(** X10.  The builder cannot fail: after any sequence of [addBar] calls
    on a new builder the five arrays have one length, so [build] passes
    its check and returns the bars column by column, in order, with
    [numBars] their number. *)
Theorem build_after_addBar (bars : list Bar) :
  InputDataBuilder.build (addBars bars InputDataBuilder.new)
  = Ok {| opens := map (fun bar => Num (bar_open bar)) bars;
          highs := map (fun bar => Num (bar_high bar)) bars;
          lows := map (fun bar => Num (bar_low bar)) bars;
          closes := map (fun bar => Num (bar_close bar)) bars;
          volumes := map (fun bar => Num (bar_volume bar)) bars;
          numBars := length bars |}.
Proof. apply build_addBars. Qed.

(** ** Expressions without calls *)

Section PlainExpressions.

Lemma fresh_lookup (d : InputData) (registry : option FunctionRegistry) (name : string) :
  Evaluator.environment (Evaluator.new d registry) !! name =
    if String.eqb name "V" then Some (volumes d)
    else if String.eqb name "C" then Some (closes d)
    else if String.eqb name "L" then Some (lows d)
    else if String.eqb name "H" then Some (highs d)
    else if String.eqb name "O" then Some (opens d)
    else None.
Proof.
  cbn [Evaluator.new Evaluator.environment]. unfold Evaluator.initializeBuiltinVariables.
  repeat match goal with
         | |- context [String.eqb name ?x] =>
             destruct (String.eqb_spec name x) as [->|?];
             [now rewrite ?lookup_insert_eq|rewrite lookup_insert_ne by congruence]
         end.
  apply lookup_empty.
Qed.

Lemma unaryOp_length (operator : UnaryOperator.t) (v : series) :
  length (map (unaryOp operator) v) = length v.
Proof. apply length_map. Qed.

(** When every bound series has [numBars] elements, an expression without
    calls and without unbound variables evaluates, to [numBars] elements. *)
Lemma plain_evaluates (ev : Evaluator.t) :
  (forall x v, Evaluator.environment ev !! x = Some v ->
     length v = numBars (Evaluator.inputData ev)) ->
  forall e,
    plain (fun x => bool_decide (is_Some (Evaluator.environment ev !! x))) e = true ->
    exists v, Evaluator.evaluateExpr ev e = Ok v
              /\ length v = numBars (Evaluator.inputData ev).
Proof.
  intros Henv. induction e as [n|x|op e IH|l IHl op r IHr|f args|e IH];
    cbn [plain]; intros Hp.
  - eexists. split; [reflexivity|]. apply repeat_length.
  - apply bool_decide_eq_true in Hp as [v Hv]. exists v.
    cbn [Evaluator.evaluateExpr]. unfold Evaluator.resolveVariable. rewrite Hv.
    split; [reflexivity|]. now apply (Henv x).
  - destruct (IH Hp) as (v & Hv & Hlen). cbn [Evaluator.evaluateExpr]. rewrite Hv.
    cbn [bind]. eexists. split; [reflexivity|]. now rewrite length_map.
  - apply andb_prop in Hp as [Hl Hr].
    destruct (IHl Hl) as (lv & Hlv & Hll). destruct (IHr Hr) as (rv & Hrv & Hlr).
    rewrite (evaluateExpr_BinaryOp ev l r op lv rv Hlv Hrv).
    destruct (binaryOpSeries_Ok op lv rv) as (out & Hout & Hlo & _); [congruence|].
    exists out. split; [exact Hout|congruence].
  - discriminate.
  - exact (IH Hp).
Qed.

End PlainExpressions.

(** A new evaluator binds the five names O, H, L, C, V to the five arrays
    of its input, and nothing else: any other name, such as a lower-case
    [c], is an undefined variable. *)
Lemma builtin_variables (d : InputData) (registry : option FunctionRegistry) :
  let ev := Evaluator.new d registry in
  Evaluator.evaluateExpr ev (Var "O") = Ok (opens d)
  /\ Evaluator.evaluateExpr ev (Var "H") = Ok (highs d)
  /\ Evaluator.evaluateExpr ev (Var "L") = Ok (lows d)
  /\ Evaluator.evaluateExpr ev (Var "C") = Ok (closes d)
  /\ Evaluator.evaluateExpr ev (Var "V") = Ok (volumes d)
  /\ forall name, builtin_variable name = false ->
       Evaluator.evaluateExpr ev (Var name) = Throw (UndefinedVariable name).
Proof.
  cbv zeta. repeat split;
    try (cbn [Evaluator.evaluateExpr]; unfold Evaluator.resolveVariable;
         rewrite fresh_lookup; reflexivity).
  intros name Hn. cbn [Evaluator.evaluateExpr]. unfold Evaluator.resolveVariable.
  rewrite fresh_lookup. unfold builtin_variable in Hn.
  repeat (apply orb_false_iff in Hn; destruct Hn as [Hn ?]).
  repeat match goal with H : String.eqb name _ = false |- _ => rewrite H; clear H end.
  reflexivity.
Qed.

(** X11.  [numBars] is trusted, not checked: when it is a length that an
    array can have (below 2^32, so that [expandNumber] can create its
    array) and differs from the length of an array of the input,
    combining that array with a literal is a length error. *)
Theorem numBars_is_trusted (d : InputData) (registry : option FunctionRegistry)
    (op : BinaryOperator.t) (x : number) :
  (Z.of_nat (numBars d) < 2 ^ 32)%Z ->
  length (closes d) <> numBars d ->
  Evaluator.evaluateExpr (Evaluator.new d registry) (BinaryOp (Var "C") op (Literal x))
  = Throw BinaryLengthMismatch
  /\ Evaluator.evaluateExpr (Evaluator.new d registry) (BinaryOp (Literal x) op (Var "C"))
     = Throw BinaryLengthMismatch.
Proof.
  intros _ Hne. cbn [Evaluator.evaluateExpr]. unfold Evaluator.resolveVariable.
  rewrite fresh_lookup. cbn [String.eqb Ascii.eqb Bool.eqb bind].
  unfold binaryOpSeries, Evaluator.expandNumber. cbn [Evaluator.new Evaluator.inputData].
  rewrite repeat_length.
  assert (H1 : (length (closes d) =? numBars d)%nat = false) by now apply Nat.eqb_neq.
  assert (H2 : (numBars d =? length (closes d))%nat = false)
    by (apply Nat.eqb_neq; congruence).
  now rewrite H1, H2.
Qed.

Lemma numBars_is_trusted_witness :
  Evaluator.evaluateExpr
    (Evaluator.new {| opens := []; highs := []; lows := []; closes := [Num one];
                      volumes := []; numBars := 3 |} None)
    (BinaryOp (Var "C") BinaryOperator.Add (Literal one))
  = Throw BinaryLengthMismatch.
Proof.
  apply (numBars_is_trusted
           {| opens := []; highs := []; lows := []; closes := [Num one];
              volumes := []; numBars := 3 |} None BinaryOperator.Add one).
  - reflexivity.
  - simpl. lia.
Defined.

(** ** Formulas without calls *)

Section PlainFormulas.

Variable N : nat.

(** Every bound series has [N] elements, and the names [known] are
    bound. *)
Let sound (known : string -> bool) (ev : Evaluator.t) : Prop :=
  numBars (Evaluator.inputData ev) = N
  /\ (forall x v, Evaluator.environment ev !! x = Some v -> length v = N)
  /\ (forall x, known x = true -> is_Some (Evaluator.environment ev !! x)).

Lemma plain_mono (k1 k2 : string -> bool) (e : Expr) :
  (forall x, k1 x = true -> k2 x = true) -> plain k1 e = true -> plain k2 e = true.
Proof.
  intros Hk. induction e as [n|x|op e IH|l IHl op r IHr|f args|e IH];
    cbn [plain]; auto.
  intros Hp. apply andb_prop in Hp as [Hl Hr]. now rewrite IHl, IHr.
Qed.

Lemma sound_evaluates (known : string -> bool) (ev : Evaluator.t) (e : Expr) :
  sound known ev -> plain known e = true ->
  exists v, Evaluator.evaluateExpr ev e = Ok v /\ length v = N.
Proof.
  intros (Hn & Hlen & Hk) Hp.
  destruct (plain_evaluates ev) with (e := e) as (v & Hv & Hl).
  - intros x v Hx. rewrite Hn. now apply (Hlen x).
  - apply (plain_mono known); [|exact Hp].
    intros x Hx. apply bool_decide_eq_true. now apply Hk.
  - exists v. split; [exact Hv|congruence].
Qed.

Lemma executeStatements_plain (stmts : list Statement) :
  forall known ev,
    sound known ev -> well_scoped known stmts = true ->
    exists ev' lines,
      Evaluator.executeStatements ev stmts = (Ok tt, ev')
      /\ Evaluator.outputLines ev' = Evaluator.outputLines ev ++ lines
      /\ length lines = count_outputs stmts
      /\ Forall (fun line => length (data line) = N) lines.
Proof.
  induction stmts as [|st stmts IH]; intros known ev Hs Hw.
  - exists ev, []. cbn. rewrite app_nil_r. repeat split. constructor.
  - destruct st as [x e|nm e sty]; cbn [well_scoped] in Hw;
      apply andb_prop in Hw as [Hp Hw];
      destruct (sound_evaluates known ev e Hs Hp) as (v & Hv & Hl);
      cbn [Evaluator.executeStatements Evaluator.executeStatement].
    + unfold Evaluator.executeAssignment. rewrite Hv.
      destruct (IH (fun y => String.eqb y x || known y)
                   (Evaluator.set_environment ev (<[x:=v]> (Evaluator.environment ev))))
        as (ev' & lines & He & Ho & Hc & Hf); [|exact Hw|].
      { destruct Hs as (Hn & Hlen & Hk). split; [exact Hn|]. split.
        - intros y w. cbn [Evaluator.set_environment Evaluator.environment].
          destruct (String.eqb_spec y x) as [->|Hne].
          + rewrite lookup_insert_eq. now intros [= <-].
          + rewrite lookup_insert_ne by congruence. apply Hlen.
        - intros y Hy. cbn [Evaluator.set_environment Evaluator.environment].
          cbn beta in Hy. destruct (String.eqb_spec y x) as [E|Hne].
          + rewrite E, lookup_insert_eq. eauto.
          + rewrite lookup_insert_ne by congruence. apply Hk. exact Hy. }
      exists ev', lines. split; [exact He|]. split; [exact Ho|]. split; [|exact Hf].
      rewrite Hc. reflexivity.
    + unfold Evaluator.executeOutput. rewrite Hv.
      match goal with |- context [createOutputLineResult ?n v sty] =>
        set (line := createOutputLineResult n v sty) end.
      destruct (IH known (Evaluator.set_outputLines ev (Evaluator.outputLines ev ++ [line])))
        as (ev' & lines & He & Ho & Hc & Hf); [exact Hs|exact Hw|].
      exists ev', (line :: lines). split; [exact He|]. split.
      * rewrite Ho. cbn [Evaluator.set_outputLines Evaluator.outputLines].
        now rewrite <- app_assoc.
      * split; [cbn; unfold count_outputs in *; cbn; now rewrite Hc|].
        constructor; [exact Hl|exact Hf].
Qed.

End PlainFormulas.

(** X12.  On input data made by the builder, a formula without function calls
    that uses, besides O, H, L, C, V, only variables assigned by an
    earlier statement never fails: it yields one output line per output
    statement, each with one element per bar. *)
Theorem plain_formula_evaluates (bars : list Bar) (d : InputData)
    (registry : option FunctionRegistry) (f : Formula) :
  InputDataBuilder.build (addBars bars InputDataBuilder.new) = Ok d ->
  well_scoped builtin_variable (statements f) = true ->
  exists result ev',
    Evaluator.evaluateFormula (Evaluator.new d registry) f = (Ok result, ev')
    /\ length (outputLines result) = count_outputs (statements f)
    /\ Forall (fun line => length (data line) = length bars) (outputLines result).
Proof.
  rewrite build_addBars. intros [= <-] Hw.
  set (d := {| opens := _ |}). unfold Evaluator.evaluateFormula.
  destruct (executeStatements_plain (length bars) (statements f) builtin_variable
              (Evaluator.set_outputLines (Evaluator.new d registry) []))
    as (ev' & lines & He & Ho & Hc & Hf); [|exact Hw|].
  { split; [reflexivity|]. split.
    - intros x v. cbn [Evaluator.set_outputLines Evaluator.environment].
      change (Evaluator.initializeBuiltinVariables d)
        with (Evaluator.environment (Evaluator.new d registry)).
      rewrite fresh_lookup.
      repeat match goal with
             | |- context [if ?b then _ else _] => destruct b
             end; intros [= <-]; cbn; apply length_map.
    - intros x Hx. cbn [Evaluator.set_outputLines Evaluator.environment].
      change (Evaluator.initializeBuiltinVariables d)
        with (Evaluator.environment (Evaluator.new d registry)).
      rewrite fresh_lookup. unfold builtin_variable in Hx.
      destruct (String.eqb x "V"); [eauto|]. destruct (String.eqb x "C"); [eauto|].
      destruct (String.eqb x "L"); [eauto|]. destruct (String.eqb x "H"); [eauto|].
      destruct (String.eqb x "O"); [eauto|]. discriminate. }
  rewrite He. cbn [Evaluator.set_outputLines Evaluator.outputLines app] in Ho.
  exists (createFormulaResult (Evaluator.outputLines ev')), ev'.
  split; [reflexivity|]. cbn [outputLines]. rewrite Ho. split; [exact Hc|exact Hf].
Qed.

Lemma plain_formula_evaluates_witness :
  exists result ev',
    Evaluator.evaluateFormula
      (Evaluator.new
         {| opens := [Num (of_Z 1); Num (of_Z 2)]; highs := [Num (of_Z 3); Num (of_Z 4)];
            lows := [Num (of_Z 0); Num (of_Z 1)]; closes := [Num (of_Z 2); Num (of_Z 3)];
            volumes := [Num (of_Z 9); Num (of_Z 8)]; numBars := 2 |} None)
      (createFormula
         [Assignment "MID" (BinaryOp (BinaryOp (Var "H") BinaryOperator.Add (Var "L"))
                                     BinaryOperator.Div (Literal (of_Z 2)));
          Output (Some "UP"%string) (BinaryOp (Var "C") BinaryOperator.Gt (Var "MID")) []])
    = (Ok result, ev')
    /\ length (outputLines result) = 1%nat
    /\ Forall (fun line => length (data line) = 2%nat) (outputLines result).
Proof.
  apply (plain_formula_evaluates
           [{| bar_open := of_Z 1; bar_high := of_Z 3; bar_low := of_Z 0;
               bar_close := of_Z 2; bar_volume := of_Z 9 |};
            {| bar_open := of_Z 2; bar_high := of_Z 4; bar_low := of_Z 1;
               bar_close := of_Z 3; bar_volume := of_Z 8 |}]); reflexivity.
Defined.

(** ** Output lines *)

Section OutputLines.

Lemma executeStatements_lines (stmts : list Statement) :
  forall ev ev',
    Evaluator.executeStatements ev stmts = (Ok tt, ev') ->
    exists lines,
      Evaluator.outputLines ev' = Evaluator.outputLines ev ++ lines
      /\ map name lines = line_names (length (Evaluator.outputLines ev)) stmts
      /\ map styles lines = line_styles stmts.
Proof.
  induction stmts as [|st stmts IH]; intros ev ev' He.
  - cbn in He. injection He as <-. exists []. now rewrite app_nil_r.
  - cbn [Evaluator.executeStatements] in He.
    destruct st as [x e|nm e sty]; cbn [Evaluator.executeStatement] in He.
    + unfold Evaluator.executeAssignment in He.
      destruct (Evaluator.evaluateExpr ev e) as [v| |]; try discriminate.
      apply IH in He as (lines & Ho & Hn & Hs). now exists lines.
    + unfold Evaluator.executeOutput in He.
      destruct (Evaluator.evaluateExpr ev e) as [v| |]; try discriminate.
      apply IH in He as (lines & Ho & Hn & Hs).
      cbn [Evaluator.set_outputLines Evaluator.outputLines] in Ho, Hn.
      eexists (_ :: lines). split; [rewrite Ho, <- app_assoc; reflexivity|].
      cbn [map name styles line_names line_styles]. rewrite Hs, Hn, length_app.
      cbn [length]. rewrite Nat.add_1_r. split; reflexivity.
Qed.

End OutputLines.

(** X13.  The lines of a result are those of the output statements, in order.
    A line bears the name its statement gives; a statement without a name,
    or with the empty name, gives [output_k] where [k] counts the lines of
    the call so far, named ones included, from 1.  A line carries the
    styles of its statement. *)
Theorem output_line_names (ev ev' : Evaluator.t) (f : Formula) (result : FormulaResult) :
  Evaluator.evaluateFormula ev f = (Ok result, ev') ->
  map name (outputLines result) = line_names 0 (statements f)
  /\ map styles (outputLines result) = line_styles (statements f).
Proof.
  unfold Evaluator.evaluateFormula.
  destruct (Evaluator.executeStatements (Evaluator.set_outputLines ev []) (statements f))
    as [[[]| |] ev1] eqn:He; try discriminate.
  intros [= <- <-]. apply executeStatements_lines in He as (lines & Ho & Hn & Hs).
  cbn [Evaluator.set_outputLines Evaluator.outputLines app length] in Ho, Hn.
  cbn [outputLines]. now rewrite Ho.
Qed.

Lemma pair_of_fst {A B : Type} (p : A * B) (a : A) : fst p = a -> p = (a, snd p).
Proof. destruct p. cbn. now intros ->. Qed.

Lemma output_line_names_witness :
  map name
    [createOutputLineResult "UP" sample_closes [];
     createOutputLineResult "output_2" (opens sample_bars) ["COLORRED"%string]]
  = ["UP"; "output_2"]%string.
Proof.
  refine (proj1 (output_line_names sample_evaluator _
                   (createFormula [Output (Some "UP"%string) (Var "C") [];
                                   Assignment "X" (Var "O");
                                   Output None (Var "X") ["COLORRED"%string]])
                   (createFormulaResult
                      [createOutputLineResult "UP" sample_closes [];
                       createOutputLineResult "output_2" (opens sample_bars)
                         ["COLORRED"%string]])
                   (pair_of_fst _ _ _))).
  reflexivity.
Defined.

(** ** Calls *)

Section Calls.

Lemma evaluateExpr_FunctionCall (ev : Evaluator.t) (name : string) :
  forall args argValues,
    Forall2 (fun a v => Evaluator.evaluateExpr ev a = Ok v) args argValues ->
    Evaluator.evaluateExpr ev (FunctionCall name args)
    = callFunction (Evaluator.functionRegistry ev) name argValues.
Proof.
  intros args argValues H. cbn [Evaluator.evaluateExpr].
  match goal with |- bind ?m _ = _ => assert (Hm : m = Ok argValues) end.
  { induction H as [|a v args argValues Ha _ IH]; [reflexivity|].
    rewrite Ha. cbn [bind]. rewrite IH. reflexivity. }
  now rewrite Hm.
Qed.

End Calls.

(** X14.  A call is checked in this order: the arguments are evaluated; if one
    of them has not the length of the first, that is the error, whether
    the function exists or not; only then is the name looked up, and an
    unknown name is the error. *)
Theorem call_checks (ev : Evaluator.t) (name : string) (args : list Expr)
    (argValues : list series) :
  Forall2 (fun a v => Evaluator.evaluateExpr ev a = Ok v) args argValues ->
  ((exists v, In v argValues /\ length v <> length (hd [] argValues)) ->
     Evaluator.evaluateExpr ev (FunctionCall name args) = Throw (FunctionLengthMismatch name))
  /\ ((forall v, In v argValues -> length v = length (hd [] argValues)) ->
      getFunction (Evaluator.functionRegistry ev) name = None ->
      Evaluator.evaluateExpr ev (FunctionCall name args) = Throw (UnknownFunction name))
  /\ ((forall v, In v argValues -> length v = length (hd [] argValues)) ->
      forall func, getFunction (Evaluator.functionRegistry ev) name = Some func ->
      Evaluator.evaluateExpr ev (FunctionCall name args) = func argValues).
Proof.
  intros H. rewrite (evaluateExpr_FunctionCall ev name args argValues H).
  unfold callFunction.
  assert (Hlen : match argValues with [] => 0%nat | a :: _ => length a end
                 = length (hd [] argValues)) by now destruct argValues.
  rewrite Hlen. split; [|split].
  - intros (v & Hin & Hne).
    destruct (forallb (fun a => (length a =? length (hd [] argValues))%nat) argValues)
      eqn:E; [|reflexivity].
    rewrite forallb_forall in E. apply E, Nat.eqb_eq in Hin. contradiction.
  - intros Hall Hnone.
    assert (E : forallb (fun a => (length a =? length (hd [] argValues))%nat) argValues = true)
      by (apply forallb_forall; intros v Hv; apply Nat.eqb_eq; now apply Hall).
    now rewrite E, Hnone.
  - intros Hall func Hsome.
    assert (E : forallb (fun a => (length a =? length (hd [] argValues))%nat) argValues = true)
      by (apply forallb_forall; intros v Hv; apply Nat.eqb_eq; now apply Hall).
    now rewrite E, Hsome.
Qed.

Lemma call_checks_witness :
  Evaluator.evaluateExpr sample_evaluator (FunctionCall "NOSUCH" [Var "C"; Var "O"])
  = Throw (UnknownFunction "NOSUCH").
Proof.
  refine (proj1 (proj2 (call_checks sample_evaluator "NOSUCH" [Var "C"; Var "O"]
                          [closes sample_bars; opens sample_bars] _)) _ _).
  - repeat constructor.
  - intros v [<-|[<-|[]]]; reflexivity.
  - reflexivity.
Defined.

(** X15.  Function names are looked up without regard to letter case: under a
    registry of the default class, two spellings that differ in case only
    give the same result series.  (Variable names are not: see the theorem
    on the built-in variables.) *)
Theorem function_names_ignore_case (ev : Evaluator.t)
    (functions : gmap string FunctionType) (name1 name2 : string) (args : list Expr) :
  Evaluator.functionRegistry ev = DefaultFunctionRegistry.registry functions ->
  toUpperCase name1 = toUpperCase name2 ->
  forall out,
    Evaluator.evaluateExpr ev (FunctionCall name1 args) = Ok out
    <-> Evaluator.evaluateExpr ev (FunctionCall name2 args) = Ok out.
Proof.
  intros Hreg Hup out. cbn [Evaluator.evaluateExpr].
  match goal with |- bind ?m _ = _ <-> _ => destruct m as [argValues| |] end;
    cbn [bind]; [|tauto|tauto].
  unfold callFunction. rewrite Hreg. cbn [getFunction DefaultFunctionRegistry.registry].
  unfold DefaultFunctionRegistry.lookup. rewrite Hup.
  destruct (forallb (fun a => (length a =? _)%nat) argValues); [|split; discriminate].
  destruct (functions !! toUpperCase name2); [tauto|split; discriminate].
Qed.

Lemma function_names_ignore_case_witness :
  Evaluator.evaluateExpr sample_evaluator (FunctionCall "ma" [Var "C"; Literal (of_Z 2)])
  = Evaluator.evaluateExpr sample_evaluator (FunctionCall "MA" [Var "C"; Literal (of_Z 2)]).
Proof.
  destruct (Evaluator.evaluateExpr sample_evaluator
              (FunctionCall "MA" [Var "C"; Literal (of_Z 2)])) as [out| |] eqn:E;
    try (vm_compute in E; discriminate).
  apply (function_names_ignore_case sample_evaluator
           DefaultFunctionRegistry.initializeBuiltinFunctions "ma" "MA"
           [Var "C"; Literal (of_Z 2)] eq_refl eq_refl out).
  exact E.
Defined.

(** ** Unary operators *)

(** X16.  The unary operators keep the length and the nulls of their operand.
    On any other element, [-] gives the opposite and [NOT] gives 1 for 0
    and 0 for everything else, so that [NOT NOT x] is 1 exactly where [x]
    is not 0. *)
Theorem UnaryOp_elementwise (ev : Evaluator.t) (e : Expr) (v : series) :
  Evaluator.evaluateExpr ev e = Ok v ->
  exists neg non nonnon,
    Evaluator.evaluateExpr ev (UnaryOp UnaryOperator.Neg e) = Ok neg
    /\ Evaluator.evaluateExpr ev (UnaryOp UnaryOperator.Not e) = Ok non
    /\ Evaluator.evaluateExpr ev (UnaryOp UnaryOperator.Not (UnaryOp UnaryOperator.Not e))
       = Ok nonnon
    /\ length neg = length v /\ length non = length v /\ length nonnon = length v
    /\ forall i, (i < length v)%nat ->
         (is_null (at_index v i) = true ->
            at_index neg i = Null /\ at_index non i = Null /\ at_index nonnon i = Null)
         /\ (is_null (at_index v i) = false ->
             at_index neg i = Num (js_neg (toNumber (at_index v i)))
             /\ at_index non i = bit (strict_eq (at_index v i) (Num zero))
             /\ at_index nonnon i = bit (negb (strict_eq (at_index v i) (Num zero)))).
Proof.
  intros Hv. cbn [Evaluator.evaluateExpr]. rewrite Hv. cbn [bind].
  do 3 eexists. do 3 (split; [reflexivity|]).
  rewrite !length_map. do 3 (split; [reflexivity|]).
  intros i Hi. unfold at_index.
  assert (Hnth : forall f : value -> value,
            nth i (map f v) Undefined = f (nth i v Undefined)).
  { intros f. rewrite (nth_indep (map f v) Undefined (f Undefined))
      by (now rewrite length_map). apply map_nth. }
  rewrite map_map, !Hnth. unfold unaryOp. split; intros Hn; rewrite Hn.
  - now repeat split.
  - split; [reflexivity|]. split; [reflexivity|].
    now destruct (strict_eq (nth i v Undefined) (Num zero)).
Qed.

Lemma UnaryOp_elementwise_witness :
  exists out,
    Evaluator.evaluateExpr sample_evaluator
      (UnaryOp UnaryOperator.Not (UnaryOp UnaryOperator.Not (Var "C"))) = Ok out
    /\ length out = 5%nat.
Proof.
  destruct (UnaryOp_elementwise sample_evaluator (Var "C") sample_closes eq_refl)
    as (neg & non & nonnon & _ & _ & H & _ & _ & L & _).
  exists nonnon. split; [exact H|exact L].
Defined.

(** ** Errors in a formula *)

(** X17.  A statement whose expression fails aborts the call.  The call returns
    that error and no result; none of the statements after it is
    executed; and the evaluator stays as the statements before it left
    it, their assignments and output lines included. *)
Theorem first_error_aborts (ev ev1 : Evaluator.t) (pre post : list Statement)
    (s : Statement) (result1 : FormulaResult) (err : EvalError) :
  Evaluator.evaluateFormula ev (createFormula pre) = (Ok result1, ev1) ->
  Evaluator.evaluateExpr ev1 (statement_expr s) = Throw err ->
  Evaluator.evaluateFormula ev (createFormula (pre ++ s :: post)) = (Throw err, ev1).
Proof.
  unfold Evaluator.evaluateFormula. cbn [statements].
  rewrite executeStatements_app.
  destruct (Evaluator.executeStatements (Evaluator.set_outputLines ev []) pre)
    as [[[]| |] ev0]; try discriminate.
  intros [= _ <-] Herr. cbn [Evaluator.executeStatements].
  destruct s as [x e|nm e sty]; cbn [statement_expr] in Herr;
    cbn [Evaluator.executeStatement];
    unfold Evaluator.executeAssignment, Evaluator.executeOutput; now rewrite Herr.
Qed.

Lemma first_error_aborts_witness :
  fst (Evaluator.evaluateFormula sample_evaluator
         (createFormula [Assignment "A" (Var "C"); Output None (Var "B") [];
                         Output None (Var "A") []]))
  = Throw (UndefinedVariable "B").
Proof.
  pose proof (first_error_aborts sample_evaluator _ [Assignment "A" (Var "C")]
                [Output None (Var "A") []] (Output None (Var "B") [])
                (createFormulaResult []) (UndefinedVariable "B")
                (pair_of_fst _ _ eq_refl) eq_refl) as R.
  cbn [app] in R. now rewrite R.
Defined.

(** ** The lexer and the text ahead of it *)

Section RemainingText.

Import Lexer.

Lemma string_drop_get (s : string) :
  forall n i, String.get i (string_drop n s) = String.get (n + i) s.
Proof.
  induction s as [|c s IH]; intros n i.
  - destruct n; cbn; now destruct i.
  - destruct n as [|n]; [reflexivity|]. cbn. apply IH.
Qed.

Lemma string_drop_length (s : string) :
  forall n, String.length (string_drop n s) = (String.length s - n)%nat.
Proof.
  induction s as [|c s IH]; intros [|n]; cbn; try reflexivity. apply IH.
Qed.

Lemma string_drop_S (s : string) :
  forall n c t, string_drop n s = String c t -> string_drop (S n) s = t.
Proof.
  induction s as [|c' s IH]; intros [|n] c t H; cbn in *; try discriminate.
  - now injection H as _ <-.
  - destruct s as [|c'' s]; [destruct n; discriminate|]. now apply (IH n c t).
Qed.

Lemma remaining_text_new (s : string) : remaining_text (Lexer.new s) = s.
Proof. reflexivity. Qed.

Lemma remaining_text_char_at (lx : Lexer.t) (i : nat) :
  char_at lx i = String.get i (remaining_text lx).
Proof. unfold char_at, remaining_text. now rewrite string_drop_get. Qed.

Lemma remaining_text_length (lx : Lexer.t) :
  String.length (remaining_text lx) = remaining lx.
Proof. unfold remaining_text, remaining. apply string_drop_length. Qed.

Lemma remaining_empty (lx : Lexer.t) :
  remaining_text lx = EmptyString -> isAtEnd lx = true.
Proof.
  intros H. apply isAtEnd_true_remaining. now rewrite <- remaining_text_length, H.
Qed.

(** With [c] ahead, [advance] returns [c] and moves one character on. *)
Lemma remaining_cons (lx : Lexer.t) (c : ascii) (t : string) :
  remaining_text lx = String c t ->
  isAtEnd lx = false /\ peek lx = c
  /\ advance lx = (c, {| input := input lx; position := position lx + 1;
                         line := line lx; column := column lx + 1 |})
  /\ remaining_text (snd (advance lx)) = t.
Proof.
  intros H.
  assert (Hend : isAtEnd lx = false).
  { apply isAtEnd_false_remaining. rewrite <- remaining_text_length, H. cbn. lia. }
  assert (Hpk : peek lx = c).
  { rewrite peek_char_at, remaining_text_char_at, H. reflexivity. }
  split; [exact Hend|]. split; [exact Hpk|].
  rewrite advance_eq, Hpk by exact Hend. split; [reflexivity|].
  cbn [snd]. unfold remaining_text in *. cbn [input position].
  rewrite Nat.add_1_r. now apply (string_drop_S _ _ c).
Qed.

Lemma remaining_peekNext (lx : Lexer.t) (c : ascii) (t : string) :
  remaining_text lx = String c t ->
  peekNext lx = match t with String d _ => d | EmptyString => NUL end.
Proof.
  intros H. rewrite peekNext_char_at, remaining_text_char_at, H. cbn.
  now destruct t.
Qed.

Lemma remaining_agree (lx1 lx2 : Lexer.t) (w : nat) :
  remaining_text lx1 = remaining_text lx2 -> agree w lx1 lx2.
Proof. intros H i _. now rewrite !remaining_text_char_at, H. Qed.

Lemma append_cons (c : ascii) (s t : string) :
  (String c s ++ t)%string = String c (s ++ t)%string.
Proof. reflexivity. Qed.

Lemma append_nil_l (t : string) : (EmptyString ++ t)%string = t.
Proof. reflexivity. Qed.

Lemma append_nil_r (s : string) : (s ++ EmptyString)%string = s.
Proof. induction s as [|c s IH]; [reflexivity|]. rewrite append_cons. now f_equal. Qed.

Lemma append_char_app (s t : string) (c : ascii) :
  (append_char s c ++ t)%string = (s ++ String c t)%string.
Proof.
  unfold append_char. induction s as [|d s IH]; [reflexivity|].
  rewrite !append_cons. now f_equal.
Qed.

Lemma stops_blocked (continue : ascii -> bool) (lx : Lexer.t) :
  stops continue (remaining_text lx) = true ->
  isAtEnd lx = true \/ continue (peek lx) = false.
Proof.
  destruct (remaining_text lx) as [|c t] eqn:E; cbn.
  - intros _. left. now apply remaining_empty.
  - intros H. right. destruct (remaining_cons lx c t E) as (_ & -> & _).
    now apply negb_true_iff.
Qed.

(** The scanning loop consumes the run of characters that pass its test,
    and nothing else. *)
Lemma scan_run (continue : ascii -> bool) (countLines : bool) (tail : string) :
  forall run lexeme lx fuel,
    (remaining lx <= fuel)%nat ->
    remaining_text lx = (run ++ tail)%string ->
    string_forall continue run = true -> stops continue tail = true ->
    exists lx',
      scan fuel continue countLines lexeme lx = ((lexeme ++ run)%string, lx')
      /\ input lx' = input lx
      /\ position lx' = (position lx + String.length run)%nat
      /\ remaining_text lx' = tail
      /\ line lx' = (if countLines then line lx + line_feeds run else line lx)%nat
      /\ (countLines = false -> column lx' = (column lx + String.length run)%nat).
Proof.
  induction run as [|c run IH]; intros lexeme lx fuel Hf Hrem Hrun Hstop.
  - rewrite append_nil_l in Hrem. rewrite scan_blocked
      by (apply stops_blocked; now rewrite Hrem).
    exists lx. rewrite append_nil_r. cbn [String.length line_feeds].
    rewrite !Nat.add_0_r. repeat split; try assumption. now destruct countLines.
  - rewrite append_cons in Hrem. cbn [string_forall] in Hrun.
    apply andb_prop in Hrun as [Hc Hrun].
    destruct (remaining_cons lx c _ Hrem) as (Hend & Hpk & _ & _).
    destruct fuel as [|fuel]; [apply isAtEnd_false_remaining in Hend; lia|].
    rewrite scan_S, Hend, Hpk, Hc. cbn [negb andb].
    set (lx0 := if countLines && Ascii.eqb c LF then newline lx else lx).
    assert (Hrem0 : remaining_text lx0 = String c (run ++ tail))
      by (unfold lx0; now destruct (countLines && Ascii.eqb c LF)).
    destruct (remaining_cons lx0 c _ Hrem0) as (_ & _ & Hadv & Hrem1).
    assert (Hb : bump countLines lx = snd (advance lx0))
      by (unfold bump, lx0; now rewrite Hpk).
    rewrite Hb. rewrite Hadv in *. cbn [snd] in *.
    match goal with |- context [scan fuel _ _ _ ?l] => set (lx1 := l) in * end.
    destruct (IH (append_char lexeme c) lx1 fuel) as (lx' & Hs & Hi & Hp & Hr & Hl & Hcol);
      [|exact Hrem1|exact Hrun|exact Hstop|].
    { unfold remaining in *. unfold lx1, lx0. cbn [input position].
      destruct (countLines && Ascii.eqb c LF); cbn [newline input position]; lia. }
    exists lx'. rewrite Hs, append_char_app. split; [reflexivity|].
    unfold lx1, lx0 in Hi, Hp, Hl, Hcol. cbn [input position line column] in Hi, Hp, Hl, Hcol.
    cbn [String.length line_feeds].
    split; [now destruct (countLines && Ascii.eqb c LF)|].
    split; [destruct (countLines && Ascii.eqb c LF); cbn in *; lia|].
    split; [exact Hr|]. split.
    + rewrite Hl. destruct countLines; cbn [andb]; [|reflexivity].
      destruct (Ascii.eqb c LF); cbn [newline line]; lia.
    + intros ->. cbn [andb] in *. rewrite (Hcol eq_refl). lia.
Qed.

End RemainingText.

(** ** Tokens, read off the text *)

Section TokenShapes.

Import Lexer.

Lemma skipTrivia_fuel :
  forall fuel lx a, skipTrivia fuel lx = Some a ->
    forall fuel', (fuel <= fuel')%nat -> skipTrivia fuel' lx = Some a.
Proof.
  induction fuel as [|fuel IH]; intros lx a H fuel' Hle;
    rewrite skipTrivia_eq in H; rewrite skipTrivia_eq; cbv zeta in *;
    destruct (isAtEnd (skipWhitespace lx)); try exact H;
    destruct (Ascii.eqb (peek (skipWhitespace lx)) "{"); try exact H; try discriminate.
  destruct fuel' as [|fuel']; [lia|]. apply (IH _ _ H). lia.
Qed.

(** Any fuel that covers the remaining text gives the token of
    [nextToken]. *)
Lemma nextToken_aux_fuel (fuel : nat) (lx : Lexer.t) :
  (remaining lx <= fuel)%nat -> nextToken_aux fuel lx = Some (nextToken lx).
Proof.
  intros Hf. destruct (nextToken_tokenAt lx) as (a & Hskip & ->).
  rewrite nextToken_aux_tokenAt, (skipTrivia_fuel _ _ _ Hskip fuel Hf). reflexivity.
Qed.

(** At the first character of a token [nextToken] dispatches on it. *)
Lemma nextToken_at_start (lx : Lexer.t) :
  isAtEnd lx = false -> isWhitespace (peek lx) = false ->
  Ascii.eqb (peek lx) "{" = false ->
  nextToken lx = lexToken lx.
Proof.
  intros Hend Hws Hbr. destruct (nextToken_tokenAt lx) as (a & Hskip & ->).
  rewrite skipTrivia_eq in Hskip. cbv zeta in Hskip.
  rewrite skipWhitespace_blocked in Hskip by now right.
  rewrite Hend, Hbr in Hskip. injection Hskip as <-.
  unfold tokenAt. now rewrite Hend.
Qed.

Ltac each_character c :=
  destruct c as [b0 b1 b2 b3 b4 b5 b6 b7];
  destruct b0, b1, b2, b3, b4, b5, b6, b7.

Lemma digit_starts_number (lx : Lexer.t) :
  isDigit (peek lx) = true ->
  isWhitespace (peek lx) = false /\ Ascii.eqb (peek lx) "{" = false
  /\ lexToken lx = readNumber lx.
Proof.
  unfold lexToken. generalize (peek lx) as c. intros c.
  each_character c; intros H; try discriminate H; repeat split.
Qed.

Lemma letter_starts_identifier (lx : Lexer.t) :
  isAlpha (peek lx) = true ->
  isWhitespace (peek lx) = false /\ Ascii.eqb (peek lx) "{" = false
  /\ lexToken lx = readIdentifier lx.
Proof.
  unfold lexToken. generalize (peek lx) as c. intros c.
  each_character c; intros H; try discriminate H; repeat split.
Qed.

Lemma consumeCharToken_text (kind : TokenType.t) (lx : Lexer.t) (c : ascii) (t : string) :
  remaining_text lx = String c t ->
  exists lx',
    consumeCharToken kind lx
    = (createToken kind (String c EmptyString) (line lx) (column lx), lx')
    /\ remaining_text lx' = t.
Proof.
  intros H. destruct (remaining_cons lx c t H) as (_ & _ & Hadv & Hrem).
  unfold consumeCharToken. rewrite Hadv in *. cbn [snd] in Hrem.
  eexists. split; [reflexivity|exact Hrem].
Qed.

Lemma consumeTwoCharToken_text (kind : TokenType.t) (lx : Lexer.t) (c d : ascii)
    (t : string) :
  remaining_text lx = String c (String d t) ->
  exists lx',
    consumeTwoCharToken kind lx
    = (createToken kind (String c (String d EmptyString)) (line lx) (column lx), lx')
    /\ remaining_text lx' = t.
Proof.
  intros H. destruct (remaining_cons lx c _ H) as (_ & _ & Hadv & Hrem).
  unfold consumeTwoCharToken. rewrite Hadv in *. cbn [snd] in Hrem.
  destruct (remaining_cons _ d t Hrem) as (_ & _ & Hadv2 & Hrem2).
  rewrite Hadv2 in *. cbn [snd] in Hrem2.
  eexists. split; [reflexivity|exact Hrem2].
Qed.

End TokenShapes.

Ltac start_of_token H :=
  let Hend := fresh "Hend" in let Hpk := fresh "Hpk" in
  destruct (remaining_cons _ _ _ H) as (Hend & Hpk & _ & _);
  rewrite nextToken_at_start by (try exact Hend; rewrite Hpk; reflexivity);
  unfold lexToken; rewrite Hpk;
  cbn [Ascii.eqb Bool.eqb].

(** X18.  Operators and punctuation marks are read back as they are written:
    where the text ahead starts with the spelling of a kind, and does not
    go on to make a longer operator, [nextToken] returns a token of that
    kind with that spelling as its lexeme, at the line and column of its
    first character, and consumes just the spelling. *)
Theorem operator_tokens (kind : TokenType.t) (s tail : string) (lx : Lexer.t) :
  spelling kind = Some s ->
  remaining_text lx = (s ++ tail)%string ->
  extends kind tail = false ->
  exists lx',
    Lexer.nextToken lx = (createToken kind s (Lexer.line lx) (Lexer.column lx), lx')
    /\ remaining_text lx' = tail.
Proof.
  intros Hs Hrem Hext.
  destruct kind; try discriminate Hs; injection Hs as <-;
    rewrite ?append_cons, ?append_nil_l in Hrem; start_of_token Hrem;
    try (now apply consumeCharToken_text);
    unfold Lexer.handleColon, Lexer.handleGreater, Lexer.handleLess, Lexer.handleEqual;
    rewrite (remaining_peekNext _ _ _ Hrem);
    try (now apply consumeTwoCharToken_text);
    destruct tail as [|d tail]; cbn [extends] in Hext;
    try (now apply consumeCharToken_text);
    try apply orb_false_iff in Hext as [Hext1 Hext2];
    rewrite ?Hext, ?Hext1, ?Hext2; now apply consumeCharToken_text.
Qed.

Lemma operator_tokens_witness :
  exists lx',
    Lexer.nextToken (Lexer.new "<>1")
    = (createToken TokenType.NotEq "<>" 1 1, lx')
    /\ remaining_text lx' = "1"%string.
Proof.
  apply (operator_tokens TokenType.NotEq "<>" "1" (Lexer.new "<>1")); reflexivity.
Defined.

Section Literals.

Import Lexer.

Lemma fraction_none (lexeme : string) (lx : Lexer.t) :
  stops (fun c => Ascii.eqb c ".") (remaining_text lx) = true ->
  fraction lexeme lx = (lexeme, lx).
Proof.
  intros H. unfold fraction.
  destruct (stops_blocked _ lx H) as [-> | ->]; [reflexivity|].
  now rewrite andb_false_r.
Qed.

Lemma readNumber_text (lx : Lexer.t) (ds fs tail : string) :
  string_forall isDigit ds = true -> string_forall isDigit fs = true ->
  stops isDigit tail = true ->
  (remaining_text lx = (ds ++ tail)%string ->
   stops (fun c => Ascii.eqb c ".") tail = true ->
   exists lx',
     readNumber lx = (createToken TokenType.Number ds (line lx) (column lx), lx')
     /\ remaining_text lx' = tail)
  /\ (remaining_text lx = (ds ++ String "." (fs ++ tail))%string ->
      exists lx',
        readNumber lx
        = (createToken TokenType.Number (ds ++ String "." fs) (line lx) (column lx), lx')
        /\ remaining_text lx' = tail).
Proof.
  intros Hds Hfs Htail. split.
  - intros Hrem Hdot.
    destruct (scan_run isDigit false tail ds EmptyString lx (remaining lx))
      as (lx1 & Hs & _ & _ & Hr & Hl & _); [lia|exact Hrem|exact Hds|exact Htail|].
    rewrite readNumber_fraction. cbv zeta. rewrite Hs. cbn [fst snd].
    rewrite append_nil_l, fraction_none by now rewrite Hr. cbn [fst snd].
    exists lx1. rewrite Hl. split; [reflexivity|exact Hr].
  - intros Hrem.
    destruct (scan_run isDigit false (String "." (fs ++ tail)) ds EmptyString lx
                (remaining lx)) as (lx1 & Hs & _ & _ & Hr & Hl & _);
      [lia|exact Hrem|exact Hds|reflexivity|].
    rewrite readNumber_fraction. cbv zeta. rewrite Hs. cbn [fst snd].
    rewrite append_nil_l. unfold fraction.
    destruct (remaining_cons lx1 _ _ Hr) as (Hend & Hpk & Hadv & Hr2).
    rewrite Hend, Hpk, Hadv. cbn [negb andb Ascii.eqb Bool.eqb].
    rewrite Hadv in Hr2. cbn [snd] in Hr2.
    match goal with |- context [scan _ isDigit false ?x ?l] =>
      destruct (scan_run isDigit false tail fs x l (remaining l))
        as (lx2 & Hs2 & _ & _ & Hr3 & Hl2 & _); [lia|exact Hr2|exact Hfs|exact Htail|]
    end.
    rewrite Hs2. cbn [fst snd]. exists lx2. rewrite Hl2, append_char_app. cbn [line].
    rewrite Hl. split; [reflexivity|exact Hr3].
Qed.

End Literals.

(** X19.  A number is a run of digits, optionally followed by a point and a
    run of digits that may be empty: [nextToken] returns it whole as the
    lexeme of a [Number] token and stops at the first character that
    cannot continue it.  So [1.] is a number, and in [1.2.3] the number is
    [1.2]. *)
Theorem number_token (lx : Lexer.t) (d : ascii) (ds fs tail : string) :
  string_forall isDigit (String d ds) = true -> string_forall isDigit fs = true ->
  stops isDigit tail = true ->
  (remaining_text lx = (String d ds ++ tail)%string ->
   stops (fun c => Ascii.eqb c ".") tail = true ->
   exists lx',
     Lexer.nextToken lx
     = (createToken TokenType.Number (String d ds) (Lexer.line lx) (Lexer.column lx), lx')
     /\ remaining_text lx' = tail)
  /\ (remaining_text lx = (String d ds ++ String "." (fs ++ tail))%string ->
      exists lx',
        Lexer.nextToken lx
        = (createToken TokenType.Number (String d ds ++ String "." fs)
             (Lexer.line lx) (Lexer.column lx), lx')
        /\ remaining_text lx' = tail).
Proof.
  intros Hds Hfs Htail.
  assert (Hstart : forall t, remaining_text lx = (String d ds ++ t)%string ->
            Lexer.nextToken lx = Lexer.readNumber lx).
  { intros t Hrem. rewrite append_cons in Hrem.
    destruct (remaining_cons _ _ _ Hrem) as (Hend & Hpk & _ & _).
    cbn [string_forall] in Hds. apply andb_prop in Hds as [Hd _].
    rewrite <- Hpk in Hd. destruct (digit_starts_number lx Hd) as (Hws & Hbr & Hlex).
    now rewrite nextToken_at_start. }
  destruct (readNumber_text lx (String d ds) fs tail Hds Hfs Htail) as [H1 H2].
  split.
  - intros Hrem Hdot. rewrite (Hstart _ Hrem). now apply H1.
  - intros Hrem. rewrite (Hstart _ Hrem). now apply H2.
Qed.

Lemma number_token_witness :
  (exists lx',
     Lexer.nextToken (Lexer.new "12+3") = (createToken TokenType.Number "12" 1 1, lx')
     /\ remaining_text lx' = "+3"%string)
  /\ (exists lx',
        Lexer.nextToken (Lexer.new "1.2.3") = (createToken TokenType.Number "1.2" 1 1, lx')
        /\ remaining_text lx' = ".3"%string).
Proof.
  split.
  - apply (number_token (Lexer.new "12+3") "1" "2" "" "+3"); reflexivity.
  - apply (number_token (Lexer.new "1.2.3") "1" "" "2" ".3"); reflexivity.
Defined.

(** X20.  An identifier is a letter or underscore followed by letters, digits
    and underscores: [nextToken] returns the whole run, in its original
    letter case, and stops at the first character that cannot continue
    it.  The token is a keyword when the run, in upper case, is IF, THEN,
    ELSE, AND, OR or NOT, and an [Identifier] otherwise. *)
Theorem identifier_token (lx : Lexer.t) (c : ascii) (cs tail : string) :
  isAlpha c = true -> string_forall isAlphaNumeric cs = true ->
  stops isAlphaNumeric tail = true ->
  remaining_text lx = (String c cs ++ tail)%string ->
  exists lx',
    Lexer.nextToken lx
    = (createToken (lookupKeyword (String c cs)) (String c cs)
         (Lexer.line lx) (Lexer.column lx), lx')
    /\ remaining_text lx' = tail
    /\ (lookupKeyword (String c cs) = TokenType.Identifier <->
        ~ In (toUpperCase (String c cs)) ["IF"; "THEN"; "ELSE"; "AND"; "OR"; "NOT"]%string).
Proof.
  intros Hc Hcs Htail Hrem.
  assert (Hrem' := Hrem). rewrite append_cons in Hrem'.
  destruct (remaining_cons _ _ _ Hrem') as (Hend & Hpk & _ & _).
  rewrite <- Hpk in Hc. destruct (letter_starts_identifier lx Hc) as (Hws & Hbr & Hlex).
  rewrite nextToken_at_start, Hlex by assumption.
  destruct (scan_run isAlphaNumeric false tail (String c cs) EmptyString lx
              (Lexer.remaining lx)) as (lx1 & Hs & _ & _ & Hr & Hl & _);
    [lia|exact Hrem| |exact Htail|].
  { cbn [string_forall]. rewrite Hcs, andb_true_r. unfold isAlphaNumeric.
    rewrite Hpk in Hc. now rewrite Hc. }
  unfold Lexer.readIdentifier. rewrite Hs, append_nil_l. exists lx1. rewrite Hl.
  split; [reflexivity|]. split; [exact Hr|].
  unfold lookupKeyword. cbv zeta.
  repeat match goal with
         | |- context [String.eqb ?a ?b] => destruct (String.eqb_spec a b) as [->|?]
         end;
    (split; [try discriminate; intros _ Hin; cbn [In] in Hin; intuition congruence
            |intros Hn; try reflexivity; exfalso; apply Hn; cbn [In]; tauto]).
Qed.

Lemma identifier_token_witness :
  exists lx',
    Lexer.nextToken (Lexer.new "Ma5(C)")
    = (createToken TokenType.Identifier "Ma5" 1 1, lx')
    /\ remaining_text lx' = "(C)"%string.
Proof.
  destruct (identifier_token (Lexer.new "Ma5(C)") "M" "a5" "(C)")
    as (lx' & H & Hr & _); try reflexivity.
  exists lx'. split; [exact H|exact Hr].
Defined.

Section Strings.

Import Lexer.

Lemma readString_text (lx : Lexer.t) (body tail : string) :
  string_forall (fun c => negb (Ascii.eqb c DQUOTE)) body = true ->
  (remaining_text lx = String DQUOTE (body ++ String DQUOTE tail) ->
   exists lx',
     readString lx
     = (createToken TokenType.String body (line lx + line_feeds body) (column lx), lx')
     /\ remaining_text lx' = tail)
  /\ (remaining_text lx = String DQUOTE body ->
      exists lx',
        readString lx
        = (createToken TokenType.Illegal body (line lx + line_feeds body) (column lx), lx')
        /\ remaining_text lx' = EmptyString).
Proof.
  intros Hbody. split; intros Hrem;
    destruct (remaining_cons lx _ _ Hrem) as (_ & _ & Hadv & Hr0);
    unfold readString; rewrite Hadv in *; cbn [snd] in Hr0.
  - match goal with |- context [scan _ ?c true EmptyString ?l] =>
      destruct (scan_run c true (String DQUOTE tail) body EmptyString l (remaining l))
        as (lx1 & Hs & _ & _ & Hr1 & Hl1 & _); [lia|exact Hr0|exact Hbody|reflexivity|]
    end.
    rewrite Hs, append_nil_l.
    destruct (remaining_cons lx1 _ _ Hr1) as (Hend & _ & Hadv1 & Hr2).
    rewrite Hend, Hadv1 in *. cbn [snd line] in *. rewrite Hl1. cbn [line].
    eexists. split; [reflexivity|exact Hr2].
  - match goal with |- context [scan _ ?c true EmptyString ?l] =>
      destruct (scan_run c true EmptyString body EmptyString l (remaining l))
        as (lx1 & Hs & _ & _ & Hr1 & Hl1 & _);
        [lia|now rewrite append_nil_r|exact Hbody|reflexivity|]
    end.
    rewrite Hs, append_nil_l, (remaining_empty lx1 Hr1), Hl1. cbn [line].
    eexists. split; [reflexivity|exact Hr1].
Qed.

End Strings.

(** X21.  A string runs from a double quote to the next one: the token is of
    kind [String], its lexeme is the text between the quotes, and it
    reports the column of the opening quote with the line of the closing
    one.  Without a closing quote the whole rest of the text is consumed
    into a token of kind [Illegal]. *)
Theorem string_token (lx : Lexer.t) (body tail : string) :
  string_forall (fun c => negb (Ascii.eqb c DQUOTE)) body = true ->
  (remaining_text lx = String DQUOTE (body ++ String DQUOTE tail) ->
   exists lx',
     Lexer.nextToken lx
     = (createToken TokenType.String body (Lexer.line lx + line_feeds body)
          (Lexer.column lx), lx')
     /\ remaining_text lx' = tail)
  /\ (remaining_text lx = String DQUOTE body ->
      exists lx',
        Lexer.nextToken lx
        = (createToken TokenType.Illegal body (Lexer.line lx + line_feeds body)
             (Lexer.column lx), lx')
        /\ remaining_text lx' = EmptyString).
Proof.
  intros Hbody. destruct (readString_text lx body tail Hbody) as [H1 H2].
  split; intros Hrem; start_of_token Hrem; [now apply H1|now apply H2].
Qed.

Lemma string_token_witness :
  exists lx',
    Lexer.nextToken (Lexer.new (String DQUOTE ("ab" ++ String DQUOTE "+1")))
    = (createToken TokenType.String "ab" 1 1, lx')
    /\ remaining_text lx' = "+1"%string.
Proof.
  apply (string_token (Lexer.new (String DQUOTE ("ab" ++ String DQUOTE "+1"))) "ab" "+1");
    reflexivity.
Defined.

(** ** White space and comments *)

Section Trivia.

Import Lexer.

Lemma nextToken_skipWhitespace (lx : Lexer.t) :
  nextToken (skipWhitespace lx) = nextToken lx.
Proof.
  destruct (skipWhitespace_monotone lx) as [Hi Hp].
  assert (Hf : (remaining (skipWhitespace lx) <= remaining lx)%nat)
    by (unfold remaining; rewrite Hi; lia).
  pose proof (nextToken_aux_fuel (remaining lx) (skipWhitespace lx) Hf) as H.
  rewrite nextToken_aux_skipWhitespace in H.
  unfold nextToken at 2. now rewrite H.
Qed.

Lemma nextToken_skipComment (lx : Lexer.t) :
  isAtEnd lx = false -> peek lx = "{"%char ->
  nextToken lx = nextToken (skipComment lx).
Proof.
  intros Hend Hpk.
  assert (Hrem : exists f, remaining lx = S f)
    by (apply isAtEnd_false_remaining in Hend; destruct (remaining lx); [lia|eauto]).
  destruct Hrem as [f Hrem]. unfold nextToken at 1. rewrite Hrem. cbn [nextToken_aux].
  rewrite skipWhitespace_blocked by (right; now rewrite Hpk).
  rewrite Hend, Hpk. cbn [Ascii.eqb Bool.eqb].
  rewrite nextToken_aux_fuel; [reflexivity|].
  pose proof (skipComment_progress lx Hend Hpk).
  destruct (skipComment_monotone lx) as [Hi _]. unfold remaining in *. rewrite Hi. lia.
Qed.

Lemma nth_call_same (lx1 lx2 : Lexer.t) :
  nextToken lx1 = nextToken lx2 -> forall n, nth_call n lx1 = nth_call n lx2.
Proof. intros H [|n]; cbn [nth_call]; now rewrite H. Qed.

Lemma tokens_alike_remaining (lx1 lx2 : Lexer.t) :
  remaining_text lx1 = remaining_text lx2 -> tokens_alike lx1 lx2.
Proof.
  intros H n. apply same_tokens_after. intros w. now apply remaining_agree.
Qed.

(** Every text splits into its leading white space and the rest. *)
Lemma leading_whitespace (s : string) :
  exists ws rest, s = (ws ++ rest)%string
    /\ string_forall isWhitespace ws = true /\ stops isWhitespace rest = true.
Proof.
  induction s as [|c s (ws & rest & E & Hws & Hrest)].
  - now exists EmptyString, EmptyString.
  - destruct (isWhitespace c) eqn:Hc.
    + exists (String c ws), rest. rewrite append_cons, <- E. cbn [string_forall].
      now rewrite Hc.
    + exists EmptyString, (String c s). cbn [stops]. now rewrite Hc.
Qed.

Lemma skipWhitespace_text (lx : Lexer.t) (ws rest : string) :
  remaining_text lx = (ws ++ rest)%string ->
  string_forall isWhitespace ws = true -> stops isWhitespace rest = true ->
  remaining_text (skipWhitespace lx) = rest.
Proof.
  intros Hrem Hws Hrest. unfold skipWhitespace.
  destruct (scan_run isWhitespace false rest ws EmptyString lx (remaining lx))
    as (lx1 & Hs & _ & _ & Hr & _); [lia|exact Hrem|exact Hws|exact Hrest|].
  now rewrite Hs.
Qed.

Lemma skipComment_text (lx : Lexer.t) (body : string) :
  string_forall (fun c => negb (Ascii.eqb c "}")) body = true ->
  (forall rest, remaining_text lx = String "{" (body ++ String "}" rest) ->
     remaining_text (skipComment lx) = rest)
  /\ (remaining_text lx = String "{" body ->
      remaining_text (skipComment lx) = EmptyString).
Proof.
  intros Hbody. split; [intros rest Hrem|intros Hrem]; unfold skipComment.
  - destruct (scan_run (fun c => negb (Ascii.eqb c "}")) true (String "}" rest)
                (String "{" body) EmptyString lx (remaining lx))
      as (lx1 & Hs & _ & _ & Hr & _); [lia|exact Hrem|exact Hbody|reflexivity|].
    rewrite Hs. cbn [snd].
    destruct (remaining_cons lx1 _ _ Hr) as (Hend & _ & _ & Hr2).
    now rewrite Hend.
  - destruct (scan_run (fun c => negb (Ascii.eqb c "}")) true EmptyString
                (String "{" body) EmptyString lx (remaining lx))
      as (lx1 & Hs & _ & _ & Hr & _);
      [lia|now rewrite append_nil_r|exact Hbody|reflexivity|].
    rewrite Hs. cbn [snd]. now rewrite (remaining_empty lx1 Hr).
Qed.

End Trivia.

(** X22.  The tokens depend on the text ahead only: two lexers with the same
    remaining text return tokens of the same kinds and lexemes from then
    on, whatever they consumed before and whatever their lines and
    columns. *)
Theorem tokens_of_remaining_text (lx1 lx2 : Lexer.t) :
  remaining_text lx1 = remaining_text lx2 -> tokens_alike lx1 lx2.
Proof. apply tokens_alike_remaining. Qed.

Lemma tokens_of_remaining_text_witness :
  tokens_alike (snd (Lexer.nextToken (Lexer.new "A+B"))) (Lexer.new "+B").
Proof. apply tokens_of_remaining_text. reflexivity. Defined.

Lemma skipped_trivia (lx : Lexer.t) (rest : string) :
  (forall ws, string_forall isWhitespace ws = true ->
     remaining_text lx = (ws ++ rest)%string -> tokens_alike lx (Lexer.new rest))
  /\ (forall body, string_forall (fun c => negb (Ascii.eqb c "}")) body = true ->
        remaining_text lx = String "{" (body ++ String "}" rest) ->
        tokens_alike lx (Lexer.new rest))
  /\ (forall body, string_forall (fun c => negb (Ascii.eqb c "}")) body = true ->
        remaining_text lx = String "{" body ->
        tokenType (fst (Lexer.nextToken lx)) = TokenType.Eof).
Proof.
  split; [|split].
  - intros ws Hws Hrem n.
    destruct (leading_whitespace rest) as (ws' & rest' & E & Hws' & Hrest').
    assert (H1 : remaining_text (Lexer.skipWhitespace lx) = rest').
    { apply (skipWhitespace_text lx (ws ++ ws')%string rest'); [| |exact Hrest'].
      - rewrite Hrem, E. clear. induction ws as [|c ws IH]; [reflexivity|].
        rewrite !append_cons. now f_equal.
      - clear -Hws Hws'. induction ws as [|c ws IH]; [exact Hws'|].
        rewrite append_cons. cbn [string_forall] in *.
        apply andb_prop in Hws as [-> Hws]. now apply IH. }
    assert (H2 : remaining_text (Lexer.skipWhitespace (Lexer.new rest)) = rest')
      by (apply (skipWhitespace_text _ ws' rest'); assumption).
    rewrite <- (nth_call_same _ _ (nextToken_skipWhitespace lx) n).
    rewrite <- (nth_call_same _ _ (nextToken_skipWhitespace (Lexer.new rest)) n).
    apply tokens_alike_remaining. congruence.
  - intros body Hbody Hrem n.
    destruct (remaining_cons lx _ _ Hrem) as (Hend & Hpk & _ & _).
    rewrite (nth_call_same _ _ (nextToken_skipComment lx Hend Hpk) n).
    apply tokens_alike_remaining.
    now apply (proj1 (skipComment_text lx body Hbody)).
  - intros body Hbody Hrem.
    destruct (remaining_cons lx _ _ Hrem) as (Hend & Hpk & _ & _).
    rewrite (nextToken_skipComment lx Hend Hpk).
    pose proof (proj2 (skipComment_text lx body Hbody) Hrem) as Hr.
    apply remaining_empty in Hr.
    destruct (nextToken_tokenAt (Lexer.skipComment lx)) as (a & Hskip & ->).
    rewrite skipTrivia_eq in Hskip. cbv zeta in Hskip.
    rewrite skipWhitespace_blocked in Hskip by now left.
    rewrite Hr in Hskip. injection Hskip as <-. unfold tokenAt. now rewrite Hr.
Qed.

(** X23.  White space before a token and a comment before it change nothing:
    the text after them gives the same tokens.  A comment ends at the
    first closing brace; one that is never closed swallows the rest of the
    text, and the next token is the end of input. *)
Theorem trivia_are_skipped (lx : Lexer.t) (rest : string) :
  (forall ws, string_forall isWhitespace ws = true ->
     remaining_text lx = (ws ++ rest)%string -> tokens_alike lx (Lexer.new rest))
  /\ (forall body, string_forall (fun c => negb (Ascii.eqb c "}")) body = true ->
        remaining_text lx = String "{" (body ++ String "}" rest) ->
        tokens_alike lx (Lexer.new rest))
  /\ (forall body, string_forall (fun c => negb (Ascii.eqb c "}")) body = true ->
        remaining_text lx = String "{" body ->
        tokenType (fst (Lexer.nextToken lx)) = TokenType.Eof).
Proof. apply skipped_trivia. Qed.

Lemma trivia_are_skipped_witness :
  tokens_alike (Lexer.new "{ note } A+B") (Lexer.new " A+B")
  /\ tokenType (fst (Lexer.nextToken (Lexer.new "{ never closed"))) = TokenType.Eof.
Proof.
  destruct (trivia_are_skipped (Lexer.new "{ note } A+B") " A+B") as (_ & H & _).
  destruct (trivia_are_skipped (Lexer.new "{ never closed") "") as (_ & _ & H').
  split.
  - apply (H " note "); reflexivity.
  - apply (H' " never closed"); reflexivity.
Defined.

(** ** Progress of the lexer *)

Section Progress.

Import Lexer.

Lemma scan_advances (continue : ascii -> bool) (countLines : bool) (lexeme : string)
    (lx : Lexer.t) :
  isAtEnd lx = false -> continue (peek lx) = true ->
  (position lx < position (snd (scan (remaining lx) continue countLines lexeme lx)))%nat.
Proof.
  intros Hend Hc. pose proof (proj1 (isAtEnd_false_remaining lx) Hend) as Hpos.
  destruct (remaining lx) as [|f] eqn:Hr; [lia|].
  rewrite scan_S, Hend, Hc. cbn [negb andb].
  destruct (bump_step countLines lx Hend) as [Hi Hp].
  destruct (scan_stops continue countLines f (append_char lexeme (peek lx))
              (bump countLines lx)) as (_ & _ & Hm).
  { unfold remaining in *. rewrite Hi, Hp. lia. }
  lia.
Qed.

Ltac cursor_moves :=
  repeat match goal with
         | |- context [if ?b then _ else _] => destruct b
         | |- context [advance ?l] =>
             let Hi := fresh "Hi" in let Hp := fresh "Hp" in
             pose proof (advance_monotone l) as [Hi Hp]; destruct (advance l)
         | |- context [scan (remaining ?l) ?c ?b ?x ?l] =>
             let Hi := fresh "Hi" in let Hp := fresh "Hp" in
             pose proof (scan_monotone c b x l) as [Hi Hp]; cbv zeta in Hi, Hp;
             destruct (scan (remaining l) c b x l)
         end;
  cbn [fst snd input position newline] in *; lia.

Lemma isAlpha_isAlphaNumeric (c : ascii) : isAlpha c = true -> isAlphaNumeric c = true.
Proof. unfold isAlphaNumeric. now intros ->. Qed.

(** Every case of [nextToken] but the last consumes a character. *)
Lemma lexToken_progress (lx : Lexer.t) :
  isAtEnd lx = false ->
  (position lx < position (snd (lexToken lx)))%nat
  \/ lexToken lx = (createToken TokenType.Illegal (String (peek lx) EmptyString)
                      (line lx) (column lx), lx).
Proof.
  intros Hend. unfold lexToken.
  repeat match goal with
         | |- context [if ?b then _ else _] => destruct b eqn:?
         end;
    try (left; unfold handleColon, handleGreater, handleLess, handleEqual, handleNewline,
           readString, consumeCharToken, consumeTwoCharToken;
         rewrite advance_eq by exact Hend; cursor_moves).
  - match goal with Hd : isDigit (peek lx) = true |- _ =>
      pose proof (scan_advances isDigit false EmptyString lx Hend Hd) as Hs end.
    left. unfold readNumber.
    destruct (scan (remaining lx) isDigit false EmptyString lx) as [x l1].
    change (if negb (isAtEnd l1) && Ascii.eqb (peek l1) "."
            then let (dot, lx1') := advance l1 in
                 scan (remaining lx1') isDigit false (append_char x dot) lx1'
            else (x, l1)) with (fraction x l1).
    destruct (fraction_monotone x l1) as [_ Hm].
    destruct (fraction x l1) as [y l2]. cbn [fst snd] in *. lia.
  - match goal with Ha : isAlpha (peek lx) = true |- _ =>
      pose proof (scan_advances isAlphaNumeric false EmptyString lx Hend
                    (isAlpha_isAlphaNumeric _ Ha)) as Hs end.
    left. unfold readIdentifier.
    destruct (scan (remaining lx) isAlphaNumeric false EmptyString lx) as [x l1].
    exact Hs.
  - now right.
Qed.

Lemma lookupKeyword_closing (ident : string) : closing (lookupKeyword ident) = false.
Proof.
  unfold lookupKeyword.
  repeat match goal with |- context [if ?b then _ else _] => destruct b end; reflexivity.
Qed.

(** The end-of-input token is returned at the end of the text only. *)
Lemma lexToken_not_Eof (lx : Lexer.t) : tokenType (fst (lexToken lx)) <> TokenType.Eof.
Proof.
  unfold lexToken, handleColon, handleGreater, handleLess, handleEqual, handleNewline,
    readNumber, readIdentifier, readString, consumeCharToken, consumeTwoCharToken.
  repeat match goal with
         | |- context [if ?b then _ else _] => destruct b
         | |- context [advance ?l] => destruct (advance l)
         | |- context [scan ?f ?c ?b ?x ?l] => destruct (scan f c b x l)
         end; cbn [fst tokenType]; try discriminate.
  intros H. pose proof (lookupKeyword_closing s) as Hk. now rewrite H in Hk.
Qed.

Lemma tokenAt_Eof (a : Lexer.t) :
  tokenType (fst (tokenAt a)) = TokenType.Eof ->
  isAtEnd a = true
  /\ tokenAt a = (createToken TokenType.Eof EmptyString (line a) (column a), a).
Proof.
  unfold tokenAt. destruct (isAtEnd a); [now split|].
  intros H. now apply lexToken_not_Eof in H.
Qed.

Lemma nextToken_at_end (a : Lexer.t) :
  isAtEnd a = true ->
  nextToken a = (createToken TokenType.Eof EmptyString (line a) (column a), a).
Proof.
  intros Hend. destruct (nextToken_tokenAt a) as (b & Hskip & ->).
  rewrite skipTrivia_eq in Hskip. cbv zeta in Hskip.
  rewrite skipWhitespace_blocked in Hskip by now left.
  rewrite Hend in Hskip. injection Hskip as <-. unfold tokenAt. now rewrite Hend.
Qed.

Lemma nextToken_consumes (lx : Lexer.t) :
  closing (tokenType (fst (nextToken lx))) = false ->
  (position lx < position (snd (nextToken lx)))%nat.
Proof.
  destruct (nextToken_tokenAt lx) as (a & Hskip & ->).
  destruct (skipTrivia_monotone _ _ _ Hskip) as [_ P].
  unfold tokenAt. destruct (isAtEnd a) eqn:Hend; [discriminate|].
  intros Hk. destruct (lexToken_progress a Hend) as [H|H]; [lia|].
  rewrite H in Hk. discriminate.
Qed.

Lemma closing_within :
  forall fuel lx, (remaining lx <= fuel)%nat ->
    exists n, (n <= fuel)%nat /\ closing (tokenType (fst (nth_call n lx))) = true.
Proof.
  induction fuel as [|fuel IH]; intros lx Hf.
  - exists 0%nat. split; [lia|]. cbn [nth_call].
    rewrite nextToken_at_end by (apply isAtEnd_true_remaining; lia). reflexivity.
  - destruct (closing (tokenType (fst (nextToken lx)))) eqn:Hk.
    + exists 0%nat. split; [lia|exact Hk].
    + pose proof (nextToken_consumes lx Hk) as Hm.
      destruct (nextToken_monotone lx) as [Hi _].
      destruct (IH (snd (nextToken lx))) as (n & Hn & Hc).
      { unfold remaining in *. rewrite Hi. lia. }
      exists (S n). split; [lia|exact Hc].
Qed.

End Progress.

(** X24.  A call of [nextToken] never changes the text and never moves
    backwards, and a call that returns a token other than the end of input
    and [Illegal] has consumed at least one character.  So calling
    [nextToken] again and again reaches the end-of-input token or an
    [Illegal] token after at most as many tokens as the text has
    characters left. *)
Theorem nextToken_progress (lx : Lexer.t) :
  Lexer.input (snd (Lexer.nextToken lx)) = Lexer.input lx
  /\ (Lexer.position lx <= Lexer.position (snd (Lexer.nextToken lx)))%nat
  /\ (closing (tokenType (fst (Lexer.nextToken lx))) = false ->
      (Lexer.position lx < Lexer.position (snd (Lexer.nextToken lx)))%nat)
  /\ exists n, (n <= Lexer.remaining lx)%nat
               /\ closing (tokenType (fst (nth_call n lx))) = true.
Proof.
  destruct (nextToken_monotone lx) as [Hi Hp].
  split; [exact Hi|]. split; [exact Hp|]. split; [apply nextToken_consumes|].
  apply closing_within. lia.
Qed.

(** X25.  The end of input is final: once a call has returned the end-of-input
    token, every later call returns the same token, at the same line and
    column. *)
Theorem end_of_input_is_final (lx : Lexer.t) (n : nat) :
  tokenType (fst (Lexer.nextToken lx)) = TokenType.Eof ->
  fst (nth_call n lx) = fst (Lexer.nextToken lx)
  /\ snd (nth_call n lx) = snd (Lexer.nextToken lx).
Proof.
  intros H. destruct (nextToken_tokenAt lx) as (a & Hskip & E).
  rewrite E in *. destruct (tokenAt_Eof a H) as [Hend Ha]. rewrite Ha. cbn [fst snd].
  assert (Hn : forall m, nth_call m a
                 = (createToken TokenType.Eof EmptyString (Lexer.line a) (Lexer.column a), a)).
  { induction m as [|m IH]; cbn [nth_call]; rewrite (nextToken_at_end a Hend);
      [reflexivity|exact IH]. }
  destruct n as [|n]; cbn [nth_call]; rewrite E, Ha; [now split|].
  cbn [snd]. now rewrite Hn.
Qed.

Lemma end_of_input_is_final_witness :
  fst (nth_call 5 (Lexer.new "  { done } "))
  = createToken TokenType.Eof EmptyString 1 12.
Proof.
  now destruct (end_of_input_is_final (Lexer.new "  { done } ") 5 eq_refl) as [-> _].
Defined.

(** ** Operators in the parser *)

Section Grouping.

Lemma operator_of_kind (o : Token) (operator : BinaryOperator.t) :
  Parser.getBinaryOperator (tokenType o) = Ok operator ->
  exists x l c,
    o = createToken (match operator with
                     | BinaryOperator.Add => TokenType.Plus
                     | BinaryOperator.Sub => TokenType.Minus
                     | BinaryOperator.Mul => TokenType.Star
                     | BinaryOperator.Div => TokenType.Slash
                     | BinaryOperator.Gt => TokenType.Gt
                     | BinaryOperator.Lt => TokenType.Lt
                     | BinaryOperator.GtEq => TokenType.GtEq
                     | BinaryOperator.LtEq => TokenType.LtEq
                     | BinaryOperator.EqEq => TokenType.EqEq
                     | BinaryOperator.NotEq => TokenType.NotEq
                     | BinaryOperator.And => TokenType.And
                     | BinaryOperator.Or => TokenType.Or
                     end) x l c.
Proof.
  destruct o as [k x l c]. cbn [tokenType]. intros H. exists x, l, c.
  destruct k; cbn in H; try discriminate; now injection H as <-.
Qed.

Lemma identifier_token_shape (a : Token) :
  tokenType a = TokenType.Identifier ->
  a = createToken TokenType.Identifier (lexeme a) (line a) (column a).
Proof. destruct a as [k x l c]. cbn. now intros ->. Qed.

End Grouping.

(** X26.  Of two binary operators between three names the tighter one is
    applied first, and operators of one level are applied from left to
    right: [A + B * C] is [A + (B * C)], [A - B - C] is [(A - B) - C] and
    [A > B > C] is [(A > B) > C].  The levels are, from loose to tight:
    [OR], [AND], the six comparisons, [+ -], [* /]. *)
Theorem binary_operators_group (a o1 b o2 c : Token) (op1 op2 : BinaryOperator.t)
    (fuel : nat) :
  tokenType a = TokenType.Identifier ->
  tokenType b = TokenType.Identifier ->
  tokenType c = TokenType.Identifier ->
  Parser.getBinaryOperator (tokenType o1) = Ok op1 ->
  Parser.getBinaryOperator (tokenType o2) = Ok op2 ->
  exists p,
    Parser.parseExpression pull_list (6 + fuel) 0 (Parser.new pull_list [a; o1; b; o2; c])
    = Ok (if (level op1 <? level op2)%nat
          then BinaryOp (Var (lexeme a)) op1 (BinaryOp (Var (lexeme b)) op2 (Var (lexeme c)))
          else BinaryOp (BinaryOp (Var (lexeme a)) op1 (Var (lexeme b))) op2 (Var (lexeme c)),
          p)
    /\ kind_of (Parser.currentToken p) = TokenType.Eof.
Proof.
  intros Ha Hb Hc H1 H2.
  rewrite (identifier_token_shape a Ha), (identifier_token_shape b Hb),
    (identifier_token_shape c Hc). cbn [lexeme].
  destruct (operator_of_kind o1 op1 H1) as (x1 & l1 & c1 & ->).
  destruct (operator_of_kind o2 op2 H2) as (x2 & l2 & c2 & ->).
  destruct op1, op2; (eexists; split; [reflexivity|reflexivity]).
Qed.

Lemma binary_operators_group_witness :
  exists p,
    Parser.parseExpression pull_list 6 0
      (Parser.new pull_list
         [tok TokenType.Identifier "A"; tok TokenType.Gt ">"; tok TokenType.Identifier "B";
          tok TokenType.Gt ">"; tok TokenType.Identifier "C"])
    = Ok (BinaryOp (BinaryOp (Var "A") BinaryOperator.Gt (Var "B")) BinaryOperator.Gt (Var "C"),
          p)
    /\ kind_of (Parser.currentToken p) = TokenType.Eof.
Proof.
  exact (binary_operators_group
           (tok TokenType.Identifier "A") (tok TokenType.Gt ">")
           (tok TokenType.Identifier "B") (tok TokenType.Gt ">")
           (tok TokenType.Identifier "C") BinaryOperator.Gt BinaryOperator.Gt 0
           eq_refl eq_refl eq_refl eq_refl eq_refl).
Defined.

(** X27.  The prefix operators [-] and [NOT] bind tighter than every binary
    operator: before a name they take the name alone, so [NOT A > B] is
    [(NOT A) > B] and [-A * B] is [(-A) * B]; after a binary operator
    they apply to the name that follows. *)
Theorem prefix_operators_bind_tightest (u a o b : Token) (operator : BinaryOperator.t)
    (fuel : nat) :
  tokenType u = TokenType.Minus \/ tokenType u = TokenType.Not ->
  tokenType a = TokenType.Identifier ->
  tokenType b = TokenType.Identifier ->
  Parser.getBinaryOperator (tokenType o) = Ok operator ->
  let unary := if TokenType.eqb (tokenType u) TokenType.Minus
               then UnaryOperator.Neg else UnaryOperator.Not in
  (exists p,
     Parser.parseExpression pull_list (8 + fuel) 0 (Parser.new pull_list [u; a; o; b])
     = Ok (BinaryOp (UnaryOp unary (Var (lexeme a))) operator (Var (lexeme b)), p)
     /\ kind_of (Parser.currentToken p) = TokenType.Eof)
  /\ (exists p,
        Parser.parseExpression pull_list (8 + fuel) 0 (Parser.new pull_list [a; o; u; b])
        = Ok (BinaryOp (Var (lexeme a)) operator (UnaryOp unary (Var (lexeme b))), p)
        /\ kind_of (Parser.currentToken p) = TokenType.Eof).
Proof.
  intros Hu Ha Hb Ho.
  rewrite (identifier_token_shape a Ha), (identifier_token_shape b Hb). cbn [lexeme].
  destruct (operator_of_kind o operator Ho) as (x & l & c & ->).
  destruct u as [k xu lu cu]. cbn [tokenType] in *.
  destruct Hu as [-> | ->];
    destruct operator; (split; eexists; split; reflexivity).
Qed.

Lemma prefix_operators_bind_tightest_witness :
  exists p,
    Parser.parseExpression pull_list 8 0
      (Parser.new pull_list
         [tok TokenType.Not "NOT"; tok TokenType.Identifier "A"; tok TokenType.Gt ">";
          tok TokenType.Identifier "B"])
    = Ok (BinaryOp (UnaryOp UnaryOperator.Not (Var "A")) BinaryOperator.Gt (Var "B"), p)
    /\ kind_of (Parser.currentToken p) = TokenType.Eof.
Proof.
  exact (proj1 (prefix_operators_bind_tightest
                  (tok TokenType.Not "NOT") (tok TokenType.Identifier "A")
                  (tok TokenType.Gt ">") (tok TokenType.Identifier "B")
                  BinaryOperator.Gt 0 (or_intror eq_refl) eq_refl eq_refl eq_refl)).
Defined.

(** ** The error of getBinaryOperator *)

Section KnownOperators.

Context {Src : Type} (pull : Src -> Token * Src).

Lemma known_bind {A B : Type} (m : res ParseError A) (f : A -> res ParseError B) :
  known_operator m -> (forall x, known_operator (f x)) -> known_operator (bind m f).
Proof. destruct m as [x|e|]; cbn; auto. Qed.

Lemma known_expectToken (kind : TokenType.t) (p : Parser.t Src) :
  known_operator (Parser.expectToken pull kind p).
Proof.
  unfold Parser.expectToken. destruct (Parser.currentToken p); [|exact I].
  now destruct (negb _).
Qed.

Lemma expression_known (fuel : nat) :
  (forall m p, known_operator (Parser.parseExpression pull fuel m p))
  /\ (forall m l p, known_operator (Parser.parseExpression_loop pull fuel m l p))
  /\ (forall p, known_operator (Parser.parsePrefix pull fuel p))
  /\ (forall kind p, known_operator (Parser.parseFunctionCall pull fuel kind p))
  /\ (forall args p, known_operator (Parser.parseArguments_loop pull fuel args p))
  /\ (forall p, known_operator (Parser.parseIfFunction pull fuel p))
  /\ (forall p, known_operator (Parser.parseGroupedExpression pull fuel p))
  /\ (forall p, known_operator (Parser.parseUnaryExpression pull fuel p)).
Proof.
  induction fuel as [|fuel IH].
  { repeat split; intros; exact I. }
  destruct IH as (IHe & IHl & IHp & IHf & IHa & IHi & IHg & IHu).
  split; [|split; [|split; [|split; [|split; [|split; [|split]]]]]].
  - intros m p. cbn [Parser.parseExpression].
    apply known_bind; [apply IHp|]. intros [lhs p']. apply IHl.
  - intros m l p. cbn [Parser.parseExpression_loop].
    destruct (Parser.currentToken p) as [token|]; [|exact I].
    pose proof (infix_operator token) as Hop.
    destruct (Parser.getInfixBindingPower token) as [lbp rbp].
    destruct ((lbp =? 0)%nat || (lbp <? m)%nat) eqn:Hbrk; [exact I|].
    apply orb_false_iff in Hbrk. destruct Hbrk as [Hz _]. apply Nat.eqb_neq in Hz.
    destruct (Hop Hz) as (_ & operator & ->).
    apply known_bind; [apply IHe|]. intros [rhs p']. cbn [bind]. apply IHl.
  - intros p. cbn [Parser.parsePrefix].
    destruct (Parser.currentToken p) as [token|]; [|exact I].
    destruct (tokenType token); try exact I;
      try (destruct (Parser.peekToken pull p) as [nt p1];
           destruct (Parser.token_is TokenType.LParen nt); [apply IHf|exact I]).
    + apply IHg.
    + apply IHu.
    + apply IHu.
  - intros kind p. cbn [Parser.parseFunctionCall].
    apply known_bind; [apply known_expectToken|]. intros [nameToken p1].
    apply known_bind; [apply known_expectToken|]. intros [lp p2].
    destruct (String.eqb _ _); [apply IHi|].
    apply known_bind.
    + destruct (negb _); [|exact I].
      apply known_bind; [apply IHe|]. intros [first p3]. apply IHa.
    + intros [args p3]. apply known_bind; [apply known_expectToken|].
      now intros [rp p4].
  - intros args p. cbn [Parser.parseArguments_loop].
    destruct (Parser.current_is TokenType.Comma p); [|exact I].
    apply known_bind; [apply IHe|]. intros [next p1]. apply IHa.
  - intros p. cbn [Parser.parseIfFunction].
    apply known_bind; [apply IHe|]. intros [condition p1].
    destruct (negb _); [exact I|].
    apply known_bind; [apply IHe|]. intros [trueValue p2].
    destruct (negb _); [exact I|].
    apply known_bind; [apply IHe|]. intros [falseValue p3].
    apply known_bind; [apply known_expectToken|]. now intros [rp p4].
  - intros p. cbn [Parser.parseGroupedExpression].
    apply known_bind; [apply known_expectToken|]. intros [lp p1].
    apply known_bind; [apply IHe|]. intros [expr p2].
    apply known_bind; [apply known_expectToken|]. now intros [rp p3].
  - intros p. cbn [Parser.parseUnaryExpression].
    destruct (Parser.currentToken p) as [token|]; [|exact I].
    apply known_bind; [apply IHe|]. now intros [operand p1].
Qed.

Lemma plotStyles_known :
  forall fuel styles p, known_operator (Parser.parsePlotStyles_loop pull fuel styles p).
Proof.
  induction fuel as [|fuel IH]; intros styles p; [exact I|].
  cbn [Parser.parsePlotStyles_loop].
  destruct (Parser.current_is TokenType.Comma p); [|exact I].
  apply known_bind; [apply known_expectToken|]. intros [styleToken p1]. apply IH.
Qed.

Lemma statement_known (fuel : nat) (p : Parser.t Src) :
  known_operator (Parser.parseStatement pull fuel p).
Proof.
  pose proof (proj1 (expression_known fuel)) as He.
  assert (Hanon : forall q, known_operator (Parser.parseAnonymousOutputStatement pull fuel q)).
  { intros q. unfold Parser.parseAnonymousOutputStatement.
    apply known_bind; [apply He|]. intros [expr p1].
    apply known_bind; [apply plotStyles_known|]. now intros [styles p2]. }
  unfold Parser.parseStatement.
  destruct (Parser.currentToken p) as [token|]; [|exact I].
  destruct (TokenType.eqb _ _); [|apply Hanon].
  destruct (Parser.peekToken pull p) as [nt p1].
  destruct (Parser.token_is TokenType.ColonAssign nt).
  { unfold Parser.parseAssignmentStatement.
    apply known_bind; [apply known_expectToken|]. intros [v p2].
    apply known_bind; [apply known_expectToken|]. intros [c p3].
    apply known_bind; [apply He|]. now intros [expr p4]. }
  destruct (Parser.token_is TokenType.Colon nt); [|apply Hanon].
  unfold Parser.parseNamedOutputStatement.
  apply known_bind; [apply known_expectToken|]. intros [v p2].
  apply known_bind; [apply known_expectToken|]. intros [c p3].
  apply known_bind; [apply He|]. intros [expr p4].
  apply known_bind; [apply plotStyles_known|]. now intros [styles p5].
Qed.

Lemma skipNewlines_known :
  forall fuel p, known_operator (Parser.skipNewlines pull fuel p).
Proof.
  induction fuel as [|fuel IH]; intros p; [exact I|]. cbn [Parser.skipNewlines].
  destruct (Parser.current_is TokenType.Newline p); [apply IH|exact I].
Qed.

Lemma formula_known :
  forall fuel statements p, known_operator (Parser.parseFormula_loop pull fuel statements p).
Proof.
  induction fuel as [|fuel IH]; intros statements p; [exact I|].
  cbn [Parser.parseFormula_loop].
  destruct (Parser.currentToken p); [|exact I].
  apply known_bind; [apply skipNewlines_known|]. intros p1.
  destruct (match Parser.currentToken p1 with Some _ => _ | None => _ end); [exact I|].
  apply known_bind; [apply statement_known|]. intros [statement p2]. apply IH.
Qed.

End KnownOperators.

(** X28.  The error [Invalid binary operator] is never thrown: the parser asks
    [getBinaryOperator] only for tokens to which [getInfixBindingPower]
    gave a binding power, and these are the twelve binary operators.  This
    holds for every source of tokens, and so for every text. *)
Theorem invalid_operator_never_thrown (fuel : nat) (kind : TokenType.t) :
  (forall (Src : Type) (pull : Src -> Token * Src) (p : Parser.t Src),
     Parser.parseFormula pull fuel p <> Throw (InvalidBinaryOperator kind))
  /\ (forall text, parseText fuel text <> Throw (InvalidBinaryOperator kind)).
Proof.
  assert (H : forall (Src : Type) (pull : Src -> Token * Src) (p : Parser.t Src),
            Parser.parseFormula pull fuel p <> Throw (InvalidBinaryOperator kind)).
  { intros Src pull p E. pose proof (formula_known pull fuel [] p) as Hk.
    unfold Parser.parseFormula in E.
    destruct (Parser.parseFormula_loop pull fuel [] p) as [[statements p']|e|];
      cbn [bind] in E; try discriminate.
    injection E as ->. exact Hk. }
  split; [exact H|].
  intros text E. unfold parseText in E.
  specialize (H _ Lexer.nextToken (createParser text)).
  destruct (Parser.parseFormula Lexer.nextToken fuel (createParser text)) as [[f p']|e|];
    cbn [bind] in E; try discriminate.
  injection E as ->. now apply H.
Qed.

(** ** From the text to the formula *)

(** X29.  The parser reads the kinds and the lexemes of the tokens and nothing
    else of the text: two texts whose tokens are the same up to their lines
    and columns give the same formula, or fail with the same error up to
    the line and column it reports.  White space and comments are
    therefore invisible in the parsed formula. *)
Theorem layout_is_invisible (text1 text2 : string) (fuel : nat) :
  tokens_alike (Lexer.new text1) (Lexer.new text2) ->
  same_outcome (parseText fuel text1) (parseText fuel text2).
Proof.
  intros H. apply parseText_equiv. intros j. rewrite !nth_pull_nextToken.
  apply same_token_equiv, H.
Qed.

Lemma layout_is_invisible_witness :
  same_outcome (parseText 20 "{ average }MA(C,5)") (parseText 20 "MA(C,5)").
Proof.
  apply layout_is_invisible.
  destruct (skipped_trivia (Lexer.new "{ average }MA(C,5)") "MA(C,5)") as (_ & H & _).
  apply (H " average "); reflexivity.
Defined.

(** ** Termination of the parser *)

Section ParserHalts.

Context {Src : Type} (pull : Src -> Token * Src).

Local Abbreviation advance := (Parser.advance pull).
Local Abbreviation peekToken := (Parser.peekToken pull).
Local Abbreviation expectToken := (Parser.expectToken pull).
Local Abbreviation Stop := (StopAt pull).
Local Abbreviation halt := (halts pull).

Lemma StopAt_current (k : nat) (p : Parser.t Src) (token : Token) :
  Stop k p -> Parser.currentToken p = Some token ->
  stopping (tokenType token) = false -> exists k0, k = S k0.
Proof.
  intros Hs Hc Hk. destruct k as [|k]; [|eauto].
  unfold StopAt, pending in Hs. rewrite Hc in Hs. cbn [kind_of] in Hs. congruence.
Qed.

Lemma StopAt_advance (k : nat) (p : Parser.t Src) :
  Stop (S k) p -> Stop k (advance p).
Proof. unfold StopAt. now rewrite pending_advance. Qed.

Lemma StopAt_peekToken (k : nat) (p p' : Parser.t Src) (r : option Token) :
  peekToken p = (r, p') -> Stop k p -> Stop k p'.
Proof.
  intros Hp Hs. destruct (pending_peekToken _ _ _ _ Hp) as (_ & He & _).
  unfold StopAt. now rewrite He.
Qed.

Lemma halts_bind {A B} (k1 k2 : nat) (strict1 strict2 : bool)
    (m : res ParseError (A * Parser.t Src))
    (f : A * Parser.t Src -> res ParseError (B * Parser.t Src)) :
  halt k1 strict1 m ->
  (forall x p' k', Stop k' p' ->
     (if strict1 then (k' < k1)%nat else (k' <= k1)%nat) ->
     halt k2 strict2 (f (x, p'))) ->
  halt k2 strict2 (bind m f).
Proof.
  destruct m as [[x p']| |]; simpl; auto.
  intros (k' & Hs & Hk) Hf. now apply (Hf x p' k').
Qed.

Lemma halts_lt {A} (k' k : nat) (strict strict' : bool)
    (r : res ParseError (A * Parser.t Src)) :
  halt k' strict r -> (k' < k)%nat -> halt k strict' r.
Proof.
  destruct r as [[x p']| |]; simpl; auto.
  intros (k0 & Hs & Hk) Hlt. exists k0. split; [exact Hs|].
  destruct strict, strict'; lia.
Qed.

Lemma halts_le {A} (k' k : nat) (strict : bool)
    (r : res ParseError (A * Parser.t Src)) :
  halt k' strict r -> (k' <= k)%nat -> halt k strict r.
Proof.
  destruct r as [[x p']| |]; simpl; auto.
  intros (k0 & Hs & Hk) Hle. exists k0. split; [exact Hs|].
  destruct strict; lia.
Qed.

Lemma halts_Ok {A} (k k' : nat) (strict : bool) (x : A) (p : Parser.t Src) :
  Stop k' p -> (if strict then (k' < k)%nat else (k' <= k)%nat) ->
  halt k strict (Ok (x, p)).
Proof. intros Hs Hk. simpl. eauto. Qed.

Lemma halts_expectToken (k : nat) (kind : TokenType.t) (p : Parser.t Src) :
  stopping kind = false -> Stop k p -> halt k true (expectToken kind p).
Proof.
  intros Hkind Hs. unfold Parser.expectToken.
  destruct (Parser.currentToken p) as [token|] eqn:Hc; [|exact I].
  unfold TokenType.eqb. case_bool_decide as Heq; simpl; [|exact I].
  destruct (StopAt_current k p token Hs Hc) as [k0 ->]; [now rewrite Heq|].
  exists k0. split; [now apply StopAt_advance|lia].
Qed.

Lemma current_is_stop (kind : TokenType.t) (k : nat) (p : Parser.t Src) :
  stopping kind = false -> Stop k p ->
  Parser.current_is kind p = true -> exists k0, k = S k0.
Proof.
  intros Hkind Hs Hc. unfold Parser.current_is in Hc.
  destruct (Parser.currentToken p) as [token|] eqn:Hcur; [|discriminate].
  unfold TokenType.eqb in Hc. apply bool_decide_eq_true in Hc.
  apply (StopAt_current k p token Hs Hcur). now rewrite Hc.
Qed.

Lemma infix_not_stopping (token : Token) :
  fst (Parser.getInfixBindingPower token) <> 0%nat ->
  stopping (tokenType token) = false
  /\ exists operator, Parser.getBinaryOperator (tokenType token) = Ok operator.
Proof.
  unfold Parser.getInfixBindingPower, Parser.getBinaryOperator.
  destruct (tokenType token); simpl; intros H; try congruence;
    (split; [reflexivity|eauto]).
Qed.

Local Abbreviation parseExpression := (Parser.parseExpression pull).
Local Abbreviation parseExpression_loop := (Parser.parseExpression_loop pull).
Local Abbreviation parsePrefix := (Parser.parsePrefix pull).
Local Abbreviation parseFunctionCall := (Parser.parseFunctionCall pull).
Local Abbreviation parseArguments_loop := (Parser.parseArguments_loop pull).
Local Abbreviation parseIfFunction := (Parser.parseIfFunction pull).
Local Abbreviation parseGroupedExpression := (Parser.parseGroupedExpression pull).
Local Abbreviation parseUnaryExpression := (Parser.parseUnaryExpression pull).

Ltac halt_ok := eapply halts_Ok; [eassumption | simpl; lia].

(** With fuel linear in the distance of the token at which it must stop,
    every function of the expression parser returns or throws. *)
Lemma expression_halts (fuel : nat) :
  (forall k p m, Stop k p -> (4 * k + 3 <= fuel)%nat ->
     halt k true (parseExpression fuel m p))
  /\ (forall k p m l, Stop k p -> (4 * k + 1 <= fuel)%nat ->
       halt k false (parseExpression_loop fuel m l p))
  /\ (forall k p, Stop k p -> (4 * k + 2 <= fuel)%nat ->
       halt k true (parsePrefix fuel p))
  /\ (forall k p kind, stopping kind = false -> Stop k p ->
       (4 * k + 1 <= fuel)%nat -> halt k true (parseFunctionCall fuel kind p))
  /\ (forall k p args, Stop k p -> (4 * k + 1 <= fuel)%nat ->
       halt k false (parseArguments_loop fuel args p))
  /\ (forall k p, Stop k p -> (4 * k + 4 <= fuel)%nat ->
       halt k true (parseIfFunction fuel p))
  /\ (forall k p, Stop k p -> (4 * k + 1 <= fuel)%nat ->
       halt k true (parseGroupedExpression fuel p))
  /\ (forall k p, Stop (S k) p -> (4 * S k + 1 <= fuel)%nat ->
       halt (S k) true (parseUnaryExpression fuel p)).
Proof.
  induction fuel as [|fuel IH].
  { repeat split; intros; lia. }
  destruct IH as (IHe & IHl & IHp & IHf & IHa & IHi & IHg & IHu).
  split; [|split; [|split; [|split; [|split; [|split; [|split]]]]]].
  - (* parseExpression *)
    intros k p m Hs Hf. cbn [Parser.parseExpression].
    eapply halts_bind; [apply IHp; [exact Hs|lia]|].
    intros x p' k' Hs' Hk'. cbn beta iota in *.
    eapply halts_lt; [apply IHl; [exact Hs'|lia]|lia].
  - (* parseExpression_loop *)
    intros k p m l Hs Hf. cbn [Parser.parseExpression_loop].
    destruct (Parser.currentToken p) as [token|] eqn:Hc; [|halt_ok].
    pose proof (infix_not_stopping token) as Hop.
    destruct (Parser.getInfixBindingPower token) as [lbp rbp].
    destruct ((lbp =? 0)%nat || (lbp <? m)%nat) eqn:Hbrk; [halt_ok|].
    apply orb_false_iff in Hbrk. destruct Hbrk as [Hz _]. apply Nat.eqb_neq in Hz.
    destruct (Hop Hz) as (Hns & operator & Hbin).
    destruct (StopAt_current k p token Hs Hc Hns) as [k0 ->].
    eapply halts_bind; [apply IHe; [apply StopAt_advance, Hs|lia]|].
    intros x p' k' Hs' Hk'. cbn beta iota in *. rewrite Hbin. cbn [bind].
    eapply halts_le; [apply IHl; [exact Hs'|lia]|lia].
  - (* parsePrefix *)
    intros k p Hs Hf. cbn [Parser.parsePrefix].
    destruct (Parser.currentToken p) as [token|] eqn:Hc; [|exact I].
    destruct (tokenType token) eqn:Hk; try exact I;
      (destruct (StopAt_current k p token Hs Hc) as [k0 ->]; [now rewrite Hk|]).
    + (* LParen *) apply IHg; [exact Hs|lia].
    + (* Minus *) apply IHu; [exact Hs|lia].
    + (* Identifier *)
      destruct (peekToken p) as [nt p1] eqn:Hpk.
      pose proof (StopAt_peekToken _ _ _ _ Hpk Hs) as Hs1.
      destruct (Parser.token_is TokenType.LParen nt).
      * apply IHf; [reflexivity|exact Hs1|lia].
      * eapply halts_Ok; [apply StopAt_advance, Hs1|simpl; lia].
    + (* Number *) eapply halts_Ok; [apply StopAt_advance, Hs|simpl; lia].
    + (* If *)
      destruct (peekToken p) as [nt p1] eqn:Hpk.
      pose proof (StopAt_peekToken _ _ _ _ Hpk Hs) as Hs1.
      destruct (Parser.token_is TokenType.LParen nt).
      * apply IHf; [reflexivity|exact Hs1|lia].
      * eapply halts_Ok; [apply StopAt_advance, Hs1|simpl; lia].
    + (* Not *) apply IHu; [exact Hs|lia].
  - (* parseFunctionCall *)
    intros k p kind Hkind Hs Hf. cbn [Parser.parseFunctionCall].
    eapply halts_bind; [apply halts_expectToken; [exact Hkind|exact Hs]|].
    intros nameToken p1 k1 Hs1 Hk1. cbn beta iota in *.
    eapply halts_bind; [apply halts_expectToken; [reflexivity|exact Hs1]|].
    intros lp p2 k2 Hs2 Hk2. cbn beta iota in *.
    destruct (String.eqb _ _).
    + eapply halts_lt; [apply IHi; [exact Hs2|lia]|lia].
    + eapply (halts_bind k2 k false true).
      * destruct (negb (Parser.current_is TokenType.RParen p2)).
        -- eapply halts_bind; [apply IHe; [exact Hs2|lia]|].
           intros first p3 k3 Hs3 Hk3. cbn beta iota in *.
           eapply halts_le; [apply IHa; [exact Hs3|lia]|lia].
        -- halt_ok.
      * intros args p3 k3 Hs3 Hk3. cbn beta iota in *.
        eapply halts_bind; [apply halts_expectToken; [reflexivity|exact Hs3]|].
        intros rp p4 k4 Hs4 Hk4. cbn beta iota in *. halt_ok.
  - (* parseArguments_loop *)
    intros k p args Hs Hf. cbn [Parser.parseArguments_loop].
    destruct (Parser.current_is TokenType.Comma p) eqn:Hc; [|halt_ok].
    destruct (current_is_stop TokenType.Comma k p ltac:(reflexivity) Hs Hc) as [k0 ->].
    eapply halts_bind; [apply IHe; [apply StopAt_advance, Hs|lia]|].
    intros next p1 k1 Hs1 Hk1. cbn beta iota in *.
    eapply halts_le; [apply IHa; [exact Hs1|lia]|lia].
  - (* parseIfFunction *)
    intros k p Hs Hf. cbn [Parser.parseIfFunction].
    eapply halts_bind; [apply IHe; [exact Hs|lia]|].
    intros condition p1 k1 Hs1 Hk1. cbn beta iota in *.
    destruct (Parser.current_is TokenType.Comma p1) eqn:Hc1; [|exact I].
    destruct (current_is_stop TokenType.Comma k1 p1 ltac:(reflexivity) Hs1 Hc1) as [k1' ->].
    cbn [negb].
    eapply halts_bind; [apply IHe; [apply StopAt_advance, Hs1|lia]|].
    intros trueValue p2 k2 Hs2 Hk2. cbn beta iota in *.
    destruct (Parser.current_is TokenType.Comma p2) eqn:Hc2; [|exact I].
    destruct (current_is_stop TokenType.Comma k2 p2 ltac:(reflexivity) Hs2 Hc2) as [k2' ->].
    cbn [negb].
    eapply halts_bind; [apply IHe; [apply StopAt_advance, Hs2|lia]|].
    intros falseValue p3 k3 Hs3 Hk3. cbn beta iota in *.
    eapply halts_bind; [apply halts_expectToken; [reflexivity|exact Hs3]|].
    intros rp p4 k4 Hs4 Hk4. cbn beta iota in *. halt_ok.
  - (* parseGroupedExpression *)
    intros k p Hs Hf. cbn [Parser.parseGroupedExpression].
    eapply halts_bind; [apply halts_expectToken; [reflexivity|exact Hs]|].
    intros lp p1 k1 Hs1 Hk1. cbn beta iota in *.
    eapply halts_bind; [apply IHe; [exact Hs1|lia]|].
    intros expr p2 k2 Hs2 Hk2. cbn beta iota in *.
    eapply halts_bind; [apply halts_expectToken; [reflexivity|exact Hs2]|].
    intros rp p3 k3 Hs3 Hk3. cbn beta iota in *. halt_ok.
  - (* parseUnaryExpression *)
    intros k p Hs Hf. cbn [Parser.parseUnaryExpression].
    destruct (Parser.currentToken p) as [token|] eqn:Hc; [|exact I].
    eapply halts_bind; [apply IHe; [apply StopAt_advance, Hs|lia]|].
    intros operand p1 k1 Hs1 Hk1. cbn beta iota in *. halt_ok.
Qed.

Lemma plotStyles_halts (fuel : nat) :
  forall k p styles, Stop k p -> (k + 1 <= fuel)%nat ->
    halt k false (Parser.parsePlotStyles_loop pull fuel styles p).
Proof.
  induction fuel as [|fuel IH]; intros k p styles Hs Hf; [lia|].
  cbn [Parser.parsePlotStyles_loop].
  destruct (Parser.current_is TokenType.Comma p) eqn:Hc; [|halt_ok].
  destruct (current_is_stop TokenType.Comma k p ltac:(reflexivity) Hs Hc) as [k0 ->].
  eapply halts_bind;
    [apply halts_expectToken; [reflexivity|apply StopAt_advance, Hs]|].
  intros styleToken p1 k1 Hs1 Hk1. cbn beta iota in *.
  eapply halts_le; [apply IH; [exact Hs1|lia]|lia].
Qed.

Lemma statement_halts (fuel k : nat) (p : Parser.t Src) :
  Stop k p -> (4 * k + 3 <= fuel)%nat ->
  halt k true (Parser.parseStatement pull fuel p).
Proof.
  intros Hs Hf.
  destruct (expression_halts fuel) as (He & _).
  assert (Hanon : forall k' p', Stop k' p' -> (k' <= k)%nat ->
            halt k' true (Parser.parseAnonymousOutputStatement pull fuel p')).
  { intros k' p' Hs' Hk'. unfold Parser.parseAnonymousOutputStatement.
    eapply halts_bind; [apply He; [exact Hs'|lia]|].
    intros expr p1 k1 Hs1 Hk1. cbn beta iota in *.
    eapply (halts_bind k1 k' false true);
      [apply plotStyles_halts; [exact Hs1|lia]|].
    intros styles p2 k2 Hs2 Hk2. cbn beta iota in *. halt_ok. }
  unfold Parser.parseStatement.
  destruct (Parser.currentToken p) as [token|] eqn:Hc; [|exact I].
  destruct (TokenType.eqb (tokenType token) TokenType.Identifier);
    [|now apply Hanon].
  destruct (peekToken p) as [nt p1] eqn:Hpk.
  pose proof (StopAt_peekToken _ _ _ _ Hpk Hs) as Hs1.
  destruct (Parser.token_is TokenType.ColonAssign nt);
    [|destruct (Parser.token_is TokenType.Colon nt); [|now apply Hanon]].
  - unfold Parser.parseAssignmentStatement.
    eapply halts_bind; [apply halts_expectToken; [reflexivity|exact Hs1]|].
    intros variableToken p2 k2 Hs2 Hk2. cbn beta iota in *.
    eapply halts_bind; [apply halts_expectToken; [reflexivity|exact Hs2]|].
    intros assign p3 k3 Hs3 Hk3. cbn beta iota in *.
    eapply halts_bind; [apply He; [exact Hs3|lia]|].
    intros expr p4 k4 Hs4 Hk4. cbn beta iota in *. halt_ok.
  - unfold Parser.parseNamedOutputStatement.
    eapply halts_bind; [apply halts_expectToken; [reflexivity|exact Hs1]|].
    intros nameToken p2 k2 Hs2 Hk2. cbn beta iota in *.
    eapply halts_bind; [apply halts_expectToken; [reflexivity|exact Hs2]|].
    intros colon p3 k3 Hs3 Hk3. cbn beta iota in *.
    eapply halts_bind; [apply He; [exact Hs3|lia]|].
    intros expr p4 k4 Hs4 Hk4. cbn beta iota in *.
    eapply (halts_bind k4 k false true);
      [apply plotStyles_halts; [exact Hs4|lia]|].
    intros styles p5 k5 Hs5 Hk5. cbn beta iota in *. halt_ok.
Qed.

Lemma skipNewlines_halts (fuel : nat) :
  forall k p, Stop k p -> (k + 1 <= fuel)%nat ->
    exists k' p', Parser.skipNewlines pull fuel p = Ok p'
                  /\ Stop k' p' /\ (k' <= k)%nat.
Proof.
  induction fuel as [|fuel IH]; intros k p Hs Hf; [lia|].
  cbn [Parser.skipNewlines].
  destruct (Parser.current_is TokenType.Newline p) eqn:Hc; [|eauto].
  destruct (current_is_stop TokenType.Newline k p ltac:(reflexivity) Hs Hc) as [k0 ->].
  destruct (IH k0 (advance p) (StopAt_advance _ _ Hs) ltac:(lia))
    as (k' & p' & Hr & Hs' & Hk').
  exists k', p'. split; [exact Hr|]. split; [exact Hs'|lia].
Qed.

(** The statement loop ends: every statement it parses brings the token
    at which it stops nearer. *)
Lemma formula_loop_ends (fuel : nat) :
  forall k p statements, Stop k p -> (4 * k + 4 <= fuel)%nat ->
    ended (Parser.parseFormula_loop pull fuel statements p).
Proof.
  induction fuel as [|fuel IH]; intros k p statements Hs Hf; [lia|].
  cbn [Parser.parseFormula_loop].
  destruct (Parser.currentToken p) as [token|]; [|exact I].
  destruct (skipNewlines_halts fuel k p Hs ltac:(lia)) as (k1 & p1 & Hr & Hs1 & Hk1).
  rewrite Hr. cbn [bind].
  destruct (match Parser.currentToken p1 with
            | Some token => TokenType.eqb (tokenType token) TokenType.Eof
            | None => true
            end); [exact I|].
  pose proof (statement_halts fuel k1 p1 Hs1 ltac:(lia)) as Hst.
  destruct (Parser.parseStatement pull fuel p1) as [[statement p2]| |];
    simpl in Hst; [|exact I|contradiction].
  destruct Hst as (k2 & Hs2 & Hk2). cbn [bind].
  destruct (Parser.current_is TokenType.Newline p2) eqn:Hnl.
  - destruct (current_is_stop TokenType.Newline k2 p2 ltac:(reflexivity) Hs2 Hnl)
      as [k3 ->].
    apply (IH k3); [apply StopAt_advance, Hs2|lia].
  - apply (IH k2); [exact Hs2|lia].
Qed.

Lemma formula_ends (fuel k : nat) (p : Parser.t Src) :
  Stop k p -> (4 * k + 4 <= fuel)%nat -> ended (Parser.parseFormula pull fuel p).
Proof.
  intros Hs Hf. unfold Parser.parseFormula.
  pose proof (formula_loop_ends fuel k p [] Hs Hf) as H.
  now destruct (Parser.parseFormula_loop pull fuel [] p) as [[statements p']|e|].
Qed.

End ParserHalts.

(** ** Fuel *)

Section Fuel.

Context {Src : Type} (pull : Src -> Token * Src).

Lemma settled_refl {E A : Type} (r : res E A) : settled r r.
Proof. now destruct r. Qed.

Lemma settled_bind {E A B : Type} (m m' : res E A) (f f' : A -> res E B) :
  settled m m' -> (forall x, settled (f x) (f' x)) ->
  settled (bind m f) (bind m' f').
Proof.
  destruct m as [x|e|]; cbn [settled bind]; [| |auto].
  - intros -> H. apply H.
  - now intros ->.
Qed.

Lemma settled_ended {E A : Type} (r r' : res E A) :
  settled r r' -> ended r -> r' = r.
Proof. now destruct r. Qed.

Ltac settle :=
  repeat first
    [ apply settled_refl
    | match goal with H : _ |- settled _ _ => apply H end
    | lazymatch goal with
      | |- settled (match ?x with _ => _ end) _ => destruct x
      end
    | apply settled_bind; [|intros [? ?]]
    | apply settled_bind; [|intros ?] ].

(** A function of the expression parser that has ended with some fuel
    ends the same way with more. *)
Lemma expression_settled (fuel : nat) :
  forall fuel', (fuel <= fuel')%nat ->
  (forall m p, settled (Parser.parseExpression pull fuel m p)
                       (Parser.parseExpression pull fuel' m p))
  /\ (forall m l p, settled (Parser.parseExpression_loop pull fuel m l p)
                            (Parser.parseExpression_loop pull fuel' m l p))
  /\ (forall p, settled (Parser.parsePrefix pull fuel p) (Parser.parsePrefix pull fuel' p))
  /\ (forall kind p, settled (Parser.parseFunctionCall pull fuel kind p)
                             (Parser.parseFunctionCall pull fuel' kind p))
  /\ (forall args p, settled (Parser.parseArguments_loop pull fuel args p)
                             (Parser.parseArguments_loop pull fuel' args p))
  /\ (forall p, settled (Parser.parseIfFunction pull fuel p)
                        (Parser.parseIfFunction pull fuel' p))
  /\ (forall p, settled (Parser.parseGroupedExpression pull fuel p)
                        (Parser.parseGroupedExpression pull fuel' p))
  /\ (forall p, settled (Parser.parseUnaryExpression pull fuel p)
                        (Parser.parseUnaryExpression pull fuel' p)).
Proof.
  induction fuel as [|fuel IH]; intros fuel' Hle.
  { repeat split; intros; exact I. }
  destruct fuel' as [|fuel']; [lia|].
  destruct (IH fuel' ltac:(lia)) as (IHe & IHl & IHp & IHf & IHa & IHi & IHg & IHu).
  clear IH.
  split; [|split; [|split; [|split; [|split; [|split; [|split]]]]]].
  - intros m p. cbn [Parser.parseExpression]. settle.
  - intros m l p. cbn [Parser.parseExpression_loop]. settle.
  - intros p. cbn [Parser.parsePrefix]. settle.
  - intros kind p. cbn [Parser.parseFunctionCall]. settle.
  - intros args p. cbn [Parser.parseArguments_loop]. settle.
  - intros p. cbn [Parser.parseIfFunction]. settle.
  - intros p. cbn [Parser.parseGroupedExpression]. settle.
  - intros p. cbn [Parser.parseUnaryExpression]. settle.
Qed.

Lemma plotStyles_settled (fuel : nat) :
  forall fuel' styles p, (fuel <= fuel')%nat ->
    settled (Parser.parsePlotStyles_loop pull fuel styles p)
            (Parser.parsePlotStyles_loop pull fuel' styles p).
Proof.
  induction fuel as [|fuel IH]; intros fuel' styles p Hle; [exact I|].
  destruct fuel' as [|fuel']; [lia|]. cbn [Parser.parsePlotStyles_loop].
  destruct (Parser.current_is TokenType.Comma p); [|apply settled_refl].
  apply settled_bind; [apply settled_refl|]. intros [styleToken p1]. apply IH. lia.
Qed.

Lemma statement_settled (fuel fuel' : nat) (p : Parser.t Src) :
  (fuel <= fuel')%nat ->
  settled (Parser.parseStatement pull fuel p) (Parser.parseStatement pull fuel' p).
Proof.
  intros Hle. pose proof (proj1 (expression_settled fuel fuel' Hle)) as He.
  assert (Hs : forall q,
            settled (Parser.parsePlotStyles pull fuel q) (Parser.parsePlotStyles pull fuel' q)).
  { intros q. now apply plotStyles_settled. }
  unfold Parser.parseStatement, Parser.parseAssignmentStatement,
    Parser.parseNamedOutputStatement, Parser.parseAnonymousOutputStatement.
  settle.
Qed.

Lemma skipNewlines_settled (fuel : nat) :
  forall fuel' p, (fuel <= fuel')%nat ->
    settled (Parser.skipNewlines pull fuel p) (Parser.skipNewlines pull fuel' p).
Proof.
  induction fuel as [|fuel IH]; intros fuel' p Hle; [exact I|].
  destruct fuel' as [|fuel']; [lia|]. cbn [Parser.skipNewlines].
  destruct (Parser.current_is TokenType.Newline p); [|apply settled_refl].
  apply IH. lia.
Qed.

Lemma formula_loop_settled (fuel : nat) :
  forall fuel' statements p, (fuel <= fuel')%nat ->
    settled (Parser.parseFormula_loop pull fuel statements p)
            (Parser.parseFormula_loop pull fuel' statements p).
Proof.
  induction fuel as [|fuel IH]; intros fuel' statements p Hle; [exact I|].
  destruct fuel' as [|fuel']; [lia|]. cbn [Parser.parseFormula_loop].
  destruct (Parser.currentToken p); [|apply settled_refl].
  apply settled_bind; [apply skipNewlines_settled; lia|]. intros p1.
  destruct (match Parser.currentToken p1 with
            | Some token => TokenType.eqb (tokenType token) TokenType.Eof
            | None => true
            end); [apply settled_refl|].
  apply settled_bind; [apply statement_settled; lia|]. intros [statement p2].
  apply IH. lia.
Qed.

Lemma formula_settled (fuel fuel' : nat) (p : Parser.t Src) :
  (fuel <= fuel')%nat ->
  settled (Parser.parseFormula pull fuel p) (Parser.parseFormula pull fuel' p).
Proof.
  intros Hle. unfold Parser.parseFormula.
  apply settled_bind; [now apply formula_loop_settled|].
  intros [statements p']. apply settled_refl.
Qed.

End Fuel.

Section TextHalts.

Lemma upcoming_nth_call :
  forall i lx, upcoming Lexer.nextToken i lx = tokenType (fst (nth_call i lx)).
Proof. induction i as [|i IH]; intros lx; [reflexivity|apply IH]. Qed.

Lemma closing_stopping (kind : TokenType.t) : closing kind = true -> stopping kind = true.
Proof. now destruct kind. Qed.

Lemma createParser_stops (text : string) :
  exists k, (k <= String.length text)%nat /\ StopAt Lexer.nextToken k (createParser text).
Proof.
  destruct (closing_within (String.length text) (Lexer.new text)) as (n & Hn & Hc).
  { unfold Lexer.remaining. cbn. lia. }
  exists n. split; [exact Hn|]. unfold StopAt, createParser.
  rewrite new_pending, upcoming_nth_call. now apply closing_stopping.
Qed.

Lemma parseText_ends (text : string) (fuel : nat) :
  (4 * String.length text + 4 <= fuel)%nat -> ended (parseText fuel text).
Proof.
  intros Hf. destruct (createParser_stops text) as (k & Hk & Hs).
  pose proof (formula_ends Lexer.nextToken fuel k _ Hs ltac:(lia)) as H.
  unfold parseText.
  now destruct (Parser.parseFormula Lexer.nextToken fuel (createParser text)) as [[f p]|e|].
Qed.

Lemma parseText_settled (text : string) (fuel fuel' : nat) :
  (fuel <= fuel')%nat -> settled (parseText fuel text) (parseText fuel' text).
Proof.
  intros Hle. unfold parseText.
  apply settled_bind; [now apply formula_settled|]. intros [f p]. apply settled_refl.
Qed.

End TextHalts.

(** X30.  Parsing ends on every text: with fuel linear in the length of the
    text the parser returns a formula or throws, whatever the text holds,
    also when the lexer is held up at a character it does not know.  More
    fuel gives the same formula or the same error, so the outcome is that
    of the program. *)
Theorem parsing_ends (text : string) (fuel : nat) :
  (4 * String.length text + 4 <= fuel)%nat ->
  ended (parseText fuel text)
  /\ parseText fuel text = parseText (4 * String.length text + 4) text.
Proof.
  intros Hf. split; [now apply parseText_ends|].
  apply settled_ended; [now apply parseText_settled|].
  apply parseText_ends. lia.
Qed.

Lemma parsing_ends_witness :
  ended (parseText 40 "A#B") /\ parseText 40 "A#B" = parseText 16 "A#B".
Proof. apply (parsing_ends "A#B" 40). cbn. lia. Defined.
